(** * torchTT: the TT container and its algebraic operators

    A shallow embedding of [torchtt/torchtt.py]: the [TT] class (its
    constructor from a list of cores, [full], the operators [+], [-], [*],
    [@], [/], [**], slicing with [reduce_dims]) and the factories [eye] and
    [kron], over a small model of the dense-array backend (shape plus
    row-major data, [einsum], [pad], [reshape], indexing, broadcasting).

    Entries of dense arrays are elements of an arbitrary type [E] carrying the
    arithmetic of the backend ([Numeric]); theorems about dense values assume
    the commutative-ring laws ([NumericLaws]), i.e. exact arithmetic. *)

From Stdlib Require Import String Ascii List ZArith Lia Bool Arith Ring.
Import ListNotations.

Set Implicit Arguments.

(** ** Python exceptions and results *)

Inductive pyerr : Type :=
| RankMismatch
| InvalidArguments
| ShapeMismatch
| IncompatibleTypes
| NotImplementedError
| TypeError
| IndexError
| ValueError
| AttributeError
| UnboundLocalError
| RuntimeError.

Inductive result (A : Type) : Type :=
| Ok (a : A)
| Raise (e : pyerr).

Arguments Ok {A} a.
Arguments Raise {A} e.

Definition bind {A B : Type} (m : result A) (k : A -> result B) : result B :=
  match m with
  | Ok a => k a
  | Raise e => Raise e
  end.

Declare Scope py_scope.
Delimit Scope py_scope with py.
Notation "x <- m ;; k" := (bind m (fun x => k))
  (at level 61, m at next level, right associativity) : py_scope.
Notation "' pat <- m ;; k" := (bind m (fun x => match x with pat => k end))
  (at level 61, pat pattern, m at next level, right associativity) : py_scope.
Open Scope py_scope.

(** [for x in xs: acc = body(acc, x)], stopping at the first exception. *)
Fixpoint foldM {A B : Type} (body : A -> B -> result A) (xs : list B) (acc : A)
  : result A :=
  match xs with
  | [] => Ok acc
  | x :: xs' => acc' <- body acc x ;; foldM body xs' acc'
  end.

(** [[f(x) for x in xs]], stopping at the first exception. *)
Fixpoint mapM {A B : Type} (f : A -> result B) (xs : list A) : result (list B) :=
  match xs with
  | [] => Ok []
  | x :: xs' => y <- f x ;; ys <- mapM f xs' ;; Ok (y :: ys)
  end.

(** [range(a, b)] *)
Definition range (a b : nat) : list nat := seq a (b - a).

(** [xs[i]] on a Python list, [i >= 0]. *)
Definition item {A : Type} (xs : list A) (i : nat) : result A :=
  match nth_error xs i with
  | Some x => Ok x
  | None => Raise IndexError
  end.

(** [xs[-1]] on a Python list or tuple. *)
Definition item_last {A : Type} (xs : list A) : result A :=
  match xs with
  | [] => Raise IndexError
  | _ => item xs (length xs - 1)
  end.

(** [xs[i] = v] on a Python list, [i >= 0]. *)
Fixpoint set_item {A : Type} (xs : list A) (i : nat) (v : A) : result (list A) :=
  match xs, i with
  | [], _ => Raise IndexError
  | _ :: xs', O => Ok (v :: xs')
  | x :: xs', S i' => r <- set_item xs' i' v ;; Ok (x :: r)
  end.

(** ** Entries of dense arrays *)

Class Numeric (E : Type) : Type := {
  e0 : E;
  e1 : E;
  eadd : E -> E -> E;
  emul : E -> E -> E;
  eopp : E -> E;
  ediv : E -> E -> E
}.

Class NumericLaws (E : Type) {NE : Numeric E} : Prop := {
  numeric_ring : ring_theory e0 e1 eadd emul (fun x y => eadd x (eopp y)) eopp (@eq E)
}.

Arguments NumericLaws E {NE}.

#[export] Instance Z_Numeric : Numeric Z := {
  e0 := 0%Z;
  e1 := 1%Z;
  eadd := Z.add;
  emul := Z.mul;
  eopp := Z.opp;
  ediv := Z.div
}.

#[export] Instance Z_NumericLaws : NumericLaws Z := {
  numeric_ring := Zth
}.

(** ** Dense arrays: shape and row-major data *)

Section Dense.

Context {E : Type} {NE : Numeric E}.

Record tensor : Type := mkT {
  shape : list nat;
  data : list E
}.

Definition ndim (t : tensor) : nat := length (shape t).

(** number of entries of an array of shape [sh] *)
Definition prod (sh : list nat) : nat := fold_right Nat.mul 1 sh.

Definition numel (t : tensor) : nat := prod (shape t).

(** all multi-indices of shape [sh], in row-major order *)
Fixpoint indices (sh : list nat) : list (list nat) :=
  match sh with
  | [] => [[]]
  | n :: sh' => flat_map (fun i => map (cons i) (indices sh')) (seq 0 n)
  end.

(** row-major offset of a multi-index *)
Fixpoint ravel (sh idx : list nat) : nat :=
  match sh, idx with
  | _ :: sh', i :: idx' => i * prod sh' + ravel sh' idx'
  | _, _ => 0
  end.

(** the multi-index is within the shape *)
Fixpoint inb (sh idx : list nat) : bool :=
  match sh, idx with
  | [], [] => true
  | n :: sh', i :: idx' => (i <? n) && inb sh' idx'
  | _, _ => false
  end.

Definition tget (t : tensor) (idx : list nat) : E :=
  nth (ravel (shape t) idx) (data t) e0.

Definition tbuild (sh : list nat) (f : list nat -> E) : tensor :=
  mkT sh (map f (indices sh)).

(** every array of the backend stores exactly [numel] entries *)
Definition twf (t : tensor) : Prop := length (data t) = numel t.

Definition esum (xs : list E) : E := fold_right eadd e0 xs.

(** *** Elementwise operations with broadcasting *)

(** broadcast two shapes, aligned at the last dimension; given reversed *)
Fixpoint bshape_rev (a b : list nat) : result (list nat) :=
  match a, b with
  | [], _ => Ok b
  | _, [] => Ok a
  | x :: a', y :: b' =>
      r <- bshape_rev a' b' ;;
      if x =? y then Ok (x :: r)
      else if x =? 1 then Ok (y :: r)
      else if y =? 1 then Ok (x :: r)
      else Raise RuntimeError
  end.

Definition bshape (a b : list nat) : result (list nat) :=
  r <- bshape_rev (rev a) (rev b) ;; Ok (rev r).

(** index into an operand of shape [sh] from an index of the broadcast
    shape: leading dimensions are dropped, dimensions of size 1 read 0 *)
Definition bidx (sh idx : list nat) : list nat :=
  map (fun p => if fst p =? 1 then 0 else snd p)
      (combine sh (skipn (length idx - length sh) idx)).

Definition tbinop (f : E -> E -> E) (a b : tensor) : result tensor :=
  sh <- bshape (shape a) (shape b) ;;
  Ok (tbuild sh (fun idx => f (tget a (bidx (shape a) idx))
                              (tget b (bidx (shape b) idx)))).

Definition tadd := tbinop eadd.
Definition tmul := tbinop emul.

Definition tmap (f : E -> E) (a : tensor) : tensor :=
  mkT (shape a) (map f (data a)).

Definition tneg := tmap eopp.
Definition tscale (s : E) := tmap (fun x => emul x s).
Definition tdiv_scalar (s : E) := tmap (fun x => ediv x s).

(** [tn.ones(sh)], [tn.zeros(sh)], [tn.eye(n)] *)
Definition tones (sh : list nat) : tensor := tbuild sh (fun _ => e1).
Definition tzeros (sh : list nat) : tensor := tbuild sh (fun _ => e0).
Definition teye (n : nat) : tensor :=
  tbuild [n; n] (fun idx => match idx with
                            | [i; j] => if i =? j then e1 else e0
                            | _ => e0
                            end).

(** *** [torch.nn.functional.pad] (constant mode, value 0)

    The pad tuple lists (left, right) amounts starting from the last
    dimension. *)

Fixpoint pad_pairs (p : list nat) : result (list (nat * nat)) :=
  match p with
  | [] => Ok []
  | l :: r :: p' => ps <- pad_pairs p' ;; Ok ((l, r) :: ps)
  | _ => Raise RuntimeError
  end.

Definition tpad (t : tensor) (p : list nat) : result tensor :=
  ps <- pad_pairs p ;;
  if ndim t <? length ps then Raise RuntimeError
  else
    let lr := rev (ps ++ repeat (0, 0) (ndim t - length ps)) in
    let sh := map (fun q => fst (snd q) + fst q + snd (snd q)) (combine (shape t) lr) in
    Ok (tbuild sh (fun idx =>
          if forallb (fun q => (fst (snd (snd q)) <=? fst q)
                               && (fst q <? fst (snd (snd q)) + fst (snd q)))
                     (combine idx (combine (shape t) lr))
          then tget t (map (fun q => fst q - fst (snd q)) (combine idx lr))
          else e0)).

(** *** [reshape], with at most one inferred dimension [-1] *)

Definition treshape (t : tensor) (sh : list Z) : result tensor :=
  if existsb (fun z => (z <? -1)%Z) sh then Raise RuntimeError
  else
    let known := prod (map Z.to_nat (filter (fun z => (0 <=? z)%Z) sh)) in
    match length (filter (fun z => (z =? -1)%Z) sh) with
    | 0 => if known =? numel t then Ok (mkT (map Z.to_nat sh) (data t))
           else Raise RuntimeError
    | 1 => if (known =? 0) || negb (numel t mod known =? 0) then Raise RuntimeError
           else Ok (mkT (map (fun z => if (z =? -1)%Z then numel t / known
                                       else Z.to_nat z) sh)
                        (data t))
    | _ => Raise RuntimeError
    end.

(** shapes given as Python ints *)
Definition ints (l : list nat) : list Z := map Z.of_nat l.

(** *** Indexing with integers and slices *)

Inductive ix : Type :=
| Ix (i : Z)
| Sl (start stop step : option Z).

(** [:] *)
Definition All : ix := Sl None None None.

(** one normalised selector: a fixed position, or [len] positions
    [start, start + step, ...] *)
Inductive sel : Type :=
| Fix (i : nat)
| Rng (start step len : nat).

Definition clamp (n : nat) (z : Z) : nat :=
  let z' := if (z <? 0)%Z then (z + Z.of_nat n)%Z else z in
  Z.to_nat (Z.min (Z.max z' 0) (Z.of_nat n)).

Definition norm_ix (n : nat) (x : ix) : result sel :=
  match x with
  | Ix i =>
      if ((0 <=? i) && (i <? Z.of_nat n))%Z then Ok (Fix (Z.to_nat i))
      else if ((- Z.of_nat n <=? i) && (i <? 0))%Z then Ok (Fix (Z.to_nat (i + Z.of_nat n)))
      else Raise IndexError
  | Sl start stop step =>
      let st := match step with Some z => z | None => 1%Z end in
      if (st <=? 0)%Z then Raise ValueError
      else
        let a := match start with Some z => clamp n z | None => 0 end in
        let b := match stop with Some z => clamp n z | None => n end in
        let k := Z.to_nat st in
        Ok (Rng a k (if a <? b then (b - a + k - 1) / k else 0))
  end.

Fixpoint src_idx (sels : list sel) (oidx : list nat) : list nat :=
  match sels with
  | [] => []
  | Fix i :: sels' => i :: src_idx sels' oidx
  | Rng a k _ :: sels' =>
      match oidx with
      | j :: oidx' => (a + j * k) :: src_idx sels' oidx'
      | [] => 0 :: src_idx sels' []
      end
  end.

Definition sel_shape (sels : list sel) : list nat :=
  flat_map (fun s => match s with Fix _ => [] | Rng _ _ len => [len] end) sels.

(** [t[ixs]]; missing trailing items are full slices *)
Definition tindex (t : tensor) (ixs : list ix) : result tensor :=
  if ndim t <? length ixs then Raise IndexError
  else
    sels <- mapM (fun p => norm_ix (fst p) (snd p))
                 (combine (shape t) (ixs ++ repeat All (ndim t - length ixs))) ;;
    Ok (tbuild (sel_shape sels) (fun oidx => tget t (src_idx sels oidx))).

(** *** [squeeze], [unsqueeze], [permute] *)

Definition tsqueeze (t : tensor) : tensor :=
  mkT (filter (fun n => negb (n =? 1)) (shape t)) (data t).

Definition tunsqueeze (t : tensor) (dim : nat) : result tensor :=
  if ndim t <? dim then Raise IndexError
  else Ok (mkT (firstn dim (shape t) ++ 1 :: skipn dim (shape t)) (data t)).

Fixpoint index_of (x : nat) (l : list nat) : option nat :=
  match l with
  | [] => None
  | y :: l' => if x =? y then Some 0
               else match index_of x l' with Some k => Some (S k) | None => None end
  end.

Definition tpermute (t : tensor) (perm : list nat) : result tensor :=
  if negb (length perm =? ndim t) then Raise RuntimeError
  else
    pos <- mapM (fun d => match index_of d perm with
                          | Some k => Ok k
                          | None => Raise RuntimeError
                          end) (seq 0 (ndim t)) ;;
    Ok (tbuild (map (fun d => nth d (shape t) 0) perm)
               (fun idx => tget t (map (fun k => nth k idx 0) pos))).

(** *** [einsum] with two operands

    Subscripts are letters; ["..."] stands for the leading dimensions not
    named by letters.  Dimensions that share a label broadcast (equal sizes,
    or size 1); labels absent from the output are summed over. *)

Inductive label : Type :=
| Lc (c : ascii)
| Ld (k : nat).

Definition label_eqb (a b : label) : bool :=
  match a, b with
  | Lc x, Lc y => Ascii.eqb x y
  | Ld x, Ld y => x =? y
  | _, _ => false
  end.

(** the subscripts of one operand; [None] is the ellipsis *)
Fixpoint subscripts (s : string) : list (option ascii) :=
  match s with
  | EmptyString => []
  | String "." (String "." (String "." r)) => None :: subscripts r
  | String c r => Some c :: subscripts r
  end.

Fixpoint split_comma (s : string) : list string :=
  match s with
  | EmptyString => [EmptyString]
  | String c r =>
      if Ascii.eqb c "," then EmptyString :: split_comma r
      else match split_comma r with
           | h :: t => String c h :: t
           | [] => [String c EmptyString]
           end
  end.

Fixpoint split_arrow (s : string) : option (string * string) :=
  match s with
  | EmptyString => None
  | String "-" (String ">" r) => Some (EmptyString, r)
  | String c r =>
      match split_arrow r with
      | Some (a, b) => Some (String c a, b)
      | None => None
      end
  end.

Definition is_letter (t : option ascii) : bool :=
  match t with Some _ => true | None => false end.

(** how many dimensions the ellipsis of an operand with [nd] dimensions covers *)
Definition ellipsis_len (toks : list (option ascii)) (nd : nat) : result nat :=
  let k := length (filter is_letter toks) in
  if existsb (fun t => negb (is_letter t)) toks
  then (if k <=? nd then Ok (nd - k) else Raise RuntimeError)
  else (if k =? nd then Ok 0 else Raise RuntimeError).

(** the ellipsis of an operand covering [m] dimensions is aligned to the
    right of the widest one, which covers [ndots] *)
Definition expand (ndots m : nat) (toks : list (option ascii)) : list label :=
  flat_map (fun t => match t with
                     | Some c => [Lc c]
                     | None => map Ld (seq (ndots - m) m)
                     end) toks.

Fixpoint dim_of (occ : list (label * nat)) (l : label) : result nat :=
  match occ with
  | [] => Ok 1
  | (l', n) :: occ' =>
      r <- dim_of occ' l ;;
      if label_eqb l l' then
        if n =? r then Ok n
        else if r =? 1 then Ok n
        else if n =? 1 then Ok r
        else Raise RuntimeError
      else Ok r
  end.

Fixpoint dedup (ls : list label) : list label :=
  match ls with
  | [] => []
  | l :: r => if existsb (label_eqb l) r then dedup r else l :: dedup r
  end.

Definition lookup (env : list (label * nat)) (l : label) : nat :=
  match find (fun p => label_eqb l (fst p)) env with
  | Some p => snd p
  | None => 0
  end.

Definition operand_at (env : list (label * nat)) (labels : list label) (t : tensor) : E :=
  tget t (map (fun p => if snd p =? 1 then 0 else lookup env (fst p))
              (combine labels (shape t))).

(** [einsum] on parsed subscripts: those of the two operands and of the
    output *)
Definition einsum_labels (ta tb tout : list (option ascii)) (a b : tensor)
  : result tensor :=
  ma <- ellipsis_len ta (ndim a) ;;
  mb <- ellipsis_len tb (ndim b) ;;
  let ndots := Nat.max ma mb in
  let la := expand ndots ma ta in
  let lb := expand ndots mb tb in
  let occ := combine la (shape a) ++ combine lb (shape b) in
  let outl := expand ndots ndots tout in
  let conl := dedup (filter (fun l => negb (existsb (label_eqb l) outl))
                            (map fst occ)) in
  osh <- mapM (dim_of occ) outl ;;
  csh <- mapM (dim_of occ) conl ;;
  Ok (tbuild osh (fun oidx =>
        esum (map (fun cidx =>
                     let env := combine (outl ++ conl) (oidx ++ cidx) in
                     emul (operand_at env la a) (operand_at env lb b))
                  (indices csh)))).

Definition einsum (eq : string) (a b : tensor) : result tensor :=
  match split_arrow eq with
  | None => Raise RuntimeError
  | Some (lhs, rhs) =>
      match map subscripts (split_comma lhs) with
      | [ta; tb] => einsum_labels ta tb (subscripts rhs) a b
      | _ => Raise RuntimeError
      end
  end.

End Dense.

Arguments tensor E : clear implicits.

(** ** The [TT] class *)

Section TTClass.

Context {E : Type} {NE : Numeric E}.

(** Attributes of a [TT] object.  [M] and [shape] are [None] where the
    constructor leaves the attribute unset. *)
Record TT : Type := mkTT {
  cores : list (tensor E);
  M : option (list nat);
  N : list nat;
  R : list nat;
  is_ttm : bool;
  tt_shape : option (list (list nat))
}.

(** the [source] argument of the constructor: [None] or a list of cores *)
Inductive source : Type :=
| SrcNone
| SrcCores (l : list (tensor E)).

(** second operands of the binary operators *)
Inductive operand : Type :=
| ONone
| OInt (v : E)
| OFloat (v : E)
| OStr (s : string)
| OList (l : list E)
| OTensor (t : tensor E)
| OTT (t : TT).

(** values returned by [@] and by slicing: a [TT] or a dense array *)
Inductive pyres : Type :=
| RTT (t : TT)
| RTensor (t : tensor E).

Definition get_M (t : TT) : result (list nat) :=
  match M t with
  | Some m => Ok m
  | None => Raise AttributeError
  end.

Definition list_ne (a b : list nat) : bool :=
  if list_eq_dec Nat.eq_dec a b then false else true.

(** [[(m,n) for m,n in zip(self.M,self.N)] if self.is_ttm else [n for n in self.N]] *)
Definition shape_of (ttm : bool) (m : option (list nat)) (n : list nat)
  : result (list (list nat)) :=
  if ttm then
    match m with
    | Some m' => Ok (map (fun p => [fst p; snd p]) (combine m' n))
    | None => Raise AttributeError
    end
  else Ok (map (fun k => [k]) n).

(** *** [TT.__init__] *)

(** one turn of the loop over the cores; the state is [(N, M, R)] *)
Definition init_step (st : list nat * list nat * list nat) (c : tensor E)
  : result (list nat * list nat * list nat) :=
  let '(n, m, r) := st in
  let s := shape c in
  s0 <- item s 0 ;;
  rl <- item_last r ;;
  if negb (s0 =? rl) then Raise RankMismatch
  else if length s =? 3 then
    s2 <- item s 2 ;; s1 <- item s 1 ;;
    Ok (n ++ [s1], m, r ++ [s2])
  else if length s =? 4 then
    s3 <- item s 3 ;; s1 <- item s 1 ;; s2 <- item s 2 ;;
    Ok (n ++ [s2], m ++ [s1], r ++ [s3])
  else Raise InvalidArguments.

Definition TT_init (src : source) : result TT :=
  match src with
  | SrcNone =>
      Ok {| cores := []; M := Some []; N := []; R := [1; 1]; is_ttm := false;
            tt_shape := None |}
  | SrcCores l =>
      c0 <- item l 0 ;;
      r0 <- item (shape c0) 0 ;;
      let d := length l in
      '(n, m, r) <- foldM init_step l ([], [], [r0]) ;;
      rfirst <- item r 0 ;;
      rlast <- item_last r ;;
      if negb (length n =? d) || negb (length r =? d + 1)
         || negb (rfirst =? 1) || negb (rlast =? 1)
         || (negb (length m =? 0) && negb (length m =? length n))
      then Raise InvalidArguments
      else
        let ttm := length m =? length n in
        let m' := if ttm then Some m else None in
        sh <- shape_of ttm m' n ;;
        Ok {| cores := l; M := m'; N := n; R := r; is_ttm := ttm;
              tt_shape := Some sh |}
  end.

(** *** [TT.is_cuda] *)

Inductive attr : Type :=
| ACores (l : list (tensor E))
| AInts (l : list nat)
| ABool (b : bool)
| AShape (l : list (list nat)).

(** [self.<name>] *)
Definition getattr (t : TT) (name : string) : result attr :=
  if String.eqb name "cores" then Ok (ACores (cores t))
  else if String.eqb name "N" then Ok (AInts (N t))
  else if String.eqb name "R" then Ok (AInts (R t))
  else if String.eqb name "is_ttm" then Ok (ABool (is_ttm t))
  else if String.eqb name "M" then
    match M t with Some m => Ok (AInts m) | None => Raise AttributeError end
  else if String.eqb name "shape" then
    match tt_shape t with Some s => Ok (AShape s) | None => Raise AttributeError end
  else Raise AttributeError.

(** [placed c] is the attribute [c.is_cuda] of a dense array *)
Definition is_cuda (placed : tensor E -> bool) (t : TT) : result bool :=
  a <- getattr t "core" ;;
  match a with
  | ACores l => Ok (forallb placed l)
  | _ => Raise TypeError
  end.

(** *** [TT.full] *)

Definition full (t : TT) : result (tensor E) :=
  if is_ttm t then
    c0 <- item (cores t) 0 ;;
    tfull <- tindex c0 [Ix 0; All; All; All] ;;
    tfull <- foldM (fun tf i => c <- item (cores t) i ;;
                                einsum "...i,ijkl->...jkl" tf c)
                   (range 1 (length (cores t) - 1)) tfull ;;
    if negb (length (N t) =? 1) then
      cl <- item_last (cores t) ;;
      m <- tindex cl [All; All; All; Ix 0] ;;
      tfull <- einsum "...i,ijk->...jk" tfull m ;;
      tpermute tfull (map (fun k => k * 2) (seq 0 (length (N t)))
                      ++ map (fun k => k * 2 + 1) (seq 0 (length (N t))))
    else tindex tfull [All; All; Ix 0]
  else
    c0 <- item (cores t) 0 ;;
    tfull <- tindex c0 [Ix 0; All; All] ;;
    tfull <- foldM (fun tf i => c <- item (cores t) i ;;
                                einsum "...i,ijk->...jk" tf c)
                   (range 1 (length (cores t) - 1)) tfull ;;
    if negb (length (N t) =? 1) then
      cl <- item_last (cores t) ;;
      m <- tindex cl [All; All; Ix 0] ;;
      einsum "...i,ij->...j" tfull m
    else Ok (tsqueeze tfull).

(** *** Operand tests and arithmetic between a dense array and an operand *)

(** [np.isscalar(other)] *)
Definition np_isscalar (o : operand) : bool :=
  match o with
  | OInt _ | OFloat _ | OStr _ => true
  | _ => false
  end.

(** [tn.is_tensor(other) and tn.numel(other) == 1] *)
Definition is_one_element_tensor (o : operand) : bool :=
  match o with
  | OTensor t => numel t =? 1
  | _ => false
  end.

(** [t * other] for a dense array [t] *)
Definition mul_operand (t : tensor E) (o : operand) : result (tensor E) :=
  match o with
  | OInt v | OFloat v => Ok (tscale v t)
  | OTensor u => tmul t u
  | _ => Raise TypeError
  end.

(** [-other] *)
Definition neg_operand (o : operand) : result operand :=
  match o with
  | OInt v => Ok (OInt (eopp v))
  | OFloat v => Ok (OFloat (eopp v))
  | OTensor u => Ok (OTensor (tneg u))
  | _ => Raise TypeError
  end.

(** [other.is_ttm] *)
Definition operand_is_ttm (o : operand) : result bool :=
  match o with
  | OTT t => Ok (is_ttm t)
  | _ => Raise AttributeError
  end.

(** [0 if c else l[i]] *)
Definition zero_or_item (c : bool) (l : list nat) (i : nat) : result nat :=
  if c then Ok 0 else item l i.

(** *** [TT.__add__] *)

(** the loop of the scalar branch of [__add__] and [__sub__]; the scalar
    goes on the first core, negated there when [negate] is set *)
Definition scalar_cores (self : TT) (other : operand) (negate : bool)
  : result (list (tensor E)) :=
  mapM (fun i =>
          let last := i =? length (N self) - 1 in
          let factor := if i =? 0
                        then (if negate then neg_operand other else Ok other)
                        else Ok (OInt e1) in
          if is_ttm self then
            let pad1 := [0; if last then 0 else 1; 0; 0; 0; 0; 0; if i =? 0 then 0 else 1] in
            a <- zero_or_item last (R self) (i + 1) ;;
            b <- zero_or_item (i =? 0) (R self) i ;;
            let pad2 := [a; 0; 0; 0; 0; 0; b; 0] in
            f <- factor ;;
            othr <- mul_operand (tones [1; 1; 1; 1]) f ;;
            c <- item (cores self) i ;;
            p1 <- tpad c pad1 ;;
            p2 <- tpad othr pad2 ;;
            tadd p1 p2
          else
            let pad1 := [0; if last then 0 else 1; 0; 0; 0; if i =? 0 then 0 else 1] in
            a <- zero_or_item last (R self) (i + 1) ;;
            b <- zero_or_item (i =? 0) (R self) i ;;
            let pad2 := [a; 0; 0; 0; b; 0] in
            f <- factor ;;
            othr <- mul_operand (tones [1; 1; 1]) f ;;
            c <- item (cores self) i ;;
            p1 <- tpad c pad1 ;;
            p2 <- tpad othr pad2 ;;
            tadd p1 p2)
       (range 0 (length (N self))).

(** the loop of the TT branches: core [i] of [self] padded at the end, core
    [i] of [other] (negated at [i = 0] for [__sub__]) padded at the start *)
Definition sum_cores (self other : TT) (ttm negate : bool) : result (list (tensor E)) :=
  mapM (fun i =>
          let last := i =? length (N self) - 1 in
          a <- zero_or_item last (R other) (i + 1) ;;
          b <- zero_or_item (i =? 0) (R other) i ;;
          let pad1 := if ttm then [0; a; 0; 0; 0; 0; 0; b] else [0; a; 0; 0; 0; b] in
          a' <- zero_or_item last (R self) (i + 1) ;;
          b' <- zero_or_item (i =? 0) (R self) i ;;
          let pad2 := if ttm then [a'; 0; 0; 0; 0; 0; b'; 0] else [a'; 0; 0; 0; b'; 0] in
          c <- item (cores self) i ;;
          p1 <- tpad c pad1 ;;
          o <- item (cores other) i ;;
          p2 <- tpad (if negate && (i =? 0) then tneg o else o) pad2 ;;
          tadd p1 p2)
       (range 0 (length (N self))).

Definition add (self : TT) (other : operand) : result TT :=
  if np_isscalar other || is_one_element_tensor other then
    cs <- scalar_cores self other false ;;
    TT_init (SrcCores cs)
  else
    match other with
    | OTT o =>
        if is_ttm self && is_ttm o then
          m <- get_M self ;;
          if list_ne m m || list_ne (N self) (N self) then Raise ShapeMismatch
          else cs <- sum_cores self o true false ;; TT_init (SrcCores cs)
        else if negb (is_ttm self) && negb (is_ttm o) then
          if list_ne (N self) (N self) then Raise ShapeMismatch
          else cs <- sum_cores self o false false ;; TT_init (SrcCores cs)
        else Raise IncompatibleTypes
    | _ =>
        (* [InvalidArguments(...)] is built but not raised; [return result]
           then reads a local that was never bound *)
        Raise UnboundLocalError
    end.

(** *** [TT.__sub__] *)

(** [np.isscalar(other) or (tn.is_tensor(other) and other.shape == [])]: a
    [torch.Size] never compares equal to a list *)
Definition sub_is_scalar (o : operand) : bool :=
  np_isscalar o || (match o with OTensor _ => false | _ => false end).


Definition sub (self : TT) (other : operand) : result TT :=
  if sub_is_scalar other then
    cs <- scalar_cores self other true ;;
    TT_init (SrcCores cs)
  else
    match other with
    | OTT o =>
        if is_ttm self && is_ttm o then
          m <- get_M self ;;
          if list_ne m m || list_ne (N self) (N self) then Raise ShapeMismatch
          else cs <- sum_cores self o true true ;; TT_init (SrcCores cs)
        else if negb (is_ttm self) && negb (is_ttm o) then
          if list_ne (N self) (N self) then Raise ShapeMismatch
          else cs <- sum_cores self o false true ;; TT_init (SrcCores cs)
        else Raise IncompatibleTypes
    | _ => Raise UnboundLocalError
    end.

(** *** [TT.__mul__] *)

Definition mul (self : TT) (other : operand) : result TT :=
  match other with
  | OTT o =>
      if is_ttm self && is_ttm o then
        if list_ne (N self) (N o) then Raise ShapeMismatch
        else
          ms <- get_M self ;;
          mo <- get_M o ;;
          if list_ne ms mo then Raise ShapeMismatch
          else
            cs <- mapM (fun i =>
                          a <- item (cores self) i ;;
                          b <- item (cores o) i ;;
                          e <- einsum "aijb,mijn->amijbn" a b ;;
                          ri <- item (R self) i ;;
                          qi <- item (R o) i ;;
                          mi <- item ms i ;;
                          ni <- item (N self) i ;;
                          rj <- item (R self) (i + 1) ;;
                          qj <- item (R o) (i + 1) ;;
                          treshape e (ints [ri * qi; mi; ni; rj * qj]))
                       (range 0 (length (cores self))) ;;
            TT_init (SrcCores cs)
      else if negb (is_ttm self) && negb (is_ttm o) then
        if list_ne (N self) (N o) then Raise ShapeMismatch
        else
          cs <- mapM (fun i =>
                        a <- item (cores self) i ;;
                        b <- item (cores o) i ;;
                        e <- einsum "aib,min->amibn" a b ;;
                        ri <- item (R self) i ;;
                        qi <- item (R o) i ;;
                        ni <- item (N self) i ;;
                        rj <- item (R self) (i + 1) ;;
                        qj <- item (R o) (i + 1) ;;
                        treshape e (ints [ri * qi; ni; rj * qj]))
                     (range 0 (length (cores self))) ;;
          TT_init (SrcCores cs)
      else Raise IncompatibleTypes
  | OInt v | OFloat v =>
      (* [cores_new = [c+0 for c in self.cores]; cores_new[0] *= other] *)
      let cores_new := map (tmap (fun x => eadd x e0)) (cores self) in
      c0 <- item cores_new 0 ;;
      cores_new <- set_item cores_new 0 (tscale v c0) ;;
      TT_init (SrcCores cores_new)
  | _ =>
      (* [isinstance(other, tn.tensor)]: [tn.tensor] is a function, not a type *)
      Raise TypeError
  end.

(** *** [TT.__matmul__] *)

(** [dense_matvec] of [torchtt.aux_ops], which is not part of this file *)
Variable dense_matvec : list (tensor E) -> tensor E -> result (tensor E).

(** [l[-k:]] *)
Definition py_tail (k : nat) (l : list nat) : list nat :=
  if k =? 0 then l else skipn (length l - k) l.

Definition dim (c : tensor E) (k : nat) : result nat := item (shape c) k.

Definition matmul (self : TT) (other : operand) : result pyres :=
  match other with
  | OTensor x =>
      if is_ttm self then
        if list_ne (N self) (py_tail (length (N self)) (shape x)) then Raise ShapeMismatch
        else r <- dense_matvec (cores self) x ;; Ok (RTensor r)
      else Raise AttributeError
  | OTT o =>
      cs <- (if is_ttm self && negb (is_ttm o) then
               if list_ne (N self) (N o) then Raise ShapeMismatch
               else
                 mapM (fun i =>
                         a <- item (cores self) i ;;
                         b <- item (cores o) i ;;
                         e <- einsum "ijkl,mkp->imjlp" a b ;;
                         a0 <- dim a 0 ;; b0 <- dim b 0 ;; a1 <- dim a 1 ;;
                         a3 <- dim a 3 ;; b2 <- dim b 2 ;;
                         treshape e (ints [a0 * b0; a1; a3 * b2]))
                      (range 0 (length (cores self)))
             else if is_ttm self && is_ttm o then
               mo <- get_M o ;;
               if list_ne (N self) mo then Raise ShapeMismatch
               else
                 mapM (fun i =>
                         a <- item (cores self) i ;;
                         b <- item (cores o) i ;;
                         e <- einsum "ijkl,mknp->imjnlp" a b ;;
                         a0 <- dim a 0 ;; b0 <- dim b 0 ;; a1 <- dim a 1 ;;
                         b2 <- dim b 2 ;; a3 <- dim a 3 ;; b3 <- dim b 3 ;;
                         treshape e (ints [a0 * b0; a1; b2; a3 * b3]))
                      (range 0 (length (cores self)))
             else if negb (is_ttm self) && is_ttm o then
               mo <- get_M o ;;
               if list_ne (N self) mo then Raise ShapeMismatch
               else
                 mapM (fun i =>
                         a <- item (cores self) i ;;
                         b <- item (cores o) i ;;
                         e <- einsum "mkp,ikjl->imjlp" a b ;;
                         a0 <- dim a 0 ;; b0 <- dim b 0 ;; b2 <- dim b 2 ;;
                         a2 <- dim a 2 ;; b3 <- dim b 3 ;;
                         treshape e (ints [a0 * b0; b2; a2 * b3]))
                      (range 0 (length (cores self)))
             else Raise InvalidArguments) ;;
      t <- TT_init (SrcCores cs) ;;
      Ok (RTT t)
  | _ =>
      (* [other.is_ttm] on an object without that attribute *)
      Raise AttributeError
  end.

(** *** [TT.reduce_dims] *)

(** one turn of the loop of the tensor branch; the state is
    [(self.cores, cores_new)] *)
Definition reduce_step (d : nat) (st : list (tensor E) * list (tensor E)) (i : nat)
  : result (list (tensor E) * list (tensor E)) :=
  let '(cs, cores_new) := st in
  c <- item cs i ;;
  s1 <- dim c 1 ;;
  if s1 =? 1 then
    s0 <- dim c 0 ;;
    s2 <- dim c 2 ;;
    if (s2 <? s0) || (i =? d - 1) then
      if 0 <? length cores_new then
        l <- item_last cores_new ;;
        m <- tindex c [All; Ix 0; All] ;;
        e <- einsum "ijk,kl->ijl" l m ;;
        cn <- set_item cores_new (length cores_new - 1) e ;;
        Ok (cs, cn)
      else if negb (i =? d - 1) then
        m <- tindex c [All; Ix 0; All] ;;
        nx <- item cs (i + 1) ;;
        e <- einsum "ij,jkl->ikl" m nx ;;
        cs' <- set_item cs (i + 1) e ;;
        Ok (cs', cores_new)
      else Ok (cs, cores_new ++ [c])
    else
      m <- tindex c [All; Ix 0; All] ;;
      nx <- item cs (i + 1) ;;
      e <- einsum "ij,jkl->ikl" m nx ;;
      cs' <- set_item cs (i + 1) e ;;
      Ok (cs', cores_new)
  else Ok (cs, cores_new ++ [c]).

(** one turn of the loop of the TT-matrix branch *)
Definition reduce_step_ttm (d : nat) (st : list (tensor E) * list (tensor E)) (i : nat)
  : result (list (tensor E) * list (tensor E)) :=
  let '(cs, cores_new) := st in
  c <- item cs i ;;
  s1 <- dim c 1 ;;
  s2 <- (if s1 =? 1 then dim c 2 else Ok 0) ;;
  if (s1 =? 1) && (s2 =? 1) then
    s0 <- dim c 0 ;;
    s3 <- dim c 3 ;;
    if (s3 <? s0) || (i =? d - 1) then
      if 0 <? length cores_new then
        l <- item_last cores_new ;;
        m <- tindex c [All; Ix 0; Ix 0; All] ;;
        e <- einsum "ijok,kl->ijol" l m ;;
        cn <- set_item cores_new (length cores_new - 1) e ;;
        Ok (cs, cn)
      else if negb (i =? d - 1) then
        m <- tindex c [All; Ix 0; Ix 0; All] ;;
        nx <- item cs (i + 1) ;;
        e <- einsum "ij,jkml->ikml" m nx ;;
        cs' <- set_item cs (i + 1) e ;;
        Ok (cs', cores_new)
      else Ok (cs, cores_new ++ [c])
    else
      m <- tindex c [All; Ix 0; Ix 0; All] ;;
      nx <- item cs (i + 1) ;;
      e <- einsum "ij,jkml->ikml" m nx ;;
      cs' <- set_item cs (i + 1) e ;;
      Ok (cs', cores_new)
  else Ok (cs, cores_new ++ [c]).

(** [reduce_dims] rewrites [self]; the rewritten object is returned *)
Definition reduce_dims (self : TT) : result TT :=
  if is_ttm self then
    '(_, cores_new) <- foldM (reduce_step_ttm (length (N self)))
                            (range 0 (length (N self))) (cores self, []) ;;
    n <- mapM (fun c => dim c 1) cores_new ;;
    m <- mapM (fun c => dim c 2) cores_new ;;
    r <- mapM (fun c => dim c 3) cores_new ;;
    sh <- shape_of true (Some m) n ;;
    Ok {| cores := cores_new; M := Some m; N := n; R := 1 :: r; is_ttm := true;
          tt_shape := Some sh |}
  else
    '(_, cores_new) <- foldM (reduce_step (length (N self)))
                            (range 0 (length (N self))) (cores self, []) ;;
    n <- mapM (fun c => dim c 1) cores_new ;;
    r <- mapM (fun c => dim c 2) cores_new ;;
    sh <- shape_of false (M self) n ;;
    Ok {| cores := cores_new; M := M self; N := n; R := 1 :: r; is_ttm := false;
          tt_shape := Some sh |}.

(** *** [TT.__getitem__] *)

Inductive ixitem : Type :=
| IItem (x : ix)
| IEllipsis.

Inductive pyindex : Type :=
| KTuple (l : list ixitem)
| KInt (i : Z)
| KSlice (start stop step : option Z)
| KEllipsis.

Definition is_ellipsis (x : ixitem) : bool :=
  match x with IEllipsis => true | _ => false end.

Definition is_slice (x : ix) : bool :=
  match x with Sl _ _ _ => true | _ => false end.

(** an item of the index tuple, once the tuple is known to hold no Ellipsis *)
Definition index_item (l : list ixitem) (i : nat) : result ix :=
  x <- item l i ;;
  match x with
  | IItem y => Ok y
  | IEllipsis => Raise IndexError
  end.

Definition getitem (self : TT) (index : pyindex) : result pyres :=
  match index with
  | KTuple l =>
      if 0 <? length (filter is_ellipsis l) then Raise NotImplementedError
      else
        cores_new <-
          (if is_ttm self then
             if negb (length l =? length (N self) * 2) then Raise InvalidArguments
             else
               mapM (fun i =>
                       x <- index_item l i ;;
                       if is_slice x then
                         c <- item (cores self) i ;;
                         y <- index_item l (i + length (N self)) ;;
                         tindex c [All; x; y; All]
                       else
                         c <- item (cores self) i ;;
                         y <- index_item l (i + length (N self)) ;;
                         s <- tindex c [All; x; y; All] ;;
                         ri <- item (R self) i ;;
                         rj <- item (R self) (i + 1) ;;
                         treshape s (ints [ri; 1; 1; rj]))
                    (range 0 (length (cores self)))
           else
             if negb (length l =? length (N self)) then Raise InvalidArguments
             else
               mapM (fun i =>
                       x <- index_item l i ;;
                       if is_slice x then
                         c <- item (cores self) i ;;
                         tindex c [All; x; All]
                       else
                         c <- item (cores self) i ;;
                         s <- tindex c [All; x; All] ;;
                         ri <- item (R self) i ;;
                         rj <- item (R self) (i + 1) ;;
                         treshape s [Z.of_nat ri; (-1)%Z; Z.of_nat rj])
                    (range 0 (length (cores self)))) ;;
        sliced <- TT_init (SrcCores cores_new) ;;
        sliced <- reduce_dims sliced ;;
        if negb (is_ttm sliced) && negb (list_ne (N sliced) [1]) then
          c <- item (cores sliced) 0 ;; Ok (RTensor (tsqueeze c))
        else if is_ttm sliced && negb (list_ne (N sliced) [1]) then
          m <- get_M sliced ;;
          if negb (list_ne m [1]) then
            c <- item (cores sliced) 0 ;; Ok (RTensor (tsqueeze c))
          else Ok (RTT sliced)
        else Ok (RTT sliced)
  | KInt i =>
      if length (N self) =? 1 then
        c <- item (cores self) 0 ;;
        s <- tindex c [Ix 0; Ix i; Ix 0] ;;
        Ok (RTensor s)
      else Raise InvalidArguments
  | KSlice _ _ _ | KEllipsis =>
      (* [isinstance(index, Ellipsis)]: [Ellipsis] is an object, not a type *)
      Raise TypeError
  end.

(** *** [kron] and [TT.__pow__] *)

Definition kron (first second : operand) : result TT :=
  match first, second with
  | ONone, OTT s => TT_init (SrcCores (cores s))
  | OTT f, ONone => TT_init (SrcCores (cores f))
  | OTT f, OTT s =>
      if negb (Bool.eqb (is_ttm f) (is_ttm s)) then Raise IncompatibleTypes
      else TT_init (SrcCores (cores f ++ cores s))
  | _, _ => Raise InvalidArguments
  end.

Definition pow (self : TT) (other : operand) : result TT := kron (OTT self) other.

(** *** [eye] *)

Definition eye (sh : list nat) : result TT :=
  cs <- mapM (fun s => u <- tunsqueeze (teye s) 0 ;; tunsqueeze u 3) sh ;;
  TT_init (SrcCores cs).

End TTClass.

Arguments TT E : clear implicits.
Arguments source E : clear implicits.
Arguments operand E : clear implicits.
Arguments pyres E : clear implicits.
Arguments attr E : clear implicits.

(** ** [TT.__truediv__]: dense arrays as shared objects

    Division by a scalar divides the first core in place, so the dense arrays
    are modelled here as objects with an identity: a heap of arrays, and TT
    objects whose [cores] attribute lists positions in the heap. *)

Section Aliasing.

Context {E : Type} {NE : Numeric E}.

(** [amen_divide] of [torchtt.division], which is not part of this file; it
    returns the cores of the quotient as new arrays *)
Variable amen_divide : TT E -> TT E -> result (list (tensor E)).

Definition heap : Type := list (tensor E).

Record TTobj : Type := mkObj {
  ref_cores : list nat;
  ref_M : option (list nat);
  ref_N : list nat;
  ref_R : list nat;
  ref_is_ttm : bool;
  ref_shape : option (list (list nat))
}.

(** the arrays behind a list of references *)
Definition deref (h : heap) (locs : list nat) : result (list (tensor E)) :=
  mapM (item h) locs.

(** the object as the value-level operators see it *)
Definition view (h : heap) (x : TTobj) : result (TT E) :=
  cs <- deref h (ref_cores x) ;;
  Ok {| cores := cs; M := ref_M x; N := ref_N x; R := ref_R x;
        is_ttm := ref_is_ttm x; tt_shape := ref_shape x |}.

(** [TT(cores)]: the constructor keeps the list it is given *)
Definition TT_new (h : heap) (locs : list nat) : result TTobj :=
  cs <- deref h locs ;;
  t <- TT_init (SrcCores cs) ;;
  Ok {| ref_cores := locs; ref_M := M t; ref_N := N t; ref_R := R t;
        ref_is_ttm := is_ttm t; ref_shape := tt_shape t |}.

(** [c /= other] on a dense array: the quotient is written into [c], whose
    shape cannot change *)
Definition idiv (c : tensor E) (other : operand E) : result (tensor E) :=
  match other with
  | OInt v | OFloat v => Ok (tdiv_scalar v c)
  | OTensor u =>
      q <- tbinop ediv c u ;;
      if list_ne (shape q) (shape c) then Raise RuntimeError else Ok q
  | _ => Raise TypeError
  end.

Definition truediv (self : TTobj) (other : operand E) (h : heap)
  : result (TTobj * heap) :=
  match other with
  | OInt _ | OFloat _ | OTensor _ =>
      (* [cores_new = self.cores.copy()]: a new list of the same arrays *)
      let cores_new := ref_cores self in
      l0 <- item cores_new 0 ;;
      c0 <- item h l0 ;;
      q <- idiv c0 other ;;
      h' <- set_item h l0 q ;;
      r <- TT_new h' cores_new ;;
      Ok (r, h')
  | OTT o =>
      s <- view h self ;;
      if negb (Bool.eqb (is_ttm s) (is_ttm o)) then Raise IncompatibleTypes
      else if list_ne (N s) (N o) then Raise ShapeMismatch
      else
        _ <- (if is_ttm s then
                ms <- get_M s ;; mo <- get_M o ;;
                if list_ne ms mo then Raise ShapeMismatch else Ok tt
              else Ok tt) ;;
        cs <- amen_divide o s ;;
        let h' := h ++ cs in
        r <- TT_new h' (seq (length h) (length cs)) ;;
        Ok (r, h')
  | _ => Raise InvalidArguments
  end.

End Aliasing.

(** ** Reductions of dense arrays *)

Section DenseReductions.

Context {E : Type} {NE : Numeric E}.

(** the index into the source of a reduction: dimensions marked in [mask]
    read the next item of [ridx], the others the next item of [kidx] *)
Fixpoint merge_idx (mask : list bool) (kidx ridx : list nat) : list nat :=
  match mask with
  | [] => []
  | true :: mask' =>
      match ridx with
      | r :: ridx' => r :: merge_idx mask' kidx ridx'
      | [] => 0 :: merge_idx mask' kidx []
      end
  | false :: mask' =>
      match kidx with
      | k :: kidx' => k :: merge_idx mask' kidx' ridx
      | [] => 0 :: merge_idx mask' [] ridx
      end
  end.

Fixpoint has_dup (l : list nat) : bool :=
  match l with
  | [] => false
  | x :: l' => existsb (Nat.eqb x) l' || has_dup l'
  end.

(** [tn.sum(t, dims, keepdim)], [dims] counted from the first dimension *)
Definition tsum (t : tensor E) (dims : list nat) (keepdim : bool) : result (tensor E) :=
  if existsb (fun d => ndim t <=? d) dims then Raise IndexError
  else if has_dup dims then Raise RuntimeError
  else
    let mask := map (fun k => existsb (Nat.eqb k) dims) (seq 0 (ndim t)) in
    let ms := combine mask (shape t) in
    let rsh := map snd (filter (fun p : bool * nat => fst p) ms) in
    let ksh := map snd (filter (fun p : bool * nat => negb (fst p)) ms) in
    let osh := if keepdim then map (fun p : bool * nat => if fst p then 1 else snd p) ms else ksh in
    Ok (tbuild osh (fun oidx =>
          let kidx := if keepdim
                      then map snd (filter (fun p : bool * nat => negb (fst p)) (combine mask oidx))
                      else oidx in
          esum (map (fun ridx => tget t (merge_idx mask kidx ridx)) (indices rsh)))).

(** [tn.sum(t)]: a 0-dimensional array *)
Definition tsum_all (t : tensor E) : tensor E := mkT [] [esum (data t)].

End DenseReductions.

(** ** The remaining methods of [TT] and functions of the module

    They live in a module of their own: [t], [sum], [pos] and the like are
    short names. *)

Module Ops.

(** *** Methods *)

Section Methods.

Context {E : Type} {NE : Numeric E}.

(** *** [TT.cuda], [TT.cpu], [TT.to]

    The three methods share one body; [move] is what [c.cuda(device)],
    [c.cpu()] or [c.to(device, dtype)] returns for a core [c]. *)
Definition relocate (move : tensor E -> tensor E) (self : TT E) : result (TT E) :=
  t <- TT_init (@SrcNone E) ;;
  m <- (if is_ttm self then m <- get_M self ;; Ok (Some m) else Ok (M t)) ;;
  Ok {| cores := map move (cores self); M := m; N := N self; R := R self;
        is_ttm := is_ttm self; tt_shape := tt_shape t |}.

Definition cuda := relocate.
Definition cpu := relocate.
Definition to := relocate.

(** *** [TT.__neg__], [TT.__pos__]; [c.clone()] keeps the values of [c] *)

Definition neg (self : TT E) : result (TT E) :=
  let cores_new := map (fun c => c) (cores self) in
  c0 <- item cores_new 0 ;;
  cores_new <- set_item cores_new 0 (tneg c0) ;;
  TT_init (SrcCores cores_new).

Definition pos (self : TT E) : result (TT E) :=
  TT_init (SrcCores (map (fun c => c) (cores self))).

(** *** [TT.__radd__], [TT.__rsub__], [TT.__rmul__]

    [__rsub__] negates the first core of the object [__sub__] returned, in
    that object. *)

Definition radd (self : TT E) (other : operand E) : result (TT E) :=
  add self other.

Definition rsub (self : TT E) (other : operand E) : result (TT E) :=
  T <- sub self other ;;
  c0 <- item (cores T) 0 ;;
  cs <- set_item (cores T) 0 (tneg c0) ;;
  Ok {| cores := cs; M := M T; N := N T; R := R T;
        is_ttm := is_ttm T; tt_shape := tt_shape T |}.

Definition rmul (self : TT E) (other : operand E) : result (TT E) :=
  mul self other.

(** *** [TT.t] *)

Definition t (self : TT E) : result (TT E) :=
  if negb (is_ttm self) then Raise InvalidArguments
  else
    cores_new <- mapM (fun c => tpermute c [0; 2; 1; 3]) (cores self) ;;
    TT_init (SrcCores cores_new).

(** *** [TT.to_ttm] *)

Definition to_ttm (self : TT E) : result (TT E) :=
  cores_new <- mapM (fun c => s0 <- dim c 0 ;; s1 <- dim c 1 ;; s2 <- dim c 2 ;;
                              treshape c (ints [s0; s1; 1; s2]))
                    (cores self) ;;
  TT_init (SrcCores cores_new).

(** *** [TT.sum] *)

Inductive sum_index : Type :=
| SumNone
| SumInt (i : Z)
| SumList (l : list Z)
| SumOther.

(** the result of [sum]: a 0-dimensional array or a [TT] *)
Definition sum (self : TT E) (index : sum_index) : result (pyres E) :=
  match index with
  | SumOther => Raise InvalidArguments
  | SumNone =>
      if is_ttm self then
        (* [tn.reduce_sum]: the module [torch] has no such attribute *)
        Raise AttributeError
      else
        c0 <- item (cores self) 0 ;;
        C <- tsum c0 [0; 1] false ;;
        C <- foldM (fun C i => c <- item (cores self) i ;;
                               e <- einsum "i,ijk->jk" C c ;;
                               tsum e [0] false)
                   (range 1 (length (N self))) C ;;
        Ok (RTensor (tsum_all C))
  | SumInt _ | SumList _ =>
      let index := match index with SumInt i => [i] | SumList l => l | _ => [] end in
      let tmp := if is_ttm self then [1; 2] else [1] in
      cs <- mapM (fun i => if existsb (Z.eqb (Z.of_nat i)) index
                           then c <- item (cores self) i ;; tsum c tmp true
                           else item (cores self) i)
                 (range 0 (length (N self))) ;;
      S <- TT_init (SrcCores cs) ;;
      S <- reduce_dims S ;;
      Ok (RTT S)
  end.

(** *** [TT.qtt_to_tens] *)

(** an argument that should be a list of ints *)
Inductive int_list_arg : Type :=
| IntList (l : list nat)
| NotAList.

(** one turn of the loop; the state is [(core, so_far, k, cores_new)] *)
Definition qtt_step (original_shape : list nat)
    (st : option (tensor E) * nat * nat * list (tensor E)) (c : tensor E)
  : result (option (tensor E) * nat * nat * list (tensor E)) :=
  let '(core, so_far, k, cores_new) := st in
  '(core, so_far) <-
    match core with
    | None => s1 <- dim c 1 ;; Ok (c, s1)
    | Some u => e <- einsum "...i,ijk->...jk" u c ;;
                s1 <- dim c 1 ;; Ok (e, so_far * s1)
    end ;;
  target <- item original_shape k ;;
  if so_far =? target then
    s0 <- dim core 0 ;;
    sl <- item_last (shape core) ;;
    r <- treshape core [Z.of_nat s0; (-1)%Z; Z.of_nat sl] ;;
    Ok (None, so_far, k + 1, cores_new ++ [r])
  else Ok (Some core, so_far, k, cores_new).

Definition qtt_to_tens (self : TT E) (original_shape : int_list_arg) : result (TT E) :=
  match original_shape with
  | NotAList => Raise InvalidArguments
  | IntList sh =>
      cores_new <-
        (if is_ttm self then Ok []
         else
           '(_, _, k, cores_new) <- foldM (qtt_step sh) (cores self) (None, 0, 0, []) ;;
           if negb (k =? length sh) then Raise ShapeMismatch else Ok cores_new) ;;
      TT_init (SrcCores cores_new)
  end.

(** *** [TT.mprod] *)

Inductive factors_arg : Type :=
| FList (l : list (tensor E))
| FTensor (m : tensor E)
| FOther.

Inductive mode_arg : Type :=
| ModeList (l : list Z)
| ModeInt (k : Z)
| ModeOther.

(** [xs[i]] and [xs[i] = v] on a Python list, for any int [i] *)
Definition py_pos {A : Type} (xs : list A) (i : Z) : result nat :=
  if ((0 <=? i) && (i <? Z.of_nat (length xs)))%Z then Ok (Z.to_nat i)
  else if ((- Z.of_nat (length xs) <=? i) && (i <? 0))%Z
       then Ok (Z.to_nat (i + Z.of_nat (length xs)))
       else Raise IndexError.

Definition mprod (self : TT E) (factor_matrices : factors_arg) (mode : mode_arg)
  : result (TT E) :=
  match factor_matrices, mode with
  | FList fs, ModeList ms =>
      let cores_new := map (fun c => c) (cores self) in
      cores_new <-
        foldM (fun cores_new i =>
                 mi <- item ms i ;;
                 p <- py_pos cores_new mi ;;
                 c <- item cores_new p ;;
                 f <- item fs i ;;
                 e <- (if is_ttm self then einsum "imjk,lj->imlk" c f
                       else einsum "ijk,lj->ilk" c f) ;;
                 set_item cores_new p e)
              (range 0 (length fs)) cores_new ;;
      TT_init (SrcCores cores_new)
  | _, _ =>
      (* [isinstance(factor_matrices, tn.tensor)]: [tn.tensor] is a function,
         not a type *)
      Raise TypeError
  end.

End Methods.

Arguments factors_arg E : clear implicits.

(** *** Functions *)

Section Functions.

Context {E : Type} {NE : Numeric E}.

(** an item of a shape: an int, or a pair for a TT-matrix *)
Inductive shape_item : Type :=
| SInt (n : nat)
| STuple (m n : nat).

Inductive shape_arg : Type :=
| ShList (l : list shape_item)
| ShOther.

Definition is_tuple (s : shape_item) : bool :=
  match s with STuple _ _ => true | SInt _ => false end.

(** the core a fill function builds for one item of the shape; in the
    TT-matrix branch an int cannot be subscripted, in the tensor branch a
    tuple is not a size *)
Definition filled_core (fill : list nat -> tensor E) (matrix : bool) (s : shape_item)
  : result (tensor E) :=
  match matrix, s with
  | true, STuple m n => Ok (fill [1; m; n; 1])
  | false, SInt n => Ok (fill [1; n; 1])
  | _, _ => Raise TypeError
  end.

Definition zeros (shape : shape_arg) : result (TT E) :=
  match shape with
  | ShList l =>
      let d := length l in
      s0 <- item l 0 ;;
      cs <- mapM (fun i => s <- item l i ;; filled_core tzeros (is_tuple s0) s)
                 (range 0 d) ;;
      TT_init (SrcCores cs)
  | ShOther => Raise InvalidArguments
  end.

Definition ones (shape : shape_arg) : result (TT E) :=
  match shape with
  | ShList l =>
      let d := length l in
      if d =? 0 then TT_init (@SrcNone E)
      else
        s0 <- item l 0 ;;
        cs <- mapM (fun i => s <- item l i ;; filled_core tones (is_tuple s0) s)
                   (range 0 d) ;;
        TT_init (SrcCores cs)
  | ShOther => Raise InvalidArguments
  end.

(** [TT.__rpow__] *)
Definition rpow (self : TT E) (other : operand E) : result (TT E) :=
  kron (OTT self) other.

(** [meshgrid] *)
Definition meshgrid (vectors : list (tensor E)) : result (list (TT E)) :=
  _ <- item vectors 0 ;;
  mapM (fun i =>
          lst <- mapM (fun v => n <- dim v 0 ;; Ok (tones [1; n; 1])) vectors ;;
          vi <- item vectors i ;;
          c <- treshape vi [1; -1; 1]%Z ;;
          lst <- set_item lst i c ;;
          TT_init (SrcCores lst))
       (range 0 (length vectors)).

(** [rank1TT] *)
Definition rank1TT (vectors : list (tensor E)) : result (TT E) :=
  cs <- mapM (fun i => v <- item vectors i ;; treshape v [1; -1; 1]%Z)
             (range 0 (length vectors)) ;;
  TT_init (SrcCores cs).

(** [numel]: the number of entries stored in the cores *)
Definition tt_numel (tensor : TT E) : result nat :=
  ns <- mapM (fun i => c <- item (cores tensor) i ;; Ok (numel c))
             (range 0 (length (N tensor))) ;;
  Ok (list_sum ns).

End Functions.

End Ops.

(** ** Vocabulary of the specification *)

Section Vocabulary.

Context {E : Type} {NE : Numeric E}.

(** leading and trailing dimension of a core *)
Definition leading (c : tensor E) : nat := nth 0 (shape c) 0.
Definition trailing (c : tensor E) : nat := last (shape c) 0.

(** every core of [cs] passes the two checks of the constructor's loop: its
    leading dimension is the running rank [r] (the trailing dimension of the
    core before it), and it is 3- or 4-dimensional *)
Fixpoint passes (r : nat) (cs : list (tensor E)) : Prop :=
  match cs with
  | [] => True
  | c :: cs' => leading c = r /\ (ndim c = 3 \/ ndim c = 4) /\ passes (trailing c) cs'
  end.

(** the running rank after the cores [pre], starting from [r] *)
Definition running (r : nat) (pre : list (tensor E)) : nat :=
  last (map trailing pre) r.

Definition all3 (cs : list (tensor E)) : Prop := Forall (fun c => ndim c = 3) cs.
Definition all4 (cs : list (tensor E)) : Prop := Forall (fun c => ndim c = 4) cs.

(** the list mixes 3-dimensional and 4-dimensional cores *)
Definition mixed (cs : list (tensor E)) : Prop :=
  (exists c, In c cs /\ ndim c = 3) /\ (exists c, In c cs /\ ndim c = 4).

(** the attributes the constructor computes from the shapes of the cores *)
Definition modes_N (cs : list (tensor E)) : list nat :=
  map (fun c => if ndim c =? 3 then nth 1 (shape c) 0 else nth 2 (shape c) 0) cs.
Definition modes_M (cs : list (tensor E)) : list nat :=
  flat_map (fun c => if ndim c =? 3 then [] else [nth 1 (shape c) 0]) cs.
Definition ranks (cs : list (tensor E)) : list nat := map trailing cs.

(** the object the constructor returns for the cores [cs] *)
Definition constructed (cs : list (tensor E)) : TT E :=
  let ttm := length (modes_M cs) =? length (modes_N cs) in
  {| cores := cs;
     M := if ttm then Some (modes_M cs) else None;
     N := modes_N cs;
     R := leading (hd (mkT [] []) cs) :: ranks cs;
     is_ttm := ttm;
     tt_shape := Some (if ttm
                       then map (fun p => [fst p; snd p]) (combine (modes_M cs) (modes_N cs))
                       else map (fun k => [k]) (modes_N cs)) |}.

(** the structural invariants of a TT object: [len(R) == len(N) + 1],
    [R[0] == R[-1] == 1], one core per mode, and core [i] has leading
    dimension [R[i]] and trailing dimension [R[i+1]] *)
Definition invariants (t : TT E) : Prop :=
  length (R t) = length (N t) + 1 /\
  item (R t) 0 = Ok 1 /\
  item_last (R t) = Ok 1 /\
  length (cores t) = length (N t) /\
  forall i c, nth_error (cores t) i = Some c ->
    item (shape c) 0 = item (R t) i /\
    item_last (shape c) = item (R t) (i + 1).

(** a TT-tensor: what the constructor returns on a list of 3-dimensional
    dense arrays *)
Definition TT_tensor (t : TT E) : Prop :=
  exists cs, TT_init (SrcCores cs) = Ok t /\ is_ttm t = false /\ Forall twf cs.

(** elementwise product of two lists of ranks *)
Definition rank_product (ra rb : list nat) : list nat :=
  map (fun p => fst p * snd p) (combine ra rb).

(** outer product of two dense arrays, reshaped to [sh] *)
Definition outer_reshape (x y : tensor E) (sh : list nat) : tensor E :=
  mkT sh (flat_map (fun a => map (fun b => emul a b) (data y)) (data x)).

(** elementwise product of two dense arrays of the same shape *)
Definition hadamard (x y : tensor E) : tensor E :=
  mkT (shape x) (map (fun p => emul (fst p) (snd p)) (combine (data x) (data y))).

(** the cores of [cs] are [k]-dimensional, and each leads with the trailing
    dimension of the one before it, starting from [r] *)
Fixpoint chain (k r : nat) (cs : list (tensor E)) : Prop :=
  match cs with
  | [] => True
  | c :: cs' => ndim c = k /\ leading c = r /\ chain k (trailing c) cs'
  end.

(** what the loop of [reduce_dims] maintains before turn [i], on cores of
    [k] dimensions: the cores kept so far and the cores still to visit form
    one chain from rank 1 to rank 1 *)
Definition reduce_inv (k d i : nat) (st : list (tensor E) * list (tensor E)) : Prop :=
  length (fst st) = d /\
  chain k 1 (snd st) /\
  chain k (running 1 (snd st)) (skipn i (fst st)) /\
  running (running 1 (snd st)) (skipn i (fst st)) = 1.

(** the labels of the dimensions covered by an ellipsis *)
Definition dots (s m : nat) : list label := map Ld (seq s m).

(** contraction of a row vector [v], of length [r], with slice [i] of the
    core [c] *)
Definition vstep (r : nat) (v : nat -> E) (c : tensor E) (i : nat) : nat -> E :=
  fun b => esum (map (fun a => emul (v a) (tget c [a; i; b])) (seq 0 r)).

(** the row vector [v] carried through the cores [cs] at the indices [idx] *)
Fixpoint vec (cs : list (tensor E)) (idx : list nat) (v : nat -> E) : nat -> E :=
  match cs, idx with
  | c :: cs', i :: idx' => vec cs' idx' (vstep (leading c) v c i)
  | _, _ => v
  end.

(** row [i0] of the first core *)
Definition vec0 (c0 : tensor E) (i0 : nat) : nat -> E :=
  fun b => tget c0 [0; i0; b].

(** the entry of the represented tensor at a multi-index: the product of the
    core slices, read at rank index 0 *)
Definition entry (cs : list (tensor E)) (idx : list nat) : E :=
  match cs, idx with
  | c0 :: cs', i0 :: idx' => vec cs' idx' (vec0 c0 i0) 0
  | _, _ => e0
  end.

(** the running dense array of [full] after the cores [c0 :: cs]: one
    dimension per mode, then the rank *)
Definition partial (c0 : tensor E) (cs : list (tensor E)) : tensor E :=
  tbuild (modes_N (c0 :: cs) ++ [running (trailing c0) cs])
         (fun oidx => vec cs (tl oidx) (vec0 c0 (hd 0 oidx)) (last oidx 0)).

(** the shape of the dense array [full] returns for mode sizes [n] *)
Definition dense_shape (n : list nat) : list nat :=
  if length n =? 1 then filter (fun k => negb (k =? 1)) (n ++ [1]) else n.

(** the object [t] with another list of cores *)
Definition with_cores (t : TT E) (cs : list (tensor E)) : TT E :=
  {| cores := cs; M := M t; N := N t; R := R t; is_ttm := is_ttm t;
     tt_shape := tt_shape t |}.

(** core [i] of [eye(sh)], for the mode size [s] *)
Definition eye_core (s : nat) : tensor E := mkT [1; s; s; 1] (data (teye s)).

(** the entry of [einsum('aib,min->amibn', a, b)] at the index [o] *)
Definition had_entry (a b : tensor E) (o : list nat) : E :=
  emul (tget a [nth 0 o 0; nth 2 o 0; nth 3 o 0])
       (tget b [nth 1 o 0; nth 2 o 0; nth 4 o 0]).

(** the core [__mul__] builds from a pair of cores: the [einsum], reshaped so
    that the two leading ranks and the two trailing ranks are merged *)
Definition had_core (a b : tensor E) : tensor E :=
  mkT [leading a * leading b; nth 1 (shape a) 0; trailing a * trailing b]
      (map (had_entry a b)
           (indices [leading a; leading b; nth 1 (shape a) 0; trailing a; trailing b])).

Definition had_cores (csa csb : list (tensor E)) : list (tensor E) :=
  map (fun p => had_core (fst p) (snd p)) (combine csa csb).

End Vocabulary.

(** ** Vocabulary of the further properties *)

Section MoreVocabulary.

Context {E : Type} {NE : Numeric E}.

(** a TT-matrix core with its two modes exchanged *)
Definition transposed_core (c : tensor E) : tensor E :=
  tbuild [leading c; nth 2 (shape c) 0; nth 1 (shape c) 0; trailing c]
         (fun idx => tget c [nth 0 idx 0; nth 2 idx 0; nth 1 idx 0; nth 3 idx 0]).

(** a TT-tensor core seen as a TT-matrix core with a row mode of size 1 *)
Definition ttm_core (c : tensor E) : tensor E :=
  mkT [leading c; nth 1 (shape c) 0; 1; trailing c] (data c).

(** a vector as a core of ranks 1 *)
Definition rank1_core (d : list E) : tensor E := mkT [1; length d; 1] d.

(** the product of the entries that the vectors [ds] hold at the positions
    [idx] *)
Fixpoint rank1_entry (ds : list (list E)) (idx : list nat) : E :=
  match ds, idx with
  | d :: ds', i :: idx' => emul (nth i d e0) (rank1_entry ds' idx')
  | _, _ => e1
  end.

(** the vectors of item [i] of a meshgrid: ones, and [d] at position [i] *)
Definition mesh_vectors (sizes : list nat) (i : nat) (d : list E) : list (list E) :=
  firstn i (map (repeat e1) sizes) ++ d :: skipn (S i) (map (repeat e1) sizes).

(** the number of entries of cores with ranks [r] and mode sizes [n] *)
Fixpoint storage (r n : list nat) : nat :=
  match n, r with
  | n0 :: n', r0 :: r' => r0 * n0 * hd 0 r' + storage r' n'
  | _, _ => 0
  end.

(** the position a Python int selects in a sequence of length [n] *)
Definition py_index (n : nat) (i : Z) : option nat :=
  if ((0 <=? i) && (i <? Z.of_nat n))%Z then Some (Z.to_nat i)
  else if ((- Z.of_nat n <=? i) && (i <? 0))%Z then Some (Z.to_nat (i + Z.of_nat n))
  else None.

(** the row vector [v] carried through the cores [cs], every mode summed *)
Fixpoint svec (cs : list (tensor E)) (v : nat -> E) : nat -> E :=
  match cs with
  | [] => v
  | c :: cs' =>
      svec cs' (fun b => esum (map (fun j => vstep (leading c) v c j b)
                                   (seq 0 (nth 1 (shape c) 0))))
  end.

(** core [i] of a sum: the core [a] of the first operand in the upper left
    block and the core [b] of the second in the lower right block; the first
    core has one block row, the last one block column *)
Definition sum_core (first last : bool) (a b : tensor E) : tensor E :=
  let lo := if first then 0 else leading a in
  let ro := if last then 0 else trailing a in
  tbuild [leading a + (if first then 0 else leading b);
          nth 1 (shape a) 0;
          trailing a + (if last then 0 else trailing b)]
         (fun idx =>
            let c := nth 0 idx 0 in
            let j := nth 1 idx 0 in
            let e := nth 2 idx 0 in
            eadd (if (c <? leading a) && (e <? trailing a) then tget a [c; j; e] else e0)
                 (if (lo <=? c) && (ro <=? e) then tget b [c - lo; j; e - ro] else e0)).

Fixpoint sum_train (first : bool) (asl bsl : list (tensor E)) : list (tensor E) :=
  match asl, bsl with
  | a :: asl', b :: bsl' =>
      sum_core first (match asl' with [] => true | _ => false end) a b
      :: sum_train false asl' bsl'
  | _, _ => []
  end.

(** the ranks of a sum: the ranks add up at every interior boundary *)
Fixpoint inner_sum (ra rb : list nat) : list nat :=
  match ra, rb with
  | [x], _ => [x]
  | x :: ra', y :: rb' => (x + y) :: inner_sum ra' rb'
  | _, _ => []
  end.

Definition rank_sum (ra rb : list nat) : list nat :=
  match ra, rb with
  | x :: ra', _ :: rb' => x :: inner_sum ra' rb'
  | _, _ => []
  end.

(** two dense arrays of one shape combined entry by entry *)
Definition pointwise (f : E -> E -> E) (x y : tensor E) : tensor E :=
  mkT (shape x) (map (fun p => f (fst p) (snd p)) (combine (data x) (data y))).

(** a list with item [p] replaced *)
Definition replaced {A : Type} (l : list A) (p : nat) (x : A) : list A :=
  firstn p l ++ x :: skipn (S p) l.

(** the core [einsum('ijk,lj->ilk', c, m)] *)
Definition mode_core (c m : tensor E) : tensor E :=
  tbuild [leading c; nth 0 (shape m) 0; trailing c]
         (fun o => esum (map (fun j => emul (tget c [nth 0 o 0; j; nth 2 o 0])
                                            (tget m [nth 1 o 0; j]))
                             (seq 0 (nth 1 (shape c) 0)))).

(** the cores of the constant tensor that [__add__] and [__sub__] build for
    a scalar [s]: ones, with [s] on the first core *)
Definition scalar_train (s : E) (sizes : list nat) : list (tensor E) :=
  match sizes with
  | [] => []
  | n0 :: rest =>
      tbuild [1; n0; 1] (fun _ => emul e1 s)
      :: map (fun n => tbuild [1; n; 1] (fun _ => emul e1 e1)) rest
  end.

(** the core [reshape(einsum(spec, a, b), sh)] *)
Definition contracted (spec : string) (sh : list nat) (a b : tensor E) : tensor E :=
  mkT sh (match einsum spec a b with Ok e => data e | Raise _ => [] end).

(** the cores of [A @ x], [A @ B] and [x @ A] *)
Definition matvec_core (a b : tensor E) : tensor E :=
  contracted "ijkl,mkp->imjlp"
             [leading a * leading b; nth 1 (shape a) 0; trailing a * trailing b] a b.

Definition matmat_core (a b : tensor E) : tensor E :=
  contracted "ijkl,mknp->imjnlp"
             [leading a * leading b; nth 1 (shape a) 0; nth 2 (shape b) 0;
              trailing a * trailing b] a b.

Definition vecmat_core (a b : tensor E) : tensor E :=
  contracted "mkp,ikjl->imjlp"
             [leading a * leading b; nth 2 (shape b) 0; trailing a * trailing b] a b.

Definition zip_cores (g : tensor E -> tensor E -> tensor E) (csa csb : list (tensor E))
  : list (tensor E) :=
  map (fun p => g (fst p) (snd p)) (combine csa csb).

End MoreVocabulary.

(** ** Concrete inputs, with integer entries *)

Module Examples.

(** the TT-tensor [[[2, 4]]] of one mode of size 2 *)
Definition core_2_4 : tensor Z := mkT [1; 2; 1] [2; 4]%Z.

(** rank-1 cores of ones *)
Definition ones_core (n : nat) : tensor Z := tones [1; n; 1].

(** a 2 x 3 tensor of rank 2 *)
Definition core_a : tensor Z := mkT [1; 2; 2] [1; 2; 3; 4]%Z.
Definition core_b : tensor Z := mkT [2; 3; 1] [1; 2; 3; 4; 5; 6]%Z.

(** a 2 x 3 tensor of rank 3 *)
Definition core_c : tensor Z := mkT [1; 2; 3] [1; 0; 2; 0; 1; 1]%Z.
Definition core_d : tensor Z := mkT [3; 3; 1] [1; 2; 3; 4; 5; 6; 7; 8; 9]%Z.

(** the identity operator on modes 2 x 3, as [eye([2, 3])] returns it *)
Definition eye_2_3 : TT Z :=
  constructed [mkT [1; 2; 2; 1] [1; 0; 0; 1]%Z;
               mkT [1; 3; 3; 1] [1; 0; 0; 0; 1; 0; 0; 0; 1]%Z].

(** [dense_matvec] and [amen_divide] are not reached on these inputs *)
Definition no_dense_matvec (cs : list (tensor Z)) (x : tensor Z) : result (tensor Z) :=
  Raise NotImplementedError.
Definition no_amen_divide (a b : TT Z) : result (list (tensor Z)) :=
  Raise NotImplementedError.

(** the two 2 x 3 examples and the one-mode example, as objects *)
Definition tt_ab : TT Z := constructed [core_a; core_b].
Definition tt_cd : TT Z := constructed [core_c; core_d].
Definition tt_2_4 : TT Z := constructed [core_2_4].

(** a vector of length 2, a vector of length 3, a 2 x 3 matrix *)
Definition vec_2 : tensor Z := mkT [2] [1; 2]%Z.
Definition vec_3 : tensor Z := mkT [3] [3; 4; 5]%Z.
Definition mat_2_3 : tensor Z := mkT [2; 3] [1; 0; 2; 0; 1; 1]%Z.

End Examples.


(** * Properties *)

Unset Implicit Arguments.

(** ** Tactics and basic facts about results *)

Ltac inv H := inversion H; subst; clear H.

(** case analysis on the next bound computation of a hypothesis *)
Ltac bind_inv H :=
  match type of H with
  | bind ?m _ = Ok _ =>
      let x := fresh "x" in
      let Hx := fresh "Hx" in
      destruct m as [x|] eqn:Hx; [simpl in H | discriminate H]
  end.

Lemma bind_ok {A B : Type} (m : result A) (k : A -> result B) (b : B) :
  bind m k = Ok b -> exists a, m = Ok a /\ k a = Ok b.
Proof. destruct m as [a|e]; simpl; intros H; [eauto | discriminate]. Qed.

Lemma bind_Ok {A B : Type} (a : A) (k : A -> result B) : bind (Ok a) k = k a.
Proof. reflexivity. Qed.

Lemma mapM_length {A B : Type} (f : A -> result B) (xs : list A) (ys : list B) :
  mapM f xs = Ok ys -> length ys = length xs.
Proof.
  revert ys; induction xs as [|x xs IH]; simpl; intros ys H.
  - inv H. reflexivity.
  - bind_inv H. bind_inv H. inv H. simpl. f_equal. apply IH. reflexivity.
Qed.

Lemma mapM_nth {A B : Type} (f : A -> result B) (xs : list A) (ys : list B) :
  mapM f xs = Ok ys ->
  forall i x, nth_error xs i = Some x ->
  exists y, nth_error ys i = Some y /\ f x = Ok y.
Proof.
  revert ys; induction xs as [|x0 xs IH]; simpl; intros ys H i x Hi.
  - destruct i; discriminate.
  - bind_inv H. bind_inv H. inv H. destruct i as [|i]; simpl in *.
    + inv Hi. eauto.
    + eapply IH; eauto.
Qed.

Lemma mapM_ext_in {A B : Type} (f g : A -> result B) (xs : list A) :
  (forall x, In x xs -> f x = g x) -> mapM f xs = mapM g xs.
Proof.
  induction xs as [|x xs IH]; simpl; intros H; [reflexivity|].
  rewrite (H x) by auto. rewrite IH by auto. reflexivity.
Qed.

Lemma item_nth_error {A : Type} (xs : list A) (i : nat) (x : A) :
  item xs i = Ok x <-> nth_error xs i = Some x.
Proof.
  unfold item. destruct (nth_error xs i); split; intros H; inv H; reflexivity.
Qed.

Lemma item_last_app {A : Type} (xs : list A) (x : A) :
  item_last (xs ++ [x]) = Ok x.
Proof.
  unfold item_last. destruct (xs ++ [x]) eqn:Heq.
  - destruct xs; discriminate.
  - rewrite <- Heq. unfold item. rewrite length_app. simpl.
    replace (length xs + 1 - 1) with (length xs) by lia.
    rewrite nth_error_app2 by lia. rewrite Nat.sub_diag. reflexivity.
Qed.

Lemma list_ne_refl (l : list nat) : list_ne l l = false.
Proof. unfold list_ne. destruct (list_eq_dec Nat.eq_dec l l); congruence. Qed.

Lemma list_ne_false (a b : list nat) : list_ne a b = false <-> a = b.
Proof.
  unfold list_ne. destruct (list_eq_dec Nat.eq_dec a b); split; congruence.
Qed.

(** ** The constructor *)

Section Constructor.

Context {E : Type} {NE : Numeric E}.

Implicit Types (c : tensor E) (cs l : list (tensor E)) (t : TT E).

Lemma foldM_app {A B : Type} (f : A -> B -> result A) (xs ys : list B) (a : A) :
  foldM f (xs ++ ys) a = (a' <- foldM f xs a ;; foldM f ys a').
Proof.
  revert a; induction xs as [|x xs IH]; simpl; intros a; [reflexivity|].
  destruct (f a x); simpl; auto.
Qed.

Lemma foldM_cons {A B : Type} (f : A -> B -> result A) (x : B) (xs : list B) (a : A) :
  foldM f (x :: xs) a = (a' <- f a x ;; foldM f xs a').
Proof. reflexivity. Qed.

Lemma last_app_single {A : Type} (xs : list A) (x d : A) : last (xs ++ [x]) d = x.
Proof. apply last_last. Qed.

Lemma item_last_last {A : Type} (xs : list A) (d : A) :
  xs <> [] -> item_last xs = Ok (last xs d).
Proof.
  intros H. destruct (exists_last H) as [ys [y ->]].
  rewrite item_last_app, last_last. reflexivity.
Qed.

Lemma item_0_nth {A : Type} (xs : list A) (d : A) :
  xs <> [] -> item xs 0 = Ok (nth 0 xs d).
Proof. destruct xs; [congruence | reflexivity]. Qed.

Lemma item_nth {A : Type} (xs : list A) (i : nat) (d : A) :
  i < length xs -> item xs i = Ok (nth i xs d).
Proof.
  intros H. unfold item. rewrite (nth_error_nth' xs d H). reflexivity.
Qed.

(** one core that passes both checks extends the three lists *)
Lemma init_step_pass n m r c :
  r <> [] -> leading c = last r 0 -> ndim c = 3 \/ ndim c = 4 ->
  init_step (n, m, r) c =
  Ok (n ++ modes_N [c], m ++ modes_M [c], r ++ [trailing c]).
Proof.
  intros Hr Hl Hd. unfold init_step, leading, trailing, ndim, modes_N, modes_M in *.
  rewrite (item_last_last r 0 Hr).
  destruct c as [sh dat]; simpl in *.
  destruct Hd as [Hd|Hd];
    repeat (destruct sh as [|? sh]; try discriminate Hd); simpl in *; subst;
    rewrite Nat.eqb_refl; simpl; rewrite ?app_nil_r; reflexivity.
Qed.

Lemma last_app_default {A : Type} (xs ys : list A) (d : A) :
  last (xs ++ ys) d = last ys (last xs d).
Proof.
  destruct ys as [|y0 ys0]; [rewrite app_nil_r; reflexivity|].
  destruct (@exists_last _ (y0 :: ys0)) as [ys' [y Hy]]; [discriminate|].
  rewrite Hy, app_assoc, !last_last. reflexivity.
Qed.

Lemma running_cons r c cs : running r (c :: cs) = running (trailing c) cs.
Proof.
  unfold running. simpl map.
  change (trailing c :: map trailing cs) with ([trailing c] ++ map trailing cs).
  rewrite last_app_default. reflexivity.
Qed.

Lemma passes_app r cs cs' :
  passes r (cs ++ cs') <-> passes r cs /\ passes (running r cs) cs'.
Proof.
  revert r; induction cs as [|c cs IH]; intros r.
  - unfold running; simpl. tauto.
  - rewrite running_cons. simpl. rewrite IH. tauto.
Qed.

Lemma modes_N_app cs cs' : modes_N (cs ++ cs') = modes_N cs ++ modes_N cs'.
Proof. apply map_app. Qed.

Lemma modes_M_app cs cs' : modes_M (cs ++ cs') = modes_M cs ++ modes_M cs'.
Proof. apply flat_map_app. Qed.

(** the loop over cores that all pass *)
Lemma init_fold_pass cs : forall n m r,
  r <> [] -> passes (last r 0) cs ->
  foldM init_step cs (n, m, r) = Ok (n ++ modes_N cs, m ++ modes_M cs, r ++ ranks cs).
Proof.
  induction cs as [|c cs IH]; intros n m r Hr Hp.
  - unfold modes_N, modes_M, ranks; simpl. rewrite !app_nil_r. reflexivity.
  - destruct Hp as (Hl & Hd & Hp). rewrite foldM_cons.
    rewrite (init_step_pass n m r c Hr Hl Hd). simpl bind.
    rewrite IH.
    + unfold modes_N, modes_M, ranks. simpl. rewrite <- !app_assoc. simpl.
      destruct (ndim c =? 3); simpl; rewrite <- ?app_assoc; reflexivity.
    + destruct r; discriminate.
    + rewrite last_last. exact Hp.
Qed.

(** the loop stops at the first core that fails a check *)
Lemma init_step_rank n m r c :
  r <> [] -> ndim c <> 0 -> leading c <> last r 0 ->
  init_step (n, m, r) c = Raise RankMismatch.
Proof.
  intros Hr Hd Hl. unfold init_step, leading, ndim in *.
  rewrite (item_last_last r 0 Hr).
  destruct c as [sh dat]; simpl in *. destruct sh as [|s0 sh]; [simpl in Hd; lia|]. simpl in *.
  destruct (Nat.eqb_spec s0 (last r 0)); [congruence | reflexivity].
Qed.

Lemma init_step_dims n m r c :
  r <> [] -> ndim c <> 0 -> leading c = last r 0 -> ndim c <> 3 -> ndim c <> 4 ->
  init_step (n, m, r) c = Raise InvalidArguments.
Proof.
  intros Hr Hd Hl H3 H4. unfold init_step, leading, ndim in *.
  rewrite (item_last_last r 0 Hr).
  destruct c as [sh dat]; simpl in *. destruct sh as [|s0 sh]; [simpl in Hd; lia|]. simpl in *.
  subst. rewrite Nat.eqb_refl. simpl.
  destruct (Nat.eqb_spec (length sh) 2); [lia|].
  destruct (Nat.eqb_spec (length sh) 3); [lia|]. reflexivity.
Qed.

Lemma running_last r0 cs : last (r0 :: ranks cs) 0 = running r0 cs.
Proof.
  unfold running, ranks. generalize (map trailing cs) as xs. intros xs.
  change (r0 :: xs) with ([r0] ++ xs). rewrite last_app_default. reflexivity.
Qed.

Lemma init_fold_stops pre c post (e : pyerr) : forall r0,
  passes r0 pre ->
  (forall n m r, r <> [] -> last r 0 = running r0 pre -> init_step (n, m, r) c = Raise e) ->
  foldM init_step (pre ++ c :: post) ([], [], [r0]) = Raise e.
Proof.
  intros r0 Hp Hc. rewrite foldM_app.
  rewrite init_fold_pass by (simpl; auto; discriminate).
  rewrite bind_Ok, foldM_cons, Hc; [reflexivity | discriminate |]. apply running_last.
Qed.

Lemma length_modes_N cs : length (modes_N cs) = length cs.
Proof. apply length_map. Qed.

Lemma length_ranks cs : length (ranks cs) = length cs.
Proof. apply length_map. Qed.

Lemma length_modes_M_le cs : length (modes_M cs) <= length cs.
Proof.
  induction cs as [|c cs IH]; simpl; [lia|].
  rewrite length_app. destruct (ndim c =? 3); simpl; lia.
Qed.

Lemma modes_M_nil cs : length (modes_M cs) = 0 <-> all3 cs.
Proof.
  unfold all3. induction cs as [|c cs IH]; simpl.
  - split; auto.
  - rewrite length_app. destruct (Nat.eqb_spec (ndim c) 3) as [H3|H3]; simpl.
    + rewrite IH. split; intros H; [constructor; auto | inv H; auto].
    + split; intros H; [lia | inv H; congruence].
Qed.

Lemma modes_M_full r cs :
  passes r cs -> (length (modes_M cs) = length cs <-> all4 cs).
Proof.
  unfold all4. revert r; induction cs as [|c cs IH]; intros r Hp; simpl.
  - split; auto.
  - destruct Hp as (_ & Hd & Hp). rewrite length_app.
    pose proof (length_modes_M_le cs) as Hle.
    destruct (Nat.eqb_spec (ndim c) 3) as [H3|H3]; simpl.
    + split; intros H; [lia | inv H; congruence].
    + split; intros H.
      * assert (Hc : ndim c = 4) by lia. constructor; [exact Hc|].
        apply (IH _ Hp). lia.
      * inversion H as [|? ? Hc4 Hrest]; subst. apply (IH _ Hp) in Hrest. lia.
Qed.

(** a turn of the loop that does not raise has passed both checks *)
Lemma init_step_ok n m r c st :
  r <> [] -> init_step (n, m, r) c = Ok st ->
  leading c = last r 0 /\ (ndim c = 3 \/ ndim c = 4).
Proof.
  intros Hr H.
  destruct (Nat.eq_dec (ndim c) 0) as [H0|H0].
  { unfold init_step, ndim in *. destruct (shape c); [discriminate H | discriminate H0]. }
  destruct (Nat.eq_dec (leading c) (last r 0)) as [Hl|Hl].
  - split; [exact Hl|].
    destruct (Nat.eq_dec (ndim c) 3) as [H3|H3]; [auto|].
    destruct (Nat.eq_dec (ndim c) 4) as [H4|H4]; [auto|].
    rewrite (init_step_dims n m r c Hr H0 Hl H3 H4) in H. discriminate.
  - rewrite (init_step_rank n m r c Hr H0 Hl) in H. discriminate.
Qed.

Lemma init_fold_ok cs : forall n m r st,
  r <> [] -> foldM init_step cs (n, m, r) = Ok st -> passes (last r 0) cs.
Proof.
  induction cs as [|c cs IH]; intros n m r st Hr H; [exact I|].
  rewrite foldM_cons in H.
  destruct (init_step (n, m, r) c) as [st1|] eqn:Hs; [|discriminate].
  destruct (init_step_ok n m r c st1 Hr Hs) as [Hl Hd].
  rewrite (init_step_pass n m r c Hr Hl Hd) in Hs. inv Hs.
  rewrite bind_Ok in H. apply IH in H; [|destruct r; discriminate].
  rewrite last_last in H. simpl. auto.
Qed.

(** the constructor, once every core has passed the loop *)
Lemma TT_init_after_loop c0 rest :
  passes (leading c0) (c0 :: rest) ->
  TT_init (SrcCores (c0 :: rest)) =
  if negb (leading c0 =? 1) || negb (running (leading c0) (c0 :: rest) =? 1)
     || (negb (length (modes_M (c0 :: rest)) =? 0)
         && negb (length (modes_M (c0 :: rest)) =? length (c0 :: rest)))
  then Raise InvalidArguments
  else Ok (constructed (c0 :: rest)).
Proof.
  intros Hp.
  assert (H0 : item (shape c0) 0 = Ok (leading c0)).
  { destruct Hp as (_ & Hd & _). unfold leading, ndim in *.
    destruct (shape c0); [destruct Hd; discriminate | reflexivity]. }
  unfold TT_init. change (item (c0 :: rest) 0) with (Ok c0).
  rewrite bind_Ok, H0, bind_Ok.
  remember (c0 :: rest) as cs eqn:Hcs.
  rewrite (init_fold_pass cs [] [] [leading c0]) by (simpl; auto; discriminate).
  rewrite bind_Ok. cbv beta iota.
  change ([leading c0] ++ ranks cs) with (leading c0 :: ranks cs).
  change (item (leading c0 :: ranks cs) 0) with (Ok (leading c0)). rewrite bind_Ok.
  rewrite (item_last_last (leading c0 :: ranks cs) 0) by discriminate.
  rewrite bind_Ok, running_last.
  change ([] ++ modes_N cs) with (modes_N cs).
  change ([] ++ modes_M cs) with (modes_M cs).
  rewrite length_modes_N. simpl (length (_ :: ranks cs)). rewrite length_ranks.
  replace (length cs + 1) with (S (length cs)) by lia.
  rewrite !Nat.eqb_refl. change (negb true) with false.
  change (false || false) with false. rewrite orb_false_l.
  destruct (negb (leading c0 =? 1) || negb (running (leading c0) cs =? 1)
            || negb (length (modes_M cs) =? 0) && negb (length (modes_M cs) =? length cs));
    [reflexivity|].
  unfold constructed, shape_of. rewrite length_modes_N.
  destruct (length (modes_M cs) =? length cs); subst cs; reflexivity.
Qed.

(** what a successful construction means *)
Lemma TT_init_ok cs t :
  TT_init (SrcCores cs) = Ok t ->
  cs <> [] /\ passes 1 cs /\ running 1 cs = 1 /\ (all3 cs \/ all4 cs) /\
  t = constructed cs /\ (is_ttm t = true <-> all4 cs) /\
  leading (hd (mkT [] []) cs) = 1.
Proof.
  intros H. destruct cs as [|c0 rest]; [discriminate H|].
  assert (Hp : passes (leading c0) (c0 :: rest)).
  { unfold TT_init in H. change (item (c0 :: rest) 0) with (Ok c0) in H.
    rewrite bind_Ok in H. apply bind_ok in H. destruct H as (r0 & Hr0 & H).
    assert (r0 = leading c0) as ->.
    { unfold leading. destruct (shape c0); [discriminate Hr0 | inv Hr0; reflexivity]. }
    apply bind_ok in H. destruct H as (st & Hst & _). destruct st as [[n m] r].
    apply init_fold_ok in Hst; [exact Hst | discriminate]. }
  rewrite (TT_init_after_loop c0 rest Hp) in H.
  assert (Hhd : hd (mkT [] []) (c0 :: rest) = c0) by reflexivity.
  remember (c0 :: rest) as cs eqn:Hcs.
  destruct (Nat.eqb_spec (leading c0) 1) as [Hl|Hl]; [|discriminate H].
  destruct (Nat.eqb_spec (running (leading c0) cs) 1) as [Hr|Hr]; [|discriminate H].
  cbn [negb orb] in H. rewrite Hl in *.
  assert (Hm : length (modes_M cs) = 0 \/ length (modes_M cs) = length cs).
  { destruct (Nat.eqb_spec (length (modes_M cs)) 0); [auto|].
    destruct (Nat.eqb_spec (length (modes_M cs)) (length cs)); [auto | discriminate H]. }
  assert (Ht : t = constructed cs).
  { destruct (negb _ && negb _); [discriminate H | inv H; reflexivity]. }
  rewrite Hhd.
  repeat split; try assumption; try (subst cs; discriminate).
  - destruct Hm as [Hm|Hm]; [left; apply modes_M_nil; exact Hm
                            | right; apply (modes_M_full 1 cs Hp); exact Hm].
  - subst t. unfold constructed; simpl is_ttm. rewrite length_modes_N.
    intros Heq. apply Nat.eqb_eq in Heq. apply (modes_M_full 1 cs Hp); exact Heq.
  - subst t. unfold constructed; simpl is_ttm. rewrite length_modes_N.
    intros Ha. apply Nat.eqb_eq. apply (modes_M_full 1 cs Hp); exact Ha.
Qed.

Lemma running_last_core r cs d : cs <> [] -> running r cs = trailing (last cs d).
Proof.
  intros H. destruct (exists_last H) as [pre [c ->]].
  unfold running. rewrite map_app. simpl. rewrite !last_last. reflexivity.
Qed.

Lemma passes_nth cs : forall r i c,
  passes r cs -> nth_error cs i = Some c ->
  leading c = nth i (r :: ranks cs) 0 /\ (ndim c = 3 \/ ndim c = 4).
Proof.
  induction cs as [|c0 cs IH]; intros r i c Hp Hi; [destruct i; discriminate|].
  destruct Hp as (Hl & Hd & Hp). destruct i as [|i]; simpl in Hi.
  - inv Hi. auto.
  - apply (IH _ _ _ Hp Hi).
Qed.

Lemma passes_first_dim r cs c :
  passes r cs -> In c cs -> ndim c <> 0.
Proof.
  intros Hp Hin. apply In_nth_error in Hin. destruct Hin as [i Hi].
  destruct (passes_nth cs r i c Hp Hi) as [_ [H|H]]; lia.
Qed.

Lemma mixed_modes_M r cs :
  passes r cs -> mixed cs ->
  length (modes_M cs) <> 0 /\ length (modes_M cs) <> length cs.
Proof.
  intros Hp [[c3 [Hin3 H3]] [c4 [Hin4 H4]]]. split; intros Hm.
  - apply modes_M_nil in Hm. unfold all3 in Hm. rewrite Forall_forall in Hm.
    specialize (Hm c4 Hin4). lia.
  - apply (modes_M_full r cs Hp) in Hm. unfold all4 in Hm. rewrite Forall_forall in Hm.
    specialize (Hm c3 Hin3). lia.
Qed.

(** the constructor before the first offending core *)
Lemma TT_init_stops c0 rest pre c post (e : pyerr) :
  c0 :: rest = pre ++ c :: post -> passes (leading c0) pre -> ndim c <> 0 ->
  (forall n m r, r <> [] -> last r 0 = running (leading c0) pre ->
                 init_step (n, m, r) c = Raise e) ->
  TT_init (SrcCores (c0 :: rest)) = Raise e.
Proof.
  intros Heq Hp Hd Hc.
  assert (H0 : item (shape c0) 0 = Ok (leading c0)).
  { assert (Hn : ndim c0 <> 0).
    { destruct pre as [|p pre]; simpl in Heq; inv Heq; [exact Hd|].
      apply (passes_first_dim _ _ _ Hp). left; reflexivity. }
    unfold leading, ndim in *. destruct (shape c0); [simpl in Hn; lia | reflexivity]. }
  unfold TT_init. change (item (c0 :: rest) 0) with (Ok c0).
  rewrite bind_Ok, H0, bind_Ok, Heq.
  rewrite (init_fold_stops pre c post e (leading c0) Hp Hc). reflexivity.
Qed.

End Constructor.

(** C4, as the code has it.  The constructor checks the cores in list order
    and stops at the first core that fails: a core (of at least one
    dimension) whose leading dimension differs from the running rank (the
    trailing dimension of the core before it) raises [RankMismatch];
    otherwise a core that is neither 3- nor 4-dimensional raises
    [InvalidArguments].  When every core passes both checks, a list that
    mixes 3- and 4-dimensional cores, or whose first leading rank or last
    trailing rank is not 1, raises [InvalidArguments].  On success the object
    is tagged as a TT-matrix exactly when the cores are 4-dimensional (and as
    a TT-tensor exactly when they are 3-dimensional). *)
Theorem TT_init_validates_in_order {E : Type} {NE : Numeric E}
    (c0 : tensor E) (rest : list (tensor E)) :
  (forall pre c post,
      c0 :: rest = pre ++ c :: post -> passes (leading c0) pre -> ndim c <> 0 ->
      leading c <> running (leading c0) pre ->
      TT_init (SrcCores (c0 :: rest)) = Raise RankMismatch) /\
  (forall pre c post,
      c0 :: rest = pre ++ c :: post -> passes (leading c0) pre -> ndim c <> 0 ->
      leading c = running (leading c0) pre -> ndim c <> 3 -> ndim c <> 4 ->
      TT_init (SrcCores (c0 :: rest)) = Raise InvalidArguments) /\
  (passes (leading c0) (c0 :: rest) ->
      mixed (c0 :: rest) \/ leading c0 <> 1 \/ trailing (last (c0 :: rest) c0) <> 1 ->
      TT_init (SrcCores (c0 :: rest)) = Raise InvalidArguments) /\
  (forall t, TT_init (SrcCores (c0 :: rest)) = Ok t ->
      (is_ttm t = true <-> all4 (c0 :: rest)) /\
      (is_ttm t = false <-> all3 (c0 :: rest))).
Proof.
  repeat split.
  - intros pre c post Heq Hp Hd Hl.
    apply (TT_init_stops c0 rest pre c post RankMismatch Heq Hp Hd).
    intros n m r Hr Hlast. apply init_step_rank; [exact Hr | exact Hd | congruence].
  - intros pre c post Heq Hp Hd Hl H3 H4.
    apply (TT_init_stops c0 rest pre c post InvalidArguments Heq Hp Hd).
    intros n m r Hr Hlast. apply init_step_dims; [exact Hr | exact Hd | congruence | exact H3 | exact H4].
  - intros Hp Hbad. rewrite (TT_init_after_loop c0 rest Hp).
    destruct Hbad as [Hmix | [Hl | Ht]].
    + destruct (mixed_modes_M _ _ Hp Hmix) as [Hm0 Hmd].
      apply Nat.eqb_neq in Hm0, Hmd. rewrite Hm0, Hmd. simpl.
      rewrite !orb_true_r. reflexivity.
    + apply Nat.eqb_neq in Hl. rewrite Hl. reflexivity.
    + rewrite (running_last_core (leading c0) (c0 :: rest) c0) by discriminate.
      apply Nat.eqb_neq in Ht. rewrite Ht. simpl. rewrite orb_true_r. reflexivity.
  - apply TT_init_ok in H. tauto.
  - apply TT_init_ok in H. tauto.
  - intros Hf. apply TT_init_ok in H.
    destruct H as (_ & _ & _ & [H3|H4] & _ & Hiff & _); [exact H3|].
    apply Hiff in H4. congruence.
  - intros H3. apply TT_init_ok in H.
    destruct H as (_ & _ & _ & _ & _ & Hiff & _).
    destruct (is_ttm t); [|reflexivity].
    assert (H4 : all4 (c0 :: rest)) by (apply Hiff; reflexivity).
    inv H3. inv H4. lia.
Qed.

(** The theorem at work on a list whose second core has a leading dimension
    5 after a trailing dimension 3, on a list with a 2-dimensional core, on a
    mixed list, and on a well-formed pair of 4-dimensional cores. *)
Lemma TT_init_validates_in_order_witness :
  TT_init (SrcCores [mkT [1; 2; 3] (repeat 0%Z 6); mkT [5; 2; 1] (repeat 0%Z 10)])
    = Raise RankMismatch /\
  TT_init (SrcCores [mkT [1; 2; 3] (repeat 0%Z 6); mkT [3; 2] (repeat 0%Z 6)])
    = Raise InvalidArguments /\
  TT_init (SrcCores [mkT [1; 2; 1] (repeat 0%Z 2); mkT [1; 2; 2; 1] (repeat 0%Z 4)])
    = Raise InvalidArguments /\
  (forall t, TT_init (SrcCores [mkT [1; 2; 2; 3] (repeat 0%Z 12);
                                mkT [3; 2; 2; 1] (repeat 0%Z 12)]) = Ok t ->
             is_ttm t = true).
Proof.
  split; [|split; [|split]].
  - apply (proj1 (TT_init_validates_in_order
                    (mkT [1; 2; 3] (repeat 0%Z 6)) [mkT [5; 2; 1] (repeat 0%Z 10)])
             [mkT [1; 2; 3] (repeat 0%Z 6)] (mkT [5; 2; 1] (repeat 0%Z 10)) []).
    + reflexivity.
    + simpl. unfold leading, trailing, ndim. simpl. auto.
    + unfold ndim. simpl. lia.
    + unfold leading, running, trailing. simpl. lia.
  - apply (proj1 (proj2 (TT_init_validates_in_order
                    (mkT [1; 2; 3] (repeat 0%Z 6)) [mkT [3; 2] (repeat 0%Z 6)]))
             [mkT [1; 2; 3] (repeat 0%Z 6)] (mkT [3; 2] (repeat 0%Z 6)) []).
    + reflexivity.
    + simpl. unfold leading, trailing, ndim. simpl. auto.
    + unfold ndim. simpl. lia.
    + reflexivity.
    + unfold ndim. simpl. lia.
    + unfold ndim. simpl. lia.
  - apply (proj1 (proj2 (proj2 (TT_init_validates_in_order
                    (mkT [1; 2; 1] (repeat 0%Z 2)) [mkT [1; 2; 2; 1] (repeat 0%Z 4)])))).
    + simpl. unfold leading, trailing, ndim. simpl. auto 10.
    + left. split; [exists (mkT [1; 2; 1] (repeat 0%Z 2))
                    | exists (mkT [1; 2; 2; 1] (repeat 0%Z 4))];
        (split; [simpl; auto | reflexivity]).
  - intros t Ht.
    apply (proj2 (proj2 (proj2 (TT_init_validates_in_order
                    (mkT [1; 2; 2; 3] (repeat 0%Z 12)) [mkT [3; 2; 2; 1] (repeat 0%Z 12)]))) t Ht).
    repeat constructor.
Defined.

(** C4 as stated fails: a list whose second core is 2-dimensional, so
    "neither 3- nor 4-dimensional", raises [RankMismatch] and not
    [InvalidArguments], because that core's leading dimension is checked
    first. *)
Lemma TT_init_dimension_clause_fails :
  (exists c : tensor Z,
      In c [mkT [1; 2; 3] (repeat 0%Z 6); mkT [5; 2] (repeat 0%Z 10)] /\
      ndim c <> 3 /\ ndim c <> 4) /\
  TT_init (SrcCores [mkT [1; 2; 3] (repeat 0%Z 6); mkT [5; 2] (repeat 0%Z 10)])
    = Raise RankMismatch /\
  TT_init (SrcCores [mkT [1; 2; 3] (repeat 0%Z 6); mkT [5; 2] (repeat 0%Z 10)])
    <> Raise InvalidArguments.
Proof.
  split; [|split].
  - exists (mkT [5; 2] (repeat 0%Z 10)). simpl. unfold ndim. simpl.
    split; [auto | split; lia].
  - reflexivity.
  - discriminate.
Qed.

(** ** Operand errors of [+], [-] and [*], and [is_cuda] *)

Section OperandErrors.

Context {E : Type} {NE : Numeric E}.

Lemma init_step_shape st (c c' : tensor E) :
  shape c = shape c' -> init_step st c = init_step st c'.
Proof. intros H. unfold init_step. destruct st as [[n m] r]. rewrite H. reflexivity. Qed.

Lemma init_fold_shapes (cs : list (tensor E)) :
  forall (cs' : list (tensor E)) (st : list nat * list nat * list nat),
  map shape cs = map shape cs' ->
  foldM init_step cs st = foldM init_step cs' st.
Proof.
  induction cs as [|c cs IH]; intros [|c' cs'] st H; try discriminate; [reflexivity|].
  simpl in H. inv H. rewrite !foldM_cons.
  rewrite (init_step_shape st c c') by assumption.
  destruct (init_step st c'); [rewrite !bind_Ok; apply IH; assumption | reflexivity].
Qed.

(** the constructor reads the cores only through their shapes *)
Lemma TT_init_shapes (cs cs' : list (tensor E)) :
  map shape cs = map shape cs' ->
  TT_init (SrcCores cs') = (t <- TT_init (SrcCores cs) ;; Ok (with_cores t cs')).
Proof.
  intros H. assert (Hlen : length cs = length cs').
  { rewrite <- (length_map shape cs), H, length_map. reflexivity. }
  unfold TT_init. destruct cs as [|c cs], cs' as [|c' cs']; try discriminate; [reflexivity|].
  rewrite <- Hlen. pose proof H as H'. simpl in H'. injection H' as Hc Hcs.
  change (item (c' :: cs') 0) with (Ok c'). change (item (c :: cs) 0) with (Ok c).
  rewrite !bind_Ok, <- Hc.
  destruct (item (shape c) 0); [rewrite !bind_Ok | reflexivity].
  rewrite <- (init_fold_shapes (c :: cs) (c' :: cs')) by assumption.
  destruct (foldM init_step (c :: cs) ([], [], [a])) as [[[n m] r]|]; [rewrite !bind_Ok | reflexivity].
  destruct (item r 0); [rewrite !bind_Ok | reflexivity].
  destruct (item_last r); [rewrite !bind_Ok | reflexivity].
  match goal with |- (if ?b then _ else _) = _ => destruct b end; [reflexivity|].
  destruct (shape_of _ _ _); reflexivity.
Qed.

Lemma TT_init_cores (cs : list (tensor E)) (t : TT E) :
  TT_init (SrcCores cs) = Ok t -> cores t = cs.
Proof. intros H. apply TT_init_ok in H. destruct H as (_ & _ & _ & _ & -> & _). reflexivity. Qed.

Lemma set_item_0 {A : Type} (x y : A) (xs : list A) :
  set_item (x :: xs) 0 y = Ok (y :: xs).
Proof. reflexivity. Qed.

End OperandErrors.

(** C9.  [is_cuda] reads the attribute [core], which no TT object has: it
    raises [AttributeError] on every object, wherever its cores are placed. *)
Theorem is_cuda_raises_AttributeError {E : Type} {NE : Numeric E}
    (placed : tensor E -> bool) (t : TT E) :
  is_cuda placed t = Raise AttributeError.
Proof. reflexivity. Qed.

(** C10.  [x * t] raises [TypeError] for every dense array [t]: the scalar
    branch evaluates [isinstance(other, tn.tensor)], whose second argument is
    a function.  Python ints and floats are accepted before that test is
    reached: on a constructed object the product is returned, with the mode
    sizes and ranks of [x]. *)
Theorem mul_by_dense_array_raises_TypeError {E : Type} {NE : Numeric E} (x : TT E) :
  (forall u : tensor E, mul x (OTensor u) = Raise TypeError) /\
  (forall (cs : list (tensor E)) (v : E),
      TT_init (SrcCores cs) = Ok x ->
      exists r, mul x (OInt v) = Ok r /\ mul x (OFloat v) = Ok r /\
                N r = N x /\ R r = R x /\ is_ttm r = is_ttm x).
Proof.
  split; [reflexivity|].
  intros cs v Hx. pose proof (TT_init_cores cs x Hx) as Hc.
  assert (Hne : cs <> []) by (apply TT_init_ok in Hx; tauto).
  destruct cs as [|c0 rest]; [congruence|].
  set (cs' := tscale v (tmap (fun y => eadd y e0) c0)
              :: map (tmap (fun y => eadd y e0)) rest).
  assert (Hsh : map shape (c0 :: rest) = map shape cs').
  { unfold cs'. simpl. f_equal. rewrite map_map. reflexivity. }
  pose proof (TT_init_shapes (c0 :: rest) cs' Hsh) as Hinit.
  rewrite Hx, bind_Ok in Hinit.
  exists (with_cores x cs'). unfold mul. rewrite Hc. simpl map.
  change (item (tmap (fun y => eadd y e0) c0 :: map (tmap (fun y => eadd y e0)) rest) 0)
    with (Ok (tmap (fun y => eadd y e0) c0)).
  rewrite bind_Ok, set_item_0, bind_Ok. fold cs'. rewrite Hinit. auto.
Qed.

(** The theorem on the 2 x 3 example: [x * 3] is returned. *)
Lemma mul_by_dense_array_raises_TypeError_witness :
  exists x r, TT_init (SrcCores [Examples.core_a; Examples.core_b]) = Ok x /\
              mul x (OTensor (mkT [] [3%Z])) = Raise TypeError /\
              mul x (OInt 3%Z) = Ok r /\ N r = N x.
Proof.
  eexists. 
  destruct (proj2 (mul_by_dense_array_raises_TypeError
                     (constructed [Examples.core_a; Examples.core_b]))
              [Examples.core_a; Examples.core_b] 3%Z eq_refl)
    as (r & Hr & _ & HN & _).
  exists r. split; [reflexivity|]. split; [reflexivity|]. split; assumption.
Defined.

(** C8, at the failing inputs.  For a list or [None] as second operand, [+]
    and [-] build the [InvalidArguments] exception without raising it, and
    [return result] then fails on the unbound local: the error that leaves
    the call is [UnboundLocalError]. *)
Theorem add_sub_unsupported_operand {E : Type} {NE : Numeric E}
    (self : TT E) (l : list E) :
  add self (OList l) = Raise UnboundLocalError /\
  sub self (OList l) = Raise UnboundLocalError /\
  add self ONone = Raise UnboundLocalError /\
  sub self ONone = Raise UnboundLocalError.
Proof. repeat split; reflexivity. Qed.

(** A string is a scalar for [np.isscalar]: on the one-core example it
    reaches the scalar branch, where the product of a dense array and a
    string raises [TypeError]. *)
Lemma add_sub_string_operand :
  exists x, TT_init (SrcCores [Examples.core_2_4]) = Ok x /\
            add x (OStr "a") = Raise TypeError /\
            sub x (OStr "a") = Raise TypeError.
Proof. eexists. split; [reflexivity|]. split; reflexivity. Qed.

(** C1, at the failing input.  A TT-tensor with mode sizes [2] plus or minus
    a TT-tensor with mode sizes [2, 3] returns a TT with mode sizes [2]: the
    shape test compares [self.N] with itself and never raises
    [ShapeMismatch]. *)
Theorem add_sub_differing_mode_sizes :
  exists a b r s,
    TT_init (SrcCores [Examples.ones_core 2]) = Ok a /\
    TT_init (SrcCores [Examples.ones_core 2; Examples.ones_core 3]) = Ok b /\
    is_ttm a = false /\ is_ttm b = false /\ N a = [2] /\ N b = [2; 3] /\
    add a (OTT b) = Ok r /\ sub a (OTT b) = Ok s /\
    N r = [2] /\ N s = [2] /\
    full r = Ok (mkT [2] [2; 2]%Z) /\ full s = Ok (mkT [2] [0; 0]%Z).
Proof.
  do 4 eexists.
  split; [reflexivity|]. split; [reflexivity|].
  split; [reflexivity|]. split; [reflexivity|].
  split; [reflexivity|]. split; [reflexivity|].
  split; [vm_compute; reflexivity|]. split; [vm_compute; reflexivity|].
  split; [reflexivity|]. split; [reflexivity|].
  split; vm_compute; reflexivity.
Qed.

(** The same holds for TT-matrices: identity operators on modes [2] and
    [2, 3] are added without any error about their shapes. *)
Lemma add_differing_mode_sizes_ttm :
  exists a b r,
    eye [2] = Ok a /\ eye [2; 3] = Ok b /\
    is_ttm a = true /\ is_ttm b = true /\ N a <> N b /\
    add (a : TT Z) (OTT b) = Ok r /\ N r = [2].
Proof.
  do 3 eexists.
  split; [reflexivity|]. split; [reflexivity|].
  split; [reflexivity|]. split; [reflexivity|].
  split; [discriminate|].
  split; [vm_compute; reflexivity | reflexivity].
Qed.

(** ** Division by a scalar *)

(** C7, on every input.  When [x / v] returns, for a Python scalar [v], the
    array that is the first core of the operand [x] holds the quotient: it
    has been overwritten in place, and the returned object lists the very
    same arrays as [x]. *)
Theorem truediv_overwrites_first_core {E : Type} {NE : Numeric E}
    (amen_divide : TT E -> TT E -> result (list (tensor E)))
    (x r : TTobj) (v : E) (h h' : heap) :
  truediv amen_divide x (OInt v) h = Ok (r, h') ->
  exists l0 c0,
    item (ref_cores x) 0 = Ok l0 /\
    item h l0 = Ok c0 /\
    item h' l0 = Ok (tdiv_scalar v c0) /\
    ref_cores r = ref_cores x.
Proof.
  unfold truediv. intros H.
  apply bind_ok in H. destruct H as (l0 & Hl0 & H).
  apply bind_ok in H. destruct H as (c0 & Hc0 & H).
  simpl idiv in H. rewrite bind_Ok in H.
  apply bind_ok in H. destruct H as (h1 & Hh1 & H).
  apply bind_ok in H. destruct H as (r1 & Hr1 & H). inv H.
  exists l0, c0. repeat split; try assumption.
  - clear - Hc0 Hh1. revert l0 h' Hc0 Hh1.
    induction h as [|a h IH]; intros l0 h' Hc0 Hh1; [destruct l0; discriminate|].
    destruct l0 as [|l0]; simpl in Hh1.
    + inv Hh1. reflexivity.
    + apply bind_ok in Hh1. destruct Hh1 as (h2 & Hh2 & Hh1). inv Hh1.
      unfold item in *. simpl in *. apply (IH l0 h2); assumption.
  - unfold TT_new in Hr1.
    apply bind_ok in Hr1. destruct Hr1 as (cs & _ & Hr1).
    apply bind_ok in Hr1. destruct Hr1 as (t & _ & Hr1). inv Hr1. reflexivity.
Qed.

(** C7, at the failing input: after [x / 2] on the one-core tensor with
    entries 2 and 4, the operand [x] itself holds 1 and 2. *)
Lemma truediv_overwrites_first_core_witness :
  exists x r h',
    TT_new [Examples.core_2_4] [0] = Ok x /\
    truediv Examples.no_amen_divide x (OInt 2%Z) [Examples.core_2_4] = Ok (r, h') /\
    view [Examples.core_2_4] x = Ok (constructed [mkT [1; 2; 1] [2; 4]%Z]) /\
    view h' x = Ok (constructed [mkT [1; 2; 1] [1; 2]%Z]) /\
    ref_cores r = ref_cores x.
Proof.
  eexists. eexists. eexists.
  split; [reflexivity|].
  split; [vm_compute; reflexivity|].
  split; [reflexivity|].
  split; [reflexivity|].
  destruct (@truediv_overwrites_first_core Z Z_Numeric Examples.no_amen_divide
              {| ref_cores := [0]; ref_M := None; ref_N := [2]; ref_R := [1; 1];
                 ref_is_ttm := false; ref_shape := Some [[2]] |}
              {| ref_cores := [0]; ref_M := None; ref_N := [2]; ref_R := [1; 1];
                 ref_is_ttm := false; ref_shape := Some [[2]] |}
              2%Z [Examples.core_2_4] [mkT [1; 2; 1] [1; 2]%Z]
              ltac:(vm_compute; reflexivity))
    as (l0 & c0 & _ & _ & _ & Hr).
  exact Hr.
Defined.

(** ** Shapes computed by the backend *)

Section BackendShapes.

Context {E : Type} {NE : Numeric E}.

(** case analysis on the size tests of an [einsum] held in hypothesis [H] *)
Ltac einsum_cases H :=
  repeat (match type of H with
          | context [if ?c then _ else _] => destruct c
          end; cbn in H);
  try discriminate H.

Ltac einsum_shape Ha Hb H :=
  unfold einsum, einsum_labels, ndim in H; rewrite Ha, Hb in H; cbn in H;
  einsum_cases H; inversion H; reflexivity.

Lemma einsum_shape_ijk_kl (a b e : tensor E) x y z w v :
  shape a = [x; y; z] -> shape b = [w; v] ->
  einsum "ijk,kl->ijl" a b = Ok e -> shape e = [x; y; v].
Proof. intros Ha Hb H. einsum_shape Ha Hb H. Qed.

Lemma einsum_shape_ij_jkl (a b e : tensor E) x y w n v :
  shape a = [x; y] -> shape b = [w; n; v] ->
  einsum "ij,jkl->ikl" a b = Ok e -> shape e = [x; n; v].
Proof. intros Ha Hb H. einsum_shape Ha Hb H. Qed.

Lemma einsum_shape_ijok_kl (a b e : tensor E) x y o z w v :
  shape a = [x; y; o; z] -> shape b = [w; v] ->
  einsum "ijok,kl->ijol" a b = Ok e -> shape e = [x; y; o; v].
Proof. intros Ha Hb H. einsum_shape Ha Hb H. Qed.

Lemma einsum_shape_ij_jkml (a b e : tensor E) x y w n m v :
  shape a = [x; y] -> shape b = [w; n; m; v] ->
  einsum "ij,jkml->ikml" a b = Ok e -> shape e = [x; n; m; v].
Proof. intros Ha Hb H. einsum_shape Ha Hb H. Qed.

Lemma norm_ix_All n : norm_ix n All = Ok (Rng 0 1 n).
Proof.
  unfold norm_ix, All. change (Z.to_nat 1) with 1.
  change ((1 <=? 0)%Z) with false. cbv iota beta. do 2 f_equal.
  destruct (Nat.ltb_spec 0 n); [rewrite Nat.div_1_r; lia | lia].
Qed.

Lemma norm_ix_0 n : 0 < n -> norm_ix n (Ix 0) = Ok (Fix 0).
Proof.
  intros H. unfold norm_ix. destruct n; [lia|]. reflexivity.
Qed.

(** [c[:, 0, :]] on a core with a mode of size 1 *)
Lemma tindex_mode0_shape (c m : tensor E) a b :
  shape c = [a; 1; b] ->
  tindex c [All; Ix 0; All] = Ok m -> shape m = [a; b].
Proof.
  intros Hc H. unfold tindex, ndim in H. rewrite Hc in H.
  cbn [mapM combine app repeat Nat.sub fst snd length Nat.ltb Nat.leb] in H.
  rewrite !norm_ix_All, norm_ix_0 in H by lia. simpl in H. inversion H. reflexivity.
Qed.

(** [c[:, 0, 0, :]] on a TT-matrix core with both modes of size 1 *)
Lemma tindex_mode00_shape (c m : tensor E) a b :
  shape c = [a; 1; 1; b] ->
  tindex c [All; Ix 0; Ix 0; All] = Ok m -> shape m = [a; b].
Proof.
  intros Hc H. unfold tindex, ndim in H. rewrite Hc in H.
  cbn [mapM combine app repeat Nat.sub fst snd length Nat.ltb Nat.leb] in H.
  rewrite !norm_ix_All, norm_ix_0 in H by lia. simpl in H. inversion H. reflexivity.
Qed.

End BackendShapes.

(** ** [reduce_dims] keeps the chain of ranks *)

Section ReduceDims.

Context {E : Type} {NE : Numeric E}.

Implicit Types (c : tensor E) (cs cn l : list (tensor E)).

Lemma chain_app k r l l' :
  chain k r (l ++ l') <-> chain k r l /\ chain k (running r l) l'.
Proof.
  revert r; induction l as [|c l IH]; intros r.
  - unfold running; simpl. tauto.
  - rewrite running_cons. simpl. rewrite IH. tauto.
Qed.

Lemma running_single r l c : running r (l ++ [c]) = trailing c.
Proof. unfold running. rewrite map_app. simpl. apply last_last. Qed.

Lemma running_app r l l' : running r (l ++ l') = running (running r l) l'.
Proof. unfold running. rewrite map_app. apply last_app_default. Qed.

Lemma chain_of_passes k r cs :
  passes r cs -> Forall (fun c => ndim c = k) cs -> chain k r cs.
Proof.
  revert r; induction cs as [|c cs IH]; intros r Hp Hk; [exact I|].
  destruct Hp as (Hl & _ & Hp). inversion Hk; subst. simpl. auto.
Qed.

Lemma shape3 c :
  ndim c = 3 -> shape c = [leading c; nth 1 (shape c) 0; trailing c].
Proof.
  unfold ndim, leading, trailing. destruct (shape c) as [|a [|b [|d [|? ?]]]];
    intros H; try discriminate H. reflexivity.
Qed.

Lemma shape4 c :
  ndim c = 4 ->
  shape c = [leading c; nth 1 (shape c) 0; nth 2 (shape c) 0; trailing c].
Proof.
  unfold ndim, leading, trailing. destruct (shape c) as [|a [|b [|d [|f [|? ?]]]]];
    intros H; try discriminate H. reflexivity.
Qed.

Lemma skipn_nth_error {A : Type} (xs : list A) : forall i x,
  nth_error xs i = Some x -> skipn i xs = x :: skipn (S i) xs.
Proof.
  induction xs as [|y xs IH]; intros [|i] x H; try discriminate H.
  - inv H. reflexivity.
  - simpl in H. apply IH in H. exact H.
Qed.

Lemma set_item_ok {A : Type} (xs : list A) : forall i v xs',
  set_item xs i v = Ok xs' ->
  length xs' = length xs /\
  skipn i xs' = v :: skipn (S i) xs /\
  firstn i xs' = firstn i xs.
Proof.
  induction xs as [|y xs IH]; intros [|i] v xs' H; try discriminate H.
  - inv H. auto.
  - simpl in H. apply bind_ok in H. destruct H as (r & Hr & H). inv H.
    apply IH in Hr. destruct Hr as (Hlen & Hsk & Hfi).
    simpl. rewrite Hlen, Hfi. auto.
Qed.

Lemma set_item_last {A : Type} (xs : list A) (x v : A) (xs' : list A) :
  set_item (xs ++ [x]) (length (xs ++ [x]) - 1) v = Ok xs' -> xs' = xs ++ [v].
Proof.
  rewrite length_app. simpl. replace (length xs + 1 - 1) with (length xs) by lia.
  revert xs'. induction xs as [|y xs IH]; intros xs' H; simpl in *.
  - inv H. reflexivity.
  - apply bind_ok in H. destruct H as (r & Hr & H). inv H.
    f_equal. apply IH. exact Hr.
Qed.

Lemma item_last_inv {A : Type} (xs : list A) (x : A) :
  item_last xs = Ok x -> exists xs0, xs = xs0 ++ [x].
Proof.
  intros H. destruct xs as [|y ys]; [discriminate H|].
  destruct (@exists_last _ (y :: ys)) as [xs0 [z Hz]]; [discriminate|].
  rewrite Hz in *. rewrite item_last_app in H. inv H. eauto.
Qed.

Lemma dim_shape c k n :
  nth_error (shape c) k = Some n -> dim c k = Ok n.
Proof. intros H. unfold dim, item. rewrite H. reflexivity. Qed.

(** the append turn: core [c] is kept *)
Lemma reduce_inv_append k d i cs cn c :
  reduce_inv k d i (cs, cn) -> nth_error cs i = Some c ->
  reduce_inv k d (S i) (cs, cn ++ [c]).
Proof.
  intros (Hlen & Hcn & Hch & Hrun) Hi. cbn [fst snd] in *.
  rewrite (skipn_nth_error cs i c Hi) in Hch, Hrun.
  destruct Hch as (Hk & Hl & Hch). rewrite running_cons in Hrun.
  unfold reduce_inv; cbn [fst snd]. rewrite running_single.
  repeat split; try assumption.
  apply chain_app. split; [exact Hcn|]. simpl. auto.
Qed.

(** the turn that folds a core into the last kept core, whose trailing
    dimension becomes that of the folded core *)
Lemma reduce_inv_left k d i cs cn0 c (l e : tensor E) :
  reduce_inv k d i (cs, cn0 ++ [l]) -> nth_error cs i = Some c ->
  ndim e = k -> leading e = leading l -> trailing e = trailing c ->
  reduce_inv k d (S i) (cs, cn0 ++ [e]).
Proof.
  intros (Hlen & Hcn & Hch & Hrun) Hi He Hle Hte. cbn [fst snd] in *.
  rewrite (skipn_nth_error cs i c Hi) in Hch, Hrun.
  destruct Hch as (Hk & Hl & Hch). rewrite running_cons in Hrun.
  apply chain_app in Hcn. destruct Hcn as (Hcn0 & Hk' & Hl' & _).
  unfold reduce_inv; cbn [fst snd]. rewrite running_single, Hte.
  repeat split; try assumption.
  apply chain_app. split; [exact Hcn0|]. simpl. rewrite Hle. auto.
Qed.

(** the turn that folds a core into the next one, whose leading dimension
    becomes that of the folded core *)
Lemma reduce_inv_right k d i cs cs' cn c (nx e : tensor E) :
  reduce_inv k d i (cs, cn) -> nth_error cs i = Some c ->
  nth_error cs (S i) = Some nx -> set_item cs (S i) e = Ok cs' ->
  ndim e = k -> leading e = leading c -> trailing e = trailing nx ->
  reduce_inv k d (S i) (cs', cn).
Proof.
  intros (Hlen & Hcn & Hch & Hrun) Hi Hnx Hset He Hle Hte. cbn [fst snd] in *.
  rewrite (skipn_nth_error cs i c Hi) in Hch, Hrun.
  rewrite (skipn_nth_error cs (S i) nx Hnx) in Hch, Hrun.
  destruct Hch as (Hk & Hl & Hk' & Hl' & Hch). rewrite !running_cons in Hrun.
  destruct (set_item_ok cs (S i) e cs' Hset) as (Hlen' & Hsk & _).
  unfold reduce_inv; cbn [fst snd]. rewrite Hsk, running_cons. cbn [chain].
  rewrite Hte. repeat split; try assumption; congruence.
Qed.

Lemma shape_lead_trail3 (e : tensor E) a n b :
  shape e = [a; n; b] -> ndim e = 3 /\ leading e = a /\ trailing e = b.
Proof. intros H. unfold ndim, leading, trailing. rewrite H. auto. Qed.

Lemma shape_lead_trail4 (e : tensor E) a m n b :
  shape e = [a; m; n; b] -> ndim e = 4 /\ leading e = a /\ trailing e = b.
Proof. intros H. unfold ndim, leading, trailing. rewrite H. auto. Qed.

(** folding core [c] (mode size 1) into the next core, tensor case *)
Lemma reduce_right3 d i cs cn c st' :
  reduce_inv 3 d i (cs, cn) -> nth_error cs i = Some c ->
  shape c = [leading c; 1; trailing c] ->
  (m <- tindex c [All; Ix 0; All] ;;
   nx <- item cs (i + 1) ;;
   e <- einsum "ij,jkl->ikl" m nx ;;
   cs' <- set_item cs (i + 1) e ;;
   Ok (cs', cn)) = Ok st' ->
  reduce_inv 3 d (S i) st'.
Proof.
  intros Hinv Hc Hsh H. rewrite Nat.add_1_r in H.
  apply bind_ok in H. destruct H as (m & Hm & H).
  apply bind_ok in H. destruct H as (nx & Hnx & H). apply item_nth_error in Hnx.
  apply bind_ok in H. destruct H as (e & He & H).
  apply bind_ok in H. destruct H as (cs' & Hset & H). inv H.
  pose proof Hinv as (_ & _ & Hch & _). cbn [fst snd] in Hch.
  rewrite (skipn_nth_error cs i c Hc), (skipn_nth_error cs (S i) nx Hnx) in Hch.
  destruct Hch as (_ & _ & Hk & Hl & _).
  pose proof (tindex_mode0_shape c m _ _ Hsh Hm) as Hms.
  pose proof (einsum_shape_ij_jkl m nx e _ _ _ _ _ Hms (shape3 nx Hk) He) as Hes.
  destruct (shape_lead_trail3 e _ _ _ Hes) as (He3 & Hle & Hte).
  apply (reduce_inv_right 3 d i cs cs' cn c nx e); assumption.
Qed.

(** folding core [c] (mode size 1) into the last kept core, tensor case *)
Lemma reduce_left3 d i cs cn c st' :
  reduce_inv 3 d i (cs, cn) -> nth_error cs i = Some c ->
  shape c = [leading c; 1; trailing c] ->
  (l <- item_last cn ;;
   m <- tindex c [All; Ix 0; All] ;;
   e <- einsum "ijk,kl->ijl" l m ;;
   cn' <- set_item cn (length cn - 1) e ;;
   Ok (cs, cn')) = Ok st' ->
  reduce_inv 3 d (S i) st'.
Proof.
  intros Hinv Hc Hsh H.
  apply bind_ok in H. destruct H as (l & Hl & H).
  apply item_last_inv in Hl. destruct Hl as (cn0 & ->).
  apply bind_ok in H. destruct H as (m & Hm & H).
  apply bind_ok in H. destruct H as (e & He & H).
  apply bind_ok in H. destruct H as (cn' & Hset & H). inv H.
  apply set_item_last in Hset. subst cn'.
  pose proof Hinv as (_ & Hcn & _ & _). cbn [fst snd] in Hcn.
  apply chain_app in Hcn. destruct Hcn as (_ & Hk & _ & _).
  pose proof (tindex_mode0_shape c m _ _ Hsh Hm) as Hms.
  pose proof (einsum_shape_ijk_kl l m e _ _ _ _ _ (shape3 l Hk) Hms He) as Hes.
  destruct (shape_lead_trail3 e _ _ _ Hes) as (He3 & Hle & Hte).
  apply (reduce_inv_left 3 d i cs cn0 c l e); assumption.
Qed.

Lemma reduce_step_inv d i cs cn st' :
  reduce_inv 3 d i (cs, cn) -> i < d ->
  reduce_step d (cs, cn) i = Ok st' -> reduce_inv 3 d (S i) st'.
Proof.
  intros Hinv Hid H. pose proof Hinv as (Hlen & _ & Hch & _). cbn [fst snd] in *.
  unfold reduce_step in H.
  apply bind_ok in H. destruct H as (c & Hc & H). apply item_nth_error in Hc.
  rewrite (skipn_nth_error cs i c Hc) in Hch. destruct Hch as (Hk & _ & _).
  pose proof (shape3 c Hk) as Hsh.
  assert (H0 : dim c 0 = Ok (leading c)) by (unfold dim; rewrite Hsh; reflexivity).
  assert (H1 : dim c 1 = Ok (nth 1 (shape c) 0)) by (unfold dim; rewrite Hsh at 1; reflexivity).
  assert (H2 : dim c 2 = Ok (trailing c)) by (unfold dim; rewrite Hsh; reflexivity).
  rewrite H1, bind_Ok in H.
  destruct (Nat.eqb_spec (nth 1 (shape c) 0) 1) as [Hone|Hone].
  - rewrite Hone in Hsh. rewrite H0, bind_Ok, H2, bind_Ok in H.
    destruct ((trailing c <? leading c) || (i =? d - 1)).
    + destruct (0 <? length cn).
      * apply (reduce_left3 d i cs cn c st'); assumption.
      * destruct (negb (i =? d - 1)).
        -- apply (reduce_right3 d i cs cn c st'); assumption.
        -- inv H. apply reduce_inv_append; assumption.
    + apply (reduce_right3 d i cs cn c st'); assumption.
  - inv H. apply reduce_inv_append; assumption.
Qed.

(** the same three turns on TT-matrix cores *)
Lemma reduce_right4 d i cs cn c st' :
  reduce_inv 4 d i (cs, cn) -> nth_error cs i = Some c ->
  shape c = [leading c; 1; 1; trailing c] ->
  (m <- tindex c [All; Ix 0; Ix 0; All] ;;
   nx <- item cs (i + 1) ;;
   e <- einsum "ij,jkml->ikml" m nx ;;
   cs' <- set_item cs (i + 1) e ;;
   Ok (cs', cn)) = Ok st' ->
  reduce_inv 4 d (S i) st'.
Proof.
  intros Hinv Hc Hsh H. rewrite Nat.add_1_r in H.
  apply bind_ok in H. destruct H as (m & Hm & H).
  apply bind_ok in H. destruct H as (nx & Hnx & H). apply item_nth_error in Hnx.
  apply bind_ok in H. destruct H as (e & He & H).
  apply bind_ok in H. destruct H as (cs' & Hset & H). inv H.
  pose proof Hinv as (_ & _ & Hch & _). cbn [fst snd] in Hch.
  rewrite (skipn_nth_error cs i c Hc), (skipn_nth_error cs (S i) nx Hnx) in Hch.
  destruct Hch as (_ & _ & Hk & Hl & _).
  pose proof (tindex_mode00_shape c m _ _ Hsh Hm) as Hms.
  pose proof (einsum_shape_ij_jkml m nx e _ _ _ _ _ _ Hms (shape4 nx Hk) He) as Hes.
  destruct (shape_lead_trail4 e _ _ _ _ Hes) as (He4 & Hle & Hte).
  apply (reduce_inv_right 4 d i cs cs' cn c nx e); assumption.
Qed.

Lemma reduce_left4 d i cs cn c st' :
  reduce_inv 4 d i (cs, cn) -> nth_error cs i = Some c ->
  shape c = [leading c; 1; 1; trailing c] ->
  (l <- item_last cn ;;
   m <- tindex c [All; Ix 0; Ix 0; All] ;;
   e <- einsum "ijok,kl->ijol" l m ;;
   cn' <- set_item cn (length cn - 1) e ;;
   Ok (cs, cn')) = Ok st' ->
  reduce_inv 4 d (S i) st'.
Proof.
  intros Hinv Hc Hsh H.
  apply bind_ok in H. destruct H as (l & Hl & H).
  apply item_last_inv in Hl. destruct Hl as (cn0 & ->).
  apply bind_ok in H. destruct H as (m & Hm & H).
  apply bind_ok in H. destruct H as (e & He & H).
  apply bind_ok in H. destruct H as (cn' & Hset & H). inv H.
  apply set_item_last in Hset. subst cn'.
  pose proof Hinv as (_ & Hcn & _ & _). cbn [fst snd] in Hcn.
  apply chain_app in Hcn. destruct Hcn as (_ & Hk & _ & _).
  pose proof (tindex_mode00_shape c m _ _ Hsh Hm) as Hms.
  pose proof (einsum_shape_ijok_kl l m e _ _ _ _ _ _ (shape4 l Hk) Hms He) as Hes.
  destruct (shape_lead_trail4 e _ _ _ _ Hes) as (He4 & Hle & Hte).
  apply (reduce_inv_left 4 d i cs cn0 c l e); assumption.
Qed.

Lemma reduce_step_ttm_inv d i cs cn st' :
  reduce_inv 4 d i (cs, cn) -> i < d ->
  reduce_step_ttm d (cs, cn) i = Ok st' -> reduce_inv 4 d (S i) st'.
Proof.
  intros Hinv Hid H. pose proof Hinv as (Hlen & _ & Hch & _). cbn [fst snd] in *.
  unfold reduce_step_ttm in H.
  apply bind_ok in H. destruct H as (c & Hc & H). apply item_nth_error in Hc.
  rewrite (skipn_nth_error cs i c Hc) in Hch. destruct Hch as (Hk & _ & _).
  pose proof (shape4 c Hk) as Hsh.
  assert (H0 : dim c 0 = Ok (leading c)) by (unfold dim; rewrite Hsh; reflexivity).
  assert (H1 : dim c 1 = Ok (nth 1 (shape c) 0)) by (unfold dim; rewrite Hsh at 1; reflexivity).
  assert (H2 : dim c 2 = Ok (nth 2 (shape c) 0)) by (unfold dim; rewrite Hsh at 1; reflexivity).
  assert (H3 : dim c 3 = Ok (trailing c)) by (unfold dim; rewrite Hsh; reflexivity).
  rewrite H1, bind_Ok in H.
  destruct (Nat.eqb_spec (nth 1 (shape c) 0) 1) as [Hone|Hone].
  - rewrite H2, bind_Ok in H. cbn [andb] in H.
    destruct (Nat.eqb_spec (nth 2 (shape c) 0) 1) as [Htwo|Htwo].
    + rewrite Hone, Htwo in Hsh. rewrite H0, bind_Ok, H3, bind_Ok in H.
      destruct ((trailing c <? leading c) || (i =? d - 1)).
      * destruct (0 <? length cn).
        -- apply (reduce_left4 d i cs cn c st'); assumption.
        -- destruct (negb (i =? d - 1)).
           ++ apply (reduce_right4 d i cs cn c st'); assumption.
           ++ inv H. apply reduce_inv_append; assumption.
      * apply (reduce_right4 d i cs cn c st'); assumption.
    + inv H. apply reduce_inv_append; assumption.
  - rewrite bind_Ok in H. cbn [andb] in H. inv H. apply reduce_inv_append; assumption.
Qed.

(** the whole loop *)
Lemma reduce_fold_inv k d step :
  (forall i cs cn st', reduce_inv k d i (cs, cn) -> i < d ->
                       step (cs, cn) i = Ok st' -> reduce_inv k d (S i) st') ->
  forall n i st st',
    i + n = d -> reduce_inv k d i st ->
    foldM step (seq i n) st = Ok st' -> reduce_inv k d d st'.
Proof.
  intros Hstep. induction n as [|n IH]; intros i st st' Hd Hinv H.
  - simpl in H. injection H as Hst. rewrite <- Hst.
    assert (Hi : i = d) by lia. rewrite <- Hi at 2. exact Hinv.
  - simpl seq in H. rewrite foldM_cons in H.
    apply bind_ok in H. destruct H as (st1 & Hs1 & H). destruct st as [cs cn].
    apply (IH (S i) st1 st'); [lia | | exact H].
    apply (Hstep i cs cn st1); [exact Hinv | lia | exact Hs1].
Qed.

Lemma mapM_dim_chain k j (f : tensor E -> nat) cn : forall r,
  chain k r cn ->
  (forall c, ndim c = k -> dim c j = Ok (f c)) ->
  mapM (fun c => dim c j) cn = Ok (map f cn).
Proof.
  induction cn as [|c cn IH]; intros r Hch Hf; [reflexivity|].
  destruct Hch as (Hk & _ & Hch). simpl. rewrite (Hf c Hk), bind_Ok.
  rewrite (IH _ Hch Hf), bind_Ok. reflexivity.
Qed.

Lemma chain_nth k cs : forall r i c,
  2 <= k -> chain k r cs -> nth_error cs i = Some c ->
  item (shape c) 0 = item (r :: ranks cs) i /\
  item_last (shape c) = item (r :: ranks cs) (i + 1).
Proof.
  induction cs as [|c0 cs IH]; intros r i c Hk Hch Hi; [destruct i; discriminate|].
  destruct Hch as (Hd & Hl & Hch). destruct i as [|i]; simpl in Hi.
  - inv Hi. unfold ndim, leading, trailing in *.
    destruct (shape c) as [|a sh] eqn:Hs; [simpl in Hk; lia|].
    split; [reflexivity|].
    rewrite (item_last_last (a :: sh) 0) by discriminate.
    unfold ranks. simpl. unfold trailing. rewrite Hs. reflexivity.
  - destruct (IH (trailing c0) i c Hk Hch Hi) as [H1 H2]. split; assumption.
Qed.

(** the invariants follow from a chain of cores from rank 1 to rank 1 *)
Lemma chain_invariants k (t : TT E) :
  2 <= k -> chain k 1 (cores t) -> running 1 (cores t) = 1 ->
  R t = 1 :: ranks (cores t) -> length (N t) = length (cores t) ->
  invariants t.
Proof.
  intros Hk2 Hch Hrun HR HN. unfold invariants. rewrite HR.
  split; [simpl; rewrite length_ranks; lia|].
  split; [reflexivity|].
  split.
  { rewrite (item_last_last (1 :: ranks (cores t)) 0) by discriminate.
    rewrite running_last, Hrun. reflexivity. }
  split; [symmetry; exact HN|].
  intros i c Hi. apply (chain_nth k (cores t) 1 i c Hk2 Hch Hi).
Qed.

(** C2 for the constructor: every object it returns satisfies the invariants *)
Lemma TT_init_invariants (cs : list (tensor E)) (t : TT E) :
  TT_init (SrcCores cs) = Ok t -> invariants t.
Proof.
  intros H. apply TT_init_ok in H.
  destruct H as (Hne & Hp & Hrun & Hk & -> & _ & Hl).
  destruct Hk as [H3|H4].
  - apply (chain_invariants 3); simpl; try lia; try assumption.
    + apply chain_of_passes; assumption.
    + rewrite Hl. reflexivity.
    + apply length_modes_N.
  - apply (chain_invariants 4); simpl; try lia; try assumption.
    + apply chain_of_passes; assumption.
    + rewrite Hl. reflexivity.
    + apply length_modes_N.
Qed.

(** [reduce_dims] on a constructed object returns an object that satisfies
    the invariants *)
Lemma reduce_dims_invariants (cs : list (tensor E)) (t t' : TT E) :
  TT_init (SrcCores cs) = Ok t -> reduce_dims t = Ok t' -> invariants t'.
Proof.
  intros Hinit H. apply TT_init_ok in Hinit.
  destruct Hinit as (Hne & Hp & Hrun & Hk & -> & Httm & Hl).
  unfold reduce_dims in H.
  destruct (is_ttm (constructed cs)) eqn:Hm.
  - assert (H4 : all4 cs) by (apply Httm; reflexivity).
    apply bind_ok in H. destruct H as ([cs1 cn] & Hfold & H).
    assert (Hinv : reduce_inv 4 (length cs) (length cs) (cs1, cn)).
    { unfold range in Hfold. simpl N in Hfold. simpl cores in Hfold.
      rewrite length_modes_N, Nat.sub_0_r in Hfold.
      apply (reduce_fold_inv 4 (length cs) (reduce_step_ttm (length cs))
               (reduce_step_ttm_inv (length cs)) (length cs) 0 (cs, []) (cs1, cn));
        [lia | | exact Hfold].
      unfold reduce_inv; simpl. unfold running; simpl.
      repeat split; try assumption. apply chain_of_passes; assumption. }
    destruct Hinv as (Hlen & Hcn & _ & Hr). cbn [fst snd] in *.
    rewrite <- Hlen, skipn_all in Hr. unfold running at 1 in Hr. simpl in Hr.
    rewrite (mapM_dim_chain 4 1 (fun c => nth 1 (shape c) 0) cn 1 Hcn) in H
      by (intros c Hc; unfold dim; rewrite (shape4 c Hc) at 1; reflexivity).
    rewrite bind_Ok in H.
    rewrite (mapM_dim_chain 4 2 (fun c => nth 2 (shape c) 0) cn 1 Hcn) in H
      by (intros c Hc; unfold dim; rewrite (shape4 c Hc) at 1; reflexivity).
    rewrite bind_Ok in H.
    rewrite (mapM_dim_chain 4 3 trailing cn 1 Hcn) in H
      by (intros c Hc; unfold dim; rewrite (shape4 c Hc); reflexivity).
    rewrite bind_Ok in H. simpl in H. inv H.
    apply (chain_invariants 4); simpl; try lia; try assumption; try reflexivity.
    apply length_map.
  - assert (H3 : all3 cs).
    { destruct Hk as [H3|H4]; [exact H3|]. apply Httm in H4. congruence. }
    apply bind_ok in H. destruct H as ([cs1 cn] & Hfold & H).
    assert (Hinv : reduce_inv 3 (length cs) (length cs) (cs1, cn)).
    { unfold range in Hfold. simpl N in Hfold. simpl cores in Hfold.
      rewrite length_modes_N, Nat.sub_0_r in Hfold.
      apply (reduce_fold_inv 3 (length cs) (reduce_step (length cs))
               (reduce_step_inv (length cs)) (length cs) 0 (cs, []) (cs1, cn));
        [lia | | exact Hfold].
      unfold reduce_inv; simpl. unfold running; simpl.
      repeat split; try assumption. apply chain_of_passes; assumption. }
    destruct Hinv as (Hlen & Hcn & _ & Hr). cbn [fst snd] in *.
    rewrite <- Hlen, skipn_all in Hr. unfold running at 1 in Hr. simpl in Hr.
    rewrite (mapM_dim_chain 3 1 (fun c => nth 1 (shape c) 0) cn 1 Hcn) in H
      by (intros c Hc; unfold dim; rewrite (shape3 c Hc) at 1; reflexivity).
    rewrite bind_Ok in H.
    rewrite (mapM_dim_chain 3 2 trailing cn 1 Hcn) in H
      by (intros c Hc; unfold dim; rewrite (shape3 c Hc); reflexivity).
    rewrite bind_Ok in H. simpl in H. inv H.
    apply (chain_invariants 3); simpl; try lia; try assumption; try reflexivity.
    apply length_map.
Qed.

End ReduceDims.

(** ** Invariants of the objects the operators return *)

(** walk through the computation held in hypothesis [H], which returned *)
Ltac crunch H :=
  lazymatch type of H with
  | Ok _ = Ok _ => inversion H; subst; clear H
  | Raise _ = Ok _ => discriminate H
  | bind ?m _ = Ok _ =>
      let x := fresh "x" in
      let Hx := fresh "Hx" in
      destruct m as [x|] eqn:Hx;
      [rewrite bind_Ok in H; cbv beta in H; crunch H | discriminate H]
  | (if ?b then _ else _) = Ok _ => destruct b; crunch H
  | match ?o with _ => _ end = Ok _ => destruct o; crunch H
  | _ => idtac
  end.

(** C2.  Every TT object returned by [+], [*], [@], [kron], [**] and slicing
    satisfies the structural invariants: [len(R) == len(N) + 1],
    [R[0] == R[-1] == 1], one core per mode, and core [i] has leading
    dimension [R[i]] and trailing dimension [R[i+1]]. *)
Theorem operators_return_invariants {E : Type} {NE : Numeric E}
    (dense_matvec : list (tensor E) -> tensor E -> result (tensor E))
    (self : TT E) (other first second : operand E) (index : pyindex) (t : TT E) :
  add self other = Ok t \/
  mul self other = Ok t \/
  matmul dense_matvec self other = Ok (RTT t) \/
  kron first second = Ok t \/
  pow self other = Ok t \/
  getitem self index = Ok (RTT t) ->
  invariants t.
Proof.
  intros [H | [H | [H | [H | [H | H]]]]].
  - unfold add in H. crunch H; eauto using TT_init_invariants.
  - unfold mul in H. crunch H; eauto using TT_init_invariants.
  - unfold matmul in H. crunch H; eauto using TT_init_invariants.
  - unfold kron in H. crunch H; eauto using TT_init_invariants.
  - unfold pow, kron in H. crunch H; eauto using TT_init_invariants.
  - unfold getitem in H. crunch H; eauto using reduce_dims_invariants.
Qed.

(** The theorem on the 2 x 3 example [A] and the identity operator: [A + A],
    [A * A], [eye @ A], [A ** A] and [A[:, 1:]]. *)
Lemma operators_return_invariants_witness :
  exists t1 t2 t3 t4 t5,
    add (constructed [Examples.core_a; Examples.core_b])
        (OTT (constructed [Examples.core_a; Examples.core_b])) = Ok t1 /\
    invariants t1 /\
    mul (constructed [Examples.core_a; Examples.core_b])
        (OTT (constructed [Examples.core_a; Examples.core_b])) = Ok t2 /\
    invariants t2 /\
    eye [2; 3] = Ok Examples.eye_2_3 /\
    matmul Examples.no_dense_matvec Examples.eye_2_3
        (OTT (constructed [Examples.core_a; Examples.core_b])) = Ok (RTT t3) /\
    invariants t3 /\
    pow (constructed [Examples.core_a; Examples.core_b])
        (OTT (constructed [Examples.core_a; Examples.core_b])) = Ok t4 /\
    invariants t4 /\
    getitem (constructed [Examples.core_a; Examples.core_b])
        (KTuple [IItem All; IItem (Sl (Some 1%Z) None None)]) = Ok (RTT t5) /\
    invariants t5.
Proof.
  do 5 eexists.
  split; [vm_compute; reflexivity|].
  split.
  { apply (@operators_return_invariants Z Z_Numeric Examples.no_dense_matvec
             (constructed [Examples.core_a; Examples.core_b])
             (OTT (constructed [Examples.core_a; Examples.core_b]))
             ONone ONone KEllipsis).
    left. vm_compute. reflexivity. }
  split; [vm_compute; reflexivity|].
  split.
  { apply (@operators_return_invariants Z Z_Numeric Examples.no_dense_matvec
             (constructed [Examples.core_a; Examples.core_b])
             (OTT (constructed [Examples.core_a; Examples.core_b]))
             ONone ONone KEllipsis).
    right. left. vm_compute. reflexivity. }
  split; [vm_compute; reflexivity|].
  split; [vm_compute; reflexivity|].
  split.
  { apply (@operators_return_invariants Z Z_Numeric Examples.no_dense_matvec
             Examples.eye_2_3 (OTT (constructed [Examples.core_a; Examples.core_b]))
             ONone ONone KEllipsis).
    right. right. left. vm_compute. reflexivity. }
  split; [vm_compute; reflexivity|].
  split.
  { apply (@operators_return_invariants Z Z_Numeric Examples.no_dense_matvec
             (constructed [Examples.core_a; Examples.core_b])
             (OTT (constructed [Examples.core_a; Examples.core_b]))
             ONone ONone KEllipsis).
    right. right. right. right. left. vm_compute. reflexivity. }
  split; [vm_compute; reflexivity|].
  apply (@operators_return_invariants Z Z_Numeric Examples.no_dense_matvec
           (constructed [Examples.core_a; Examples.core_b])
           ONone ONone ONone
           (KTuple [IItem All; IItem (Sl (Some 1%Z) None None)])).
  right. right. right. right. right. vm_compute. reflexivity.
Defined.

(** ** Indices, offsets and entries of dense arrays *)

Section DenseFacts.

Context {E : Type} {NE : Numeric E}.

Lemma length_indices sh : length (indices sh) = prod sh.
Proof.
  induction sh as [|n sh IH]; [reflexivity|]. simpl.
  rewrite <- IH. generalize 0 as s.
  induction n as [|n IHn]; intros s; simpl; [reflexivity|].
  rewrite length_app, length_map, IHn. reflexivity.
Qed.

Lemma in_indices sh : forall idx, In idx (indices sh) <-> inb sh idx = true.
Proof.
  induction sh as [|n sh IH]; intros idx; simpl.
  - destruct idx; split; intros H; try discriminate; auto.
    + destruct H as [H|[]]; discriminate.
  - rewrite in_flat_map. split.
    + intros (i & Hi & Hin). apply in_map_iff in Hin. destruct Hin as (idx' & <- & Hin).
      apply in_seq in Hi. apply IH in Hin. rewrite Hin.
      destruct (Nat.ltb_spec i n); [reflexivity | lia].
    + destruct idx as [|i idx']; [discriminate|]. intros H.
      apply andb_prop in H. destruct H as [Hi Hin]. apply Nat.ltb_lt in Hi.
      exists i. split; [apply in_seq; lia|]. apply in_map. apply IH. exact Hin.
Qed.

Lemma inb_length sh : forall idx, inb sh idx = true -> length idx = length sh.
Proof.
  induction sh as [|n sh IH]; intros [|i idx] H; try discriminate; [reflexivity|].
  simpl in H. apply andb_prop in H. destruct H as [_ H]. simpl. f_equal. auto.
Qed.

Lemma inb_app sh1 : forall sh2 i1 i2,
  length i1 = length sh1 ->
  inb (sh1 ++ sh2) (i1 ++ i2) = inb sh1 i1 && inb sh2 i2.
Proof.
  induction sh1 as [|n sh1 IH]; intros sh2 [|i i1] i2 H; try discriminate; [reflexivity|].
  simpl. rewrite IH by (simpl in H; lia). apply andb_assoc.
Qed.

Lemma ravel_lt sh : forall idx, inb sh idx = true -> ravel sh idx < prod sh.
Proof.
  induction sh as [|n sh IH]; intros [|i idx] H; try discriminate; simpl; [lia|].
  apply andb_prop in H. destruct H as [Hi H]. apply Nat.ltb_lt in Hi.
  apply IH in H. nia.
Qed.

Lemma nth_flat_map_blocks {A : Type} (f : nat -> list A) (p : nat) (d : A) :
  forall n s i r,
    (forall k, length (f k) = p) -> i < n -> r < p ->
    nth (i * p + r) (flat_map f (seq s n)) d = nth r (f (s + i)) d.
Proof.
  induction n as [|n IH]; intros s i r Hf Hi Hr; [lia|]. simpl.
  destruct i as [|i].
  - simpl. rewrite app_nth1 by (rewrite Hf; exact Hr). rewrite Nat.add_0_r. reflexivity.
  - rewrite app_nth2 by (rewrite Hf; simpl; lia). rewrite Hf.
    replace (S i * p + r - p) with (i * p + r) by (simpl; lia).
    rewrite IH by (auto; lia). f_equal. f_equal. lia.
Qed.

(** the multi-index stored at the offset of [idx] is [idx] *)
Lemma nth_ravel_indices sh : forall idx d,
  inb sh idx = true -> nth (ravel sh idx) (indices sh) d = idx.
Proof.
  induction sh as [|n sh IH]; intros [|i idx] d H; try discriminate; [reflexivity|].
  simpl in H. apply andb_prop in H. destruct H as [Hi H]. apply Nat.ltb_lt in Hi.
  simpl. rewrite (nth_flat_map_blocks (fun i => map (cons i) (indices sh)) (prod sh)).
  - simpl. rewrite (nth_indep _ d (i :: d)) by (rewrite length_map, length_indices; apply ravel_lt; exact H).
    rewrite map_nth. f_equal. apply IH. exact H.
  - intros k. rewrite length_map. apply length_indices.
  - exact Hi.
  - apply ravel_lt. exact H.
Qed.

Lemma tget_tbuild sh f idx :
  inb sh idx = true -> tget (tbuild sh f) idx = f idx.
Proof.
  intros H. unfold tget, tbuild. simpl.
  rewrite (nth_indep _ e0 (f idx)) by (rewrite length_map, length_indices; apply ravel_lt; exact H).
  rewrite map_nth. f_equal. apply nth_ravel_indices. exact H.
Qed.

Lemma tbuild_ext sh (f g : list nat -> E) :
  (forall idx, inb sh idx = true -> f idx = g idx) -> tbuild sh f = tbuild sh g.
Proof.
  intros H. unfold tbuild. f_equal. apply map_ext_in.
  intros idx Hin. apply H. apply in_indices. exact Hin.
Qed.

Lemma twf_tbuild sh (f : list nat -> E) : twf (tbuild sh f).
Proof. unfold twf, tbuild, numel. simpl. rewrite length_map. apply length_indices. Qed.

(** the offsets of the multi-indices, in order *)
Lemma map_ravel_indices sh : map (ravel sh) (indices sh) = seq 0 (prod sh).
Proof.
  apply (nth_ext _ _ 0 0).
  - rewrite length_map, length_indices, length_seq. reflexivity.
  - intros k Hk. rewrite length_map, length_indices in Hk.
    rewrite seq_nth by exact Hk. simpl.
    revert k Hk. induction sh as [|n sh IH]; intros k Hk.
    + simpl in *. destruct k; [reflexivity | lia].
    + simpl in Hk.
      assert (Hp : prod sh <> 0) by (intros H0; rewrite H0 in Hk; lia).
      pose proof (Nat.div_mod_eq k (prod sh)) as Hdm.
      assert (Hq : k / prod sh < n) by (apply Nat.Div0.div_lt_upper_bound; lia).
      assert (Hr : k mod prod sh < prod sh) by (apply Nat.mod_upper_bound; exact Hp).
      rewrite (nth_indep _ 0 (ravel (n :: sh) [])) by (rewrite length_map, length_indices; simpl; exact Hk).
      rewrite map_nth.
      replace k with (k / prod sh * prod sh + k mod prod sh) at 1 by lia.
      simpl indices.
      rewrite (nth_flat_map_blocks (fun i => map (cons i) (indices sh)) (prod sh));
        [| intros j; rewrite length_map; apply length_indices | exact Hq | exact Hr].
      simpl. rewrite (nth_indep _ [] (k / prod sh :: [])) by (rewrite length_map, length_indices; exact Hr).
      rewrite map_nth. simpl.
      specialize (IH (k mod prod sh) Hr).
      rewrite (nth_indep _ 0 (ravel sh [])) in IH by (rewrite length_map, length_indices; exact Hr).
      rewrite map_nth in IH. rewrite IH. lia.
Qed.

(** a well-formed array is rebuilt from its entries *)
Lemma tbuild_tget (t : tensor E) : twf t -> tbuild (shape t) (tget t) = t.
Proof.
  intros Hwf. destruct t as [sh dat]. unfold twf, numel, tbuild, tget in *. simpl in *.
  f_equal. rewrite <- (map_map (ravel sh) (fun k => nth k dat e0)).
  rewrite map_ravel_indices, <- Hwf. clear.
  apply (nth_ext _ _ e0 e0).
  - rewrite length_map, length_seq. reflexivity.
  - intros k Hk. rewrite length_map, length_seq in Hk.
    rewrite (nth_indep _ e0 (nth 0 dat e0)) by (rewrite length_map, length_seq; exact Hk).
    rewrite (map_nth (fun k => nth k dat e0)). rewrite seq_nth by exact Hk. reflexivity.
Qed.

Lemma flat_map_flat_map {A B C : Type} (f : A -> list B) (g : B -> list C) (l : list A) :
  flat_map g (flat_map f l) = flat_map (fun x => flat_map g (f x)) l.
Proof.
  induction l as [|x l IH]; simpl; [reflexivity|].
  rewrite flat_map_app, IH. reflexivity.
Qed.

Lemma map_flat_map {A B C : Type} (f : A -> list B) (h : B -> C) (l : list A) :
  map h (flat_map f l) = flat_map (fun x => map h (f x)) l.
Proof.
  induction l as [|x l IH]; simpl; [reflexivity|].
  rewrite map_app, IH. reflexivity.
Qed.

Lemma flat_map_map {A B C : Type} (h : A -> B) (g : B -> list C) (l : list A) :
  flat_map g (map h l) = flat_map (fun x => g (h x)) l.
Proof.
  induction l as [|x l IH]; simpl; [reflexivity|]. rewrite IH. reflexivity.
Qed.

(** multi-indices of a concatenated shape *)
Lemma indices_app sh1 sh2 :
  indices (sh1 ++ sh2) =
  flat_map (fun i1 => map (app i1) (indices sh2)) (indices sh1).
Proof.
  induction sh1 as [|n sh1 IH]; simpl.
  - rewrite app_nil_r. rewrite map_id. reflexivity.
  - rewrite IH, flat_map_flat_map. apply flat_map_ext. intros i.
    rewrite map_flat_map, flat_map_map. apply flat_map_ext. intros i1.
    rewrite map_map. reflexivity.
Qed.

End DenseFacts.

(** ** [einsum] with an ellipsis *)

Section EinsumFacts.

Context {E : Type} {NE : Numeric E}.


Lemma dim_of_absent (occ : list (label * nat)) (l : label) :
  existsb (label_eqb l) (map fst occ) = false -> dim_of occ l = Ok 1.
Proof.
  induction occ as [|[l' n] occ IH]; simpl; intros H; [reflexivity|].
  apply orb_false_iff in H. destruct H as [Hl H]. rewrite (IH H), bind_Ok, Hl. reflexivity.
Qed.

Lemma dim_of_app_absent_r occ1 occ2 l :
  existsb (label_eqb l) (map fst occ2) = false ->
  dim_of (occ1 ++ occ2) l = dim_of occ1 l.
Proof.
  intros H. induction occ1 as [|[l' n] occ1 IH]; simpl.
  - apply dim_of_absent. exact H.
  - rewrite IH. reflexivity.
Qed.

Lemma dim_of_app_absent_l occ1 occ2 l :
  existsb (label_eqb l) (map fst occ1) = false ->
  dim_of (occ1 ++ occ2) l = dim_of occ2 l.
Proof.
  induction occ1 as [|[l' n] occ1 IH]; simpl; intros H; [reflexivity|].
  apply orb_false_iff in H. destruct H as [Hl H]. rewrite (IH H), Hl.
  destruct (dim_of occ2 l); reflexivity.
Qed.

Lemma merge_one n : (if n =? 1 then Ok n else if 1 =? 1 then Ok n else if n =? 1 then Ok 1 else Raise RuntimeError) = Ok n.
Proof. destruct (n =? 1); reflexivity. Qed.

Lemma existsb_dots_lc c s m : existsb (label_eqb (Lc c)) (dots s m) = false.
Proof. unfold dots. revert s; induction m as [|m IH]; intros s; simpl; auto. Qed.

Lemma existsb_dots_ld k s m :
  existsb (label_eqb (Ld k)) (dots s m) = (s <=? k) && (k <? s + m).
Proof.
  unfold dots. revert s; induction m as [|m IH]; intros s; simpl.
  - destruct (Nat.leb_spec s k), (Nat.ltb_spec k (s + 0)); try reflexivity; lia.
  - rewrite IH. destruct (Nat.eqb_spec k s), (Nat.leb_spec (S s) k), (Nat.leb_spec s k),
      (Nat.ltb_spec k (S s + m)), (Nat.ltb_spec k (s + S m)); simpl; try reflexivity; lia.
Qed.

Lemma map_fst_combine_dots s (pre : list nat) :
  map fst (combine (dots s (length pre)) pre) = dots s (length pre).
Proof.
  unfold dots. revert s; induction pre as [|p pre IH]; intros s; simpl; [reflexivity|].
  rewrite IH. reflexivity.
Qed.

Lemma dim_of_dots (pre : list nat) : forall s k,
  k < length pre ->
  dim_of (combine (dots s (length pre)) pre) (Ld (s + k)) = Ok (nth k pre 0).
Proof.
  unfold dots. induction pre as [|p pre IH]; intros s k Hk; simpl in Hk; [lia|].
  simpl. destruct k as [|k].
  - rewrite Nat.add_0_r. rewrite dim_of_absent.
    + rewrite bind_Ok. simpl. rewrite Nat.eqb_refl. apply merge_one.
    + fold (dots (S s) (length pre)). rewrite map_fst_combine_dots, existsb_dots_ld.
      destruct (Nat.leb_spec (S s) s); [lia | reflexivity].
  - replace (s + S k) with (S s + k) by lia. rewrite IH by lia. rewrite bind_Ok.
    cbn [label_eqb]. destruct (Nat.eqb_spec (S s + k) s); [lia | reflexivity].
Qed.

Lemma combine_app_eq {A B : Type} (l1 : list A) : forall (l1' : list B) l2 l2',
  length l1 = length l1' ->
  combine (l1 ++ l2) (l1' ++ l2') = combine l1 l1' ++ combine l2 l2'.
Proof.
  induction l1 as [|x l1 IH]; intros [|y l1'] l2 l2' H; try discriminate; [reflexivity|].
  simpl. rewrite IH by (simpl in H; lia). reflexivity.
Qed.

Lemma length_dots s m : length (dots s m) = m.
Proof. unfold dots. rewrite length_map, length_seq. reflexivity. Qed.

Lemma lookup_app_absent env1 env2 l :
  existsb (label_eqb l) (map fst env1) = false ->
  lookup (env1 ++ env2) l = lookup env2 l.
Proof.
  unfold lookup. induction env1 as [|[l' n] env1 IH]; simpl; intros H; [reflexivity|].
  apply orb_false_iff in H. destruct H as [Hl H]. rewrite Hl. apply IH. exact H.
Qed.

Lemma lookup_dots (p : list nat) : forall s k rest,
  k < length p ->
  lookup (combine (dots s (length p)) p ++ rest) (Ld (s + k)) = nth k p 0.
Proof.
  unfold dots, lookup. induction p as [|x p IH]; intros s k rest Hk; simpl in Hk; [lia|].
  simpl. destruct k as [|k].
  - rewrite Nat.add_0_r, Nat.eqb_refl. reflexivity.
  - destruct (Nat.eqb_spec (s + S k) s); [lia|].
    replace (s + S k) with (S s + k) by lia. apply IH. lia.
Qed.

Lemma filter_none {A : Type} (P : A -> bool) (ls : list A) :
  (forall l, In l ls -> P l = false) -> filter P ls = [].
Proof.
  induction ls as [|l ls IH]; intros H; [reflexivity|]. simpl.
  rewrite H by (left; reflexivity). apply IH. intros l' Hl'. apply H. right. exact Hl'.
Qed.

Lemma filter_dots_out s m (rest : list label) :
  filter (fun l => negb (existsb (label_eqb l) (dots s m ++ rest))) (dots s m) = [].
Proof.
  assert (H : forall l, In l (dots s m) ->
                        negb (existsb (label_eqb l) (dots s m ++ rest)) = false).
  { intros l Hl. unfold dots in Hl. apply in_map_iff in Hl. destruct Hl as (k & <- & Hk).
    apply in_seq in Hk. rewrite existsb_app, existsb_dots_ld.
    destruct (Nat.leb_spec s k), (Nat.ltb_spec k (s + m)); try lia; try reflexivity. }
  apply filter_none. exact H.
Qed.

Lemma map_nth_seq (l : list nat) :
  map (fun k => nth k l 0) (seq 0 (length l)) = l.
Proof.
  apply (nth_ext _ _ 0 0).
  - rewrite length_map, length_seq. reflexivity.
  - intros k Hk. rewrite length_map, length_seq in Hk.
    rewrite (nth_indep (map _ _) 0 (nth 0 l 0)) by (rewrite length_map, length_seq; exact Hk).
    rewrite (map_nth (fun k => nth k l 0)), seq_nth by exact Hk. reflexivity.
Qed.

Lemma mapM_dim_of_dots (pre : list nat) (occ : list (label * nat)) :
  (forall l, In l (dots 0 (length pre)) -> existsb (label_eqb l) (map fst occ) = false) ->
  mapM (dim_of (combine (dots 0 (length pre)) pre ++ occ)) (dots 0 (length pre)) = Ok pre.
Proof.
  intros Habs.
  assert (H : forall ks, (forall k, In k ks -> k < length pre) ->
            mapM (dim_of (combine (dots 0 (length pre)) pre ++ occ)) (map Ld ks)
            = Ok (map (fun k => nth k pre 0) ks)).
  { induction ks as [|k ks IH]; intros Hks; [reflexivity|]. simpl.
    rewrite dim_of_app_absent_r.
    - change (Ld k) with (Ld (0 + k)).
      rewrite (dim_of_dots pre 0 k) by (apply Hks; left; reflexivity).
      rewrite bind_Ok, IH by (intros k' Hk'; apply Hks; right; exact Hk').
      reflexivity.
    - apply Habs. unfold dots. apply in_map. apply in_seq.
      specialize (Hks k (or_introl eq_refl)). lia. }
  unfold dots at 2. rewrite H by (intros k Hk; apply in_seq in Hk; lia).
  f_equal. apply map_nth_seq.
Qed.

(** indices of the operand that carries the ellipsis, read from the
    environment of a valid output index *)
Lemma map_lookup_dots (pre p : list nat) (rest : list (label * nat)) :
  inb pre p = true ->
  map (fun q => if snd q =? 1 then 0 else lookup (combine (dots 0 (length pre)) p ++ rest) (fst q))
      (combine (dots 0 (length pre)) pre) = p.
Proof.
  intros Hin. pose proof (inb_length pre p Hin) as Hlen.
  assert (H : forall ks, (forall k, In k ks -> k < length pre) ->
     map (fun q => if snd q =? 1 then 0 else lookup (combine (dots 0 (length pre)) p ++ rest) (fst q))
         (combine (map Ld ks) (map (fun k => nth k pre 0) ks)) = map (fun k => nth k p 0) ks).
  { induction ks as [|k ks IH]; intros Hks; [reflexivity|]. simpl.
    rewrite IH by (intros k' Hk'; apply Hks; right; exact Hk'). f_equal.
    assert (Hk : k < length pre) by (apply Hks; left; reflexivity).
    rewrite <- Hlen. change (Ld k) with (Ld (0 + k)).
    rewrite (lookup_dots p 0 k rest) by lia.
    destruct (Nat.eqb_spec (nth k pre 0) 1) as [H1|H1]; [|reflexivity].
    clear - Hin Hk H1. revert p k Hin Hk H1.
    induction pre as [|x pre IHp]; intros [|y p] k Hin Hk H1; try discriminate; simpl in *; [lia|].
    apply andb_prop in Hin. destruct Hin as [Hy Hin]. apply Nat.ltb_lt in Hy.
    destruct k; [lia|]. apply IHp; auto. lia. }
  rewrite <- (map_nth_seq pre) at 2. unfold dots at 2.
  rewrite H by (intros k Hk; apply in_seq in Hk; lia).
  rewrite <- Hlen. apply map_nth_seq.
Qed.

Lemma indices_single r : indices [r] = map (fun x => [x]) (seq 0 r).
Proof.
  simpl. generalize 0 as s. induction r as [|r IH]; intros s; simpl; [reflexivity|].
  rewrite IH. reflexivity.
Qed.

Lemma inb_split sh1 sh2 idx :
  inb (sh1 ++ sh2) idx = true ->
  exists p q, idx = p ++ q /\ inb sh1 p = true /\ inb sh2 q = true.
Proof.
  revert idx; induction sh1 as [|n sh1 IH]; intros idx H.
  - exists [], idx. auto.
  - destruct idx as [|i idx]; [discriminate|]. simpl in H.
    apply andb_prop in H. destruct H as [Hi H]. apply IH in H.
    destruct H as (p & q & -> & Hp & Hq). exists (i :: p), q. simpl. rewrite Hi, Hp. auto.
Qed.

Lemma mapM_app {A B : Type} (f : A -> result B) (l1 l2 : list A) :
  mapM f (l1 ++ l2) = (y1 <- mapM f l1 ;; y2 <- mapM f l2 ;; Ok (y1 ++ y2)).
Proof.
  induction l1 as [|x l1 IH]; simpl.
  - destruct (mapM f l2); reflexivity.
  - destruct (f x); simpl; [|reflexivity]. rewrite IH.
    destruct (mapM f l1); simpl; [|reflexivity]. destruct (mapM f l2); reflexivity.
Qed.

Lemma map_fst_combine_dots_len s (p : list nat) m :
  length p = m -> map fst (combine (dots s m) p) = dots s m.
Proof. intros <-. apply map_fst_combine_dots. Qed.

Lemma bcast_index (n x : nat) : x < n -> (if n =? 1 then 0 else x) = x.
Proof. intros H. destruct (Nat.eqb_spec n 1); [lia | reflexivity]. Qed.

Lemma einsum_dots_i_ijk (a c : tensor E) pre r n r' :
  shape a = pre ++ [r] -> shape c = [r; n; r'] ->
  einsum "...i,ijk->...jk" a c =
  Ok (tbuild (pre ++ [n; r'])
        (fun oidx =>
           esum (map (fun x => emul (tget a (firstn (length pre) oidx ++ [x]))
                                    (tget c [x; nth (length pre) oidx 0;
                                             nth (S (length pre)) oidx 0]))
                     (seq 0 r)))).
Proof.
  intros Ha Hc.
  change (einsum "...i,ijk->...jk" a c)
    with (einsum_labels [None; Some "i"%char] [Some "i"%char; Some "j"%char; Some "k"%char]
                        [None; Some "j"%char; Some "k"%char] a c).
  unfold einsum_labels, ndim. rewrite Ha, Hc.
  assert (Hma : ellipsis_len [None; Some "i"%char] (length (pre ++ [r])) = Ok (length pre)).
  { unfold ellipsis_len. rewrite length_app.
    cbn [filter is_letter existsb negb orb length].
    destruct (Nat.leb_spec 1 (length pre + 1)); [|lia]. f_equal. lia. }
  set (m := length pre) in *.
  rewrite Hma, bind_Ok.
  change (ellipsis_len [Some "i"%char; Some "j"%char; Some "k"%char] (length [r; n; r'])) with (@Ok nat 0).
  rewrite bind_Ok. cbv zeta. rewrite Nat.max_0_r.
  assert (Hla : expand m m [None; Some "i"%char] = dots 0 m ++ [Lc "i"]).
  { unfold expand. simpl. rewrite Nat.sub_diag. reflexivity. }
  assert (Hout : expand m m [None; Some "j"%char; Some "k"%char] = dots 0 m ++ [Lc "j"; Lc "k"]).
  { unfold expand. simpl. rewrite Nat.sub_diag. reflexivity. }
  rewrite Hla, Hout.
  change (expand m 0 [Some "i"%char; Some "j"%char; Some "k"%char]) with [Lc "i"; Lc "j"; Lc "k"].
  rewrite (combine_app_eq (dots 0 m) pre [Lc "i"] [r]) by (apply length_dots).
  change (combine [Lc "i"] [r]) with [(Lc "i", r)].
  change (combine [Lc "i"; Lc "j"; Lc "k"] [r; n; r']) with [(Lc "i", r); (Lc "j", n); (Lc "k", r')].
  rewrite <- app_assoc.
  change ([(Lc "i", r)] ++ [(Lc "i", r); (Lc "j", n); (Lc "k", r')])
    with [(Lc "i", r); (Lc "i", r); (Lc "j", n); (Lc "k", r')].
  set (occ2 := [(Lc "i", r); (Lc "i", r); (Lc "j", n); (Lc "k", r')]).
  assert (Hconl : dedup (filter (fun l => negb (existsb (label_eqb l) (dots 0 m ++ [Lc "j"; Lc "k"])))
                                (map fst (combine (dots 0 m) pre ++ occ2))) = [Lc "i"]).
  { rewrite map_app, filter_app, (map_fst_combine_dots_len 0 pre m eq_refl), filter_dots_out.
    subst occ2. cbn [map fst filter app]. rewrite !existsb_app, !existsb_dots_lc. reflexivity. }
  rewrite Hconl.
  assert (Hosh : mapM (dim_of (combine (dots 0 m) pre ++ occ2)) (dots 0 m ++ [Lc "j"; Lc "k"])
                 = Ok (pre ++ [n; r'])).
  { rewrite mapM_app. subst m. rewrite mapM_dim_of_dots.
    - rewrite bind_Ok. cbn [mapM].
      rewrite !dim_of_app_absent_l
        by (rewrite map_fst_combine_dots; apply existsb_dots_lc).
      subst occ2. cbn. rewrite !merge_one. reflexivity.
    - intros l Hl. unfold dots in Hl. apply in_map_iff in Hl.
      destruct Hl as (k & <- & _). reflexivity. }
  rewrite Hosh, bind_Ok.
  assert (Hcsh : mapM (dim_of (combine (dots 0 m) pre ++ occ2)) [Lc "i"] = Ok [r]).
  { cbn [mapM]. rewrite dim_of_app_absent_l
      by (rewrite (map_fst_combine_dots_len 0 pre m eq_refl); apply existsb_dots_lc).
    subst occ2. cbn. rewrite merge_one. cbn. rewrite Nat.eqb_refl. reflexivity. }
  rewrite Hcsh, bind_Ok. f_equal. apply tbuild_ext. intros oidx Hin.
  apply inb_split in Hin. destruct Hin as (p & q & -> & Hp & Hq).
  pose proof (inb_length pre p Hp) as Hlen. subst m.
  destruct q as [|j [|k [|? ?]]]; simpl in Hq;
    try discriminate Hq;
    try (destruct (j <? n); discriminate Hq);
    try (destruct (j <? n), (k <? r'); discriminate Hq).
  rewrite andb_true_r in Hq. apply andb_prop in Hq. destruct Hq as [Hj Hk].
  apply Nat.ltb_lt in Hj, Hk.
  rewrite indices_single, map_map. f_equal. apply map_ext_in. intros x Hx.
  apply in_seq in Hx.
  rewrite <- !app_assoc. cbn [app].
  rewrite (combine_app_eq (dots 0 (length pre)) p)
    by (rewrite length_dots; symmetry; exact Hlen).
  cbn [combine].
  replace (firstn (length pre) (p ++ [j; k])) with p
    by (rewrite <- Hlen, firstn_app, firstn_all, Nat.sub_diag; simpl;
        rewrite app_nil_r; reflexivity).
  replace (nth (length pre) (p ++ [j; k]) 0) with j
    by (rewrite <- Hlen, app_nth2, Nat.sub_diag by lia; reflexivity).
  replace (nth (S (length pre)) (p ++ [j; k]) 0) with k
    by (rewrite <- Hlen, app_nth2 by lia;
        replace (S (length p) - length p) with 1 by lia; reflexivity).
  unfold operand_at. rewrite Ha, Hc.
  rewrite (combine_app_eq (dots 0 (length pre)) pre) by (apply length_dots).
  rewrite map_app, (map_lookup_dots pre p _ Hp).
  cbn [combine map fst snd].
  rewrite !lookup_app_absent
    by (rewrite (map_fst_combine_dots_len 0 p (length pre) Hlen); apply existsb_dots_lc).
  cbn. rewrite !bcast_index by lia. reflexivity.
Qed.

Lemma einsum_dots_i_ij (a c : tensor E) pre r n :
  shape a = pre ++ [r] -> shape c = [r; n] ->
  einsum "...i,ij->...j" a c =
  Ok (tbuild (pre ++ [n])
        (fun oidx =>
           esum (map (fun x => emul (tget a (firstn (length pre) oidx ++ [x]))
                                    (tget c [x; nth (length pre) oidx 0]))
                     (seq 0 r)))).
Proof.
  intros Ha Hc.
  change (einsum "...i,ij->...j" a c)
    with (einsum_labels [None; Some "i"%char] [Some "i"%char; Some "j"%char]
                        [None; Some "j"%char] a c).
  unfold einsum_labels, ndim. rewrite Ha, Hc.
  assert (Hma : ellipsis_len [None; Some "i"%char] (length (pre ++ [r])) = Ok (length pre)).
  { unfold ellipsis_len. rewrite length_app.
    cbn [filter is_letter existsb negb orb length].
    destruct (Nat.leb_spec 1 (length pre + 1)); [|lia]. f_equal. lia. }
  set (m := length pre) in *.
  rewrite Hma, bind_Ok.
  change (ellipsis_len [Some "i"%char; Some "j"%char] (length [r; n])) with (@Ok nat 0).
  rewrite bind_Ok. cbv zeta. rewrite Nat.max_0_r.
  assert (Hla : expand m m [None; Some "i"%char] = dots 0 m ++ [Lc "i"]).
  { unfold expand. simpl. rewrite Nat.sub_diag. reflexivity. }
  assert (Hout : expand m m [None; Some "j"%char] = dots 0 m ++ [Lc "j"]).
  { unfold expand. simpl. rewrite Nat.sub_diag. reflexivity. }
  rewrite Hla, Hout.
  change (expand m 0 [Some "i"%char; Some "j"%char]) with [Lc "i"; Lc "j"].
  rewrite (combine_app_eq (dots 0 m) pre [Lc "i"] [r]) by (apply length_dots).
  change (combine [Lc "i"] [r]) with [(Lc "i", r)].
  change (combine [Lc "i"; Lc "j"] [r; n]) with [(Lc "i", r); (Lc "j", n)].
  rewrite <- app_assoc.
  change ([(Lc "i", r)] ++ [(Lc "i", r); (Lc "j", n)])
    with [(Lc "i", r); (Lc "i", r); (Lc "j", n)].
  set (occ2 := [(Lc "i", r); (Lc "i", r); (Lc "j", n)]).
  assert (Hconl : dedup (filter (fun l => negb (existsb (label_eqb l) (dots 0 m ++ [Lc "j"])))
                                (map fst (combine (dots 0 m) pre ++ occ2))) = [Lc "i"]).
  { rewrite map_app, filter_app, (map_fst_combine_dots_len 0 pre m eq_refl), filter_dots_out.
    subst occ2. cbn [map fst filter app]. rewrite !existsb_app, !existsb_dots_lc. reflexivity. }
  rewrite Hconl.
  assert (Hosh : mapM (dim_of (combine (dots 0 m) pre ++ occ2)) (dots 0 m ++ [Lc "j"])
                 = Ok (pre ++ [n])).
  { rewrite mapM_app. subst m. rewrite mapM_dim_of_dots.
    - rewrite bind_Ok. cbn [mapM].
      rewrite !dim_of_app_absent_l
        by (rewrite map_fst_combine_dots; apply existsb_dots_lc).
      subst occ2. cbn. rewrite !merge_one. reflexivity.
    - intros l Hl. unfold dots in Hl. apply in_map_iff in Hl.
      destruct Hl as (k & <- & _). reflexivity. }
  rewrite Hosh, bind_Ok.
  assert (Hcsh : mapM (dim_of (combine (dots 0 m) pre ++ occ2)) [Lc "i"] = Ok [r]).
  { cbn [mapM]. rewrite dim_of_app_absent_l
      by (rewrite (map_fst_combine_dots_len 0 pre m eq_refl); apply existsb_dots_lc).
    subst occ2. cbn. rewrite merge_one. cbn. rewrite Nat.eqb_refl. reflexivity. }
  rewrite Hcsh, bind_Ok. f_equal. apply tbuild_ext. intros oidx Hin.
  apply inb_split in Hin. destruct Hin as (p & q & -> & Hp & Hq).
  pose proof (inb_length pre p Hp) as Hlen. subst m.
  destruct q as [|j [|? ?]]; simpl in Hq;
    try discriminate Hq;
    try (destruct (j <? n); discriminate Hq).
  rewrite andb_true_r in Hq. rename Hq into Hj.
  apply Nat.ltb_lt in Hj.
  rewrite indices_single, map_map. f_equal. apply map_ext_in. intros x Hx.
  apply in_seq in Hx.
  rewrite <- !app_assoc. cbn [app].
  rewrite (combine_app_eq (dots 0 (length pre)) p)
    by (rewrite length_dots; symmetry; exact Hlen).
  cbn [combine].
  replace (firstn (length pre) (p ++ [j])) with p
    by (rewrite <- Hlen, firstn_app, firstn_all, Nat.sub_diag; simpl;
        rewrite app_nil_r; reflexivity).
  replace (nth (length pre) (p ++ [j]) 0) with j
    by (rewrite <- Hlen, app_nth2, Nat.sub_diag by lia; reflexivity).
  unfold operand_at. rewrite Ha, Hc.
  rewrite (combine_app_eq (dots 0 (length pre)) pre) by (apply length_dots).
  rewrite map_app, (map_lookup_dots pre p _ Hp).
  cbn [combine map fst snd].
  rewrite !lookup_app_absent
    by (rewrite (map_fst_combine_dots_len 0 p (length pre) Hlen); apply existsb_dots_lc).
  cbn. rewrite !bcast_index by lia. reflexivity.
Qed.

End EinsumFacts.

(** ** The dense array returned by [full] *)

Section FullFacts.

Context {E : Type} {NE : Numeric E}.

Implicit Types (c : tensor E) (cs : list (tensor E)).

Lemma inb2 n r oidx :
  inb [n; r] oidx = true -> exists j b, oidx = [j; b] /\ j < n /\ b < r.
Proof.
  destruct oidx as [|j [|b [|? ?]]]; simpl; intros H;
    try discriminate H;
    try (destruct (j <? n); discriminate H);
    try (destruct (j <? n), (b <? r); discriminate H).
  rewrite andb_true_r in H. apply andb_prop in H. destruct H as [Hj Hb].
  apply Nat.ltb_lt in Hj, Hb. eauto.
Qed.

Lemma tindex_first0 c a n r :
  shape c = [a; n; r] -> 0 < a ->
  tindex c [Ix 0; All; All] = Ok (tbuild [n; r] (fun oidx => vec0 c (hd 0 oidx) (last oidx 0))).
Proof.
  intros Hc Ha. unfold tindex, ndim. rewrite Hc.
  cbn [mapM combine app repeat Nat.sub fst snd length Nat.ltb Nat.leb].
  rewrite !norm_ix_All, norm_ix_0 by lia. rewrite !bind_Ok. cbn [sel_shape flat_map app].
  f_equal. apply tbuild_ext. intros oidx Hin.
  apply inb2 in Hin. destruct Hin as (j & b & -> & _ & _).
  unfold vec0. simpl. rewrite !Nat.mul_1_r. reflexivity.
Qed.

Lemma tindex_last0 c r n b :
  shape c = [r; n; b] -> 0 < b ->
  tindex c [All; All; Ix 0] = Ok (tbuild [r; n] (fun oidx => tget c [hd 0 oidx; last oidx 0; 0])).
Proof.
  intros Hc Hb. unfold tindex, ndim. rewrite Hc.
  cbn [mapM combine app repeat Nat.sub fst snd length Nat.ltb Nat.leb].
  rewrite !norm_ix_All, norm_ix_0 by lia. rewrite !bind_Ok. cbn [sel_shape flat_map app].
  f_equal. apply tbuild_ext. intros oidx Hin.
  apply inb2 in Hin. destruct Hin as (j & x & -> & _ & _).
  simpl. rewrite !Nat.mul_1_r. reflexivity.
Qed.

Lemma vec_extra cs : forall idx extra v,
  length idx = length cs -> vec cs (idx ++ extra) v = vec cs idx v.
Proof.
  induction cs as [|c cs IH]; intros [|i idx] extra v H; try discriminate H.
  - destruct extra; reflexivity.
  - simpl. apply IH. simpl in H. lia.
Qed.

Lemma vec_app cs : forall c idx i v,
  length idx = length cs ->
  vec (cs ++ [c]) (idx ++ [i]) v = vstep (leading c) (vec cs idx v) c i.
Proof.
  induction cs as [|c0 cs IH]; intros c [|i0 idx] i v H; try discriminate H.
  - reflexivity.
  - simpl. apply IH. simpl in H. lia.
Qed.

Lemma modes_N_3 c : ndim c = 3 -> modes_N [c] = [nth 1 (shape c) 0].
Proof. intros H. unfold modes_N. simpl. rewrite H. reflexivity. Qed.

Lemma chain3_modes_N cs : forall r,
  chain 3 r cs -> modes_N cs = map (fun c => nth 1 (shape c) 0) cs.
Proof.
  induction cs as [|c cs IH]; intros r H; [reflexivity|].
  destruct H as (Hk & _ & H). unfold modes_N in *. simpl. rewrite Hk. simpl.
  f_equal. apply (IH _ H).
Qed.

Lemma shape_partial c0 cs :
  shape (partial c0 cs) = modes_N (c0 :: cs) ++ [running (trailing c0) cs].
Proof. reflexivity. Qed.

Lemma partial_step c0 cs c n r' :
  shape c = [running (trailing c0) cs; n; r'] ->
  einsum "...i,ijk->...jk" (partial c0 cs) c = Ok (partial c0 (cs ++ [c])).
Proof.
  intros Hc.
  rewrite (einsum_dots_i_ijk (partial c0 cs) c _ _ _ _ (shape_partial c0 cs) Hc).
  assert (Hk : ndim c = 3) by (unfold ndim; rewrite Hc; reflexivity).
  assert (Ht : trailing c = r') by (unfold trailing; rewrite Hc; reflexivity).
  assert (Hl : leading c = running (trailing c0) cs) by (unfold leading; rewrite Hc; reflexivity).
  unfold partial at 2.
  change (c0 :: cs ++ [c]) with ((c0 :: cs) ++ [c]).
  rewrite modes_N_app, (modes_N_3 c Hk), Hc, running_single, Ht. cbn [nth].
  rewrite <- app_assoc. cbn [app]. f_equal. apply tbuild_ext. intros oidx Hin.
  apply inb_split in Hin. destruct Hin as (p & q & -> & Hp & Hq).
  apply inb2 in Hq. destruct Hq as (j & b & -> & Hj & Hb).
  pose proof (inb_length _ _ Hp) as Hlen. rewrite length_modes_N in Hlen.
  destruct p as [|i0 p']; [discriminate Hlen|]. simpl in Hlen.
  assert (Hlen' : length p' = length cs) by lia.
  rewrite length_modes_N.
  replace (firstn (length (c0 :: cs)) ((i0 :: p') ++ [j; b])) with (i0 :: p')
    by (rewrite firstn_app; simpl length; rewrite <- Hlen, Nat.sub_diag;
        change (S (length p')) with (length (i0 :: p'));
        rewrite firstn_all; simpl; rewrite app_nil_r; reflexivity).
  replace (nth (length (c0 :: cs)) ((i0 :: p') ++ [j; b]) 0) with j
    by (rewrite app_nth2 by (simpl; lia); simpl length; rewrite <- Hlen, Nat.sub_diag; reflexivity).
  replace (nth (S (length (c0 :: cs))) ((i0 :: p') ++ [j; b]) 0) with b
    by (rewrite app_nth2 by (simpl; lia); simpl length; rewrite <- Hlen;
        replace (S (S (length p')) - S (length p')) with 1 by lia; reflexivity).
  cbn [app tl hd].
  assert (Hlast : last (i0 :: p' ++ [j; b]) 0 = b).
  { replace (i0 :: p' ++ [j; b]) with ((i0 :: p' ++ [j]) ++ [b])
      by (simpl; rewrite <- app_assoc; reflexivity).
    apply last_last. }
  rewrite Hlast.
  change [j; b] with ([j] ++ [b]). rewrite app_assoc.
  rewrite vec_extra by (rewrite length_app, length_app; simpl; lia).
  rewrite vec_app by exact Hlen'. unfold vstep. rewrite Hl.
  f_equal. apply map_ext_in. intros x Hx. apply in_seq in Hx. f_equal.
  unfold partial. rewrite tget_tbuild.
  - cbn [app tl hd].
    change (last (i0 :: p' ++ [x]) 0) with (last ((i0 :: p') ++ [x]) 0).
    rewrite last_last, vec_extra by exact Hlen'. reflexivity.
  - rewrite (inb_app (modes_N (c0 :: cs)) [_] (i0 :: p') [x])
      by (rewrite length_modes_N; simpl; lia).
    rewrite Hp. simpl. destruct (Nat.ltb_spec x (running (trailing c0) cs)); [reflexivity | lia].
Qed.

Lemma foldM_items {A : Type} cs (f : A -> tensor E -> result A) : forall k s acc,
  s + k <= length cs ->
  foldM (fun a i => c <- item cs i ;; f a c) (seq s k) acc
  = foldM f (firstn k (skipn s cs)) acc.
Proof.
  induction k as [|k IH]; intros s acc H; [reflexivity|].
  destruct (nth_error cs s) as [c|] eqn:Hc; [|apply nth_error_None in Hc; lia].
  rewrite (skipn_nth_error cs s c Hc). simpl.
  unfold item at 1. rewrite Hc, bind_Ok.
  destruct (f acc c); [rewrite !bind_Ok; apply IH; lia | reflexivity].
Qed.

Lemma partial_fold c0 mid : forall pre,
  chain 3 (running (trailing c0) pre) mid ->
  foldM (einsum "...i,ijk->...jk") mid (partial c0 pre)
  = Ok (partial c0 (pre ++ mid)).
Proof.
  induction mid as [|c mid IH]; intros pre Hch.
  - rewrite app_nil_r. reflexivity.
  - destruct Hch as (Hk & Hl & Hch). rewrite foldM_cons.
    pose proof (shape3 c Hk) as Hsh. rewrite Hl in Hsh.
    rewrite (partial_step c0 pre c _ _ Hsh), bind_Ok.
    rewrite IH by (rewrite running_single; exact Hch).
    rewrite <- app_assoc. reflexivity.
Qed.

Lemma flat_map_single {A B : Type} (g : A -> B) (l : list A) :
  flat_map (fun x => [g x]) l = map g l.
Proof. induction l as [|x l IH]; simpl; [|rewrite IH]; reflexivity. Qed.

Lemma partial_last c0 mid cl m :
  ndim cl = 3 -> leading cl = running (trailing c0) mid ->
  shape m = [leading cl; nth 1 (shape cl) 0] ->
  (forall x j, x < leading cl -> j < nth 1 (shape cl) 0 -> tget m [x; j] = tget cl [x; j; 0]) ->
  einsum "...i,ij->...j" (partial c0 mid) m
  = Ok (tbuild (modes_N (c0 :: mid ++ [cl])) (entry (c0 :: mid ++ [cl]))).
Proof.
  intros Hk Hl Hm Hget. rewrite Hl in Hm.
  rewrite (einsum_dots_i_ij (partial c0 mid) m _ _ _ (shape_partial c0 mid) Hm).
  change (c0 :: mid ++ [cl]) with ((c0 :: mid) ++ [cl]).
  rewrite modes_N_app, (modes_N_3 cl Hk). f_equal. apply tbuild_ext. intros oidx Hin.
  apply inb_split in Hin. destruct Hin as (p & q & -> & Hp & Hq).
  destruct q as [|j [|? ?]]; simpl in Hq; try discriminate Hq;
    try (destruct (j <? nth 1 (shape cl) 0); discriminate Hq).
  rewrite andb_true_r in Hq. apply Nat.ltb_lt in Hq.
  pose proof (inb_length _ _ Hp) as Hlen. rewrite length_modes_N in Hlen.
  destruct p as [|i0 p']; [discriminate Hlen|]. simpl in Hlen.
  assert (Hlen' : length p' = length mid) by lia.
  rewrite length_modes_N.
  replace (firstn (length (c0 :: mid)) ((i0 :: p') ++ [j])) with (i0 :: p')
    by (rewrite firstn_app; simpl length; rewrite <- Hlen, Nat.sub_diag;
        change (S (length p')) with (length (i0 :: p'));
        rewrite firstn_all; simpl; rewrite app_nil_r; reflexivity).
  replace (nth (length (c0 :: mid)) ((i0 :: p') ++ [j]) 0) with j
    by (rewrite app_nth2 by (simpl; lia); simpl length; rewrite <- Hlen, Nat.sub_diag; reflexivity).
  cbn [app entry]. rewrite vec_app by exact Hlen'. unfold vstep. rewrite Hl.
  f_equal. apply map_ext_in. intros x Hx. apply in_seq in Hx.
  rewrite Hget by lia. f_equal.
  unfold partial. rewrite tget_tbuild.
  - cbn [app tl hd].
    change (last (i0 :: p' ++ [x]) 0) with (last ((i0 :: p') ++ [x]) 0).
    rewrite last_last, vec_extra by exact Hlen'. reflexivity.
  - rewrite (inb_app (modes_N (c0 :: mid)) [_] (i0 :: p') [x])
      by (rewrite length_modes_N; simpl; lia).
    rewrite Hp. simpl. destruct (Nat.ltb_spec x (running (trailing c0) mid)); [reflexivity | lia].
Qed.


Lemma partial_nil c0 :
  ndim c0 = 3 ->
  partial c0 [] = tbuild [nth 1 (shape c0) 0; trailing c0]
                         (fun oidx => vec0 c0 (hd 0 oidx) (last oidx 0)).
Proof. intros H. unfold partial. rewrite (modes_N_3 c0 H). reflexivity. Qed.

Lemma firstn_removelast {A : Type} (l : list A) (x : A) :
  firstn (length (l ++ [x]) - 1) (l ++ [x]) = l.
Proof.
  rewrite length_app. simpl. replace (length l + 1 - 1) with (length l) by lia.
  rewrite firstn_app, firstn_all, Nat.sub_diag. simpl. apply app_nil_r.
Qed.

(** the dense array [full] returns on a TT-tensor: the entries, in row-major
    order of the mode sizes *)
Lemma full_tensor cs (t : TT E) :
  TT_init (SrcCores cs) = Ok t -> is_ttm t = false ->
  full t = Ok (mkT (dense_shape (N t)) (map (entry cs) (indices (N t)))).
Proof.
  intros Hinit Httm.
  destruct (TT_init_ok cs t Hinit) as (Hne & Hp & Hrun & Hk & Ht & Hiff & Hl).
  assert (H3 : all3 cs).
  { destruct Hk as [H3|H4]; [exact H3|]. apply Hiff in H4. congruence. }
  pose proof (chain_of_passes 3 1 cs Hp H3) as Hch.
  unfold full. rewrite Httm. subst t.
  change (cores (constructed cs)) with cs. change (N (constructed cs)) with (modes_N cs).
  destruct cs as [|c0 rest]; [congruence|].
  change (item (c0 :: rest) 0) with (Ok c0). rewrite bind_Ok.
  destruct Hch as (Hk0 & Hl0 & Hch).
  pose proof (shape3 c0 Hk0) as Hsh0. rewrite Hl0 in Hsh0.
  rewrite (tindex_first0 c0 _ _ _ Hsh0) by lia. rewrite bind_Ok.
  rewrite <- (partial_nil c0 Hk0).
  unfold range.
  replace (length (c0 :: rest) - 1 - 1) with (length rest - 1) by (simpl; lia).
  rewrite (foldM_items (c0 :: rest)) by (simpl; lia).
  change (skipn 1 (c0 :: rest)) with rest.
  rewrite length_modes_N.
  destruct rest as [|c1 rest'].
  - (* one core *)
    cbn [length Nat.sub firstn foldM]. rewrite bind_Ok.
    change (1 =? 1) with true. cbn [negb].
    assert (Htl : trailing c0 = 1).
    { rewrite running_cons in Hrun. exact Hrun. }
    rewrite (partial_nil c0 Hk0), (modes_N_3 c0 Hk0), Htl.
    unfold tsqueeze, tbuild, dense_shape. cbn [shape data length Nat.eqb app].
    do 2 f_equal.
    change [nth 1 (shape c0) 0; 1] with ([nth 1 (shape c0) 0] ++ [1]).
    rewrite indices_app, map_flat_map. change (indices [1]) with [[0]]. cbn [map].
    rewrite flat_map_single. apply map_ext_in. intros idx Hin.
    apply in_indices in Hin. destruct idx as [|i [|? ?]]; simpl in Hin;
      try discriminate Hin; try (destruct (i <? _); discriminate Hin).
    reflexivity.
  - (* at least two cores *)
    destruct (@exists_last _ (c1 :: rest')) as [mid [cl Hmid]]; [discriminate|].
    rewrite Hmid in *. rewrite firstn_removelast.
    apply chain_app in Hch. destruct Hch as (Hchm & Hkl & Hll & _).
    rewrite (partial_fold c0 mid []) by exact Hchm. rewrite bind_Ok. cbn [app].
    assert (Hd : (S (length (mid ++ [cl])) =? 1) = false).
    { rewrite length_app. simpl. apply Nat.eqb_neq. lia. }
    simpl length at 1. rewrite Hd. cbn [negb].
    change (c0 :: mid ++ [cl]) with ((c0 :: mid) ++ [cl]) at 1.
    rewrite item_last_app, bind_Ok.
    pose proof (shape3 cl Hkl) as Hshl.
    assert (Htl : trailing cl = 1).
    { rewrite running_cons in Hrun. rewrite running_single in Hrun. exact Hrun. }
    rewrite Htl in Hshl.
    rewrite (tindex_last0 cl _ _ _ Hshl) by lia. rewrite bind_Ok.
    rewrite (partial_last c0 mid cl); try assumption; try reflexivity.
    + unfold dense_shape. rewrite length_modes_N. simpl length. rewrite Hd. reflexivity.
    + intros x j Hx Hj. rewrite tget_tbuild; [reflexivity|].
      simpl. destruct (Nat.ltb_spec x (leading cl)), (Nat.ltb_spec j (nth 1 (shape cl) 0));
        try lia; reflexivity.
Qed.

End FullFacts.


(** ** Dense values, over entries with exact ring arithmetic *)

Section Exact.

Context {E : Type} {NE : Numeric E} {NL : NumericLaws E}.
Implicit Types (cs csa csb : list (tensor E)).

Add Ring E_ring : numeric_ring.

Lemma esum_scale (s : E) {A : Type} (f : A -> E) (l : list A) :
  esum (map (fun a => emul s (f a)) l) = emul s (esum (map f l)).
Proof.
  induction l as [|x l IH]; simpl.
  - ring.
  - rewrite IH. ring.
Qed.

Lemma esum_ext {A : Type} (f g : A -> E) (l : list A) :
  (forall a, In a l -> f a = g a) -> esum (map f l) = esum (map g l).
Proof. intros H. f_equal. apply map_ext_in. exact H. Qed.

Lemma vec_scale cs : forall idx (s : E) (v w : nat -> E),
  (forall b, v b = emul s (w b)) ->
  forall b, vec cs idx v b = emul s (vec cs idx w b).
Proof.
  induction cs as [|c cs IH]; intros idx s v w H b; [simpl; apply H|].
  destruct idx as [|i idx]; [simpl; apply H|]. simpl.
  apply IH. intros b'. unfold vstep.
  rewrite <- esum_scale. apply esum_ext. intros a _. rewrite H. ring.
Qed.

Lemma vec_app_gen cs1 : forall cs2 i1 i2 v,
  length i1 = length cs1 ->
  vec (cs1 ++ cs2) (i1 ++ i2) v = vec cs2 i2 (vec cs1 i1 v).
Proof.
  induction cs1 as [|c cs1 IH]; intros cs2 [|i i1] i2 v H; try discriminate H; [reflexivity|].
  simpl. apply IH. simpl in H. lia.
Qed.

(** the entry of a Kronecker product is the product of the entries *)
Lemma entry_kron csa csb ia ib :
  csa <> [] -> csb <> [] -> length ia = length csa ->
  length ib = length csb ->
  leading (hd (mkT [] []) csb) = 1 ->
  entry (csa ++ csb) (ia ++ ib) = emul (entry csa ia) (entry csb ib).
Proof.
  intros Hna Hnb Hla Hlb Hl1.
  destruct csa as [|a0 ra]; [congruence|]. destruct ia as [|i0 ia']; [discriminate Hla|].
  destruct csb as [|b0 rb]; [congruence|]. destruct ib as [|j0 ib']; [discriminate Hlb|].
  simpl in Hla, Hl1. cbn [app entry].
  rewrite vec_app_gen by lia. cbn [vec]. rewrite Hl1.
  apply vec_scale. intros b. unfold vstep, vec0. simpl. ring.
Qed.

Lemma chain_passes k r cs :
  k = 3 \/ k = 4 -> chain k r cs -> passes r cs /\ Forall (fun c => ndim c = k) cs.
Proof.
  intros Hk. revert r; induction cs as [|c cs IH]; intros r H; [split; [exact I | constructor]|].
  destruct H as (Hd & Hl & H). destruct (IH _ H) as [Hp Hf].
  split; [simpl; repeat split; try assumption; lia | constructor; assumption].
Qed.

(** the constructor accepts a chain of 3-dimensional cores from rank 1 to
    rank 1 *)
Lemma TT_init_tensor_ok cs :
  cs <> [] -> chain 3 1 cs -> running 1 cs = 1 ->
  TT_init (SrcCores cs) = Ok (constructed cs) /\ is_ttm (constructed cs) = false.
Proof.
  intros Hne Hch Hrun. destruct (chain_passes 3 1 cs (or_introl eq_refl) Hch) as [Hp H3].
  destruct cs as [|c0 rest]; [congruence|].
  assert (Hl : leading c0 = 1) by (destruct Hch as (_ & Hl & _); exact Hl).
  assert (Hm : length (modes_M (c0 :: rest)) = 0) by (apply modes_M_nil; exact H3).
  split.
  - rewrite TT_init_after_loop by (rewrite Hl; exact Hp).
    rewrite Hl, Hrun, Hm. reflexivity.
  - unfold constructed. cbn [is_ttm]. rewrite Hm, length_modes_N. reflexivity.
Qed.

Lemma TT_tensor_chain (t : TT E) cs :
  TT_init (SrcCores cs) = Ok t -> is_ttm t = false ->
  cs <> [] /\ chain 3 1 cs /\ running 1 cs = 1 /\ t = constructed cs /\
  leading (hd (mkT [] []) cs) = 1.
Proof.
  intros Hinit Httm.
  destruct (TT_init_ok cs t Hinit) as (Hne & Hp & Hrun & Hk & Ht & Hiff & Hl).
  assert (H3 : all3 cs).
  { destruct Hk as [H3|H4]; [exact H3|]. apply Hiff in H4. congruence. }
  repeat split; try assumption. apply chain_of_passes; assumption.
Qed.

Lemma flat_map_ext_In {A B : Type} (f g : A -> list B) (l : list A) :
  (forall a, In a l -> f a = g a) -> flat_map f l = flat_map g l.
Proof.
  induction l as [|x l IH]; intros H; [reflexivity|]. simpl.
  rewrite (H x) by (left; reflexivity). rewrite IH; [reflexivity|].
  intros a Ha. apply H. right. exact Ha.
Qed.

Lemma dense_shape_long n : 2 <= length n -> dense_shape n = n.
Proof.
  intros H. unfold dense_shape.
  destruct (Nat.eqb_spec (length n) 1) as [H1|_]; [lia | reflexivity].
Qed.

(** C5: for two TT-tensors [a] and [b], [kron(a, b)] returns an object whose
    mode sizes are [a.N + b.N], whose ranks are those of [a] followed by those
    of [b] with the shared boundary 1 written once, and whose dense form is
    the outer product of the dense forms, reshaped to [a.N + b.N]. *)
Theorem kron_shape_rank_dense (a b : TT E) :
  TT_tensor a -> TT_tensor b ->
  exists k fa fb,
    kron (OTT a) (OTT b) = Ok k /\
    N k = N a ++ N b /\
    R k = R a ++ tl (R b) /\
    full a = Ok fa /\ full b = Ok fb /\
    full k = Ok (outer_reshape fa fb (N a ++ N b)).
Proof.
  intros (csa & Ha & Hta & _) (csb & Hb & Htb & _).
  destruct (TT_tensor_chain a csa Ha Hta) as (Hna & Hca & Hra & Hea & Hla).
  destruct (TT_tensor_chain b csb Hb Htb) as (Hnb & Hcb & Hrb & Heb & Hlb).
  assert (Hne : csa ++ csb <> []) by (destruct csa; [congruence | discriminate]).
  assert (Hch : chain 3 1 (csa ++ csb)).
  { apply chain_app. rewrite Hra. split; assumption. }
  assert (Hrun : running 1 (csa ++ csb) = 1) by (rewrite running_app, Hra; exact Hrb).
  destruct (TT_init_tensor_ok (csa ++ csb) Hne Hch Hrun) as [Hk Htk].
  exists (constructed (csa ++ csb)).
  exists (mkT (dense_shape (N a)) (map (entry csa) (indices (N a)))).
  exists (mkT (dense_shape (N b)) (map (entry csb) (indices (N b)))).
  assert (HNa : N a = modes_N csa) by (rewrite Hea; reflexivity).
  assert (HNb : N b = modes_N csb) by (rewrite Heb; reflexivity).
  repeat split.
  - unfold kron. rewrite Hta, Htb. cbn [Bool.eqb negb].
    rewrite Hea, Heb. cbn [cores]. exact Hk.
  - rewrite HNa, HNb. cbn [constructed N]. apply modes_N_app.
  - rewrite Hea, Heb. cbn [constructed R tl].
    assert (Hh : leading (hd (mkT [] []) (csa ++ csb)) = leading (hd (mkT [] []) csa)).
    { destruct csa; [congruence | reflexivity]. }
    rewrite Hh. unfold ranks. rewrite map_app. reflexivity.
  - apply full_tensor; assumption.
  - apply full_tensor; assumption.
  - rewrite (full_tensor (csa ++ csb) _ Hk Htk). cbn [constructed N].
    rewrite modes_N_app, <- HNa, <- HNb.
    rewrite dense_shape_long.
    2:{ rewrite length_app, HNa, HNb, !length_modes_N.
        destruct csa; [congruence|]. destruct csb; [congruence|]. simpl. lia. }
    unfold outer_reshape. cbn [data]. do 2 f_equal.
    rewrite indices_app, map_flat_map, flat_map_map.
    apply flat_map_ext_In. intros ia Hia.
    rewrite !map_map. apply map_ext_in. intros ib Hib.
    apply in_indices, inb_length in Hia. apply in_indices, inb_length in Hib.
    apply entry_kron; try assumption.
    + rewrite Hia, HNa. apply length_modes_N.
    + rewrite Hib, HNb. apply length_modes_N.
Qed.

(** *** The identity operator *)

Lemma einsum_ijkl_mkp (a b : tensor E) n r r' :
  shape a = [1; n; n; 1] -> shape b = [r; n; r'] ->
  einsum "ijkl,mkp->imjlp" a b =
  Ok (tbuild [1; r; n; 1; r']
        (fun o => esum (map (fun k => emul (tget a [0; nth 2 o 0; k; 0])
                                           (tget b [nth 1 o 0; k; nth 4 o 0]))
                            (seq 0 n)))).
Proof.
  intros Ha Hb.
  unfold einsum, einsum_labels, ndim. rewrite Ha, Hb.
  repeat (progress (rewrite ?merge_one, ?Nat.eqb_refl;
                    cbn -[tbuild indices esum operand_at Nat.eqb])).
  f_equal. apply tbuild_ext. intros o Hin.
  destruct o as [|i0 [|m0 [|j0 [|l0 [|p0 [|? ?]]]]]]; try discriminate Hin;
    cbn [inb] in Hin; rewrite ?andb_false_r in Hin; try discriminate Hin.
  rewrite andb_true_r in Hin.
  repeat (apply andb_prop in Hin; destruct Hin as [?H Hin]).
  repeat match goal with H : (_ <? _) = true |- _ => apply Nat.ltb_lt in H end.
  rewrite indices_single, map_map. f_equal. apply map_ext_in. intros k Hk.
  apply in_seq in Hk. unfold operand_at. rewrite Ha, Hb. cbn.
  rewrite !bcast_index by lia. reflexivity.
Qed.

Lemma esum_delta (f : nat -> E) j : forall n s,
  s <= j < s + n ->
  esum (map (fun k => emul (if j =? k then e1 else e0) (f k)) (seq s n)) = f j.
Proof.
  induction n as [|n IH]; intros s H; [lia|]. simpl.
  destruct (Nat.eqb_spec j s) as [->|Hne].
  - assert (Hz : esum (map (fun k => emul (if s =? k then e1 else e0) (f k)) (seq (S s) n)) = e0).
    { clear H IH. generalize (Nat.lt_succ_diag_r s). generalize (S s) as u.
      induction n as [|n IH]; intros u Hu; [reflexivity|]. simpl.
      destruct (Nat.eqb_spec s u); [lia|]. rewrite IH by lia. ring. }
    rewrite Hz. ring.
  - rewrite IH by lia. ring.
Qed.

Lemma tget_eye_core n j k :
  j < n -> k < n -> tget (eye_core n) [0; j; k; 0] = if j =? k then e1 else e0.
Proof.
  intros Hj Hk.
  transitivity (tget (teye n) [j; k]).
  - unfold tget, eye_core, teye, tbuild. cbn [shape data ravel prod fold_right].
    f_equal; try lia.
  - unfold teye. rewrite tget_tbuild; [reflexivity|].
    simpl. apply Nat.ltb_lt in Hj, Hk. rewrite Hj, Hk. reflexivity.
Qed.

Lemma indices_cons n sh :
  indices (n :: sh) = flat_map (fun i => map (cons i) (indices sh)) (seq 0 n).
Proof. reflexivity. Qed.

Lemma indices_one sh : indices (1 :: sh) = map (cons 0) (indices sh).
Proof. rewrite indices_cons. simpl. apply app_nil_r. Qed.

(** dimensions of size 1 do not change the order of the entries *)
Lemma indices_1rn1r {A : Type} (h : list nat -> A) r n r' :
  map (fun o => h [nth 1 o 0; nth 2 o 0; nth 4 o 0]) (indices [1; r; n; 1; r'])
  = map h (indices [r; n; r']).
Proof.
  rewrite indices_one, map_map.
  rewrite (indices_cons r [n; 1; r']), (indices_cons r [n; r']).
  rewrite !map_flat_map. apply flat_map_ext. intros m. rewrite !map_map.
  rewrite (indices_cons n [1; r']), (indices_cons n [r']).
  rewrite !map_flat_map. apply flat_map_ext. intros j. rewrite !map_map.
  rewrite indices_one, map_map, indices_single, !map_map. reflexivity.
Qed.
Lemma einsum_eye_core (b : tensor E) n r r' :
  shape b = [r; n; r'] -> twf b ->
  einsum "ijkl,mkp->imjlp" (eye_core n) b = Ok (mkT [1; r; n; 1; r'] (data b)).
Proof.
  intros Hb Hwf.
  rewrite (einsum_ijkl_mkp (eye_core n) b n r r' eq_refl Hb). f_equal.
  rewrite (tbuild_ext [1; r; n; 1; r'] _
             (fun o => tget b [nth 1 o 0; nth 2 o 0; nth 4 o 0])).
  - unfold tbuild. f_equal. rewrite (indices_1rn1r (tget b)).
    rewrite <- Hb. change (map (tget b) (indices (shape b))) with (data (tbuild (shape b) (tget b))).
    rewrite tbuild_tget by exact Hwf. reflexivity.
  - intros o Hin.
    destruct o as [|i0 [|m0 [|j0 [|l0 [|p0 [|? ?]]]]]]; try discriminate Hin;
      cbn [inb] in Hin; rewrite ?andb_false_r in Hin; try discriminate Hin.
    rewrite andb_true_r in Hin.
    repeat (apply andb_prop in Hin; destruct Hin as [?H Hin]).
    repeat match goal with H : (_ <? _) = true |- _ => apply Nat.ltb_lt in H end.
    cbn [nth].
    rewrite (esum_ext _ (fun k => emul (if j0 =? k then e1 else e0) (tget b [m0; k; p0]))).
    + apply (esum_delta (fun k => tget b [m0; k; p0])). lia.
    + intros k Hk. apply in_seq in Hk. rewrite tget_eye_core by lia. reflexivity.
Qed.

Lemma ints_facts (sh : list nat) :
  existsb (fun z => (z <? -1)%Z) (ints sh) = false /\
  filter (fun z => (0 <=? z)%Z) (ints sh) = ints sh /\
  filter (fun z => (z =? -1)%Z) (ints sh) = [] /\
  map Z.to_nat (ints sh) = sh.
Proof.
  unfold ints. induction sh as [|n sh (H1 & H2 & H3 & H4)]; [auto|]. simpl.
  rewrite H1, H2, H3, H4, Nat2Z.id.
  destruct (Z.ltb_spec (Z.of_nat n) (-1)); [lia|].
  destruct (Z.leb_spec 0 (Z.of_nat n)); [|lia].
  destruct (Z.eqb_spec (Z.of_nat n) (-1)); [lia|]. auto.
Qed.

(** [reshape] to a shape with the same number of entries keeps the data *)
Lemma treshape_ints (t : tensor E) (sh : list nat) :
  prod sh = numel t -> treshape t (ints sh) = Ok (mkT sh (data t)).
Proof.
  intros H. unfold treshape.
  destruct (ints_facts sh) as (H1 & H2 & H3 & H4).
  rewrite H1, H2, H3, H4. cbn [length]. rewrite H, Nat.eqb_refl. reflexivity.
Qed.

Lemma mapM_map {A B C : Type} (f : B -> result C) (h : A -> B) (xs : list A) :
  mapM f (map h xs) = mapM (fun x => f (h x)) xs.
Proof.
  induction xs as [|x xs IH]; [reflexivity|]. simpl. rewrite IH. reflexivity.
Qed.

Lemma mapM_items {A B : Type} (l : list A) (f : nat -> result B) (g : A -> B) :
  (forall i x, nth_error l i = Some x -> f i = Ok (g x)) ->
  mapM f (range 0 (length l)) = Ok (map g l).
Proof.
  unfold range. rewrite Nat.sub_0_r. revert f.
  induction l as [|x l IH]; intros f H; [reflexivity|].
  cbn [length seq mapM map]. rewrite (H 0 x eq_refl), bind_Ok.
  rewrite <- seq_shift, mapM_map, (IH (fun i => f (S i))).
  - reflexivity.
  - intros i y Hi. apply (H (S i) y Hi).
Qed.
Lemma eye_cores sh :
  mapM (fun s => u <- tunsqueeze (teye s) 0 ;; tunsqueeze u 3) sh
  = Ok (map eye_core sh).
Proof.
  induction sh as [|s sh IH]; [reflexivity|].
  cbn [mapM map]. rewrite IH. reflexivity.
Qed.

Lemma chain_eye sh : chain 4 1 (map eye_core sh) /\ running 1 (map eye_core sh) = 1.
Proof.
  split.
  - induction sh as [|s sh IH]; [exact I|]. simpl. auto.
  - unfold running. rewrite map_map.
    induction sh as [|s sh IH] using rev_ind; [reflexivity|].
    rewrite map_app. simpl. apply last_last.
Qed.

Lemma TT_init_matrix_ok cs :
  cs <> [] -> chain 4 1 cs -> running 1 cs = 1 ->
  TT_init (SrcCores cs) = Ok (constructed cs) /\ is_ttm (constructed cs) = true.
Proof.
  intros Hne Hch Hrun. destruct (chain_passes 4 1 cs (or_intror eq_refl) Hch) as [Hp H4].
  destruct cs as [|c0 rest]; [congruence|].
  assert (Hl : leading c0 = 1) by (destruct Hch as (_ & Hl & _); exact Hl).
  assert (Hm : length (modes_M (c0 :: rest)) = length (c0 :: rest)).
  { apply (modes_M_full 1); assumption. }
  split.
  - rewrite TT_init_after_loop by (rewrite Hl; exact Hp).
    rewrite Hl, Hrun, Hm, !Nat.eqb_refl. reflexivity.
  - unfold constructed. cbn [is_ttm]. rewrite Hm, length_modes_N. apply Nat.eqb_refl.
Qed.

Lemma modes_N_eye sh : modes_N (map eye_core sh) = sh.
Proof. unfold modes_N. rewrite map_map. simpl. apply map_id. Qed.

Lemma ranks_eye sh : Forall (fun r => r = 1) (ranks (map eye_core sh)).
Proof. unfold ranks. rewrite map_map. apply Forall_map, Forall_forall. reflexivity. Qed.

Lemma eye_ok sh :
  sh <> [] ->
  exists e, eye sh = Ok e /\ cores e = map eye_core sh /\ N e = sh /\
            is_ttm e = true /\ Forall (fun r => r = 1) (R e).
Proof.
  intros Hne. destruct (chain_eye sh) as [Hch Hrun].
  assert (Hne' : map eye_core sh <> []) by (destruct sh; [congruence | discriminate]).
  destruct (TT_init_matrix_ok _ Hne' Hch Hrun) as [Hi Ht].
  exists (constructed (map eye_core sh)).
  split; [unfold eye; rewrite eye_cores, bind_Ok; exact Hi|].
  split; [reflexivity|].
  split; [apply modes_N_eye|].
  split; [exact Ht|].
  cbn [constructed R]. constructor; [|apply ranks_eye].
  destruct sh; [congruence | reflexivity].
Qed.

Section Matmul.

Variable dense_matvec : list (tensor E) -> tensor E -> result (tensor E).

(** C6: for every TT-tensor [x], [eye(x.N)] is returned with all ranks 1,
    and [eye(x.N) @ x] returns a TT object with the cores of [x]: its ranks
    are those of [x], and [full] returns the same dense array on both. *)
Theorem eye_matmul_identity (x : TT E) :
  TT_tensor x ->
  exists e y fx,
    eye (N x) = Ok e /\
    Forall (fun r => r = 1) (R e) /\
    matmul dense_matvec e (OTT x) = Ok (RTT y) /\
    cores y = cores x /\
    R y = R x /\
    full x = Ok fx /\ full y = Ok fx.
Proof.
  intros (cs & Hx & Httm & Hwf).
  destruct (TT_tensor_chain x cs Hx Httm) as (Hne & Hch & Hrun & Hex & Hl).
  assert (HN : N x = modes_N cs) by (rewrite Hex; reflexivity).
  assert (Hcs : cores x = cs) by (rewrite Hex; reflexivity).
  assert (HNne : N x <> []).
  { rewrite HN. destruct cs; [congruence | discriminate]. }
  destruct (eye_ok (N x) HNne) as (e & He & Hce & HNe & Hte & HRe).
  assert (Hfull : full x = Ok (mkT (dense_shape (N x)) (map (entry cs) (indices (N x)))))
    by (apply full_tensor; assumption).
  exists e, x, (mkT (dense_shape (N x)) (map (entry cs) (indices (N x)))).
  split; [exact He|]. split; [exact HRe|].
  split; [|repeat split; exact Hfull].
  unfold matmul. rewrite Hte, Httm. cbn [andb negb].
  rewrite HNe, list_ne_refl, Hce, length_map, HN, length_modes_N, Hcs.
  rewrite (mapM_items cs _ (fun c => c)).
  - rewrite map_id, bind_Ok, Hx. reflexivity.
  - intros i b Hi.
    destruct (chain_passes 3 1 cs (or_introl eq_refl) Hch) as [_ H3].
    assert (Hb3 : ndim b = 3).
    { rewrite Forall_forall in H3. apply H3. eapply nth_error_In; eassumption. }
    assert (Hwb : twf b).
    { rewrite Forall_forall in Hwf. apply Hwf. eapply nth_error_In; eassumption. }
    pose proof (shape3 b Hb3) as Hsb.
    assert (Hia : item (map eye_core (modes_N cs)) i = Ok (eye_core (nth 1 (shape b) 0))).
    { apply item_nth_error. unfold modes_N. rewrite !nth_error_map, Hi. simpl.
      rewrite Hb3. reflexivity. }
    assert (Hib : item cs i = Ok b) by (apply item_nth_error; exact Hi).
    rewrite Hia, Hib, !bind_Ok.
    rewrite (einsum_eye_core b _ _ _ Hsb Hwb), bind_Ok.
    unfold dim. rewrite Hsb. cbn [eye_core shape item nth_error]. rewrite !bind_Ok.
    rewrite treshape_ints.
    + cbn [data]. rewrite !Nat.mul_1_l. clear -Hsb.
      destruct b as [sh d]. cbn [shape data] in Hsb |- *. congruence.
    + unfold numel. simpl. lia.
Qed.
End Matmul.

(** *** The Hadamard product *)

Lemma einsum_aib_min (a b : tensor E) p q n p' q' :
  shape a = [p; n; p'] -> shape b = [q; n; q'] ->
  einsum "aib,min->amibn" a b = Ok (tbuild [p; q; n; p'; q'] (had_entry a b)).
Proof.
  intros Ha Hb.
  unfold einsum, einsum_labels, ndim. rewrite Ha, Hb.
  repeat (progress (rewrite ?merge_one, ?Nat.eqb_refl;
                    cbn -[tbuild indices esum operand_at Nat.eqb])).
  f_equal. apply tbuild_ext. intros o Hin.
  destruct o as [|a0 [|m0 [|i0 [|b0 [|n0 [|? ?]]]]]]; try discriminate Hin;
    cbn [inb] in Hin; rewrite ?andb_false_r in Hin; try discriminate Hin.
  rewrite andb_true_r in Hin.
  repeat (apply andb_prop in Hin; destruct Hin as [?H Hin]).
  repeat match goal with H : (_ <? _) = true |- _ => apply Nat.ltb_lt in H end.
  unfold operand_at, had_entry. rewrite Ha, Hb. cbn.
  rewrite !bcast_index by lia. ring.
Qed.

Lemma had_core_reshape (a b : tensor E) p q n p' q' :
  shape a = [p; n; p'] -> shape b = [q; n; q'] ->
  (e <- einsum "aib,min->amibn" a b ;; treshape e (ints [p * q; n; p' * q']))
  = Ok (had_core a b).
Proof.
  intros Ha Hb. rewrite (einsum_aib_min a b p q n p' q' Ha Hb), bind_Ok.
  rewrite treshape_ints.
  - unfold had_core, leading, trailing. rewrite Ha, Hb. reflexivity.
  - unfold numel. simpl. ring.
Qed.

Lemma tget_had_core (a b : tensor E) p q n p' q' c i e :
  shape a = [p; n; p'] -> shape b = [q; n; q'] ->
  c < p * q -> i < n -> e < p' * q' ->
  tget (had_core a b) [c; i; e]
  = emul (tget a [c / q; i; e / q']) (tget b [c mod q; i; e mod q']).
Proof.
  intros Ha Hb Hc Hi He.
  assert (Hq : q <> 0) by (intros ->; lia).
  assert (Hq' : q' <> 0) by (intros ->; lia).
  unfold had_core, leading, trailing. rewrite Ha, Hb. cbn [nth last].
  set (sh5 := [p; q; n; p'; q']).
  set (o := [c / q; c mod q; i; e / q'; e mod q']).
  assert (Hin : inb sh5 o = true).
  { subst sh5 o. cbn [inb].
    pose proof (Nat.mod_upper_bound c q Hq). pose proof (Nat.mod_upper_bound e q' Hq').
    assert (c / q < p) by (apply Nat.Div0.div_lt_upper_bound; lia).
    assert (e / q' < p') by (apply Nat.Div0.div_lt_upper_bound; lia).
    repeat (apply andb_true_intro; split); try (apply Nat.ltb_lt; assumption). reflexivity. }
  assert (Hr : ravel [p * q; n; p' * q'] [c; i; e] = ravel sh5 o).
  { subst sh5 o. cbn [ravel prod fold_right].
    rewrite (Nat.div_mod_eq c q) at 1. rewrite (Nat.div_mod_eq e q') at 1. ring. }
  unfold tget. cbn [shape data]. rewrite Hr.
  rewrite (nth_indep _ e0 (had_entry a b o)).
  2:{ rewrite length_map, length_indices. apply ravel_lt. exact Hin. }
  rewrite (map_nth (had_entry a b)).
  rewrite nth_ravel_indices by exact Hin. reflexivity.
Qed.
Lemma esum_app (l1 l2 : list E) : esum (l1 ++ l2) = eadd (esum l1) (esum l2).
Proof.
  induction l1 as [|x l1 IH]; simpl; [ring|]. rewrite IH. ring.
Qed.

Lemma esum_scale_r (s : E) {A : Type} (f : A -> E) (l : list A) :
  esum (map (fun a => emul (f a) s) l) = emul (esum (map f l)) s.
Proof.
  induction l as [|x l IH]; simpl; [ring|]. rewrite IH. ring.
Qed.

Lemma seq_offset s : forall q, seq s q = map (fun m => s + m) (seq 0 q).
Proof.
  induction q as [|q IH]; [reflexivity|].
  rewrite !seq_S, map_app, IH. reflexivity.
Qed.

(** a sum over a product range is a double sum *)
Lemma esum_pairs (F : nat -> nat -> E) q : forall p,
  esum (map (fun c => F (c / q) (c mod q)) (seq 0 (p * q)))
  = esum (map (fun a => esum (map (F a) (seq 0 q))) (seq 0 p)).
Proof.
  induction p as [|p IH]; [reflexivity|].
  replace (S p * q) with (p * q + q) by lia.
  rewrite seq_app, seq_S, !map_app, !esum_app, IH. cbn [Nat.add map esum fold_right].
  f_equal. rewrite (seq_offset (p * q) q), map_map.
  transitivity (esum (map (F p) (seq 0 q))); [|ring].
  apply esum_ext. intros m Hm. apply in_seq in Hm.
  assert (Hq : q <> 0) by lia.
  assert (Hd : (p * q + m) / q = p).
  { rewrite Nat.div_add_l by exact Hq. rewrite Nat.div_small by lia. lia. }
  assert (Hr : (p * q + m) mod q = m).
  { rewrite Nat.add_comm, Nat.Div0.mod_add. apply Nat.mod_small. lia. }
  rewrite Hd, Hr. reflexivity.
Qed.

Lemma esum_product {A B : Type} (f : A -> E) (g : B -> E) (la : list A) (lb : list B) :
  esum (map (fun a => esum (map (fun b => emul (f a) (g b)) lb)) la)
  = emul (esum (map f la)) (esum (map g lb)).
Proof.
  rewrite <- esum_scale_r. apply esum_ext. intros a _. apply esum_scale.
Qed.

Lemma vstep_had (a b : tensor E) p q n p' q' (vA vB vC : nat -> E) i e :
  shape a = [p; n; p'] -> shape b = [q; n; q'] ->
  i < n -> e < p' * q' ->
  (forall c, c < p * q -> vC c = emul (vA (c / q)) (vB (c mod q))) ->
  vstep (p * q) vC (had_core a b) i e
  = emul (vstep p vA a i (e / q')) (vstep q vB b i (e mod q')).
Proof.
  intros Ha Hb Hi He HvC. unfold vstep.
  rewrite <- esum_product.
  rewrite <- (esum_pairs (fun x m => emul (emul (vA x) (tget a [x; i; e / q']))
                                        (emul (vB m) (tget b [m; i; e mod q']))) q p).
  apply esum_ext. intros c Hc. apply in_seq in Hc.
  rewrite HvC by lia.
  rewrite (tget_had_core a b p q n p' q' c i e Ha Hb) by lia. ring.
Qed.

Lemma length_had_cores csa csb :
  length csa = length csb -> length (had_cores csa csb) = length csa.
Proof. intros H. unfold had_cores. rewrite length_map, length_combine. lia. Qed.

Lemma had_cores_cons a b csa csb :
  had_cores (a :: csa) (b :: csb) = had_core a b :: had_cores csa csb.
Proof. reflexivity. Qed.

Lemma chain_had csa : forall csb p q,
  chain 3 p csa -> chain 3 q csb -> modes_N csa = modes_N csb ->
  chain 3 (p * q) (had_cores csa csb) /\
  running (p * q) (had_cores csa csb) = running p csa * running q csb /\
  modes_N (had_cores csa csb) = modes_N csa /\
  ranks (had_cores csa csb) = rank_product (ranks csa) (ranks csb).
Proof.
  induction csa as [|a csa IH]; intros [|b csb] p q Ha Hb HN; try discriminate HN.
  - split; [exact I|]. split; [reflexivity|]. split; reflexivity.
  - destruct Ha as (Ha3 & Hal & Ha). destruct Hb as (Hb3 & Hbl & Hb).
    injection HN as Hn HN.
    destruct (IH csb _ _ Ha Hb HN) as (Hch & Hrun & HmN & Hrk).
    rewrite had_cores_cons.
    assert (Ht : trailing (had_core a b) = trailing a * trailing b) by reflexivity.
    split; [|split; [|split]].
    + cbn [chain]. split; [reflexivity|]. split.
      * unfold leading at 1. cbn [had_core shape nth]. congruence.
      * rewrite Ht. exact Hch.
    + rewrite !running_cons, Ht. exact Hrun.
    + change (modes_N (had_core a b :: had_cores csa csb))
        with (nth 1 (shape a) 0 :: modes_N (had_cores csa csb)).
      rewrite HmN. unfold modes_N. cbn [map]. rewrite Ha3. reflexivity.
    + unfold ranks in *. cbn [map]. rewrite Hrk, Ht. reflexivity.
Qed.

Lemma vec_had csa : forall csb idx p q (vA vB vC : nat -> E),
  chain 3 p csa -> chain 3 q csb -> modes_N csa = modes_N csb ->
  inb (modes_N csa) idx = true ->
  (forall e, e < p * q -> vC e = emul (vA (e / q)) (vB (e mod q))) ->
  forall e, e < running p csa * running q csb ->
    vec (had_cores csa csb) idx vC e
    = emul (vec csa idx vA (e / running q csb)) (vec csb idx vB (e mod running q csb)).
Proof.
  induction csa as [|a csa IH]; intros [|b csb] idx p q vA vB vC Ha Hb HN Hin HvC e He;
    try discriminate HN.
  - simpl. apply HvC. exact He.
  - destruct idx as [|i idx]; [discriminate Hin|].
    destruct Ha as (Ha3 & Hal & Ha). destruct Hb as (Hb3 & Hbl & Hb).
    injection HN as Hn HN. rewrite Ha3, Hb3 in Hn. cbn [Nat.eqb] in Hn.
    pose proof (shape3 a Ha3) as Hsa. pose proof (shape3 b Hb3) as Hsb.
    rewrite Hal in Hsa. rewrite Hbl, <- Hn in Hsb.
    change (inb (modes_N (a :: csa)) (i :: idx))
      with ((i <? (if ndim a =? 3 then nth 1 (shape a) 0 else nth 2 (shape a) 0))
            && inb (modes_N csa) idx) in Hin.
    rewrite Ha3 in Hin. cbn [Nat.eqb] in Hin.
    apply andb_prop in Hin. destruct Hin as [Hi Hin]. apply Nat.ltb_lt in Hi.
    rewrite !running_cons in He. rewrite !running_cons.
    rewrite had_cores_cons. cbn [vec].
    apply (IH csb idx (trailing a) (trailing b)); try assumption.
    intros e' He'.
    replace (leading (had_core a b)) with (p * q)
      by (unfold leading at 1; cbn [had_core shape nth]; congruence).
    rewrite Hal, Hbl.
    apply (vstep_had a b p q (nth 1 (shape a) 0) (trailing a) (trailing b));
      assumption.
Qed.

Lemma entry_had csa csb idx :
  csa <> [] -> chain 3 1 csa -> chain 3 1 csb ->
  running 1 csa = 1 -> running 1 csb = 1 ->
  modes_N csa = modes_N csb ->
  inb (modes_N csa) idx = true ->
  entry (had_cores csa csb) idx = emul (entry csa idx) (entry csb idx).
Proof.
  intros Hne Ha Hb Hra Hrb HN Hin.
  destruct csa as [|a csa]; [congruence|].
  destruct csb as [|b csb]; [discriminate HN|].
  destruct idx as [|i idx]; [discriminate Hin|].
  destruct Ha as (Ha3 & Hal & Ha). destruct Hb as (Hb3 & Hbl & Hb).
  injection HN as Hn HN. rewrite Ha3, Hb3 in Hn. cbn [Nat.eqb] in Hn.
  pose proof (shape3 a Ha3) as Hsa. pose proof (shape3 b Hb3) as Hsb.
  rewrite Hal in Hsa. rewrite Hbl, <- Hn in Hsb.
  change (inb (modes_N (a :: csa)) (i :: idx))
    with ((i <? (if ndim a =? 3 then nth 1 (shape a) 0 else nth 2 (shape a) 0))
          && inb (modes_N csa) idx) in Hin.
  rewrite Ha3 in Hin. cbn [Nat.eqb] in Hin.
  apply andb_prop in Hin. destruct Hin as [Hi Hin]. apply Nat.ltb_lt in Hi.
  rewrite running_cons in Hra, Hrb.
  rewrite had_cores_cons. cbn [entry].
  rewrite (vec_had csa csb idx (trailing a) (trailing b)
             (vec0 a i) (vec0 b i) (vec0 (had_core a b) i) Ha Hb HN Hin).
  - rewrite Hrb. reflexivity.
  - intros e He. unfold vec0.
    rewrite (tget_had_core a b 1 1 (nth 1 (shape a) 0) (trailing a) (trailing b) 0 i e Hsa Hsb)
      by lia.
    reflexivity.
  - rewrite Hra, Hrb. lia.
Qed.
Lemma nth_error_combine {A B : Type} (la : list A) : forall (lb : list B) i x y,
  nth_error (combine la lb) i = Some (x, y) ->
  nth_error la i = Some x /\ nth_error lb i = Some y.
Proof.
  induction la as [|a la IH]; intros [|b lb] i x y H; try (destruct i; discriminate H).
  destruct i as [|i]; simpl in *.
  - injection H as -> ->. auto.
  - apply IH. exact H.
Qed.

Lemma combine_map_map {A B C : Type} (f : A -> B) (g : A -> C) (l : list A) :
  combine (map f l) (map g l) = map (fun x => (f x, g x)) l.
Proof. induction l as [|x l IH]; [reflexivity|]. simpl. rewrite IH. reflexivity. Qed.

Lemma nth_error_modes_N cs i c :
  chain 3 1 cs -> nth_error cs i = Some c ->
  ndim c = 3 /\ nth_error (modes_N cs) i = Some (nth 1 (shape c) 0).
Proof.
  intros Hch Hi.
  destruct (chain_passes 3 1 cs (or_introl eq_refl) Hch) as [_ H3].
  assert (Hc3 : ndim c = 3).
  { rewrite Forall_forall in H3. apply H3. eapply nth_error_In; eassumption. }
  split; [exact Hc3|].
  unfold modes_N. rewrite nth_error_map, Hi. simpl. rewrite Hc3. reflexivity.
Qed.

(** C3: for two TT-tensors [a] and [b] with equal mode sizes, [a * b] returns
    an object whose rank at every boundary is the product of the ranks of [a]
    and [b] there, and whose dense form is the elementwise product of the
    dense forms of [a] and [b]. *)
Theorem mul_rank_dense (a b : TT E) :
  TT_tensor a -> TT_tensor b -> N a = N b ->
  exists c fa fb,
    mul a (OTT b) = Ok c /\
    R c = rank_product (R a) (R b) /\
    full a = Ok fa /\ full b = Ok fb /\
    full c = Ok (hadamard fa fb).
Proof.
  intros (csa & Ha & Hta & _) (csb & Hb & Htb & _) HN.
  destruct (TT_tensor_chain a csa Ha Hta) as (Hna & Hca & Hra & Hea & Hla).
  destruct (TT_tensor_chain b csb Hb Htb) as (Hnb & Hcb & Hrb & Heb & Hlb).
  assert (HNa : N a = modes_N csa) by (rewrite Hea; reflexivity).
  assert (HNb : N b = modes_N csb) by (rewrite Heb; reflexivity).
  assert (HRa : R a = 1 :: ranks csa) by (rewrite Hea; cbn [constructed R]; rewrite Hla; reflexivity).
  assert (HRb : R b = 1 :: ranks csb) by (rewrite Heb; cbn [constructed R]; rewrite Hlb; reflexivity).
  assert (Hcsa : cores a = csa) by (rewrite Hea; reflexivity).
  assert (Hcsb : cores b = csb) by (rewrite Heb; reflexivity).
  assert (HNN : modes_N csa = modes_N csb) by congruence.
  assert (Hlen : length csa = length csb).
  { rewrite <- (length_modes_N csa), <- (length_modes_N csb), HNN. reflexivity. }
  destruct (chain_had csa csb 1 1 Hca Hcb HNN) as (Hch & Hrun & HmN & Hrk).
  change (1 * 1) with 1 in Hch, Hrun. rewrite Hra, Hrb in Hrun. change (1 * 1) with 1 in Hrun.
  assert (Hne : had_cores csa csb <> []).
  { destruct csa; [congruence|]. destruct csb; [congruence | discriminate]. }
  destruct (TT_init_tensor_ok (had_cores csa csb) Hne Hch Hrun) as [Hk Htk].
  exists (constructed (had_cores csa csb)).
  exists (mkT (dense_shape (N a)) (map (entry csa) (indices (N a)))).
  exists (mkT (dense_shape (N b)) (map (entry csb) (indices (N b)))).
  split; [|split; [|split; [|split]]].
  - unfold mul. rewrite Hta, Htb. cbn [andb negb].
    rewrite HN, list_ne_refl, Hcsa, Hcsb.
    replace (length csa) with (length (combine csa csb)) by (rewrite length_combine; lia).
    rewrite (mapM_items (combine csa csb) _ (fun p => had_core (fst p) (snd p))).
    + rewrite bind_Ok. exact Hk.
    + intros i [x y] Hi. apply nth_error_combine in Hi. destruct Hi as [Hx Hy].
      destruct (nth_error_modes_N csa i x Hca Hx) as [Hx3 HxN].
      destruct (nth_error_modes_N csb i y Hcb Hy) as [Hy3 HyN].
      assert (Hn : nth 1 (shape y) 0 = nth 1 (shape x) 0) by congruence.
      pose proof (shape3 x Hx3) as Hsx. pose proof (shape3 y Hy3) as Hsy.
      rewrite Hn in Hsy.
      destruct (chain_nth 3 csa 1 i x ltac:(lia) Hca Hx) as [Hx0 Hxl].
      destruct (chain_nth 3 csb 1 i y ltac:(lia) Hcb Hy) as [Hy0 Hyl].
      rewrite Hsx in Hx0, Hxl. rewrite Hsy in Hy0, Hyl.
      rewrite (item_last_last _ 0) in Hxl by discriminate.
      rewrite (item_last_last _ 0) in Hyl by discriminate.
      cbn [item nth_error last] in Hx0, Hxl, Hy0, Hyl.
      rewrite (proj2 (item_nth_error csa i x) Hx), (proj2 (item_nth_error csb i y) Hy).
      rewrite !bind_Ok.
      rewrite (einsum_aib_min x y _ _ _ _ _ Hsx Hsy), bind_Ok.
      rewrite HRa, HRb, <- Hx0, <- Hxl, <- Hy0, <- Hyl, !bind_Ok.
      rewrite <- HN, HNa, (proj2 (item_nth_error (modes_N csa) i _) HxN), bind_Ok.
      rewrite !bind_Ok.
      rewrite treshape_ints; [reflexivity|].
      unfold numel. simpl. ring.
  - cbn [constructed R]. rewrite HRa, HRb.
    replace (leading (hd (mkT [] []) (had_cores csa csb))) with 1.
    + unfold rank_product in *. cbn [combine map fst snd]. rewrite Hrk. reflexivity.
    + destruct csa as [|x csa']; [congruence|]. destruct csb as [|y csb']; [congruence|].
      destruct Hch as (_ & Hl & _). symmetry. exact Hl.
  - apply full_tensor; assumption.
  - apply full_tensor; assumption.
  - rewrite (full_tensor (had_cores csa csb) _ Hk Htk). cbn [constructed N].
    rewrite HmN, <- HNa. unfold hadamard. cbn [shape data].
    rewrite <- HN, combine_map_map, map_map. do 2 f_equal.
    apply map_ext_in. intros idx Hin. apply in_indices in Hin. rewrite HNa in Hin.
    cbn [fst snd]. apply entry_had; assumption.
Qed.

End Exact.

(** the 2 x 3 examples are TT-tensors *)
Lemma example_ab_TT_tensor :
  TT_tensor (constructed [Examples.core_a; Examples.core_b]).
Proof.
  exists [Examples.core_a; Examples.core_b].
  split; [vm_compute; reflexivity|].
  split; [reflexivity|].
  repeat (constructor; try reflexivity).
Defined.

Lemma example_cd_TT_tensor :
  TT_tensor (constructed [Examples.core_c; Examples.core_d]).
Proof.
  exists [Examples.core_c; Examples.core_d].
  split; [vm_compute; reflexivity|].
  split; [reflexivity|].
  repeat (constructor; try reflexivity).
Defined.

(** The Kronecker product of the two 2 x 3 examples. *)
Lemma kron_shape_rank_dense_witness :
  TT_tensor (constructed [Examples.core_a; Examples.core_b]) /\
  TT_tensor (constructed [Examples.core_c; Examples.core_d]) /\
  exists k fa fb,
    kron (OTT (constructed [Examples.core_a; Examples.core_b]))
         (OTT (constructed [Examples.core_c; Examples.core_d])) = Ok k /\
    N k = [2; 3] ++ [2; 3] /\
    R k = [1; 2; 1] ++ tl [1; 3; 1] /\
    full (constructed [Examples.core_a; Examples.core_b]) = Ok fa /\
    full (constructed [Examples.core_c; Examples.core_d]) = Ok fb /\
    full k = Ok (outer_reshape fa fb ([2; 3] ++ [2; 3])).
Proof.
  split; [exact example_ab_TT_tensor|].
  split; [exact example_cd_TT_tensor|].
  exact (@kron_shape_rank_dense Z Z_Numeric Z_NumericLaws
           (constructed [Examples.core_a; Examples.core_b])
           (constructed [Examples.core_c; Examples.core_d])
           example_ab_TT_tensor example_cd_TT_tensor).
Defined.

(** The identity operator on the 2 x 3 example of rank 2. *)
Lemma eye_matmul_identity_witness :
  TT_tensor (constructed [Examples.core_a; Examples.core_b]) /\
  exists e y fx,
    eye [2; 3] = Ok e /\
    Forall (fun r => r = 1) (R e) /\
    matmul Examples.no_dense_matvec e
           (OTT (constructed [Examples.core_a; Examples.core_b])) = Ok (RTT y) /\
    cores y = [Examples.core_a; Examples.core_b] /\
    R y = [1; 2; 1] /\
    full (constructed [Examples.core_a; Examples.core_b]) = Ok fx /\
    full y = Ok fx.
Proof.
  split; [exact example_ab_TT_tensor|].
  exact (@eye_matmul_identity Z Z_Numeric Z_NumericLaws Examples.no_dense_matvec
           (constructed [Examples.core_a; Examples.core_b])
           example_ab_TT_tensor).
Defined.

(** The Hadamard product of the two 2 x 3 examples, of ranks 2 and 3. *)
Lemma mul_rank_dense_witness :
  TT_tensor (constructed [Examples.core_a; Examples.core_b]) /\
  TT_tensor (constructed [Examples.core_c; Examples.core_d]) /\
  N (constructed [Examples.core_a; Examples.core_b])
  = N (constructed [Examples.core_c; Examples.core_d]) /\
  exists c fa fb,
    mul (constructed [Examples.core_a; Examples.core_b])
        (OTT (constructed [Examples.core_c; Examples.core_d])) = Ok c /\
    R c = rank_product [1; 2; 1] [1; 3; 1] /\
    full (constructed [Examples.core_a; Examples.core_b]) = Ok fa /\
    full (constructed [Examples.core_c; Examples.core_d]) = Ok fb /\
    full c = Ok (hadamard fa fb).
Proof.
  split; [exact example_ab_TT_tensor|].
  split; [exact example_cd_TT_tensor|].
  split; [reflexivity|].
  exact (@mul_rank_dense Z Z_Numeric Z_NumericLaws
           (constructed [Examples.core_a; Examples.core_b])
           (constructed [Examples.core_c; Examples.core_d])
           example_ab_TT_tensor example_cd_TT_tensor eq_refl).
Defined.


(** * Further properties of the code *)

Import Ops.

(** ** Rebuilding an object from its cores *)

Section Rebuild.

Context {E : Type} {NE : Numeric E}.
Implicit Types (cs : list (tensor E)).

(** the constructor returns the same object on the cores of an object it
    returned *)
Lemma TT_init_rebuild cs (x : TT E) :
  TT_init (SrcCores cs) = Ok x -> TT_init (SrcCores (cores x)) = Ok x.
Proof. intros H. rewrite (TT_init_cores cs x H). exact H. Qed.

(** X7: on an object the constructor returned, unary plus, [kron] with
    [None] on either side, [**] and the reflected [**] with [None] all
    return an object with the same attributes. *)
Theorem pos_kron_None_rebuild cs (x : TT E) :
  TT_init (SrcCores cs) = Ok x ->
  pos x = Ok x /\
  kron (OTT x) ONone = Ok x /\
  kron ONone (OTT x) = Ok x /\
  pow x ONone = Ok x /\
  rpow x ONone = Ok x.
Proof.
  intros H. pose proof (TT_init_rebuild cs x H) as Hr.
  unfold pos, pow, rpow, kron. rewrite map_id. auto.
Qed.

(** X18: the copy that [cuda], [cpu] and [to] return keeps [N], [R],
    [is_ttm] and the moved cores, but has no attribute [shape], which the
    constructed object has. *)
Theorem relocate_drops_shape (move : tensor E -> tensor E) cs (x : TT E) :
  TT_init (SrcCores cs) = Ok x ->
  exists y sh,
    cpu move x = Ok y /\ cuda move x = Ok y /\ to move x = Ok y /\
    cores y = map move (cores x) /\
    N y = N x /\ R y = R x /\ is_ttm y = is_ttm x /\
    getattr x "shape" = Ok (AShape sh) /\
    getattr y "shape" = Raise AttributeError.
Proof.
  intros H. apply TT_init_ok in H. destruct H as (_ & _ & _ & _ & -> & _).
  unfold cpu, cuda, to, relocate, constructed. cbn [TT_init bind is_ttm].
  destruct (length (modes_M cs) =? length (modes_N cs)) eqn:Hm.
  - eexists. eexists. cbn. repeat split; reflexivity.
  - eexists. eexists. cbn. repeat split; reflexivity.
Qed.

(** X17: on a TT-matrix [qtt_to_tens] never returns: the empty list of
    cores reaches the constructor, which raises [IndexError]. *)
Theorem qtt_to_tens_matrix (x : TT E) (sh : list nat) :
  is_ttm x = true -> qtt_to_tens x (IntList sh) = Raise IndexError.
Proof. intros H. unfold qtt_to_tens. rewrite H. reflexivity. Qed.

End Rebuild.


(** ** Negation and scaling *)

Section Scaling.

Context {E : Type} {NE : Numeric E} {NL : NumericLaws E}.
Implicit Types (cs : list (tensor E)).

Add Ring E_ring2 : numeric_ring.

Lemma tget_tmap (f : E -> E) (c : tensor E) idx :
  f e0 = e0 -> tget (tmap f c) idx = f (tget c idx).
Proof.
  intros H0. unfold tget, tmap. cbn [shape data].
  rewrite <- H0 at 1. apply map_nth.
Qed.

Lemma tmap_id (f : E -> E) (c : tensor E) :
  (forall x, f x = x) -> tmap f c = c.
Proof.
  intros H. unfold tmap. destruct c as [sh d]. cbn [shape data]. f_equal.
  rewrite (map_ext f (fun x => x)) by exact H. apply map_id.
Qed.

(** the entry of a train whose first core is mapped by a scaling *)
Lemma entry_scaled (f : E -> E) (s : E) c0 cs idx :
  (forall x, f x = emul s x) ->
  entry (tmap f c0 :: cs) idx = emul s (entry (c0 :: cs) idx).
Proof.
  intros Hf. destruct idx as [|i0 idx]; [simpl; ring|]. cbn [entry].
  apply vec_scale. intros b. unfold vec0. rewrite tget_tmap; [apply Hf|].
  rewrite Hf. ring.
Qed.

Lemma scaled_cores (f : E -> E) (s : E) cs (x : TT E) :
  (forall v, f v = emul s v) ->
  TT_init (SrcCores cs) = Ok x -> is_ttm x = false ->
  exists c0 rest fx,
    cores x = c0 :: rest /\
    TT_init (SrcCores (tmap f c0 :: rest)) = Ok (with_cores x (tmap f c0 :: rest)) /\
    full x = Ok fx /\
    full (with_cores x (tmap f c0 :: rest)) = Ok (tmap f fx).
Proof.
  intros Hf Hx Httm.
  destruct (TT_tensor_chain x cs Hx Httm) as (Hne & Hch & Hrun & Hex & Hl).
  destruct cs as [|c0 rest]; [congruence|].
  assert (Hcs : cores x = c0 :: rest) by (rewrite Hex; reflexivity).
  assert (Hinit : TT_init (SrcCores (tmap f c0 :: rest))
                  = Ok (with_cores x (tmap f c0 :: rest))).
  { rewrite (TT_init_shapes (c0 :: rest) (tmap f c0 :: rest)) by reflexivity.
    rewrite Hx. reflexivity. }
  exists c0, rest, (mkT (dense_shape (N x)) (map (entry (c0 :: rest)) (indices (N x)))).
  split; [exact Hcs|]. split; [exact Hinit|].
  split; [apply full_tensor; assumption|].
  rewrite (full_tensor (tmap f c0 :: rest) _ Hinit) by exact Httm.
  unfold tmap. cbn [with_cores N shape data]. fold (tmap f c0). do 2 f_equal.
  rewrite map_map. apply map_ext. intros idx.
  rewrite (entry_scaled f s) by exact Hf. symmetry. apply Hf.
Qed.

Lemma scaled_train (f : E -> E) (s : E) (x : TT E) :
  (forall v, f v = emul s v) ->
  TT_tensor x ->
  exists c0 rest fx,
    cores x = c0 :: rest /\
    TT_init (SrcCores (tmap f c0 :: rest)) = Ok (with_cores x (tmap f c0 :: rest)) /\
    full x = Ok fx /\
    full (with_cores x (tmap f c0 :: rest)) = Ok (tmap f fx).
Proof.
  intros Hf (cs & Hx & Httm & _). exact (scaled_cores f s cs x Hf Hx Httm).
Qed.

(** X5: for a TT-tensor, unary minus returns an object with the same mode
    sizes and ranks whose dense form is the negated dense form. *)
Theorem neg_dense (x : TT E) :
  TT_tensor x ->
  exists y fx,
    neg x = Ok y /\ N y = N x /\ R y = R x /\
    full x = Ok fx /\ full y = Ok (tneg fx).
Proof.
  intros Hx.
  assert (Hf : forall v : E, eopp v = emul (eopp e1) v) by (intros; ring).
  destruct (scaled_train eopp (eopp e1) x Hf Hx)
    as (c0 & rest & fx & Hcs & Hinit & Hfx & Hfy).
  exists (with_cores x (tneg c0 :: rest)), fx.
  split; [|split; [reflexivity|split; [reflexivity|split; assumption]]].
  unfold neg. rewrite map_id, Hcs. cbn [item nth_error]. rewrite bind_Ok, set_item_0, bind_Ok.
  exact Hinit.
Qed.

(** X6: negating twice gives the object back. *)
Theorem neg_involutive cs (x : TT E) :
  TT_init (SrcCores cs) = Ok x ->
  exists y, neg x = Ok y /\ neg y = Ok x.
Proof.
  intros Hx. pose proof (TT_init_ok cs x Hx) as (Hne & _ & _ & _ & Hex & _).
  destruct cs as [|c0 rest]; [congruence|].
  assert (Hcs : cores x = c0 :: rest) by (rewrite Hex; reflexivity).
  assert (Hinit : TT_init (SrcCores (tneg c0 :: rest))
                  = Ok (with_cores x (tneg c0 :: rest))).
  { rewrite (TT_init_shapes (c0 :: rest) (tneg c0 :: rest)) by reflexivity.
    rewrite Hx. reflexivity. }
  exists (with_cores x (tneg c0 :: rest)). split.
  - unfold neg. rewrite map_id, Hcs. cbn [item nth_error].
    rewrite bind_Ok, set_item_0, bind_Ok. exact Hinit.
  - unfold neg. rewrite map_id. cbn [with_cores cores item nth_error].
    rewrite bind_Ok, set_item_0, bind_Ok.
    replace (tneg (tneg c0)) with c0; [exact Hx|].
    unfold tneg, tmap. destruct c0 as [sh d]. cbn [shape data]. f_equal.
    rewrite map_map. rewrite (map_ext _ (fun v => v)) by (intros; ring).
    symmetry. apply map_id.
Qed.

(** X4: for a TT-tensor and an int or float scalar [s], [x * s] returns an
    object with the same mode sizes and ranks whose dense form is the dense
    form of [x] with every entry multiplied by [s]. *)
Theorem mul_scalar_dense (x : TT E) (s : E) :
  TT_tensor x ->
  exists y fx,
    mul x (OInt s) = Ok y /\ mul x (OFloat s) = Ok y /\
    N y = N x /\ R y = R x /\
    full x = Ok fx /\ full y = Ok (tscale s fx).
Proof.
  intros Hx.
  assert (Hf : forall v : E, emul v s = emul s v) by (intros; ring).
  destruct (scaled_train (fun v => emul v s) s x Hf Hx)
    as (c0 & rest & fx & Hcs & Hinit & Hfx & Hfy).
  exists (with_cores x (tscale s c0 :: rest)), fx.
  assert (Hmul : mul x (OInt s) = Ok (with_cores x (tscale s c0 :: rest))).
  { unfold mul. rewrite Hcs.
    rewrite (map_ext (tmap (fun v => eadd v e0)) (fun c => c))
      by (intros c; apply tmap_id; intros; ring).
    rewrite map_id. cbn [item nth_error]. rewrite bind_Ok, set_item_0, bind_Ok.
    exact Hinit. }
  split; [exact Hmul|]. split; [exact Hmul|].
  split; [reflexivity|]. split; [reflexivity|]. split; assumption.
Qed.

End Scaling.


(** ** Transposition and conversion to a TT-matrix *)

Section Transpose.

Context {E : Type} {NE : Numeric E}.
Implicit Types (cs : list (tensor E)).

Lemma mapM_ok_map {A B : Type} (f : A -> result B) (g : A -> B) (l : list A) :
  (forall x, In x l -> f x = Ok (g x)) -> mapM f l = Ok (map g l).
Proof.
  induction l as [|x l IH]; intros H; [reflexivity|].
  cbn [mapM map]. rewrite (H x) by (left; reflexivity). rewrite bind_Ok.
  rewrite IH by (intros y Hy; apply H; right; exact Hy). reflexivity.
Qed.

Lemma tpermute_0213 (c : tensor E) :
  ndim c = 4 -> tpermute c [0; 2; 1; 3] = Ok (transposed_core c).
Proof.
  intros H. unfold tpermute. rewrite H.
  cbn [length Nat.eqb negb seq mapM index_of bind map].
  unfold transposed_core, leading, trailing, ndim in *.
  destruct (shape c) as [|a [|b [|d [|f [|? ?]]]]] eqn:Hs; try discriminate H.
  reflexivity.
Qed.

Lemma chain_transposed cs : forall r,
  chain 4 r cs ->
  chain 4 r (map transposed_core cs) /\
  running r (map transposed_core cs) = running r cs /\
  modes_N (map transposed_core cs) = modes_M cs /\
  modes_M (map transposed_core cs) = modes_N cs /\
  ranks (map transposed_core cs) = ranks cs.
Proof.
  induction cs as [|c cs IH]; intros r H.
  - repeat split.
  - destruct H as (H4 & Hl & H). destruct (IH _ H) as (Hch & Hrun & HN & HM & HR).
    cbn [map]. split; [|split; [|split; [|split]]].
    + cbn [chain]. split; [reflexivity|]. split; [exact Hl|]. exact Hch.
    + rewrite !running_cons. exact Hrun.
    + unfold modes_N, modes_M in *. cbn [map flat_map]. rewrite H4. cbn. rewrite HN. reflexivity.
    + unfold modes_N, modes_M in *. cbn [map flat_map]. rewrite H4. cbn. rewrite HM. reflexivity.
    + unfold ranks in *. cbn [map]. rewrite HR. reflexivity.
Qed.

Lemma TT_matrix_chain (x : TT E) cs :
  TT_init (SrcCores cs) = Ok x -> is_ttm x = true ->
  cs <> [] /\ chain 4 1 cs /\ running 1 cs = 1 /\ x = constructed cs /\
  length (modes_M cs) = length (modes_N cs).
Proof.
  intros Hinit Httm.
  destruct (TT_init_ok cs x Hinit) as (Hne & Hp & Hrun & Hk & Ht & Hiff & Hl).
  assert (H4 : all4 cs) by (apply Hiff; exact Httm).
  repeat split; try assumption.
  - apply chain_of_passes; assumption.
  - rewrite length_modes_N. apply (modes_M_full 1); assumption.
Qed.

Lemma transposed_twice (c : tensor E) :
  ndim c = 4 -> twf c -> transposed_core (transposed_core c) = c.
Proof.
  intros H4 Hwf. rewrite <- (tbuild_tget c Hwf) at 2.
  destruct c as [sh d]. unfold ndim in H4. cbn [shape] in *.
  destruct sh as [|a [|m [|n [|b [|? ?]]]]]; try discriminate H4.
  unfold transposed_core at 1.
  change (shape (transposed_core (mkT [a; m; n; b] d))) with [a; n; m; b].
  change (leading (transposed_core (mkT [a; m; n; b] d))) with a.
  change (trailing (transposed_core (mkT [a; m; n; b] d))) with b.
  cbn [nth].
  apply tbuild_ext. intros idx Hin.
  destruct idx as [|i0 [|i1 [|i2 [|i3 [|? ?]]]]]; try discriminate Hin;
    cbn [inb] in Hin; rewrite ?andb_false_r in Hin; try discriminate Hin.
  cbn [nth]. unfold transposed_core. 
  change (leading (mkT [a; m; n; b] d)) with a.
  change (trailing (mkT [a; m; n; b] d)) with b.
  cbn [shape nth].
  rewrite tget_tbuild; [reflexivity|].
  cbn [inb] in *. rewrite !andb_true_r in *.
  repeat (apply andb_prop in Hin; destruct Hin as [?H Hin]).
  repeat (apply andb_true_intro; split); assumption.
Qed.


Lemma t_returns cs (x : TT E) :
  TT_init (SrcCores cs) = Ok x -> is_ttm x = true ->
  t x = Ok (constructed (map transposed_core cs)) /\
  TT_init (SrcCores (map transposed_core cs)) = Ok (constructed (map transposed_core cs)) /\
  is_ttm (constructed (map transposed_core cs)) = true.
Proof.
  intros Hx Httm.
  destruct (TT_matrix_chain x cs Hx Httm) as (Hne & Hch & Hrun & Hex & Hlen).
  destruct (chain_transposed cs 1 Hch) as (Hch' & Hrun' & HN & HM & HR).
  assert (Hne' : map transposed_core cs <> []) by (destruct cs; [congruence | discriminate]).
  rewrite Hrun in Hrun'.
  destruct (TT_init_matrix_ok _ Hne' Hch' Hrun') as [Hinit Ht].
  split; [|split; assumption].
  unfold t. rewrite Httm. cbn [negb].
  rewrite (TT_init_cores cs x Hx).
  rewrite (mapM_ok_map _ transposed_core).
  - rewrite bind_Ok. exact Hinit.
  - intros c Hc. apply tpermute_0213.
    destruct (chain_passes 4 1 cs (or_intror eq_refl) Hch) as [_ H4].
    rewrite Forall_forall in H4. apply H4. exact Hc.
Qed.

(** X11: [t] is refused with [InvalidArguments] on a TT-tensor; on a
    TT-matrix it exchanges [M] and [N] and keeps the ranks. *)
Theorem t_exchanges_modes cs (x : TT E) :
  TT_init (SrcCores cs) = Ok x ->
  (is_ttm x = false -> t x = Raise InvalidArguments) /\
  (is_ttm x = true ->
   exists y, t x = Ok y /\ is_ttm y = true /\
             M y = Some (N x) /\ M x = Some (N y) /\ R y = R x).
Proof.
  intros Hx. split.
  - intros Httm. unfold t. rewrite Httm. reflexivity.
  - intros Httm. destruct (t_returns cs x Hx Httm) as (Ht & _ & Hty).
    destruct (TT_matrix_chain x cs Hx Httm) as (Hne & Hch & Hrun & Hex & Hlen).
    destruct (chain_transposed cs 1 Hch) as (Hch' & Hrun' & HN & HM & HR).
    exists (constructed (map transposed_core cs)).
    split; [exact Ht|]. split; [exact Hty|].
    unfold constructed in Hty. cbn [is_ttm] in Hty.
    rewrite Hex. unfold constructed. cbn [M N R]. rewrite Hty.
    apply Nat.eqb_eq in Hlen. rewrite Hlen, HN, HM, HR.
    split; [reflexivity|]. split; [reflexivity|].
    f_equal. destruct cs; [congruence | reflexivity].
Qed.

(** X12: transposing a TT-matrix twice gives the TT-matrix back. *)
Theorem t_involutive cs (x : TT E) :
  TT_init (SrcCores cs) = Ok x -> is_ttm x = true -> Forall twf cs ->
  exists y, t x = Ok y /\ t y = Ok x.
Proof.
  intros Hx Httm Hwf. destruct (t_returns cs x Hx Httm) as (Ht & Hinit & Hty).
  exists (constructed (map transposed_core cs)). split; [exact Ht|].
  destruct (t_returns _ _ Hinit Hty) as (Ht2 & Hinit2 & _).
  rewrite Ht2.
  assert (Hback : map transposed_core (map transposed_core cs) = cs).
  { rewrite map_map. rewrite <- (map_id cs) at 2. apply map_ext_in. intros c Hc.
    destruct (TT_matrix_chain x cs Hx Httm) as (_ & Hch & _).
    destruct (chain_passes 4 1 cs (or_intror eq_refl) Hch) as [_ H4].
    rewrite Forall_forall in H4, Hwf. apply transposed_twice; auto. }
  rewrite Hback in *. rewrite <- Hinit2. exact Hx.
Qed.

Lemma chain_ttm cs : forall r,
  chain 3 r cs ->
  chain 4 r (map ttm_core cs) /\
  running r (map ttm_core cs) = running r cs /\
  modes_M (map ttm_core cs) = modes_N cs /\
  modes_N (map ttm_core cs) = repeat 1 (length cs) /\
  ranks (map ttm_core cs) = ranks cs.
Proof.
  induction cs as [|c cs IH]; intros r H.
  - repeat split.
  - destruct H as (H3 & Hl & H). destruct (IH _ H) as (Hch & Hrun & HM & HN & HR).
    cbn [map]. split; [|split; [|split; [|split]]].
    + cbn [chain]. split; [reflexivity|]. split; [exact Hl|]. exact Hch.
    + rewrite !running_cons. exact Hrun.
    + unfold modes_N, modes_M in *. cbn [map flat_map]. rewrite H3. cbn. rewrite HM. reflexivity.
    + unfold modes_N in *. cbn [map length repeat]. rewrite HN. reflexivity.
    + unfold ranks in *. cbn [map]. rewrite HR. reflexivity.
Qed.

(** X13: [to_ttm] turns a TT-tensor into a TT-matrix with the same data
    and ranks: the modes of the tensor become [M], every mode of [N] has
    size 1. *)
Theorem to_ttm_modes (x : TT E) :
  TT_tensor x ->
  exists y, to_ttm x = Ok y /\ is_ttm y = true /\
            M y = Some (N x) /\ N y = repeat 1 (length (N x)) /\ R y = R x /\
            map (@data E) (cores y) = map (@data E) (cores x).
Proof.
  intros (cs & Hx & Httm & Hwf).
  destruct (TT_tensor_chain x cs Hx Httm) as (Hne & Hch & Hrun & Hex & Hl).
  destruct (chain_ttm cs 1 Hch) as (Hch' & Hrun' & HM & HN & HR).
  assert (Hne' : map ttm_core cs <> []) by (destruct cs; [congruence | discriminate]).
  rewrite Hrun in Hrun'.
  destruct (TT_init_matrix_ok _ Hne' Hch' Hrun') as [Hinit Ht].
  exists (constructed (map ttm_core cs)).
  split; [|split; [exact Ht|]].
  - unfold to_ttm. rewrite (TT_init_cores cs x Hx).
    rewrite (mapM_ok_map _ ttm_core).
    + rewrite bind_Ok. exact Hinit.
    + intros c Hc.
      destruct (chain_passes 3 1 cs (or_introl eq_refl) Hch) as [_ H3].
      rewrite Forall_forall in H3. pose proof (shape3 c (H3 c Hc)) as Hs.
      unfold dim. rewrite Hs. cbn [item nth_error]. rewrite !bind_Ok.
      rewrite treshape_ints; [reflexivity|].
      unfold numel. rewrite Hs. simpl. lia.
  - unfold constructed in Ht. cbn [is_ttm] in Ht.
    rewrite Hex. unfold constructed. cbn [M N R cores]. rewrite Ht, HM, HN, HR.
    rewrite length_modes_N.
    split; [reflexivity|]. split; [reflexivity|].
    split; [f_equal; destruct cs; [congruence | reflexivity]|].
    rewrite map_map. reflexivity.
Qed.

End Transpose.


(** ** Trains of ranks 1: [ones], [zeros], [rank1TT], [meshgrid] *)

Section Rank1.

Context {E : Type} {NE : Numeric E} {NL : NumericLaws E}.
Implicit Types (cs : list (tensor E)) (ds : list (list E)).

Add Ring E_ring3 : numeric_ring.

Lemma tget_rank1_core (d : list E) i : tget (rank1_core d) [0; i; 0] = nth i d e0.
Proof.
  unfold tget, rank1_core. cbn [shape data ravel prod fold_right]. f_equal. lia.
Qed.

Lemma vec_rank1 ds : forall idx (v : nat -> E),
  length idx = length ds ->
  vec (map rank1_core ds) idx v 0 = emul (v 0) (rank1_entry ds idx).
Proof.
  induction ds as [|d ds IH]; intros [|i idx] v H; try discriminate H.
  - simpl. ring.
  - cbn [map vec rank1_entry]. rewrite IH by (simpl in H; lia).
    unfold vstep. change (leading (rank1_core d)) with 1. cbn [seq map esum fold_right].
    rewrite tget_rank1_core. ring.
Qed.

Lemma entry_rank1 ds idx :
  ds <> [] -> length idx = length ds ->
  entry (map rank1_core ds) idx = rank1_entry ds idx.
Proof.
  intros Hne Hlen. destruct ds as [|d ds]; [congruence|].
  destruct idx as [|i idx]; [discriminate Hlen|].
  cbn [map entry rank1_entry]. rewrite vec_rank1 by (simpl in Hlen; lia).
  unfold vec0. rewrite tget_rank1_core. reflexivity.
Qed.

Lemma chain_rank1 ds :
  chain 3 1 (map rank1_core ds) /\ running 1 (map rank1_core ds) = 1 /\
  modes_N (map rank1_core ds) = map (@length E) ds /\
  ranks (map rank1_core ds) = repeat 1 (length ds).
Proof.
  induction ds as [|d ds (Hch & Hrun & HN & HR)].
  - repeat split.
  - cbn [map]. split; [|split; [|split]].
    + cbn [chain]. split; [reflexivity|]. split; [reflexivity|]. exact Hch.
    + rewrite running_cons. exact Hrun.
    + unfold modes_N in *. cbn [map]. rewrite HN. reflexivity.
    + unfold ranks in *. cbn [map length repeat]. rewrite HR. reflexivity.
Qed.

(** the object built from vectors as cores of ranks 1, and its dense form *)
Lemma rank1_train ds :
  ds <> [] ->
  exists y,
    TT_init (SrcCores (map rank1_core ds)) = Ok y /\
    is_ttm y = false /\
    N y = map (@length E) ds /\
    R y = repeat 1 (S (length ds)) /\
    full y = Ok (mkT (dense_shape (map (@length E) ds))
                     (map (rank1_entry ds) (indices (map (@length E) ds)))).
Proof.
  intros Hne. destruct (chain_rank1 ds) as (Hch & Hrun & HN & HR).
  assert (Hne' : map rank1_core ds <> []) by (destruct ds; [congruence | discriminate]).
  destruct (TT_init_tensor_ok _ Hne' Hch Hrun) as [Hinit Ht].
  exists (constructed (map rank1_core ds)).
  split; [exact Hinit|]. split; [exact Ht|].
  split; [exact HN|].
  split.
  { cbn [constructed R repeat]. rewrite HR. f_equal.
    destruct ds; [congruence | reflexivity]. }
  rewrite (full_tensor _ _ Hinit Ht). cbn [constructed N]. rewrite HN.
  do 2 f_equal. apply map_ext_in. intros idx Hin.
  apply in_indices, inb_length in Hin. rewrite length_map in Hin.
  apply entry_rank1; assumption.
Qed.

Lemma map_const_repeat {A B : Type} (b : B) (l : list A) :
  map (fun _ => b) l = repeat b (length l).
Proof. induction l as [|x l IH]; [reflexivity|]. simpl. rewrite IH. reflexivity. Qed.

Lemma filled_rank1 (a : E) n :
  tbuild [1; n; 1] (fun _ => a) = rank1_core (repeat a n).
Proof.
  unfold tbuild, rank1_core. rewrite repeat_length, map_const_repeat, length_indices.
  do 2 f_equal. simpl. lia.
Qed.

Lemma rank1_entry_ones sizes : forall idx,
  inb sizes idx = true -> rank1_entry (map (repeat e1) sizes) idx = e1.
Proof.
  induction sizes as [|n sizes IH]; intros [|i idx] H; try discriminate H; [reflexivity|].
  cbn [inb] in H. apply andb_prop in H. destruct H as [Hi H]. apply Nat.ltb_lt in Hi.
  cbn [map rank1_entry]. rewrite IH by exact H.
  rewrite (nth_indep _ e0 e1) by (rewrite repeat_length; exact Hi).
  rewrite nth_repeat. ring.
Qed.

Lemma rank1_entry_zeros sizes : forall idx,
  sizes <> [] -> inb sizes idx = true -> rank1_entry (map (repeat e0) sizes) idx = e0.
Proof.
  intros idx Hne H. destruct sizes as [|n sizes]; [congruence|].
  destruct idx as [|i idx]; [discriminate H|].
  cbn [map rank1_entry]. rewrite nth_repeat. ring.
Qed.

Lemma prod_filter_ones l : prod (filter (fun k => negb (k =? 1)) l) = prod l.
Proof.
  induction l as [|k l IH]; [reflexivity|]. cbn [filter].
  change (prod (k :: l)) with (k * prod l).
  destruct (Nat.eqb_spec k 1) as [->|Hk]; cbn [negb].
  - rewrite IH. lia.
  - change (prod (k :: filter (fun k0 => negb (k0 =? 1)) l))
      with (k * prod (filter (fun k0 => negb (k0 =? 1)) l)).
    rewrite IH. reflexivity.
Qed.

Lemma prod_app l1 l2 : prod (l1 ++ l2) = prod l1 * prod l2.
Proof.
  induction l1 as [|k l1 IH]; [simpl; lia|].
  change (prod ((k :: l1) ++ l2)) with (k * prod (l1 ++ l2)).
  change (prod (k :: l1)) with (k * prod l1). rewrite IH. lia.
Qed.

Lemma prod_dense_shape sh : prod (dense_shape sh) = prod sh.
Proof.
  unfold dense_shape. destruct (length sh =? 1); [|reflexivity].
  rewrite prod_filter_ones, prod_app. simpl. lia.
Qed.

Lemma filled_dense (a : E) sh :
  mkT (dense_shape sh) (map (fun _ => a) (indices sh)) = tbuild (dense_shape sh) (fun _ => a).
Proof.
  unfold tbuild. rewrite !map_const_repeat, !length_indices, prod_dense_shape. reflexivity.
Qed.

Lemma filled_cores (fill : list nat -> tensor E) (a : E) (sh : list nat) :
  (forall s, fill s = tbuild s (fun _ => a)) ->
  mapM (fun i => s <- item (map SInt sh) i ;; filled_core fill false s)
       (range 0 (length (map SInt sh)))
  = Ok (map rank1_core (map (repeat a) sh)).
Proof.
  intros Hfill. rewrite (mapM_items (map SInt sh) _ (fun s => match s with
                                                   | SInt n => rank1_core (repeat a n)
                                                   | STuple _ _ => rank1_core []
                                                   end)).
  - rewrite !map_map. reflexivity.
  - intros i s Hi. rewrite (proj2 (item_nth_error _ i s) Hi), bind_Ok.
    rewrite nth_error_map in Hi. destruct (nth_error sh i); [|discriminate Hi].
    injection Hi as <-. cbn [filled_core]. rewrite Hfill, filled_rank1. reflexivity.
Qed.

(** X19: for a non-empty list of ints, [ones] and [zeros] return
    TT-tensors with these mode sizes and all ranks 1, whose dense forms are
    the arrays of ones and of zeros. *)
Theorem ones_zeros_dense (sh : list nat) :
  sh <> [] ->
  exists y z,
    ones (ShList (map SInt sh)) = Ok y /\
    zeros (ShList (map SInt sh)) = Ok z /\
    is_ttm y = false /\ is_ttm z = false /\
    N y = sh /\ N z = sh /\
    R y = repeat 1 (S (length sh)) /\ R z = repeat 1 (S (length sh)) /\
    full y = Ok (tones (dense_shape sh)) /\
    full z = Ok (tzeros (dense_shape sh)).
Proof.
  intros Hne.
  assert (Hn1 : map (repeat e1) sh <> []) by (destruct sh; [congruence | discriminate]).
  assert (Hn0 : map (repeat e0) sh <> []) by (destruct sh; [congruence | discriminate]).
  destruct (rank1_train _ Hn1) as (y & Hy & Hty & HNy & HRy & Hfy).
  destruct (rank1_train _ Hn0) as (z & Hz & Htz & HNz & HRz & Hfz).
  assert (Hlen : forall a : E, map (@length E) (map (repeat a) sh) = sh).
  { intros a. rewrite map_map. rewrite <- (map_id sh) at 2. apply map_ext.
    intros n. apply repeat_length. }
  rewrite !Hlen in *. rewrite length_map in HRy, HRz.
  assert (Hs0 : exists n, item (map SInt sh) 0 = Ok (SInt n)).
  { destruct sh as [|n sh']; [congruence|]. exists n. reflexivity. }
  destruct Hs0 as (n0 & Hs0).
  exists y, z.
  split.
  { unfold ones. rewrite length_map.
    destruct (Nat.eqb_spec (length sh) 0) as [H0|_];
      [destruct sh; [congruence | discriminate H0]|].
    rewrite Hs0, bind_Ok. cbn [is_tuple].
    rewrite <- (length_map SInt sh).
    rewrite (filled_cores tones e1 sh) by reflexivity. rewrite bind_Ok. exact Hy. }
  split.
  { unfold zeros. rewrite Hs0, bind_Ok. cbn [is_tuple].
    rewrite (filled_cores tzeros e0 sh) by reflexivity. rewrite bind_Ok. exact Hz. }
  repeat (split; [assumption|]).
  split.
  - rewrite Hfy. f_equal. unfold tones. rewrite <- filled_dense. f_equal.
    apply map_ext_in. intros idx Hin. apply in_indices in Hin.
    apply rank1_entry_ones. exact Hin.
  - rewrite Hfz. f_equal. unfold tzeros. rewrite <- filled_dense. f_equal.
    apply map_ext_in. intros idx Hin. apply in_indices in Hin.
    apply rank1_entry_zeros; assumption.
Qed.


(** [reshape(v, [1, -1, 1])] of a well-formed array *)
Lemma treshape_column (v : tensor E) :
  twf v -> treshape v [1; -1; 1]%Z = Ok (rank1_core (data v)).
Proof.
  intros Hwf. unfold treshape. cbn [existsb filter map length Z.ltb Z.leb Z.eqb
    Z.compare Pos.compare Pos.compare_cont orb Z.to_nat Pos.to_nat Pos.iter_op].
  change (prod [1; 1]) with 1. rewrite Nat.mod_1_r, Nat.div_1_r. cbn [Nat.eqb orb negb].
  unfold rank1_core. rewrite Hwf. reflexivity.
Qed.

(** X22: [rank1TT] of a non-empty list of vectors returns a TT-tensor with
    the lengths of the vectors as mode sizes and all ranks 1; its entry at a
    multi-index is the product of the entries of the vectors. *)
Theorem rank1TT_dense (vs : list (tensor E)) :
  vs <> [] -> Forall twf vs ->
  exists y,
    rank1TT vs = Ok y /\ is_ttm y = false /\
    N y = map numel vs /\
    R y = repeat 1 (S (length vs)) /\
    full y = Ok (mkT (dense_shape (map numel vs))
                     (map (rank1_entry (map (@data E) vs)) (indices (map numel vs)))).
Proof.
  intros Hne Hwf.
  assert (Hn : map (@data E) vs <> []) by (destruct vs; [congruence | discriminate]).
  destruct (rank1_train _ Hn) as (y & Hy & Hty & HNy & HRy & Hfy).
  assert (Hlen : map (@length E) (map (@data E) vs) = map numel vs).
  { rewrite map_map. apply map_ext_in. intros v Hv.
    rewrite Forall_forall in Hwf. apply Hwf. exact Hv. }
  rewrite Hlen in *. rewrite length_map in HRy.
  exists y. split; [|auto].
  unfold rank1TT. rewrite (mapM_items vs _ (fun v => rank1_core (data v))).
  - rewrite bind_Ok, <- map_map. exact Hy.
  - intros i v Hi. rewrite (proj2 (item_nth_error _ i v) Hi), bind_Ok.
    apply treshape_column. rewrite Forall_forall in Hwf. apply Hwf.
    eapply nth_error_In. exact Hi.
Qed.

(** [ones] and [zeros] on a list of pairs *)
Lemma chain_filled4 (a : E) (ps : list (nat * nat)) :
  let cs := map (fun p => tbuild [1; fst p; snd p; 1] (fun _ => a)) ps in
  chain 4 1 cs /\ running 1 cs = 1 /\
  modes_M cs = map fst ps /\ modes_N cs = map snd ps /\
  ranks cs = repeat 1 (length ps).
Proof.
  induction ps as [|p ps (Hch & Hrun & HM & HN & HR)].
  - repeat split.
  - cbn [map]. split; [|split; [|split; [|split]]].
    + cbn [chain]. split; [reflexivity|]. split; [reflexivity|]. exact Hch.
    + rewrite running_cons. exact Hrun.
    + unfold modes_M in *. cbn [map flat_map]. cbn. f_equal. exact HM.
    + unfold modes_N in *. cbn [map]. cbn. f_equal. exact HN.
    + unfold ranks in *. cbn [map length repeat]. rewrite HR. reflexivity.
Qed.

Lemma filled_cores4 (fill : list nat -> tensor E) (a : E) (ps : list (nat * nat)) :
  (forall s, fill s = tbuild s (fun _ => a)) ->
  mapM (fun i => s <- item (map (fun p => STuple (fst p) (snd p)) ps) i ;;
                 filled_core fill true s)
       (range 0 (length (map (fun p => STuple (fst p) (snd p)) ps)))
  = Ok (map (fun p => tbuild [1; fst p; snd p; 1] (fun _ => a)) ps).
Proof.
  intros Hfill.
  rewrite (mapM_items (map (fun p => STuple (fst p) (snd p)) ps) _
             (fun s => match s with
                       | STuple m n => tbuild [1; m; n; 1] (fun _ => a)
                       | SInt _ => tbuild [] (fun _ => a)
                       end)).
  - rewrite !map_map. reflexivity.
  - intros i s Hi. rewrite (proj2 (item_nth_error _ i s) Hi), bind_Ok.
    rewrite nth_error_map in Hi. destruct (nth_error ps i); [|discriminate Hi].
    injection Hi as <-. cbn [filled_core]. rewrite Hfill. reflexivity.
Qed.

(** X20: for a non-empty list of pairs, [ones] and [zeros] return
    TT-matrices with the first items as [M], the second items as [N] and all
    ranks 1. *)
Theorem ones_zeros_matrix (ps : list (nat * nat)) :
  ps <> [] ->
  exists y z,
    ones (ShList (map (fun p => STuple (fst p) (snd p)) ps)) = Ok y /\
    zeros (ShList (map (fun p => STuple (fst p) (snd p)) ps)) = Ok z /\
    is_ttm y = true /\ is_ttm z = true /\
    M y = Some (map fst ps) /\ M z = Some (map fst ps) /\
    N y = map snd ps /\ N z = map snd ps /\
    R y = repeat 1 (S (length ps)) /\ R z = repeat 1 (S (length ps)).
Proof.
  intros Hne.
  assert (Hgen : forall (fill : list nat -> tensor E) (a : E),
             (forall s, fill s = tbuild s (fun _ => a)) ->
             exists y,
               (s0 <- item (map (fun p => STuple (fst p) (snd p)) ps) 0 ;;
                cs <- mapM (fun i => s <- item (map (fun p => STuple (fst p) (snd p)) ps) i ;;
                                     filled_core fill (is_tuple s0) s)
                           (range 0 (length (map (fun p => STuple (fst p) (snd p)) ps))) ;;
                TT_init (SrcCores cs)) = Ok y /\
               is_ttm y = true /\ M y = Some (map fst ps) /\ N y = map snd ps /\
               R y = repeat 1 (S (length ps))).
  { intros fill a Hfill.
    destruct (chain_filled4 a ps) as (Hch & Hrun & HM & HN & HR).
    set (cs := map (fun p => tbuild [1; fst p; snd p; 1] (fun _ => a)) ps) in *.
    assert (Hne' : cs <> []) by (subst cs; destruct ps; [congruence | discriminate]).
    destruct (TT_init_matrix_ok _ Hne' Hch Hrun) as [Hinit Ht].
    exists (constructed cs).
    split.
    - destruct ps as [|p0 ps']; [congruence|].
      change (item (map (fun p => STuple (fst p) (snd p)) (p0 :: ps')) 0)
        with (@Ok shape_item (STuple (fst p0) (snd p0))).
      rewrite bind_Ok. cbn [is_tuple].
      rewrite (filled_cores4 fill a (p0 :: ps') Hfill), bind_Ok. exact Hinit.
    - split; [exact Ht|].
      unfold constructed in Ht. cbn [is_ttm] in Ht.
      unfold constructed. cbn [M N R]. rewrite Ht, HM, HN, HR.
      split; [reflexivity|]. split; [reflexivity|].
      cbn [repeat]. f_equal. subst cs. destruct ps; [congruence | reflexivity]. }
  destruct (Hgen tones e1 ltac:(reflexivity)) as (y & Hy & Hty & HMy & HNy & HRy).
  destruct (Hgen tzeros e0 ltac:(reflexivity)) as (z & Hz & Htz & HMz & HNz & HRz).
  exists y, z.
  split.
  { unfold ones. rewrite length_map.
    destruct (Nat.eqb_spec (length ps) 0) as [H0|_];
      [destruct ps; [congruence | discriminate H0]|].
    rewrite <- (length_map (fun p => STuple (fst p) (snd p)) ps). exact Hy. }
  split; [exact Hz|].
  repeat (split; [assumption|]). assumption.
Qed.

(** X21: the empty shape.  [ones([])] returns the empty object of
    [TT(None)], [zeros([])] raises [IndexError]; the empty object has no
    cores, and [full], unary minus and unary plus raise [IndexError] on it,
    as [rank1TT] and [meshgrid] do on the empty list. *)
Theorem empty_shape_edge :
  exists e : TT E,
    TT_init SrcNone = Ok e /\
    ones (ShList []) = Ok e /\
    zeros (ShList []) = Raise IndexError /\
    cores e = [] /\ N e = [] /\ R e = [1; 1] /\
    full e = Raise IndexError /\
    neg e = Raise IndexError /\
    pos e = Raise IndexError /\
    rank1TT (@nil (tensor E)) = Raise IndexError /\
    meshgrid (@nil (tensor E)) = Raise IndexError.
Proof. eexists. repeat split; reflexivity. Qed.


Lemma set_item_lt {A : Type} (xs : list A) : forall i v,
  i < length xs -> set_item xs i v = Ok (firstn i xs ++ v :: skipn (S i) xs).
Proof.
  induction xs as [|x xs IH]; intros [|i] v H; simpl in H; try lia; [reflexivity|].
  cbn [set_item]. rewrite IH by lia. reflexivity.
Qed.

Lemma mapM_seq_prop {B : Type} (f : nat -> result B) (P : nat -> B -> Prop) : forall n s,
  (forall i, s <= i < s + n -> exists y, f i = Ok y /\ P i y) ->
  exists ys, mapM f (seq s n) = Ok ys /\ length ys = n /\
             forall i y, nth_error ys i = Some y -> P (s + i) y.
Proof.
  induction n as [|n IH]; intros s H.
  - exists []. split; [reflexivity|]. split; [reflexivity|].
    intros i y Hi. destruct i; discriminate Hi.
  - destruct (H s ltac:(lia)) as (y0 & Hy0 & HP0).
    destruct (IH (S s)) as (ys & Hys & Hlen & HP).
    { intros i Hi. apply H. lia. }
    exists (y0 :: ys). cbn [seq mapM]. rewrite Hy0, bind_Ok, Hys, bind_Ok.
    split; [reflexivity|]. split; [simpl; lia|].
    intros i y Hi. destruct i as [|i]; simpl in Hi.
    + injection Hi as <-. rewrite Nat.add_0_r. exact HP0.
    + replace (s + S i) with (S s + i) by lia. apply HP. exact Hi.
Qed.

Lemma rank1_entry_mesh sizes : forall i (d : list E) idx,
  nth_error sizes i = Some (length d) ->
  inb sizes idx = true ->
  rank1_entry (mesh_vectors sizes i d) idx = nth (nth i idx 0) d e0.
Proof.
  induction sizes as [|n sizes IH]; intros i d idx Hi Hin; [destruct i; discriminate Hi|].
  destruct idx as [|i0 idx]; [discriminate Hin|].
  cbn [inb] in Hin. apply andb_prop in Hin. destruct Hin as [Hi0 Hin].
  apply Nat.ltb_lt in Hi0.
  destruct i as [|i].
  - change (mesh_vectors (n :: sizes) 0 d) with (d :: map (repeat e1) sizes).
    cbn [rank1_entry nth]. rewrite rank1_entry_ones by exact Hin. ring.
  - change (mesh_vectors (n :: sizes) (S i) d)
      with (repeat e1 n :: mesh_vectors sizes i d).
    cbn [rank1_entry nth]. rewrite (IH i d idx Hi Hin).
    rewrite (nth_indep _ e0 e1) by (rewrite repeat_length; exact Hi0).
    rewrite nth_repeat. ring.
Qed.

Lemma length_mesh_vectors sizes i (d : list E) :
  nth_error sizes i = Some (length d) ->
  map (@length E) (mesh_vectors sizes i d) = sizes /\
  length (mesh_vectors sizes i d) = length sizes.
Proof.
  intros Hi. unfold mesh_vectors.
  assert (Hl : forall l, map (@length E) (map (repeat e1) l) = l).
  { intros l. rewrite map_map. rewrite <- (map_id l) at 2. apply map_ext.
    intros n. apply repeat_length. }
  split.
  - rewrite map_app. cbn [map]. rewrite <- firstn_map, <- skipn_map, Hl.
    rewrite <- (skipn_nth_error sizes i _ Hi). apply firstn_skipn.
  - rewrite <- (length_map (@length E)). rewrite map_app. cbn [map].
    rewrite <- firstn_map, <- skipn_map, Hl.
    rewrite <- (skipn_nth_error sizes i _ Hi), firstn_skipn. reflexivity.
Qed.

(** X23: item [i] of [meshgrid] is a TT-tensor of ranks 1 over the sizes
    of all the vectors, and holds, at every multi-index, the entry of vector
    [i] at position [i] of the multi-index. *)
Theorem meshgrid_dense (vs : list (tensor E)) :
  vs <> [] -> Forall (fun v => ndim v = 1 /\ twf v) vs ->
  exists Xs,
    meshgrid vs = Ok Xs /\ length Xs = length vs /\
    forall i X v, nth_error Xs i = Some X -> nth_error vs i = Some v ->
      is_ttm X = false /\
      N X = map numel vs /\
      R X = repeat 1 (S (length vs)) /\
      full X = Ok (mkT (dense_shape (map numel vs))
                       (map (fun idx => nth (nth i idx 0) (data v) e0)
                            (indices (map numel vs)))).
Proof.
  intros Hne Hvs. rewrite Forall_forall in Hvs.
  set (sizes := map numel vs).
  assert (Hlst : mapM (fun v : tensor E => n <- dim v 0 ;; Ok (tones [1; n; 1])) vs
                 = Ok (map rank1_core (map (repeat e1) sizes))).
  { subst sizes. rewrite !map_map. apply mapM_ok_map. intros v Hv.
    destruct (Hvs v Hv) as [H1 _]. unfold dim, ndim, numel in *.
    destruct (shape v) as [|n [|? ?]]; try discriminate H1.
    cbn [item nth_error]. rewrite bind_Ok. unfold tones.
    rewrite filled_rank1. do 3 f_equal. simpl. lia. }
  pose (P := fun (i : nat) (X : TT E) =>
               forall v, nth_error vs i = Some v ->
                 is_ttm X = false /\ N X = sizes /\ R X = repeat 1 (S (length vs)) /\
                 full X = Ok (mkT (dense_shape sizes)
                                  (map (fun idx => nth (nth i idx 0) (data v) e0)
                                       (indices sizes)))).
  destruct (mapM_seq_prop
              (fun i => lst <- mapM (fun v : tensor E => n <- dim v 0 ;; Ok (tones [1; n; 1])) vs ;;
                        vi <- item vs i ;;
                        c <- treshape vi [1; -1; 1]%Z ;;
                        lst <- set_item lst i c ;;
                        TT_init (SrcCores lst))
              P (length vs) 0) as (Xs & HXs & Hlen & HP).
  { intros i Hi. destruct (nth_error vs i) as [v|] eqn:Hv;
      [|apply nth_error_None in Hv; lia].
    destruct (Hvs v (nth_error_In _ _ Hv)) as [H1 Hwf].
    assert (Hsz : nth_error sizes i = Some (length (data v))).
    { subst sizes. rewrite nth_error_map, Hv. cbn. f_equal. symmetry. exact Hwf. }
    destruct (length_mesh_vectors sizes i (data v) Hsz) as [Hml Hmlen].
    assert (Hmne : mesh_vectors sizes i (data v) <> []).
    { intros Hnil. rewrite Hnil in Hmlen. subst sizes. rewrite length_map in Hmlen.
      destruct vs; [congruence | discriminate Hmlen]. }
    destruct (rank1_train _ Hmne) as (X & HX & HtX & HNX & HRX & HfX).
    rewrite Hml in *. rewrite Hmlen in HRX.
    exists X. split.
    - rewrite Hlst, bind_Ok, (proj2 (item_nth_error _ i v) Hv), bind_Ok.
      rewrite (treshape_column v Hwf), bind_Ok.
      rewrite set_item_lt by (rewrite !length_map; subst sizes; rewrite length_map; lia).
      rewrite bind_Ok.
      replace (firstn i (map rank1_core (map (repeat e1) sizes)) ++
               rank1_core (data v) :: skipn (S i) (map rank1_core (map (repeat e1) sizes)))
        with (map rank1_core (mesh_vectors sizes i (data v))); [exact HX|].
      unfold mesh_vectors. rewrite map_app. cbn [map].
      rewrite !firstn_map, !skipn_map. reflexivity.
    - intros v' Hv'. rewrite Hv in Hv'. injection Hv' as <-.
      split; [exact HtX|]. split; [exact HNX|].
      split; [subst sizes; rewrite length_map in HRX; exact HRX|].
      rewrite HfX. do 2 f_equal. apply map_ext_in. intros idx Hin.
      apply in_indices in Hin. apply rank1_entry_mesh; assumption. }
  exists Xs. split.
  - unfold meshgrid. destruct vs as [|v0 vs']; [congruence|].
    change (item (v0 :: vs') 0) with (Ok v0). rewrite bind_Ok.
    unfold range. rewrite Nat.sub_0_r. exact HXs.
  - split; [exact Hlen|]. intros i X v HX Hv. apply (HP i X HX v Hv).
Qed.

End Rank1.


(** ** Counting entries, and folding back from QTT *)

Section Counting.

Context {E : Type} {NE : Numeric E}.
Implicit Types (cs : list (tensor E)).

Lemma storage_cons r0 r' n0 n' :
  storage (r0 :: r') (n0 :: n') = r0 * n0 * hd 0 r' + storage r' n'.
Proof. reflexivity. Qed.

Lemma storage_chain3 cs : forall r,
  chain 3 r cs -> list_sum (map numel cs) = storage (r :: ranks cs) (modes_N cs).
Proof.
  induction cs as [|c cs IH]; intros r H; [reflexivity|].
  destruct H as (H3 & Hl & H). pose proof (shape3 c H3) as Hs.
  unfold modes_N, ranks in *. cbn [map list_sum]. rewrite H3. cbn [Nat.eqb].
  rewrite storage_cons, <- (IH _ H). cbn [hd]. f_equal.
  unfold numel. rewrite Hs at 1. rewrite Hl. simpl. lia.
Qed.

Lemma storage_chain4 cs : forall r,
  chain 4 r cs ->
  list_sum (map numel cs)
  = storage (r :: ranks cs)
            (map (fun p => fst p * snd p) (combine (modes_M cs) (modes_N cs))).
Proof.
  induction cs as [|c cs IH]; intros r H; [reflexivity|].
  destruct H as (H4 & Hl & H). pose proof (shape4 c H4) as Hs.
  unfold modes_N, modes_M, ranks in *. cbn [map flat_map list_sum]. rewrite H4.
  cbn [Nat.eqb app combine map fst snd].
  rewrite storage_cons, <- (IH _ H). cbn [hd]. f_equal.
  unfold numel. rewrite Hs at 1. rewrite Hl. simpl. lia.
Qed.

(** X24: [numel] is the number of entries of the cores: the sum, over the
    cores, of rank times mode size (row size times column size for a
    TT-matrix) times next rank. *)
Theorem tt_numel_storage cs (x : TT E) :
  TT_init (SrcCores cs) = Ok x ->
  (is_ttm x = false -> tt_numel x = Ok (storage (R x) (N x))) /\
  (is_ttm x = true ->
   exists m, M x = Some m /\
             tt_numel x = Ok (storage (R x) (map (fun p => fst p * snd p)
                                                 (combine m (N x))))).
Proof.
  intros Hx.
  assert (Hnum : tt_numel x = Ok (list_sum (map numel cs))).
  { unfold tt_numel. pose proof (TT_init_ok cs x Hx) as (_ & _ & _ & _ & -> & _).
    cbn [constructed cores N]. rewrite length_modes_N.
    rewrite (mapM_items cs _ numel); [reflexivity|].
    intros i c Hi. rewrite (proj2 (item_nth_error _ i c) Hi). reflexivity. }
  split; intros Httm.
  - destruct (TT_tensor_chain x cs Hx Httm) as (Hne & Hch & Hrun & Hex & Hl).
    rewrite Hnum, (storage_chain3 cs 1 Hch). rewrite Hex. cbn [constructed R N].
    rewrite Hl. reflexivity.
  - destruct (TT_matrix_chain x cs Hx Httm) as (Hne & Hch & Hrun & Hex & Hlen).
    exists (modes_M cs). apply Nat.eqb_eq in Hlen.
    rewrite Hnum, (storage_chain4 cs 1 Hch). rewrite Hex. cbn [constructed M R N].
    rewrite Hlen. split; [reflexivity|].
    do 3 f_equal. destruct cs as [|c0 ?]; [congruence|].
    destruct Hch as (_ & Hl & _). symmetry. exact Hl.
Qed.

(** *** [qtt_to_tens] with the mode sizes of the object itself *)

Lemma treshape_middle (c : tensor E) r n r' :
  shape c = [r; n; r'] -> r <> 0 -> r' <> 0 ->
  treshape c [Z.of_nat r; (-1)%Z; Z.of_nat r'] = Ok c.
Proof.
  intros Hs Hr Hr'. unfold treshape.
  assert (H1 : forall k, (Z.of_nat k <? -1)%Z = false) by (intros; apply Z.ltb_ge; lia).
  assert (H2 : forall k, (0 <=? Z.of_nat k)%Z = true) by (intros; apply Z.leb_le; lia).
  assert (H3 : forall k, (Z.of_nat k =? -1)%Z = false) by (intros; apply Z.eqb_neq; lia).
  cbn [existsb filter map length]. rewrite !H1, !H2, !H3.
  cbn [orb filter map length Z.ltb Z.leb Z.eqb Z.compare]. rewrite !Nat2Z.id.
  assert (Hk : prod [r; r'] = r * r') by (simpl; lia).
  assert (Hn : numel c = n * (r * r')) by (unfold numel; rewrite Hs; simpl; lia).
  rewrite Hk, Hn.
  destruct (Nat.eqb_spec (r * r') 0) as [H0|H0]; [lia|].
  rewrite Nat.Div0.mod_mul, Nat.div_mul by exact H0. cbn [orb negb Nat.eqb].
  destruct c as [sh d]. cbn [shape data] in *. subst sh. reflexivity.
Qed.

Lemma qtt_fold_identity rest : forall pre sf r,
  chain 3 r rest ->
  Forall (fun k => k <> 0) (r :: ranks rest) ->
  exists sf',
    foldM (qtt_step (modes_N (pre ++ rest))) rest (None, sf, length pre, pre)
    = Ok (None, sf', length (pre ++ rest), pre ++ rest).
Proof.
  induction rest as [|c rest IH]; intros pre sf r Hch Hnz.
  - exists sf. rewrite app_nil_r. reflexivity.
  - destruct Hch as (H3 & Hl & Hch). pose proof (shape3 c H3) as Hs.
    inversion Hnz as [|? ? Hr Hnz']; subst. unfold ranks in Hnz'. cbn [map] in Hnz'.
    assert (Ht : trailing c <> 0) by (inversion Hnz'; assumption).
    destruct (IH (pre ++ [c]) (nth 1 (shape c) 0) (trailing c) Hch Hnz') as (sf' & Hfold).
    rewrite <- app_assoc in Hfold. cbn [app] in Hfold.
    rewrite length_app in Hfold. cbn [length] in Hfold.
    assert (Hi0 : item (shape c) 0 = Ok (leading c)) by (rewrite Hs at 1; reflexivity).
    assert (Hi1 : item (shape c) 1 = Ok (nth 1 (shape c) 0)) by (rewrite Hs at 1; reflexivity).
    assert (Hit : item (modes_N (pre ++ c :: rest)) (length pre) = Ok (nth 1 (shape c) 0)).
    { apply item_nth_error. rewrite modes_N_app, nth_error_app2 by (rewrite length_modes_N; lia).
      rewrite length_modes_N, Nat.sub_diag. unfold modes_N. cbn [map nth_error].
      rewrite H3. reflexivity. }
    exists sf'. rewrite foldM_cons. unfold qtt_step at 1.
    unfold dim. rewrite Hi1, !bind_Ok, Hit, bind_Ok, Nat.eqb_refl, Hi0, bind_Ok.
    rewrite (item_last_last (shape c) 0) by (rewrite Hs; discriminate).
    fold (trailing c). rewrite bind_Ok.
    rewrite (treshape_middle c _ _ _ Hs Hr Ht), !bind_Ok.
    exact Hfold.
Qed.

(** X16: [qtt_to_tens] with the mode sizes the TT-tensor already has
    returns the object itself, when no rank is 0. *)
Theorem qtt_to_tens_own_shape (x : TT E) :
  TT_tensor x -> Forall (fun k => k <> 0) (R x) ->
  qtt_to_tens x (IntList (N x)) = Ok x.
Proof.
  intros (cs & Hx & Httm & _) Hnz.
  destruct (TT_tensor_chain x cs Hx Httm) as (Hne & Hch & Hrun & Hex & Hl).
  unfold qtt_to_tens. rewrite Httm.
  assert (HR : R x = 1 :: ranks cs) by (rewrite Hex; cbn [constructed R]; rewrite Hl; reflexivity).
  rewrite HR in Hnz.
  destruct (qtt_fold_identity cs [] 0 1 Hch Hnz) as (sf' & Hfold).
  cbn [app length] in Hfold.
  rewrite (TT_init_cores cs x Hx).
  replace (N x) with (modes_N cs) by (rewrite Hex; reflexivity).
  rewrite Hfold, bind_Ok. cbv beta iota.
  rewrite length_modes_N, Nat.eqb_refl. cbn [negb]. rewrite bind_Ok. exact Hx.
Qed.

End Counting.


(** ** Indexing with an int *)

Section Indexing.

Context {E : Type} {NE : Numeric E}.
Implicit Types (cs : list (tensor E)).

Lemma norm_ix_py n i :
  norm_ix n (Ix i) = match py_index n i with
                     | Some k => Ok (Fix k)
                     | None => Raise IndexError
                     end.
Proof.
  unfold norm_ix, py_index.
  destruct ((0 <=? i) && (i <? Z.of_nat n))%Z; [reflexivity|].
  destruct ((- Z.of_nat n <=? i) && (i <? 0))%Z; reflexivity.
Qed.

Lemma py_index_lt n i k : py_index n i = Some k -> k < n.
Proof.
  unfold py_index.
  destruct ((0 <=? i) && (i <? Z.of_nat n))%Z eqn:H1.
  - intros H. injection H as <-. apply andb_prop in H1. destruct H1 as [Ha Hb].
    apply Z.leb_le in Ha. apply Z.ltb_lt in Hb. lia.
  - destruct ((- Z.of_nat n <=? i) && (i <? 0))%Z eqn:H2; [|discriminate].
    intros H. injection H as <-. apply andb_prop in H2. destruct H2 as [Ha Hb].
    apply Z.leb_le in Ha. apply Z.ltb_lt in Hb. lia.
Qed.

(** X10: [x[i]] on a TT-tensor with one mode is entry [i] of the dense
    form, counted from the end when [i] is negative; an int out of range
    raises [IndexError], and an object with another number of modes refuses
    an int with [InvalidArguments]. *)
Theorem getitem_int (x : TT E) (i : Z) :
  TT_tensor x ->
  (length (N x) <> 1 -> getitem x (KInt i) = Raise InvalidArguments) /\
  (forall n, N x = [n] ->
     exists fx, full x = Ok fx /\
       getitem x (KInt i)
       = match py_index n i with
         | Some k => Ok (RTensor (mkT [] [nth k (data fx) e0]))
         | None => Raise IndexError
         end).
Proof.
  intros (cs & Hx & Httm & Hwf). split.
  - intros Hlen. unfold getitem. apply Nat.eqb_neq in Hlen. rewrite Hlen. reflexivity.
  - intros n HN.
    destruct (TT_tensor_chain x cs Hx Httm) as (Hne & Hch & Hrun & Hex & Hl).
    exists (mkT (dense_shape (N x)) (map (entry cs) (indices (N x)))).
    split; [apply full_tensor; assumption|].
    unfold getitem. rewrite HN. cbn [length Nat.eqb].
    rewrite (TT_init_cores cs x Hx).
    assert (Hcs : exists c, cs = [c]).
    { assert (Hlen : length cs = 1) by (rewrite <- (length_modes_N cs); 
        replace (modes_N cs) with (N x) by (rewrite Hex; reflexivity); rewrite HN; reflexivity).
      destruct cs as [|c [|? ?]]; try discriminate Hlen. eauto. }
    destruct Hcs as (c & ->).
    destruct Hch as (H3 & Hlc & _). unfold running in Hrun. cbn [map last] in Hrun.
    pose proof (shape3 c H3) as Hs. rewrite Hlc, Hrun in Hs.
    assert (Hn : nth 1 (shape c) 0 = n).
    { rewrite Hex in HN. cbn [constructed N] in HN. unfold modes_N in HN.
      cbn [map] in HN. rewrite H3 in HN. cbn [Nat.eqb] in HN. congruence. }
    rewrite Hn in Hs.
    assert (Hent : forall k, k < n ->
              nth k (map (entry [c]) (indices [n])) e0 = tget c [0; k; 0]).
    { intros k Hlt. rewrite indices_single, map_map.
      rewrite (nth_indep _ e0 (entry [c] [0])) by (rewrite length_map, length_seq; exact Hlt).
      rewrite (map_nth (fun j => entry [c] [j]) (seq 0 n) 0 k), seq_nth by exact Hlt.
      reflexivity. }
    cbn [data]. remember (map (entry [c]) (indices [n])) as D eqn:HD.
    cbn [item nth_error]. rewrite bind_Ok.
    unfold tindex, ndim. rewrite Hs.
    cbn [length Nat.ltb Nat.leb app repeat Nat.sub combine mapM fst snd].
    rewrite (norm_ix_0 1) by lia. rewrite bind_Ok, norm_ix_py.
    destruct (py_index n i) as [k|] eqn:Hk; [|reflexivity].
    rewrite !bind_Ok. cbn [sel_shape flat_map app tbuild indices map src_idx].
    rewrite (Hent k (py_index_lt n i k Hk)). reflexivity.
Qed.

End Indexing.


(** ** The sum of all entries *)

Section Sums.

Context {E : Type} {NE : Numeric E} {NL : NumericLaws E}.
Implicit Types (cs : list (tensor E)).

Add Ring E_ring4 : numeric_ring.

Lemma tsum_01 (c : tensor E) n r :
  shape c = [1; n; r] ->
  tsum c [0; 1] false
  = Ok (tbuild [r] (fun o => esum (map (fun i => tget c [0; i; nth 0 o 0]) (seq 0 n)))).
Proof.
  intros Hs. unfold tsum, ndim. rewrite Hs.
  cbn [length existsb Nat.leb orb has_dup Nat.eqb seq map combine filter fst snd negb].
  f_equal. apply tbuild_ext. intros o Hin.
  destruct o as [|b [|? ?]]; try discriminate Hin;
    try (cbn [inb] in Hin; rewrite andb_false_r in Hin; discriminate Hin).
  rewrite indices_one, indices_single, !map_map. cbn [merge_idx nth]. reflexivity.
Qed.

Lemma tsum_0 (e : tensor E) n r :
  shape e = [n; r] ->
  tsum e [0] false
  = Ok (tbuild [r] (fun o => esum (map (fun j => tget e [j; nth 0 o 0]) (seq 0 n)))).
Proof.
  intros Hs. unfold tsum, ndim. rewrite Hs.
  cbn [length existsb Nat.leb orb has_dup Nat.eqb seq map combine filter fst snd negb].
  f_equal. apply tbuild_ext. intros o Hin.
  destruct o as [|b [|? ?]]; try discriminate Hin;
    try (cbn [inb] in Hin; rewrite andb_false_r in Hin; discriminate Hin).
  rewrite indices_single, !map_map. cbn [merge_idx nth]. reflexivity.
Qed.

Lemma einsum_i_ijk (a c : tensor E) r n r' :
  shape a = [r] -> shape c = [r; n; r'] ->
  einsum "i,ijk->jk" a c
  = Ok (tbuild [n; r']
          (fun o => esum (map (fun x => emul (tget a [x]) (tget c [x; nth 0 o 0; nth 1 o 0]))
                              (seq 0 r)))).
Proof.
  intros Ha Hc.
  unfold einsum, einsum_labels, ndim. rewrite Ha, Hc.
  repeat (progress (rewrite ?merge_one, ?Nat.eqb_refl;
                    cbn -[tbuild indices esum operand_at Nat.eqb])).
  f_equal. apply tbuild_ext. intros o Hin.
  destruct o as [|j0 [|k0 [|? ?]]]; try discriminate Hin;
    cbn [inb] in Hin; rewrite ?andb_false_r in Hin; try discriminate Hin.
  rewrite andb_true_r in Hin.
  repeat (apply andb_prop in Hin; destruct Hin as [?H Hin]).
  repeat match goal with H : (_ <? _) = true |- _ => apply Nat.ltb_lt in H end.
  rewrite indices_single, map_map. f_equal. apply map_ext_in. intros x Hx.
  apply in_seq in Hx. unfold operand_at. rewrite Ha, Hc. cbn.
  rewrite !bcast_index by lia. reflexivity.
Qed.


Lemma esum_add {A : Type} (f g : A -> E) (l : list A) :
  esum (map (fun a => eadd (f a) (g a)) l) = eadd (esum (map f l)) (esum (map g l)).
Proof. induction l as [|x l IH]; simpl; [ring|]. rewrite IH. ring. Qed.

Lemma esum_zero {A : Type} (l : list A) : esum (map (fun _ => e0) l) = e0.
Proof. induction l as [|x l IH]; simpl; [reflexivity|]. rewrite IH. ring. Qed.

Lemma esum_swap {A B : Type} (F : A -> B -> E) (la : list A) (lb : list B) :
  esum (map (fun a => esum (map (F a) lb)) la)
  = esum (map (fun b => esum (map (fun a => F a b) la)) lb).
Proof.
  induction la as [|a la IH]; cbn [map esum fold_right].
  - symmetry. apply esum_zero.
  - fold (esum (map (fun a0 => esum (map (F a0) lb)) la)). rewrite IH.
    rewrite <- esum_add. reflexivity.
Qed.

Lemma esum_flat_map {A : Type} (h : A -> list E) (l : list A) :
  esum (flat_map h l) = esum (map (fun a => esum (h a)) l).
Proof.
  induction l as [|x l IH]; [reflexivity|]. cbn [flat_map map].
  rewrite esum_app. cbn [esum fold_right]. fold (esum (map (fun a => esum (h a)) l)).
  rewrite IH. reflexivity.
Qed.

Lemma svec_ext cs : forall (v w : nat -> E),
  (forall b, v b = w b) -> forall b, svec cs v b = svec cs w b.
Proof.
  induction cs as [|c cs IH]; intros v w H b; [apply H|].
  cbn [svec]. apply IH. intros b'. apply esum_ext. intros j _.
  unfold vstep. apply esum_ext. intros a _. rewrite H. reflexivity.
Qed.

(** [svec] commutes with finite sums of row vectors *)
Lemma svec_esum {A : Type} cs : forall (V : A -> nat -> E) (l : list A) b,
  svec cs (fun b' => esum (map (fun a => V a b') l)) b
  = esum (map (fun a => svec cs (V a) b) l).
Proof.
  induction cs as [|c cs IH]; intros V l b; [reflexivity|].
  cbn [svec].
  rewrite <- (IH (fun a b' => esum (map (fun j => vstep (leading c) (V a) c j b')
                                        (seq 0 (nth 1 (shape c) 0)))) l b).
  apply svec_ext. intros b'.
  rewrite esum_swap. apply esum_ext. intros j _.
  unfold vstep.
  rewrite esum_swap. apply esum_ext. intros x _.
  rewrite <- esum_scale_r. reflexivity.
Qed.

(** summing the entries over all multi-indices *)
Lemma esum_vec cs : forall r (v : nat -> E) b,
  chain 3 r cs ->
  esum (map (fun idx => vec cs idx v b) (indices (modes_N cs))) = svec cs v b.
Proof.
  induction cs as [|c cs IH]; intros r v b Hch.
  - simpl. ring.
  - destruct Hch as (H3 & Hl & Hch).
    change (modes_N (c :: cs))
      with ((if ndim c =? 3 then nth 1 (shape c) 0 else nth 2 (shape c) 0) :: modes_N cs).
    rewrite H3. cbn [Nat.eqb]. rewrite indices_cons, map_flat_map, esum_flat_map.
    cbn [svec]. rewrite (svec_esum cs (fun j => vstep (leading c) v c j)).
    apply esum_ext. intros j _. rewrite map_map. cbn [vec].
    apply (IH (trailing c)). exact Hch.
Qed.

(** the loop of [sum] on the cores after the first *)
Lemma sum_fold cs : forall r (sv : nat -> E),
  chain 3 r cs ->
  foldM (fun C c => e <- einsum "i,ijk->jk" C c ;; tsum e [0] false) cs
        (tbuild [r] (fun o => sv (nth 0 o 0)))
  = Ok (tbuild [running r cs] (fun o => svec cs sv (nth 0 o 0))).
Proof.
  induction cs as [|c cs IH]; intros r sv Hch; [reflexivity|].
  destruct Hch as (H3 & Hl & Hch). pose proof (shape3 c H3) as Hs. rewrite Hl in Hs.
  rewrite foldM_cons.
  rewrite (einsum_i_ijk (tbuild [r] (fun o => sv (nth 0 o 0))) c r _ _ eq_refl Hs), bind_Ok.
  rewrite (tsum_0 (tbuild [nth 1 (shape c) 0; trailing c] _) (nth 1 (shape c) 0) (trailing c) eq_refl).
  rewrite bind_Ok, running_cons. cbn [svec].
  rewrite <- (IH (trailing c) (fun b => esum (map (fun j => vstep (leading c) sv c j b)
                                                (seq 0 (nth 1 (shape c) 0)))) Hch). f_equal.
  apply tbuild_ext. intros o Hin.
  destruct o as [|b [|? ?]]; try discriminate Hin;
    try (cbn [inb] in Hin; rewrite andb_false_r in Hin; discriminate Hin).
  cbn [inb] in Hin. rewrite andb_true_r in Hin. apply Nat.ltb_lt in Hin.
  cbn [nth]. apply esum_ext. intros j Hj. apply in_seq in Hj.
  rewrite tget_tbuild.
  2:{ cbn [inb]. rewrite andb_true_r. apply andb_true_intro.
      split; apply Nat.ltb_lt; lia. }
  cbn [nth]. unfold vstep. rewrite Hl. apply esum_ext. intros x Hx. apply in_seq in Hx.
  rewrite tget_tbuild by (cbn [inb]; rewrite andb_true_r; apply Nat.ltb_lt; lia).
  reflexivity.
Qed.

(** X8: for a TT-tensor, [x.sum()] is the sum of the entries of the dense
    form. *)
Theorem sum_all_dense (x : TT E) :
  TT_tensor x ->
  exists fx, full x = Ok fx /\ sum x SumNone = Ok (RTensor (tsum_all fx)).
Proof.
  intros (cs & Hx & Httm & _).
  destruct (TT_tensor_chain x cs Hx Httm) as (Hne & Hch & Hrun & Hex & Hl).
  exists (mkT (dense_shape (N x)) (map (entry cs) (indices (N x)))).
  split; [apply full_tensor; assumption|].
  unfold sum. rewrite Httm, (TT_init_cores cs x Hx).
  replace (N x) with (modes_N cs) by (rewrite Hex; reflexivity).
  destruct cs as [|c0 rest]; [congruence|].
  destruct Hch as (H3 & Hl0 & Hch). pose proof (shape3 c0 H3) as Hs. rewrite Hl0 in Hs.
  rewrite running_cons in Hrun.
  change (item (c0 :: rest) 0) with (Ok c0). rewrite bind_Ok.
  rewrite (tsum_01 c0 _ _ Hs), bind_Ok.
  unfold range. rewrite length_modes_N. cbn [length].
  replace (S (length rest) - 1) with (length rest) by lia.
  rewrite (foldM_items (c0 :: rest)
             (fun C c => e <- einsum "i,ijk->jk" C c ;; tsum e [0] false)
             (length rest) 1) by (simpl; lia).
  cbn [skipn]. rewrite firstn_all.
  rewrite (sum_fold rest (trailing c0)
             (fun b => esum (map (fun i => tget c0 [0; i; b]) (seq 0 (nth 1 (shape c0) 0))))
             Hch).
  rewrite bind_Ok, Hrun. do 2 f_equal.
  unfold tsum_all. cbn [data tbuild]. f_equal.
  rewrite indices_single. cbn [seq map nth esum fold_right]. f_equal.
  change (modes_N (c0 :: rest))
    with ((if ndim c0 =? 3 then nth 1 (shape c0) 0 else nth 2 (shape c0) 0) :: modes_N rest).
  rewrite H3. cbn [Nat.eqb]. rewrite indices_cons, map_flat_map, esum_flat_map.
  assert (Hsv : svec rest (fun b => esum (map (fun i => tget c0 [0; i; b])
                                              (seq 0 (nth 1 (shape c0) 0)))) 0
                = esum (map (fun i => svec rest (vec0 c0 i) 0) (seq 0 (nth 1 (shape c0) 0)))).
  { apply (svec_esum rest (fun i => vec0 c0 i)). }
  rewrite Hsv.
  transitivity (esum (map (fun i => svec rest (vec0 c0 i) 0) (seq 0 (nth 1 (shape c0) 0))));
    [ring|].
  apply esum_ext. intros i _. rewrite map_map. cbn [entry].
  symmetry. apply (esum_vec rest (trailing c0)). exact Hch.
Qed.

End Sums.


(** ** Addition and subtraction *)

Section Addition.

Context {E : Type} {NE : Numeric E} {NL : NumericLaws E}.
Implicit Types (cs : list (tensor E)).

Add Ring E_ring5 : numeric_ring.

Lemma bshape_rev_same l : bshape_rev l l = Ok l.
Proof.
  induction l as [|x l IH]; [reflexivity|]. cbn [bshape_rev].
  rewrite IH, bind_Ok, Nat.eqb_refl. reflexivity.
Qed.

Lemma bidx_same sh : forall idx, inb sh idx = true -> bidx sh idx = idx.
Proof.
  intros idx H. unfold bidx. rewrite (inb_length sh idx H), Nat.sub_diag. cbn [skipn].
  revert idx H. induction sh as [|n sh IH]; intros [|i idx] H; try discriminate H; [reflexivity|].
  cbn [inb] in H. apply andb_prop in H. destruct H as [Hi H]. apply Nat.ltb_lt in Hi.
  cbn [combine map fst snd]. rewrite (IH idx H), bcast_index by exact Hi. reflexivity.
Qed.

Lemma tbinop_same (f : E -> E -> E) (a b : tensor E) sh :
  shape a = sh -> shape b = sh ->
  tbinop f a b = Ok (tbuild sh (fun idx => f (tget a idx) (tget b idx))).
Proof.
  intros Ha Hb. unfold tbinop, bshape. rewrite Ha, Hb, bshape_rev_same, !bind_Ok, rev_involutive.
  f_equal. apply tbuild_ext. intros idx H. rewrite (bidx_same sh idx H). reflexivity.
Qed.

(** padding a 3-dimensional array at the end of its first and last
    dimensions *)
Lemma tpad_end (c : tensor E) r n r' x y :
  shape c = [r; n; r'] ->
  tpad c [0; x; 0; 0; 0; y]
  = Ok (tbuild [r + y; n; r' + x]
          (fun idx => if (nth 0 idx 0 <? r) && (nth 2 idx 0 <? r')
                      then tget c [nth 0 idx 0; nth 1 idx 0; nth 2 idx 0] else e0)).
Proof.
  intros Hs. unfold tpad, ndim. rewrite Hs.
  cbn [pad_pairs bind length]. change (3 <? 3) with false. cbv iota.
  cbn [Nat.sub repeat app rev combine map fst snd].
  replace (0 + r + y) with (r + y) by lia. replace (0 + n + 0) with n by lia.
  replace (0 + r' + x) with (r' + x) by lia.
  f_equal. apply tbuild_ext. intros idx Hin.
  destruct idx as [|i0 [|i1 [|i2 [|? ?]]]]; try discriminate Hin;
    cbn [inb] in Hin; rewrite ?andb_false_r in Hin; try discriminate Hin.
  rewrite andb_true_r in Hin.
  repeat (apply andb_prop in Hin; destruct Hin as [?H Hin]).
  repeat match goal with H : (_ <? _) = true |- _ => apply Nat.ltb_lt in H end.
  cbn [combine forallb fst snd map nth]. rewrite !Nat.sub_0_r, !Nat.add_0_l, andb_true_r.
  change (0 <=? ?k) with true. cbn [andb].
  assert (Hi1 : (i1 <? n) = true) by (apply Nat.ltb_lt; assumption).
  rewrite Hi1. cbn [andb].
  destruct (i0 <? r), (i2 <? r'); reflexivity.
Qed.

(** padding a 3-dimensional array at the start of its first and last
    dimensions *)
Lemma tpad_start (c : tensor E) r n r' x y :
  shape c = [r; n; r'] ->
  tpad c [x; 0; 0; 0; y; 0]
  = Ok (tbuild [y + r; n; x + r']
          (fun idx => if (y <=? nth 0 idx 0) && (x <=? nth 2 idx 0)
                      then tget c [nth 0 idx 0 - y; nth 1 idx 0; nth 2 idx 0 - x] else e0)).
Proof.
  intros Hs. unfold tpad, ndim. rewrite Hs.
  cbn [pad_pairs bind length]. change (3 <? 3) with false. cbv iota.
  cbn [Nat.sub repeat app rev combine map fst snd].
  replace (y + r + 0) with (y + r) by lia. replace (0 + n + 0) with n by lia.
  replace (x + r' + 0) with (x + r') by lia.
  f_equal. apply tbuild_ext. intros idx Hin.
  destruct idx as [|i0 [|i1 [|i2 [|? ?]]]]; try discriminate Hin;
    cbn [inb] in Hin; rewrite ?andb_false_r in Hin; try discriminate Hin.
  rewrite andb_true_r in Hin.
  repeat (apply andb_prop in Hin; destruct Hin as [?H Hin]).
  repeat match goal with H : (_ <? _) = true |- _ => apply Nat.ltb_lt in H end.
  cbn [combine forallb fst snd map nth]. rewrite !Nat.sub_0_r, !Nat.add_0_l, andb_true_r.
  assert (Hi1 : (i1 <? n) = true) by (apply Nat.ltb_lt; assumption).
  assert (Hi0 : (i0 <? y + r) = true) by (apply Nat.ltb_lt; assumption).
  assert (Hi2 : (i2 <? x + r') = true) by (apply Nat.ltb_lt; assumption).
  rewrite Hi1, Hi0, Hi2. change (0 <=? i1) with true. cbn [andb]. rewrite !andb_true_r.
  reflexivity.
Qed.


Lemma sum_core_eval (fi la : bool) (a b : tensor E) r n r' q q' :
  shape a = [r; n; r'] -> shape b = [q; n; q'] ->
  (fi = true -> r = q) -> (la = true -> r' = q') ->
  (p1 <- tpad a [0; if la then 0 else q'; 0; 0; 0; if fi then 0 else q] ;;
   p2 <- tpad b [if la then 0 else r'; 0; 0; 0; if fi then 0 else r; 0] ;;
   tadd p1 p2)
  = Ok (sum_core fi la a b).
Proof.
  intros Ha Hb Hf Hl.
  rewrite (tpad_end a r n r' _ _ Ha), bind_Ok.
  rewrite (tpad_start b q n q' _ _ Hb), bind_Ok.
  assert (H0 : (if fi then 0 else r) + q = r + (if fi then 0 else q)).
  { destruct fi; [rewrite (Hf eq_refl); lia | lia]. }
  assert (H2 : (if la then 0 else r') + q' = r' + (if la then 0 else q')).
  { destruct la; [rewrite (Hl eq_refl); lia | lia]. }
  rewrite H0, H2. unfold tadd.
  rewrite (tbinop_same eadd _ _ [r + (if fi then 0 else q); n; r' + (if la then 0 else q')])
    by reflexivity.
  f_equal. unfold sum_core, leading, trailing. rewrite Ha, Hb. cbn [nth last].
  apply tbuild_ext. intros idx Hin.
  rewrite !tget_tbuild by exact Hin. reflexivity.
Qed.

Lemma mapM_sum_train (f : nat -> result (tensor E)) (asl : list (tensor E)) :
  forall (bsl : list (tensor E)) s d,
  length asl = length bsl -> s + length asl = d ->
  (forall i a b, nth_error asl i = Some a -> nth_error bsl i = Some b ->
     f (s + i) = Ok (sum_core (s + i =? 0) (s + i =? d - 1) a b)) ->
  mapM f (seq s (length asl)) = Ok (sum_train (s =? 0) asl bsl).
Proof.
  induction asl as [|a asl IH]; intros [|b bsl] s d Hlen Hd H; try discriminate Hlen;
    [reflexivity|].
  cbn [length seq mapM sum_train].
  pose proof (H 0 a b eq_refl eq_refl) as H0. rewrite Nat.add_0_r in H0.
  rewrite H0, bind_Ok.
  rewrite (IH bsl (S s) d).
  - rewrite bind_Ok. cbn [Nat.eqb]. do 3 f_equal.
    cbn [length] in Hd. destruct asl as [|? ?]; cbn [length] in *.
    + apply Nat.eqb_eq. lia.
    + apply Nat.eqb_neq. lia.
  - cbn [length] in Hlen. lia.
  - cbn [length] in Hd. lia.
  - intros i a' b' Ha' Hb'. replace (S s + i) with (s + S i) by lia.
    apply (H (S i) a' b'); assumption.
Qed.


Lemma sum_train_cons (fi : bool) (a : tensor E) asl (b : tensor E) bsl :
  sum_train fi (a :: asl) (b :: bsl)
  = sum_core fi (match asl with [] => true | _ => false end) a b :: sum_train false asl bsl.
Proof. reflexivity. Qed.

Lemma chain_sum (asl : list (tensor E)) : forall (bsl : list (tensor E)) (fi : bool) r q,
  chain 3 r asl -> chain 3 q bsl -> modes_N asl = modes_N bsl ->
  chain 3 (r + (if fi then 0 else q)) (sum_train fi asl bsl) /\
  (asl <> [] -> running (r + (if fi then 0 else q)) (sum_train fi asl bsl) = running r asl) /\
  modes_N (sum_train fi asl bsl) = modes_N asl /\
  ranks (sum_train fi asl bsl) = inner_sum (ranks asl) (ranks bsl).
Proof.
  induction asl as [|a asl IH]; intros [|b bsl] fi r q Ha Hb HN; try discriminate HN.
  - split; [exact I|]. split; [congruence|]. split; reflexivity.
  - destruct Ha as (Ha3 & Hal & Ha). destruct Hb as (Hb3 & Hbl & Hb).
    injection HN as Hn HN.
    destruct (IH bsl false _ _ Ha Hb HN) as (Hch & Hrun & HmN & Hrk).
    rewrite sum_train_cons.
    set (la := match asl with [] => true | _ => false end) in *.
    assert (Ht : trailing (sum_core fi la a b)
                 = trailing a + (if la then 0 else trailing b)) by reflexivity.
    assert (Hld : leading (sum_core fi la a b)
                  = leading a + (if fi then 0 else leading b)) by reflexivity.
    split; [|split; [|split]].
    + cbn [chain]. split; [reflexivity|]. split; [rewrite Hld, Hal, Hbl; reflexivity|].
      rewrite Ht. subst la. destruct asl as [|a2 asl'].
      * destruct bsl; [exact I | discriminate HN].
      * exact Hch.
    + intros _. rewrite !running_cons, Ht. subst la. destruct asl as [|a2 asl'].
      * destruct bsl; [|discriminate HN]. unfold running. simpl. lia.
      * apply Hrun. discriminate.
    + change (modes_N (sum_core fi la a b :: sum_train false asl bsl))
        with (nth 1 (shape a) 0 :: modes_N (sum_train false asl bsl)).
      rewrite HmN. unfold modes_N. cbn [map]. rewrite Ha3. reflexivity.
    + unfold ranks in *. cbn [map]. rewrite Hrk, Ht. subst la.
      destruct asl as [|a2 asl']; [|reflexivity].
      destruct bsl; [|discriminate HN]. cbn [map inner_sum]. f_equal. lia.
Qed.

Lemma esum_split (F : nat -> E) r q :
  esum (map F (seq 0 (r + q)))
  = eadd (esum (map F (seq 0 r))) (esum (map (fun c => F (r + c)) (seq 0 q))).
Proof.
  rewrite seq_app, map_app, esum_app. cbn [Nat.add].
  rewrite (seq_offset r q), map_map. reflexivity.
Qed.

Lemma tget_sum_core (fi la : bool) (a b : tensor E) r n r' q q' c j e :
  shape a = [r; n; r'] -> shape b = [q; n; q'] ->
  c < r + (if fi then 0 else q) -> j < n -> e < r' + (if la then 0 else q') ->
  tget (sum_core fi la a b) [c; j; e]
  = eadd (if (c <? r) && (e <? r') then tget a [c; j; e] else e0)
         (if ((if fi then 0 else r) <=? c) && ((if la then 0 else r') <=? e)
          then tget b [c - (if fi then 0 else r); j; e - (if la then 0 else r')] else e0).
Proof.
  intros Ha Hb Hc Hj He. unfold sum_core, leading, trailing. rewrite Ha, Hb.
  cbn [nth last]. rewrite tget_tbuild; [reflexivity|].
  cbn [inb]. rewrite andb_true_r.
  repeat (apply andb_true_intro; split); apply Nat.ltb_lt; assumption.
Qed.

(** a step through an interior core of the sum *)
Lemma vstep_sum_inner (a b : tensor E) r n r' q q' (vA vB vC : nat -> E) j e :
  shape a = [r; n; r'] -> shape b = [q; n; q'] ->
  j < n -> e < r' + q' ->
  (forall c, c < r + q -> vC c = if c <? r then vA c else vB (c - r)) ->
  vstep (r + q) vC (sum_core false false a b) j e
  = if e <? r' then vstep r vA a j e else vstep q vB b j (e - r').
Proof.
  intros Ha Hb Hj He HvC. unfold vstep. rewrite esum_split.
  destruct (Nat.ltb_spec e r') as [Hlt|Hge].
  - rewrite (esum_ext _ (fun x => emul (vA x) (tget a [x; j; e]))).
    + rewrite (esum_ext (fun c => emul (vC (r + c)) _) (fun _ => e0)).
      * rewrite esum_zero. ring.
      * intros c Hc. apply in_seq in Hc.
        rewrite (tget_sum_core false false a b r n r' q q' (r + c) j e Ha Hb) by lia.
        destruct (Nat.ltb_spec (r + c) r); [lia|].
        destruct (Nat.leb_spec r' e); [lia|]. cbn [andb]. rewrite andb_false_r. ring.
    + intros c Hc. apply in_seq in Hc. rewrite HvC by lia.
      rewrite (tget_sum_core false false a b r n r' q q' c j e Ha Hb) by lia.
      destruct (Nat.ltb_spec c r); [|lia]. destruct (Nat.ltb_spec e r'); [|lia].
      destruct (Nat.leb_spec r c); [lia|]. cbn [andb]. ring.
  - rewrite (esum_ext _ (fun _ => e0)).
    + rewrite esum_zero.
      rewrite (esum_ext (fun c => emul (vC (r + c)) _)
                        (fun x => emul (vB x) (tget b [x; j; e - r']))); [ring|].
      intros c Hc. apply in_seq in Hc. rewrite HvC by lia.
      rewrite (tget_sum_core false false a b r n r' q q' (r + c) j e Ha Hb) by lia.
      destruct (Nat.ltb_spec (r + c) r); [lia|].
      destruct (Nat.leb_spec r (r + c)); [|lia]. destruct (Nat.leb_spec r' e); [|lia].
      cbn [andb]. replace (r + c - r) with c by lia. ring.
    + intros c Hc. apply in_seq in Hc.
      rewrite (tget_sum_core false false a b r n r' q q' c j e Ha Hb) by lia.
      destruct (Nat.ltb_spec c r); [|lia]. destruct (Nat.ltb_spec e r'); [lia|].
      destruct (Nat.leb_spec r c); [lia|]. cbn [andb]. ring.
Qed.

(** the step through the last core of the sum *)
Lemma vstep_sum_last (a b : tensor E) r n q (vA vB vC : nat -> E) j :
  shape a = [r; n; 1] -> shape b = [q; n; 1] ->
  j < n ->
  (forall c, c < r + q -> vC c = if c <? r then vA c else vB (c - r)) ->
  vstep (r + q) vC (sum_core false true a b) j 0
  = eadd (vstep r vA a j 0) (vstep q vB b j 0).
Proof.
  intros Ha Hb Hj HvC. unfold vstep. rewrite esum_split. f_equal.
  - apply esum_ext. intros c Hc. apply in_seq in Hc. rewrite HvC by lia.
    rewrite (tget_sum_core false true a b r n 1 q 1 c j 0 Ha Hb) by lia.
    destruct (Nat.ltb_spec c r); [|lia]. destruct (Nat.leb_spec r c); [lia|].
    cbn [andb Nat.ltb Nat.leb]. ring.
  - apply esum_ext. intros c Hc. apply in_seq in Hc. rewrite HvC by lia.
    rewrite (tget_sum_core false true a b r n 1 q 1 (r + c) j 0 Ha Hb) by lia.
    destruct (Nat.ltb_spec (r + c) r); [lia|]. destruct (Nat.leb_spec r (r + c)); [|lia].
    cbn [andb Nat.ltb Nat.leb]. replace (r + c - r) with c by lia.
    rewrite Nat.sub_0_r. ring.
Qed.


Lemma inb_modes_cons (c : tensor E) cs j idx :
  ndim c = 3 -> inb (modes_N (c :: cs)) (j :: idx) = true ->
  j < nth 1 (shape c) 0 /\ inb (modes_N cs) idx = true.
Proof.
  intros H3 Hin.
  change (inb (modes_N (c :: cs)) (j :: idx))
    with ((j <? (if ndim c =? 3 then nth 1 (shape c) 0 else nth 2 (shape c) 0))
          && inb (modes_N cs) idx) in Hin.
  rewrite H3 in Hin. cbn [Nat.eqb] in Hin.
  apply andb_prop in Hin. destruct Hin as [Hj Hin]. apply Nat.ltb_lt in Hj. auto.
Qed.

(** the row vector of the sum is the row vectors of the operands side by
    side, and they are added at the last core *)
Lemma vec_sum (asl : list (tensor E)) : forall (bsl : list (tensor E)) idx r q
    (vA vB vC : nat -> E),
  asl <> [] ->
  chain 3 r asl -> chain 3 q bsl -> modes_N asl = modes_N bsl ->
  running r asl = 1 -> running q bsl = 1 ->
  inb (modes_N asl) idx = true ->
  (forall c, c < r + q -> vC c = if c <? r then vA c else vB (c - r)) ->
  vec (sum_train false asl bsl) idx vC 0 = eadd (vec asl idx vA 0) (vec bsl idx vB 0).
Proof.
  induction asl as [|a asl IH]; intros [|b bsl] idx r q vA vB vC Hne Ha Hb HN Hra Hrb Hin HvC;
    try congruence; try discriminate HN.
  destruct idx as [|j idx]; [discriminate Hin|].
  destruct Ha as (Ha3 & Hal & Ha). destruct Hb as (Hb3 & Hbl & Hb).
  destruct (inb_modes_cons a asl j idx Ha3 Hin) as [Hj Hin'].
  injection HN as Hn HN. rewrite Ha3, Hb3 in Hn. cbn [Nat.eqb] in Hn.
  pose proof (shape3 a Ha3) as Hsa. pose proof (shape3 b Hb3) as Hsb.
  rewrite Hal in Hsa. rewrite Hbl, <- Hn in Hsb.
  rewrite running_cons in Hra, Hrb.
  rewrite sum_train_cons. cbn [vec].
  replace (leading (sum_core false (match asl with [] => true | _ => false end) a b))
    with (r + q) by (change (r + q = leading a + leading b); congruence).
  rewrite Hal, Hbl.
  destruct asl as [|a2 asl'].
  - destruct bsl; [|discriminate HN]. cbn [sum_train vec].
    unfold running in Hra, Hrb. cbn [map last] in Hra, Hrb. rewrite Hra in Hsa. rewrite Hrb in Hsb.
    apply (vstep_sum_last a b r _ q vA vB vC j Hsa Hsb Hj HvC).
  - apply (IH bsl idx (trailing a) (trailing b)); try assumption; [discriminate|].
    intros e He.
    apply (vstep_sum_inner a b r _ _ q _ vA vB vC j e Hsa Hsb Hj He HvC).
Qed.

Lemma entry_sum (asl bsl : list (tensor E)) idx :
  asl <> [] -> chain 3 1 asl -> chain 3 1 bsl ->
  running 1 asl = 1 -> running 1 bsl = 1 ->
  modes_N asl = modes_N bsl ->
  inb (modes_N asl) idx = true ->
  entry (sum_train true asl bsl) idx = eadd (entry asl idx) (entry bsl idx).
Proof.
  intros Hne Ha Hb Hra Hrb HN Hin.
  destruct asl as [|a asl]; [congruence|].
  destruct bsl as [|b bsl]; [discriminate HN|].
  destruct idx as [|j idx]; [discriminate Hin|].
  destruct Ha as (Ha3 & Hal & Ha). destruct Hb as (Hb3 & Hbl & Hb).
  destruct (inb_modes_cons a asl j idx Ha3 Hin) as [Hj Hin'].
  injection HN as Hn HN. rewrite Ha3, Hb3 in Hn. cbn [Nat.eqb] in Hn.
  pose proof (shape3 a Ha3) as Hsa. pose proof (shape3 b Hb3) as Hsb.
  rewrite Hal in Hsa. rewrite Hbl, <- Hn in Hsb.
  rewrite running_cons in Hra, Hrb.
  rewrite sum_train_cons. cbn [entry].
  destruct asl as [|a2 asl'].
  - destruct bsl; [|discriminate HN]. cbn [sum_train vec]. unfold vec0.
    unfold running in Hra, Hrb. cbn [map last] in Hra, Hrb. rewrite Hra in Hsa. rewrite Hrb in Hsb.
    rewrite (tget_sum_core true true a b 1 _ 1 1 1 0 j 0 Hsa Hsb) by lia.
    reflexivity.
  - apply (vec_sum (a2 :: asl') bsl idx (trailing a) (trailing b)); try assumption;
      [discriminate|].
    intros e He. unfold vec0.
    rewrite (tget_sum_core true false a b 1 _ _ 1 _ 0 j e Hsa Hsb) by lia.
    change (0 <? 1) with true. change (0 <=? 0) with true. cbn [andb]. rewrite Nat.sub_0_r.
    destruct (Nat.ltb_spec e (trailing a)); destruct (Nat.leb_spec (trailing a) e);
      try lia; ring.
Qed.

(** the loop of [__add__] on two TT-tensors *)
Lemma sum_cores_train (a b : TT E) (asl bsl : list (tensor E)) :
  cores a = asl -> cores b = bsl ->
  N a = modes_N asl -> R a = 1 :: ranks asl -> R b = 1 :: ranks bsl ->
  asl <> [] -> chain 3 1 asl -> chain 3 1 bsl ->
  running 1 asl = 1 -> running 1 bsl = 1 ->
  modes_N asl = modes_N bsl ->
  sum_cores a b false false = Ok (sum_train true asl bsl).
Proof.
  intros Hca Hcb HNa HRa HRb Hne Ha Hb Hra Hrb HN.
  assert (Hlen : length asl = length bsl).
  { rewrite <- (length_modes_N asl), <- (length_modes_N bsl), HN. reflexivity. }
  unfold sum_cores. rewrite HNa, length_modes_N, Hca, Hcb, HRa, HRb.
  unfold range. rewrite Nat.sub_0_r.
  apply (mapM_sum_train _ asl bsl 0 (length asl) Hlen eq_refl).
  intros i x y Hx Hy. cbn [Nat.add].
  destruct (nth_error_modes_N asl i x Ha Hx) as [Hx3 HxN].
  destruct (nth_error_modes_N bsl i y Hb Hy) as [Hy3 HyN].
  assert (Hn : nth 1 (shape y) 0 = nth 1 (shape x) 0) by congruence.
  pose proof (shape3 x Hx3) as Hsx. pose proof (shape3 y Hy3) as Hsy.
  rewrite Hn in Hsy.
  destruct (chain_nth 3 asl 1 i x ltac:(lia) Ha Hx) as [Hx0 Hxl].
  destruct (chain_nth 3 bsl 1 i y ltac:(lia) Hb Hy) as [Hy0 Hyl].
  rewrite Hsx in Hx0, Hxl. rewrite Hsy in Hy0, Hyl.
  rewrite (item_last_last _ 0) in Hxl by discriminate.
  rewrite (item_last_last _ 0) in Hyl by discriminate.
  cbn [item nth_error last] in Hx0, Hxl, Hy0, Hyl.
  assert (Hfirst : (i =? 0) = true -> leading x = leading y).
  { intros H0. apply Nat.eqb_eq in H0. subst i.
    destruct asl as [|a0 ?]; [discriminate Hx|]. destruct bsl as [|b0 ?]; [discriminate Hy|].
    injection Hx as ->. injection Hy as ->.
    destruct Ha as (_ & -> & _). destruct Hb as (_ & -> & _). reflexivity. }
  assert (Hlast : (i =? length asl - 1) = true -> trailing x = trailing y).
  { intros H0. apply Nat.eqb_eq in H0.
    assert (Hlx : trailing x = 1).
    { rewrite <- Hra. unfold running, trailing.
      destruct (exists_last Hne) as (pre & z & Hz). rewrite Hz, map_app. cbn [map].
      rewrite last_last. rewrite Hz, length_app in H0. cbn [length] in H0.
      rewrite Hz, nth_error_app2 in Hx by lia.
      replace (i - length pre) with 0 in Hx by lia. injection Hx as ->. reflexivity. }
    assert (Hne' : bsl <> []) by (destruct bsl; [destruct asl; [congruence | discriminate Hlen] | discriminate]).
    assert (Hly : trailing y = 1).
    { rewrite <- Hrb. unfold running, trailing.
      destruct (exists_last Hne') as (pre & z & Hz). rewrite Hz, map_app. cbn [map].
      rewrite last_last. rewrite Hlen, Hz, length_app in H0. cbn [length] in H0.
      rewrite Hz, nth_error_app2 in Hy by lia.
      replace (i - length pre) with 0 in Hy by lia. injection Hy as ->. reflexivity. }
    congruence. }
  assert (Hza : zero_or_item (i =? length asl - 1) (1 :: ranks bsl) (i + 1)
                = Ok (if i =? length asl - 1 then 0 else trailing y)).
  { unfold zero_or_item. destruct (i =? length asl - 1); [reflexivity | symmetry; exact Hyl]. }
  assert (Hzb : zero_or_item (i =? 0) (1 :: ranks bsl) i
                = Ok (if i =? 0 then 0 else leading y)).
  { unfold zero_or_item. destruct (i =? 0); [reflexivity | symmetry; exact Hy0]. }
  assert (Hza' : zero_or_item (i =? length asl - 1) (1 :: ranks asl) (i + 1)
                 = Ok (if i =? length asl - 1 then 0 else trailing x)).
  { unfold zero_or_item. destruct (i =? length asl - 1); [reflexivity | symmetry; exact Hxl]. }
  assert (Hzb' : zero_or_item (i =? 0) (1 :: ranks asl) i
                 = Ok (if i =? 0 then 0 else leading x)).
  { unfold zero_or_item. destruct (i =? 0); [reflexivity | symmetry; exact Hx0]. }
  rewrite Hza, bind_Ok, Hzb, bind_Ok, Hza', bind_Ok, Hzb', bind_Ok.
  rewrite (proj2 (item_nth_error asl i x) Hx), bind_Ok.
  cbn [andb].
  pose proof (sum_core_eval (i =? 0) (i =? length asl - 1) x y _ _ _ _ _ Hsx Hsy Hfirst Hlast)
    as Heval.
  destruct (tpad x _) as [p1|] eqn:Hp1; [|discriminate Heval].
  rewrite bind_Ok in Heval |- *.
  rewrite (proj2 (item_nth_error bsl i y) Hy), bind_Ok. exact Heval.
Qed.


Lemma sum_result (asl bsl : list (tensor E)) :
  asl <> [] -> chain 3 1 asl -> chain 3 1 bsl ->
  running 1 asl = 1 -> running 1 bsl = 1 ->
  modes_N asl = modes_N bsl ->
  exists c,
    TT_init (SrcCores (sum_train true asl bsl)) = Ok c /\
    N c = modes_N asl /\
    R c = rank_sum (1 :: ranks asl) (1 :: ranks bsl) /\
    full c = Ok (mkT (dense_shape (modes_N asl))
                     (map (fun idx => eadd (entry asl idx) (entry bsl idx))
                          (indices (modes_N asl)))).
Proof.
  intros Hne Ha Hb Hra Hrb HN.
  destruct (chain_sum asl bsl true 1 1 Ha Hb HN) as (Hch & Hrun & HmN & Hrk).
  pose proof (Hrun Hne) as Hrun'. cbn [Nat.add] in Hch, Hrun'. rewrite Hra in Hrun'.
  assert (Hne' : sum_train true asl bsl <> []).
  { destruct asl; [congruence|]. destruct bsl; [discriminate HN | discriminate]. }
  destruct (TT_init_tensor_ok _ Hne' Hch Hrun') as [Hinit Ht].
  exists (constructed (sum_train true asl bsl)).
  split; [exact Hinit|]. split; [exact HmN|]. split.
  - cbn [constructed R rank_sum]. rewrite Hrk. f_equal.
    destruct asl as [|a0 ?]; [congruence|]. destruct bsl as [|b0 ?]; [discriminate HN|].
    destruct Ha as (_ & Hl & _). destruct Hb as (_ & Hl' & _).
    change (leading a0 + 0 = 1). lia.
  - rewrite (full_tensor _ _ Hinit Ht). cbn [constructed N]. rewrite HmN.
    do 2 f_equal. apply map_ext_in. intros idx Hin. apply in_indices in Hin.
    apply entry_sum; assumption.
Qed.

Lemma pointwise_entries (f : E -> E -> E) sh (u v : list nat -> E) (l : list (list nat)) :
  pointwise f (mkT sh (map u l)) (mkT sh (map v l))
  = mkT sh (map (fun idx => f (u idx) (v idx)) l).
Proof.
  unfold pointwise. cbn [shape data]. rewrite combine_map_map, map_map. reflexivity.
Qed.

(** X1: for two TT-tensors with equal mode sizes, [a + b] returns an
    object whose dense form is the entrywise sum of the dense forms, and
    whose ranks are the sums of the ranks at the interior boundaries. *)
Theorem add_dense (a b : TT E) :
  TT_tensor a -> TT_tensor b -> N a = N b ->
  exists c fa fb,
    add a (OTT b) = Ok c /\
    N c = N a /\
    R c = rank_sum (R a) (R b) /\
    full a = Ok fa /\ full b = Ok fb /\
    full c = Ok (pointwise eadd fa fb).
Proof.
  intros (asl & Ha & Hta & _) (bsl & Hb & Htb & _) HN.
  destruct (TT_tensor_chain a asl Ha Hta) as (Hna & Hca & Hra & Hea & Hla).
  destruct (TT_tensor_chain b bsl Hb Htb) as (Hnb & Hcb & Hrb & Heb & Hlb).
  assert (HNa : N a = modes_N asl) by (rewrite Hea; reflexivity).
  assert (HNb : N b = modes_N bsl) by (rewrite Heb; reflexivity).
  assert (HRa : R a = 1 :: ranks asl) by (rewrite Hea; cbn [constructed R]; rewrite Hla; reflexivity).
  assert (HRb : R b = 1 :: ranks bsl) by (rewrite Heb; cbn [constructed R]; rewrite Hlb; reflexivity).
  assert (HNN : modes_N asl = modes_N bsl) by congruence.
  destruct (sum_result asl bsl Hna Hca Hcb Hra Hrb HNN) as (c & Hc & HNc & HRc & Hfc).
  exists c, (mkT (dense_shape (N a)) (map (entry asl) (indices (N a)))),
         (mkT (dense_shape (N b)) (map (entry bsl) (indices (N b)))).
  split.
  { unfold add. cbn [np_isscalar is_one_element_tensor orb]. rewrite Hta, Htb.
    cbn [andb negb]. rewrite list_ne_refl.
    rewrite (sum_cores_train a b asl bsl) by (try assumption; rewrite ?Hea, ?Heb; reflexivity).
    rewrite bind_Ok. exact Hc. }
  split; [congruence|]. split; [congruence|].
  split; [apply full_tensor; assumption|]. split; [apply full_tensor; assumption|].
  rewrite Hfc, <- HN, HNa. rewrite pointwise_entries. reflexivity.
Qed.

Lemma sum_cores_negate (a b : TT E) (b0 : tensor E) rest :
  cores b = b0 :: rest ->
  sum_cores a b false true = sum_cores a (with_cores b (tneg b0 :: rest)) false false.
Proof.
  intros Hcb. unfold sum_cores. apply mapM_ext_in. intros i _.
  cbn [with_cores R cores].
  destruct (zero_or_item (i =? length (N a) - 1) (R b) (i + 1)); [|reflexivity].
  rewrite !bind_Ok. destruct (zero_or_item (i =? 0) (R b) i); [|reflexivity].
  rewrite !bind_Ok.
  destruct (zero_or_item (i =? length (N a) - 1) (R a) (i + 1)); [|reflexivity].
  rewrite !bind_Ok. destruct (zero_or_item (i =? 0) (R a) i); [|reflexivity].
  rewrite !bind_Ok. destruct (item (cores a) i); [|reflexivity].
  rewrite !bind_Ok. destruct (tpad a4 _); [|reflexivity].
  rewrite !bind_Ok. rewrite Hcb. cbn [andb].
  destruct i as [|i]; [reflexivity|].
  cbn [Nat.eqb item nth_error]. reflexivity.
Qed.

(** X2: for two TT-tensors with equal mode sizes, [a - b] returns an
    object whose dense form is the entrywise difference of the dense forms,
    with the ranks of the sum. *)
Theorem sub_dense (a b : TT E) :
  TT_tensor a -> TT_tensor b -> N a = N b ->
  exists c fa fb,
    sub a (OTT b) = Ok c /\
    N c = N a /\
    R c = rank_sum (R a) (R b) /\
    full a = Ok fa /\ full b = Ok fb /\
    full c = Ok (pointwise (fun u v => eadd u (eopp v)) fa fb).
Proof.
  intros (asl & Ha & Hta & _) (bsl & Hb & Htb & _) HN.
  destruct (TT_tensor_chain a asl Ha Hta) as (Hna & Hca & Hra & Hea & Hla).
  destruct (TT_tensor_chain b bsl Hb Htb) as (Hnb & Hcb & Hrb & Heb & Hlb).
  assert (HNa : N a = modes_N asl) by (rewrite Hea; reflexivity).
  assert (HNb : N b = modes_N bsl) by (rewrite Heb; reflexivity).
  assert (HRa : R a = 1 :: ranks asl) by (rewrite Hea; cbn [constructed R]; rewrite Hla; reflexivity).
  assert (HRb : R b = 1 :: ranks bsl) by (rewrite Heb; cbn [constructed R]; rewrite Hlb; reflexivity).
  assert (HNN : modes_N asl = modes_N bsl) by congruence.
  destruct bsl as [|b0 rest]; [congruence|].
  assert (Hcb' : chain 3 1 (tneg b0 :: rest)) by exact Hcb.
  assert (Hrb' : running 1 (tneg b0 :: rest) = 1) by exact Hrb.
  assert (HNN' : modes_N asl = modes_N (tneg b0 :: rest)) by exact HNN.
  destruct (sum_result asl (tneg b0 :: rest) Hna Hca Hcb' Hra Hrb' HNN') as (c & Hc & HNc & HRc & Hfc).
  exists c, (mkT (dense_shape (N a)) (map (entry asl) (indices (N a)))),
         (mkT (dense_shape (N b)) (map (entry (b0 :: rest)) (indices (N b)))).
  split.
  { unfold sub. cbn [sub_is_scalar np_isscalar orb]. rewrite Hta, Htb.
    cbn [andb negb]. rewrite list_ne_refl.
    rewrite (sum_cores_negate a b b0 rest) by (rewrite Heb; reflexivity).
    rewrite (sum_cores_train a (with_cores b (tneg b0 :: rest)) asl (tneg b0 :: rest))
      by (try assumption; rewrite ?Hea; try reflexivity; cbn [with_cores R]; exact HRb).
    rewrite bind_Ok. exact Hc. }
  split; [congruence|]. split; [rewrite HRc, HRa, HRb; reflexivity|].
  split; [apply full_tensor; assumption|]. split; [apply full_tensor; assumption|].
  rewrite Hfc, <- HN, HNa. rewrite pointwise_entries. do 2 f_equal.
  apply map_ext. intros idx. unfold tneg.
  rewrite (entry_scaled eopp (eopp e1)) by (intros; ring). ring.
Qed.

End Addition.


(** ** The mode product *)

Section ModeProduct.

Context {E : Type} {NE : Numeric E} {NL : NumericLaws E}.
Implicit Types (cs : list (tensor E)).

Add Ring E_ring6 : numeric_ring.

Lemma einsum_ijk_lj (c m : tensor E) r n r' l :
  shape c = [r; n; r'] -> shape m = [l; n] ->
  einsum "ijk,lj->ilk" c m = Ok (mode_core c m).
Proof.
  intros Hc Hm.
  unfold einsum, einsum_labels, ndim. rewrite Hc, Hm.
  repeat (progress (rewrite ?merge_one, ?Nat.eqb_refl;
                    cbn -[tbuild indices esum operand_at Nat.eqb])).
  f_equal. unfold mode_core, leading, trailing. rewrite Hc, Hm. cbn [nth last].
  apply tbuild_ext. intros o Hin.
  destruct o as [|i0 [|l0 [|k0 [|? ?]]]]; try discriminate Hin;
    cbn [inb] in Hin; rewrite ?andb_false_r in Hin; try discriminate Hin.
  rewrite andb_true_r in Hin.
  repeat (apply andb_prop in Hin; destruct Hin as [?H Hin]).
  repeat match goal with H : (_ <? _) = true |- _ => apply Nat.ltb_lt in H end.
  rewrite indices_single, map_map. f_equal. apply map_ext_in. intros x Hx.
  apply in_seq in Hx. unfold operand_at. rewrite Hc, Hm. cbn.
  rewrite !bcast_index by lia. reflexivity.
Qed.


Lemma vec_ext cs : forall idx (v w : nat -> E),
  (forall b, v b = w b) -> forall b, vec cs idx v b = vec cs idx w b.
Proof.
  induction cs as [|c cs IH]; intros [|i idx] v w H b; try apply H.
  cbn [vec]. apply IH. intros b'. unfold vstep. apply esum_ext. intros a _.
  rewrite H. reflexivity.
Qed.

(** [vec] agrees on row vectors that agree below the leading rank *)
Lemma vec_ext_below cs : forall idx r (v w : nat -> E),
  chain 3 r cs -> length idx = length cs ->
  (forall b, b < r -> v b = w b) ->
  forall b, b < running r cs -> vec cs idx v b = vec cs idx w b.
Proof.
  induction cs as [|c cs IH]; intros [|i idx] r v w Hch Hlen H b Hb; try discriminate Hlen.
  - apply H. exact Hb.
  - destruct Hch as (H3 & Hl & Hch). rewrite running_cons in Hb. cbn [vec].
    apply (IH idx (trailing c)); try assumption; [simpl in Hlen; lia|].
    intros b' _. unfold vstep. apply esum_ext. intros a Ha. apply in_seq in Ha.
    rewrite H by lia. reflexivity.
Qed.

(** [vec] is linear in the row vector *)
Lemma vec_linear {A : Type} cs : forall idx (s : A -> E) (V : A -> nat -> E) (l : list A) b,
  vec cs idx (fun b' => esum (map (fun a => emul (s a) (V a b')) l)) b
  = esum (map (fun a => emul (s a) (vec cs idx (V a) b)) l).
Proof.
  induction cs as [|c cs IH]; intros [|i idx] s V l b; try reflexivity.
  cbn [vec]. rewrite <- (IH idx s (fun a => vstep (leading c) (V a) c i) l b).
  apply vec_ext. intros b'. unfold vstep.
  transitivity (esum (map (fun x => esum (map (fun a => emul (emul (s a) (V a x))
                                                            (tget c [x; i; b'])) l))
                          (seq 0 (leading c)))).
  - apply esum_ext. intros x _. rewrite <- esum_scale_r. reflexivity.
  - rewrite esum_swap. apply esum_ext. intros a _.
    rewrite <- esum_scale. apply esum_ext. intros x _. ring.
Qed.

(** the entry as a row vector carried from the unit vector *)
Lemma entry_unit cs idx :
  cs <> [] -> length idx = length cs -> leading (hd (mkT [] []) cs) = 1 ->
  entry cs idx = vec cs idx (fun a => if a =? 0 then e1 else e0) 0.
Proof.
  intros Hne Hlen Hl. destruct cs as [|c0 cs]; [congruence|].
  destruct idx as [|i0 idx]; [discriminate Hlen|]. cbn [hd] in Hl.
  cbn [entry vec]. apply vec_ext. intros b. unfold vstep, vec0. rewrite Hl.
  cbn [seq map esum fold_right Nat.eqb]. ring.
Qed.

Lemma tget_mode_core (c m : tensor E) r n r' l0 a l b :
  shape c = [r; n; r'] -> shape m = [l0; n] ->
  a < r -> l < l0 -> b < r' ->
  tget (mode_core c m) [a; l; b]
  = esum (map (fun j => emul (tget c [a; j; b]) (tget m [l; j])) (seq 0 n)).
Proof.
  intros Hc Hm Ha Hl Hb. unfold mode_core, leading, trailing. rewrite Hc, Hm.
  cbn [nth last]. rewrite tget_tbuild; [reflexivity|].
  cbn [inb]. rewrite andb_true_r.
  repeat (apply andb_true_intro; split); apply Nat.ltb_lt; assumption.
Qed.

(** the row vector through a train with one core replaced by its mode
    product *)
Lemma vec_mode_core (pre post : list (tensor E)) (c m : tensor E) ipre ipost l l0 r0
    (v : nat -> E) :
  chain 3 r0 (pre ++ c :: post) -> running r0 (pre ++ c :: post) = 1 ->
  length ipre = length pre -> length ipost = length post ->
  shape m = [l0; nth 1 (shape c) 0] -> l < l0 ->
  vec (pre ++ mode_core c m :: post) (ipre ++ l :: ipost) v 0
  = esum (map (fun j => emul (tget m [l; j])
                             (vec (pre ++ c :: post) (ipre ++ j :: ipost) v 0))
              (seq 0 (nth 1 (shape c) 0))).
Proof.
  intros Hch Hrun Hlpre Hlpost Hm Hl.
  apply chain_app in Hch. destruct Hch as [Hpre Hch].
  destruct Hch as (H3 & Hlc & Hpost). pose proof (shape3 c H3) as Hs.
  rewrite running_app, running_cons in Hrun.
  rewrite vec_app_gen by exact Hlpre. cbn [vec].
  rewrite (esum_ext _ (fun j => emul (tget m [l; j])
                                     (vec post ipost
                                          (vstep (leading c) (vec pre ipre v) c j) 0))).
  2:{ intros j _. rewrite vec_app_gen by exact Hlpre. reflexivity. }
  rewrite <- (vec_linear post ipost (fun j => tget m [l; j])
                (fun j => vstep (leading c) (vec pre ipre v) c j)).
  apply (vec_ext_below post ipost (trailing c)); try assumption; [|lia].
  intros b Hb. change (leading (mode_core c m)) with (leading c).
  unfold vstep.
  rewrite (esum_ext _ (fun a => esum (map (fun j => emul (emul (vec pre ipre v a)
                                                             (tget c [a; j; b]))
                                                       (tget m [l; j]))
                                          (seq 0 (nth 1 (shape c) 0))))).
  2:{ intros a Ha. apply in_seq in Ha.
      rewrite (tget_mode_core c m _ _ _ l0 a l b Hs Hm) by lia.
      rewrite <- esum_scale. apply esum_ext. intros j _. ring. }
  rewrite esum_swap. apply esum_ext. intros j _.
  rewrite <- esum_scale. apply esum_ext. intros a _. ring.
Qed.


Lemma split_at {A : Type} (l : list A) p x :
  nth_error l p = Some x ->
  l = firstn p l ++ x :: skipn (S p) l /\ length (firstn p l) = p.
Proof.
  intros H. split.
  - rewrite <- (skipn_nth_error l p x H). symmetry. apply firstn_skipn.
  - apply firstn_length_le. apply Nat.lt_le_incl. apply nth_error_Some. congruence.
Qed.

Lemma chain_replaced (pre post : list (tensor E)) (c c' : tensor E) r0 :
  ndim c' = 3 -> leading c' = leading c -> trailing c' = trailing c ->
  chain 3 r0 (pre ++ c :: post) ->
  chain 3 r0 (pre ++ c' :: post) /\
  running r0 (pre ++ c' :: post) = running r0 (pre ++ c :: post) /\
  ranks (pre ++ c' :: post) = ranks (pre ++ c :: post) /\
  modes_N (pre ++ c' :: post) = modes_N pre ++ nth 1 (shape c') 0 :: modes_N post.
Proof.
  intros H3 Hl Ht Hch. apply chain_app in Hch. destruct Hch as [Hpre (Hc3 & Hcl & Hpost)].
  split; [|split; [|split]].
  - apply chain_app. split; [exact Hpre|]. cbn [chain]. rewrite Hl, Ht. auto.
  - rewrite !running_app, !running_cons, Ht. reflexivity.
  - unfold ranks. rewrite !map_app. cbn [map]. rewrite Ht. reflexivity.
  - rewrite modes_N_app. f_equal. unfold modes_N. cbn [map]. rewrite H3. reflexivity.
Qed.

Lemma py_pos_index {A : Type} (xs : list A) (i : Z) :
  py_pos xs i = match py_index (length xs) i with
                | Some k => Ok k
                | None => Raise IndexError
                end.
Proof.
  unfold py_pos, py_index.
  destruct ((0 <=? i) && (i <? Z.of_nat (length xs)))%Z; [reflexivity|].
  destruct ((- Z.of_nat (length xs) <=? i) && (i <? 0))%Z; reflexivity.
Qed.

Lemma inb_replaced (sh : list nat) p n l0 idx :
  nth_error sh p = Some n ->
  inb (replaced sh p l0) idx = true ->
  nth p idx 0 < l0 /\
  idx = firstn p idx ++ nth p idx 0 :: skipn (S p) idx /\
  length (firstn p idx) = p /\
  length (skipn (S p) idx) = length (skipn (S p) sh) /\
  forall j, j < n -> inb sh (replaced idx p j) = true.
Proof.
  intros Hp Hin. destruct (split_at sh p n Hp) as [Hsh Hlp].
  pose proof (inb_length _ _ Hin) as Hlen.
  unfold replaced in Hlen. rewrite length_app in Hlen. cbn [length] in Hlen. rewrite Hlp in Hlen.
  assert (Hpi : p < length idx) by lia.
  destruct (nth_error idx p) as [l|] eqn:Hl; [|apply nth_error_None in Hl; lia].
  destruct (split_at idx p l Hl) as [Hidx Hlip].
  assert (Hnth : nth p idx 0 = l) by (apply nth_error_nth; exact Hl).
  rewrite Hnth.
  unfold replaced in Hin. rewrite Hidx in Hin.
  rewrite inb_app in Hin by (rewrite Hlip, Hlp; reflexivity).
  apply andb_prop in Hin. destruct Hin as [Hin1 Hin2]. cbn [inb] in Hin2.
  apply andb_prop in Hin2. destruct Hin2 as [Hll Hin2]. apply Nat.ltb_lt in Hll.
  split; [exact Hll|]. split; [exact Hidx|]. split; [exact Hlip|].
  split; [apply inb_length; exact Hin2|].
  intros j Hj. unfold replaced. rewrite Hsh at 1.
  rewrite inb_app by (rewrite Hlip, Hlp; reflexivity).
  rewrite Hin1. cbn [inb andb]. rewrite Hin2, andb_true_r. apply Nat.ltb_lt. exact Hj.
Qed.

(** X14: the mode product with one matrix along one mode [k] (negative
    [k] counts from the end): mode [k] takes the number of rows of the
    matrix, the ranks stay, and every entry is the matrix applied along mode
    [k] of the dense form. *)
Theorem mprod_mode_product (x : TT E) (m : tensor E) (k : Z) (p l0 : nat) :
  TT_tensor x ->
  py_index (length (N x)) k = Some p ->
  shape m = [l0; nth p (N x) 0] ->
  exists y fx,
    mprod x (FList [m]) (ModeList [k]) = Ok y /\
    N y = replaced (N x) p l0 /\
    R y = R x /\
    full x = Ok fx /\
    full y = Ok (mkT (dense_shape (N y))
                     (map (fun idx =>
                             esum (map (fun j =>
                                          emul (tget m [nth p idx 0; j])
                                               (nth (ravel (N x) (replaced idx p j))
                                                    (data fx) e0))
                                       (seq 0 (nth p (N x) 0))))
                          (indices (N y)))).
Proof.
  intros (cs & Hx & Httm & _) Hk Hm.
  destruct (TT_tensor_chain x cs Hx Httm) as (Hne & Hch & Hrun & Hex & Hl).
  assert (HN : N x = modes_N cs) by (rewrite Hex; reflexivity).
  assert (HR : R x = 1 :: ranks cs) by (rewrite Hex; cbn [constructed R]; rewrite Hl; reflexivity).
  pose proof (py_index_lt _ _ _ Hk) as Hp. rewrite HN, length_modes_N in Hp.
  destruct (nth_error cs p) as [c|] eqn:Hc; [|apply nth_error_None in Hc; lia].
  destruct (split_at cs p c Hc) as [Hcs Hlpre].
  set (pre := firstn p cs) in *. set (post := skipn (S p) cs) in *.
  destruct (nth_error_modes_N cs p c Hch Hc) as [H3 HNp].
  assert (Hn : nth p (N x) 0 = nth 1 (shape c) 0).
  { rewrite HN. apply nth_error_nth. exact HNp. }
  rewrite Hn in Hm. pose proof (shape3 c H3) as Hs.
  set (c' := mode_core c m).
  assert (Hch0 : chain 3 1 (pre ++ c :: post)) by (rewrite <- Hcs; exact Hch).
  destruct (chain_replaced pre post c c' 1 eq_refl eq_refl eq_refl Hch0)
    as (Hch' & Hrun' & Hrk' & HN').
  rewrite <- Hcs in Hrun', Hrk'. rewrite Hrun in Hrun'.
  assert (Hne' : pre ++ c' :: post <> []) by (destruct pre; discriminate).
  destruct (TT_init_tensor_ok _ Hne' Hch' Hrun') as [Hinit Ht].
  assert (HNy : modes_N (pre ++ c' :: post) = replaced (N x) p l0).
  { rewrite HN'. unfold replaced. rewrite HN. unfold modes_N.
    rewrite firstn_map, skipn_map. subst c'. unfold mode_core. cbn [shape nth].
    rewrite Hm. reflexivity. }
  exists (constructed (pre ++ c' :: post)),
         (mkT (dense_shape (N x)) (map (entry cs) (indices (N x)))).
  split.
  { unfold mprod. rewrite map_id, (TT_init_cores cs x Hx). unfold range. cbn [length Nat.sub seq].
    rewrite foldM_cons. cbn [item nth_error]. rewrite bind_Ok, py_pos_index.
    rewrite <- (length_modes_N cs), <- HN, Hk, bind_Ok.
    rewrite (proj2 (item_nth_error cs p c) Hc), !bind_Ok, Httm.
    rewrite (einsum_ijk_lj c m _ _ _ l0 Hs Hm), bind_Ok.
    rewrite set_item_lt by exact Hp. cbn [foldM]. rewrite bind_Ok. exact Hinit. }
  split; [exact HNy|].
  split.
  { cbn [constructed R]. rewrite HR, Hrk'. f_equal.
    destruct pre as [|c0 pre'] eqn:Hpre.
    - cbn [app hd]. change (leading c' ) with (leading c).
      rewrite Hcs in Hch. cbn [app] in Hch. destruct Hch as (_ & Hlc & _). exact Hlc.
    - rewrite Hcs in Hl. exact Hl. }
  split; [apply full_tensor; assumption|].
  rewrite (full_tensor _ _ Hinit Ht). cbn [constructed N data]. rewrite HNy.
  do 2 f_equal. apply map_ext_in. intros idx Hin. apply in_indices in Hin.
  assert (HNp' : nth_error (N x) p = Some (nth 1 (shape c) 0)) by (rewrite HN; exact HNp).
  destruct (inb_replaced (N x) p _ l0 idx HNp' Hin) as (Hll & Hidx & Hlip & Hlpost & Hinj).
  rewrite Hn.
  assert (Hlen' : length idx = length (pre ++ c' :: post)).
  { rewrite (inb_length _ _ Hin). unfold replaced. rewrite !length_app. cbn [length].
    rewrite HN. unfold modes_N. rewrite firstn_map, skipn_map, !length_map. reflexivity. }
  rewrite (entry_unit _ idx Hne' Hlen').
  2:{ destruct pre as [|c0 pre'] eqn:Hpre.
      - cbn [app hd]. change (leading c') with (leading c).
        rewrite Hcs in Hch. cbn [app] in Hch. destruct Hch as (_ & Hlc & _). exact Hlc.
      - rewrite Hcs in Hl. exact Hl. }
  rewrite Hidx at 1.
  rewrite (vec_mode_core pre post c m _ _ _ l0 1 _ Hch0).
  - apply esum_ext. intros j Hj. apply in_seq in Hj. f_equal.
    rewrite (nth_indep _ e0 (entry cs [])).
    2:{ rewrite length_map, length_indices. apply ravel_lt. apply Hinj. lia. }
    rewrite (map_nth (entry cs)), nth_ravel_indices by (apply Hinj; lia).
    rewrite (entry_unit cs (replaced idx p j) Hne).
    + rewrite Hcs at 1. reflexivity.
    + unfold replaced. rewrite length_app. cbn [length].
      rewrite Hlip, Hlpost, HN. unfold modes_N. rewrite skipn_map, length_map.
      rewrite Hcs at 2. rewrite length_app. cbn [length]. rewrite Hlpre. reflexivity.
    + exact Hl.
  - rewrite <- Hcs. exact Hrun.
  - rewrite Hlip, Hlpre. reflexivity.
  - rewrite Hlpost, HN. unfold modes_N. rewrite skipn_map, length_map. reflexivity.
  - exact Hm.
  - exact Hll.
Qed.

(** X15: [mprod] with a single matrix, or with an int mode, never returns:
    [isinstance(factor_matrices, tn.tensor)] raises [TypeError], so
    [InvalidArguments] is never raised either. *)
Theorem mprod_single_matrix (x : TT E) (m : tensor E) (k : Z) (fs : factors_arg E) (ms : mode_arg) :
  mprod x (FTensor m) ms = Raise TypeError /\
  mprod x fs (ModeInt k) = Raise TypeError.
Proof. split; [reflexivity | destruct fs; reflexivity]. Qed.

End ModeProduct.


(** ** Addition and subtraction of a scalar *)

Section ScalarAddition.

Context {E : Type} {NE : Numeric E} {NL : NumericLaws E}.
Implicit Types (cs : list (tensor E)).

Add Ring E_ring7 : numeric_ring.

(** an elementwise operation that broadcasts the second operand along the
    middle dimension *)
Lemma tbinop_broadcast_mid (f : E -> E -> E) (a b : tensor E) A n B :
  shape a = [A; n; B] -> shape b = [A; 1; B] ->
  tbinop f a b
  = Ok (tbuild [A; n; B]
          (fun idx => f (tget a idx) (tget b [nth 0 idx 0; 0; nth 2 idx 0]))).
Proof.
  intros Ha Hb. unfold tbinop, bshape. rewrite Ha, Hb.
  cbn [rev app bshape_rev bind]. rewrite !Nat.eqb_refl.
  assert (Hsh : forall T (k : list nat -> result T),
             (sh <- (r <- (r <- (if n =? 1 then Ok [n; A]
                                 else if n =? 1 then Ok [1; A] else Ok [n; A]) ;;
                           Ok (B :: r)) ;; Ok (rev r)) ;; k sh) = k [A; n; B]).
  { intros T k. destruct (n =? 1); reflexivity. }
  rewrite Hsh.
  f_equal. apply tbuild_ext. intros idx Hin.
  rewrite (bidx_same [A; n; B] idx Hin).
  destruct idx as [|c [|j [|e [|? ?]]]]; try discriminate Hin;
    cbn [inb] in Hin; rewrite ?andb_false_r in Hin; try discriminate Hin.
  rewrite andb_true_r in Hin.
  repeat (apply andb_prop in Hin; destruct Hin as [?H Hin]).
  repeat match goal with H : (_ <? _) = true |- _ => apply Nat.ltb_lt in H end.
  unfold bidx. cbn [length Nat.sub skipn combine map fst snd nth Nat.eqb].
  rewrite !bcast_index by assumption. reflexivity.
Qed.


Lemma scalar_core_eval (fi la : bool) (a : tensor E) r n r' (v : E) :
  shape a = [r; n; r'] ->
  (fi = true -> r = 1) -> (la = true -> r' = 1) ->
  (p1 <- tpad a [0; if la then 0 else 1; 0; 0; 0; if fi then 0 else 1] ;;
   p2 <- tpad (tscale v (tones [1; 1; 1]))
              [if la then 0 else r'; 0; 0; 0; if fi then 0 else r; 0] ;;
   tadd p1 p2)
  = Ok (sum_core fi la a (tbuild [1; n; 1] (fun _ => emul e1 v))).
Proof.
  intros Ha Hf Hl.
  rewrite (tpad_end a r n r' _ _ Ha), bind_Ok.
  rewrite (tpad_start (tscale v (tones [1; 1; 1])) 1 1 1 _ _ eq_refl), bind_Ok.
  assert (H0 : (if fi then 0 else r) + 1 = r + (if fi then 0 else 1)).
  { destruct fi; [rewrite (Hf eq_refl); lia | lia]. }
  assert (H2 : (if la then 0 else r') + 1 = r' + (if la then 0 else 1)).
  { destruct la; [rewrite (Hl eq_refl); lia | lia]. }
  rewrite H0, H2. unfold tadd.
  rewrite (tbinop_broadcast_mid eadd _ _ (r + (if fi then 0 else 1)) n
                                (r' + (if la then 0 else 1))) by reflexivity.
  f_equal. unfold sum_core, leading, trailing. rewrite Ha. cbn [shape tbuild nth last].
  apply tbuild_ext. intros idx Hin.
  rewrite tget_tbuild by exact Hin.
  destruct idx as [|c [|j [|e [|? ?]]]]; try discriminate Hin;
    cbn [inb] in Hin; rewrite ?andb_false_r in Hin; try discriminate Hin.
  rewrite andb_true_r in Hin.
  repeat (apply andb_prop in Hin; destruct Hin as [?H Hin]).
  repeat match goal with H : (_ <? _) = true |- _ => apply Nat.ltb_lt in H end.
  cbn [nth].
  rewrite tget_tbuild.
  2:{ cbn [inb]. rewrite andb_true_r.
      repeat (apply andb_true_intro; split); apply Nat.ltb_lt; try assumption; lia. }
  cbn [nth]. f_equal.
  destruct ((if fi then 0 else r) <=? c) eqn:Hc; [|reflexivity].
  destruct ((if la then 0 else r') <=? e) eqn:He; [|reflexivity].
  cbn [andb]. apply Nat.leb_le in Hc, He.
  assert (Hc0 : c - (if fi then 0 else r) = 0).
  { destruct fi; [rewrite (Hf eq_refl) in *; lia | lia]. }
  assert (He0 : e - (if la then 0 else r') = 0).
  { destruct la; [rewrite (Hl eq_refl) in *; lia | lia]. }
  rewrite Hc0, He0.
  rewrite (tget_tbuild [1; n; 1] (fun _ => emul e1 v) [0; j; 0]).
  - reflexivity.
  - cbn [inb]. rewrite andb_true_r. apply andb_true_intro. split; [reflexivity|].
    apply Nat.ltb_lt. assumption.
Qed.

Lemma scalar_train_rank1 (s : E) sizes :
  scalar_train s sizes
  = map rank1_core (match sizes with
                    | [] => []
                    | n0 :: rest => repeat (emul e1 s) n0 :: map (repeat (emul e1 e1)) rest
                    end).
Proof.
  destruct sizes as [|n0 rest]; [reflexivity|]. cbn [scalar_train map].
  rewrite filled_rank1. f_equal. rewrite map_map. apply map_ext. intros n.
  apply filled_rank1.
Qed.

Lemma scalar_train_facts (s : E) sizes :
  chain 3 1 (scalar_train s sizes) /\ running 1 (scalar_train s sizes) = 1 /\
  modes_N (scalar_train s sizes) = sizes /\
  ranks (scalar_train s sizes) = repeat 1 (length sizes) /\
  forall idx, sizes <> [] -> inb sizes idx = true -> entry (scalar_train s sizes) idx = s.
Proof.
  rewrite scalar_train_rank1.
  set (ds := match sizes with
             | [] => []
             | n0 :: rest => repeat (emul e1 s) n0 :: map (repeat (emul e1 e1)) rest
             end).
  assert (Hlen : map (@length E) ds = sizes).
  { subst ds. destruct sizes as [|n0 rest]; [reflexivity|]. cbn [map].
    rewrite repeat_length. f_equal. rewrite map_map. rewrite <- (map_id rest) at 2.
    apply map_ext. intros n. apply repeat_length. }
  destruct (chain_rank1 ds) as (Hch & Hrun & HN & HR).
  rewrite Hlen in HN. rewrite <- (length_map (@length E) ds), Hlen in HR.
  repeat (split; [assumption|]).
  intros idx Hne Hin. rewrite entry_rank1.
  - subst ds. destruct sizes as [|n0 rest]; [congruence|].
    destruct idx as [|i idx]; [discriminate Hin|].
    cbn [inb] in Hin. apply andb_prop in Hin. destruct Hin as [Hi Hin].
    apply Nat.ltb_lt in Hi. cbn [rank1_entry].
    rewrite (nth_indep _ e0 (emul e1 s)) by (rewrite repeat_length; exact Hi).
    rewrite nth_repeat.
    replace (emul e1 e1) with e1 by ring.
    rewrite rank1_entry_ones by exact Hin. ring.
  - subst ds. destruct sizes; [congruence | discriminate].
  - rewrite (inb_length _ _ Hin), <- Hlen, length_map. reflexivity.
Qed.

(** the loop of the scalar branch of [__add__] and [__sub__] *)
Lemma scalar_cores_train (x : TT E) (asl : list (tensor E)) (s : E) (negate : bool)
    (o : operand E) :
  o = OInt s \/ o = OFloat s ->
  is_ttm x = false -> cores x = asl ->
  N x = modes_N asl -> R x = 1 :: ranks asl ->
  asl <> [] -> chain 3 1 asl -> running 1 asl = 1 ->
  scalar_cores x o negate
  = Ok (sum_train true asl (scalar_train (if negate then eopp s else s) (modes_N asl))).
Proof.
  intros Ho Httm Hcx HNx HRx Hne Ha Hra.
  set (s' := if negate then eopp s else s).
  destruct (scalar_train_facts s' (modes_N asl)) as (Hcb & Hrb & HNb & HRb & _).
  assert (Hlen : length asl = length (scalar_train s' (modes_N asl))).
  { rewrite <- (length_modes_N (scalar_train s' (modes_N asl))), HNb. symmetry.
    apply length_modes_N. }
  unfold scalar_cores. rewrite Httm, HNx, length_modes_N, Hcx, HRx.
  unfold range. rewrite Nat.sub_0_r.
  apply (mapM_sum_train _ asl _ 0 (length asl) Hlen eq_refl).
  intros i a b Hx Hy. cbn [Nat.add].
  destruct (nth_error_modes_N asl i a Ha Hx) as [Hx3 HxN].
  pose proof (shape3 a Hx3) as Hsx.
  destruct (chain_nth 3 asl 1 i a ltac:(lia) Ha Hx) as [Hx0 Hxl].
  rewrite Hsx in Hx0, Hxl.
  rewrite (item_last_last _ 0) in Hxl by discriminate.
  cbn [item nth_error last] in Hx0, Hxl.
  assert (Hfirst : (i =? 0) = true -> leading a = 1).
  { intros H0. apply Nat.eqb_eq in H0. subst i.
    destruct asl as [|a0 ?]; [discriminate Hx|]. injection Hx as ->.
    destruct Ha as (_ & Hl & _). exact Hl. }
  assert (Hlast : (i =? length asl - 1) = true -> trailing a = 1).
  { intros H0. apply Nat.eqb_eq in H0.
    rewrite <- Hra. unfold running, trailing.
    destruct (exists_last Hne) as (pre & z & Hz). rewrite Hz, map_app. cbn [map].
    rewrite last_last. rewrite Hz, length_app in H0. cbn [length] in H0.
    rewrite Hz, nth_error_app2 in Hx by lia.
    replace (i - length pre) with 0 in Hx by lia. injection Hx as ->. reflexivity. }
  assert (Hza' : zero_or_item (i =? length asl - 1) (1 :: ranks asl) (i + 1)
                 = Ok (if i =? length asl - 1 then 0 else trailing a)).
  { unfold zero_or_item. destruct (i =? length asl - 1); [reflexivity | symmetry; exact Hxl]. }
  assert (Hzb' : zero_or_item (i =? 0) (1 :: ranks asl) i
                 = Ok (if i =? 0 then 0 else leading a)).
  { unfold zero_or_item. destruct (i =? 0); [reflexivity | symmetry; exact Hx0]. }
  rewrite Hza', bind_Ok, Hzb', bind_Ok.
  assert (Hb : b = tbuild [1; nth 1 (shape a) 0; 1]
                          (fun _ => emul e1 (if i =? 0 then s' else e1))).
  { unfold scalar_train in Hy. destruct (modes_N asl) as [|n0 rest] eqn:HmN;
      [destruct i; discriminate Hy|].
    destruct i as [|i]; cbn [nth_error Nat.eqb] in Hy, HxN |- *.
    - injection Hy as <-. injection HxN as ->. reflexivity.
    - rewrite nth_error_map in Hy. rewrite HxN in Hy. injection Hy as <-. reflexivity. }
  assert (Hfac : exists v,
            (if i =? 0 then (if negate then neg_operand o else Ok o) else Ok (OInt e1))
            = Ok v /\
            mul_operand (tones [1; 1; 1]) v
            = Ok (tscale (if i =? 0 then s' else e1) (tones [1; 1; 1]))).
  { subst s'. destruct (i =? 0).
    - destruct negate; destruct Ho as [-> | ->]; eexists; split; reflexivity.
    - eexists. split; reflexivity. }
  destruct Hfac as (v & Hv & Hmul). rewrite Hv, bind_Ok, Hmul, bind_Ok.
  rewrite (proj2 (item_nth_error asl i a) Hx), bind_Ok. rewrite Hb.
  apply (scalar_core_eval (i =? 0) (i =? length asl - 1) a _ _ _ _ Hsx Hfirst Hlast).
Qed.

(** the object the constructor builds from the cores of [x + s'] *)
Lemma scalar_sum_result (x : TT E) (asl : list (tensor E)) (s' : E) :
  TT_init (SrcCores asl) = Ok x -> is_ttm x = false ->
  exists c,
    TT_init (SrcCores (sum_train true asl (scalar_train s' (modes_N asl)))) = Ok c /\
    is_ttm c = false /\
    N c = N x /\ R c = rank_sum (R x) (repeat 1 (length (R x))) /\
    full c = Ok (tmap (fun v => eadd v s')
                      (mkT (dense_shape (N x)) (map (entry asl) (indices (N x))))).
Proof.
  intros Ha Hta.
  destruct (TT_tensor_chain x asl Ha Hta) as (Hna & Hca & Hra & Hea & Hla).
  assert (HNa : N x = modes_N asl) by (rewrite Hea; reflexivity).
  assert (HRa : R x = 1 :: ranks asl) by (rewrite Hea; cbn [constructed R]; rewrite Hla; reflexivity).
  assert (HNne : modes_N asl <> []) by (destruct asl; [congruence | discriminate]).
  destruct (scalar_train_facts s' (modes_N asl)) as (Hcb & Hrb & HNb & HRb & Hent).
  destruct (sum_result asl _ Hna Hca Hcb Hra Hrb (eq_sym HNb)) as (c & Hc & HNc & HRc & Hfc).
  exists c. split; [exact Hc|]. split.
  { destruct (chain_sum asl _ true 1 1 Hca Hcb (eq_sym HNb)) as (Hch & Hrun & _ & _).
    pose proof (Hrun Hna) as Hrun'. cbn [Nat.add] in Hch, Hrun'. rewrite Hra in Hrun'.
    assert (Hne' : sum_train true asl (scalar_train s' (modes_N asl)) <> []).
    { intros Hnil. rewrite Hnil in Hc. discriminate Hc. }
    destruct (TT_init_tensor_ok _ Hne' Hch Hrun') as [Hinit Ht].
    rewrite Hinit in Hc. injection Hc as <-. exact Ht. }
  split; [congruence|]. split.
  - rewrite HRc, HRa, HRb, length_modes_N. cbn [length repeat].
    rewrite length_ranks. reflexivity.
  - rewrite Hfc, HNa. unfold tmap. cbn [shape data]. do 2 f_equal.
    rewrite map_map. apply map_ext_in. intros idx Hin. apply in_indices in Hin.
    rewrite (Hent idx HNne Hin). reflexivity.
Qed.

(** X3: for a TT-tensor and an int or float scalar [s], [x + s] adds [s] to
    every entry of the dense form and [x - s] subtracts it; every interior
    rank grows by 1. *)
Theorem add_sub_scalar_dense (x : TT E) (s : E) (o : operand E) :
  TT_tensor x -> o = OInt s \/ o = OFloat s ->
  exists c d fx,
    add x o = Ok c /\ sub x o = Ok d /\
    N c = N x /\ N d = N x /\
    R c = rank_sum (R x) (repeat 1 (length (R x))) /\ R d = R c /\
    full x = Ok fx /\
    full c = Ok (tmap (fun v => eadd v s) fx) /\
    full d = Ok (tmap (fun v => eadd v (eopp s)) fx).
Proof.
  intros (asl & Ha & Hta & _) Ho.
  destruct (TT_tensor_chain x asl Ha Hta) as (Hna & Hca & Hra & Hea & Hla).
  assert (HNa : N x = modes_N asl) by (rewrite Hea; reflexivity).
  assert (HRa : R x = 1 :: ranks asl) by (rewrite Hea; cbn [constructed R]; rewrite Hla; reflexivity).
  assert (Hcx : cores x = asl) by (rewrite Hea; reflexivity).
  destruct (scalar_sum_result x asl s Ha Hta) as (c & Hc & _ & HNc & HRc & Hfc).
  destruct (scalar_sum_result x asl (eopp s) Ha Hta) as (d & Hd & _ & HNd & HRd & Hfd).
  exists c, d, (mkT (dense_shape (N x)) (map (entry asl) (indices (N x)))).
  assert (Hsc : np_isscalar o = true) by (destruct Ho as [-> | ->]; reflexivity).
  split.
  { unfold add. rewrite Hsc. cbn [orb].
    rewrite (scalar_cores_train x asl s false o Ho Hta Hcx HNa HRa Hna Hca Hra), bind_Ok.
    exact Hc. }
  split.
  { unfold sub, sub_is_scalar. rewrite Hsc. cbn [orb].
    rewrite (scalar_cores_train x asl s true o Ho Hta Hcx HNa HRa Hna Hca Hra), bind_Ok.
    exact Hd. }
  split; [exact HNc|]. split; [exact HNd|]. split; [exact HRc|].
  split; [congruence|].
  split; [apply full_tensor; assumption|]. split; assumption.
Qed.

(** X26: for a TT-tensor and an int or float scalar [s], [s - x] returns an
    object whose dense form holds [s] minus every entry of the dense form
    of [x]; every interior rank grows by 1. *)
Theorem rsub_scalar_dense (x : TT E) (s : E) (o : operand E) :
  TT_tensor x -> o = OInt s \/ o = OFloat s ->
  exists y fx,
    rsub x o = Ok y /\
    N y = N x /\
    R y = rank_sum (R x) (repeat 1 (length (R x))) /\
    full x = Ok fx /\
    full y = Ok (tmap (fun v => eadd s (eopp v)) fx).
Proof.
  intros (asl & Ha & Hta & _) Ho.
  destruct (TT_tensor_chain x asl Ha Hta) as (Hna & Hca & Hra & Hea & Hla).
  assert (HNa : N x = modes_N asl) by (rewrite Hea; reflexivity).
  assert (HRa : R x = 1 :: ranks asl) by (rewrite Hea; cbn [constructed R]; rewrite Hla; reflexivity).
  assert (Hcx : cores x = asl) by (rewrite Hea; reflexivity).
  destruct (scalar_sum_result x asl (eopp s) Ha Hta) as (d & Hd & Htd & HNd & HRd & Hfd).
  assert (Hsc : np_isscalar o = true) by (destruct Ho as [-> | ->]; reflexivity).
  assert (Hsub : sub x o = Ok d).
  { unfold sub, sub_is_scalar. rewrite Hsc. cbn [orb].
    rewrite (scalar_cores_train x asl s true o Ho Hta Hcx HNa HRa Hna Hca Hra), bind_Ok.
    exact Hd. }
  assert (Hf : forall v : E, eopp v = emul (eopp e1) v) by (intros; ring).
  destruct (scaled_cores eopp (eopp e1) _ d Hf Hd Htd)
    as (c0 & rest & fd & Hcs & _ & Hfd' & Hfy).
  exists (with_cores d (tneg c0 :: rest)),
         (mkT (dense_shape (N x)) (map (entry asl) (indices (N x)))).
  split.
  { unfold rsub. rewrite Hsub, bind_Ok, Hcs. cbn [item nth_error].
    rewrite bind_Ok, set_item_0, bind_Ok. reflexivity. }
  split; [exact HNd|]. split; [exact HRd|].
  split; [apply full_tensor; assumption|].
  unfold tneg in Hfy |- *. rewrite Hfy. rewrite Hfd in Hfd'. injection Hfd' as <-.
  unfold tmap. cbn [shape data]. do 2 f_equal. rewrite !map_map.
  apply map_ext. intros idx. ring.
Qed.

End ScalarAddition.


(** ** Structure of [sum] and of [kron] on TT-matrices *)

Section Structure.

Context {E : Type} {NE : Numeric E}.
Implicit Types (cs : list (tensor E)).

(** X9: what [sum] returns for an int or a list of modes satisfies the
    structural invariants. *)
Theorem sum_index_invariants (x : TT E) (i : Z) (l : list Z) (y : TT E) :
  sum x (SumInt i) = Ok (RTT y) \/ sum x (SumList l) = Ok (RTT y) ->
  invariants y.
Proof.
  intros [H|H]; unfold sum in H;
    apply bind_ok in H; destruct H as (cs & _ & H);
    apply bind_ok in H; destruct H as (S0 & HS & H);
    apply bind_ok in H; destruct H as (S1 & HS1 & H); injection H as <-;
    apply (reduce_dims_invariants cs S0 S1 HS HS1).
Qed.

(** X25: [kron] refuses a TT-tensor with a TT-matrix with
    [IncompatibleTypes]; for two TT-matrices it concatenates the row modes,
    the column modes and the ranks. *)
Theorem kron_matrices (a b : TT E) :
  (is_ttm a <> is_ttm b -> kron (OTT a) (OTT b) = Raise IncompatibleTypes) /\
  (forall csa csb ma mb,
     TT_init (SrcCores csa) = Ok a -> TT_init (SrcCores csb) = Ok b ->
     is_ttm a = true -> is_ttm b = true ->
     M a = Some ma -> M b = Some mb ->
     exists k, kron (OTT a) (OTT b) = Ok k /\ is_ttm k = true /\
               M k = Some (ma ++ mb) /\ N k = N a ++ N b /\ R k = R a ++ tl (R b)).
Proof.
  split.
  - intros Hne. unfold kron. destruct (is_ttm a), (is_ttm b); try reflexivity; congruence.
  - intros csa csb ma mb Ha Hb Hta Htb HMa HMb.
    destruct (TT_matrix_chain a csa Ha Hta) as (Hna & Hca & Hra & Hea & Hla).
    destruct (TT_matrix_chain b csb Hb Htb) as (Hnb & Hcb & Hrb & Heb & Hlb).
    assert (Hne : csa ++ csb <> []) by (destruct csa; [congruence | discriminate]).
    assert (Hch : chain 4 1 (csa ++ csb)).
    { apply chain_app. rewrite Hra. split; assumption. }
    assert (Hrun : running 1 (csa ++ csb) = 1) by (rewrite running_app, Hra; exact Hrb).
    destruct (TT_init_matrix_ok (csa ++ csb) Hne Hch Hrun) as [Hk Htk].
    exists (constructed (csa ++ csb)).
    split.
    { unfold kron. rewrite Hta, Htb. cbn [Bool.eqb negb].
      rewrite (TT_init_cores csa a Ha), (TT_init_cores csb b Hb). exact Hk. }
    split; [exact Htk|].
    apply Nat.eqb_eq in Hla, Hlb.
    rewrite Hea in HMa. rewrite Heb in HMb. unfold constructed in HMa, HMb.
    cbn [M] in HMa, HMb. rewrite Hla in HMa. rewrite Hlb in HMb.
    injection HMa as <-. injection HMb as <-.
    unfold constructed in Htk. cbn [is_ttm] in Htk.
    rewrite Hea, Heb. unfold constructed. cbn [M N R tl]. rewrite Htk.
    rewrite modes_M_app, modes_N_app.
    split; [reflexivity|]. split; [reflexivity|].
    unfold ranks. rewrite map_app.
    destruct csa as [|a0 ?]; [congruence|]. reflexivity.
Qed.

End Structure.


(** ** Structure of the products [A @ x], [A @ B] and [x @ A] *)

Section Products.

Context {E : Type} {NE : Numeric E}.
Implicit Types (cs csa csb : list (tensor E)).

Variable dense_matvec : list (tensor E) -> tensor E -> result (tensor E).

Lemma einsum_shape_ijkl_mkp (a b : tensor E) p m n p' q q' :
  shape a = [p; m; n; p'] -> shape b = [q; n; q'] ->
  exists e, einsum "ijkl,mkp->imjlp" a b = Ok e /\ shape e = [p; q; m; p'; q'].
Proof.
  intros Ha Hb. unfold einsum, einsum_labels, ndim. rewrite Ha, Hb.
  repeat (progress (rewrite ?merge_one, ?Nat.eqb_refl;
                    cbn -[tbuild indices esum operand_at Nat.eqb])).
  eexists. split; reflexivity.
Qed.

Lemma einsum_shape_ijkl_mknp (a b : tensor E) p m n p' q k q' :
  shape a = [p; m; n; p'] -> shape b = [q; n; k; q'] ->
  exists e, einsum "ijkl,mknp->imjnlp" a b = Ok e /\ shape e = [p; q; m; k; p'; q'].
Proof.
  intros Ha Hb. unfold einsum, einsum_labels, ndim. rewrite Ha, Hb.
  repeat (progress (rewrite ?merge_one, ?Nat.eqb_refl;
                    cbn -[tbuild indices esum operand_at Nat.eqb])).
  eexists. split; reflexivity.
Qed.

Lemma einsum_shape_mkp_ikjl (a b : tensor E) p n p' q k q' :
  shape a = [p; n; p'] -> shape b = [q; n; k; q'] ->
  exists e, einsum "mkp,ikjl->imjlp" a b = Ok e /\ shape e = [q; p; k; q'; p'].
Proof.
  intros Ha Hb. unfold einsum, einsum_labels, ndim. rewrite Ha, Hb.
  repeat (progress (rewrite ?merge_one, ?Nat.eqb_refl;
                    cbn -[tbuild indices esum operand_at Nat.eqb])).
  eexists. split; reflexivity.
Qed.

Lemma mapM_zip (f : nat -> result (tensor E)) (g : tensor E -> tensor E -> tensor E)
    csa csb :
  length csa = length csb ->
  (forall i a b, nth_error csa i = Some a -> nth_error csb i = Some b ->
     f i = Ok (g a b)) ->
  mapM f (range 0 (length csa)) = Ok (zip_cores g csa csb).
Proof.
  intros Hlen H. unfold zip_cores.
  replace (length csa) with (length (combine csa csb)) by (rewrite length_combine; lia).
  apply (mapM_items (combine csa csb) f (fun p => g (fst p) (snd p))).
  intros i [x y] Hi. apply nth_error_combine in Hi. destruct Hi as [Hx Hy].
  apply H; assumption.
Qed.

Lemma matvec_core_eval (a b : tensor E) p m n p' q q' :
  shape a = [p; m; n; p'] -> shape b = [q; n; q'] ->
  (e <- einsum "ijkl,mkp->imjlp" a b ;;
   a0 <- dim a 0 ;; b0 <- dim b 0 ;; a1 <- dim a 1 ;;
   a3 <- dim a 3 ;; b2 <- dim b 2 ;;
   treshape e (ints [a0 * b0; a1; a3 * b2])) = Ok (matvec_core a b).
Proof.
  intros Ha Hb.
  destruct (einsum_shape_ijkl_mkp a b _ _ _ _ _ _ Ha Hb) as (e & He & Hse).
  unfold matvec_core, contracted. rewrite He, bind_Ok.
  unfold dim, leading, trailing. rewrite Ha, Hb. cbn [item nth_error nth last].
  rewrite !bind_Ok. apply treshape_ints. unfold numel. rewrite Hse. simpl. ring.
Qed.

Lemma matmat_core_eval (a b : tensor E) p m n p' q k q' :
  shape a = [p; m; n; p'] -> shape b = [q; n; k; q'] ->
  (e <- einsum "ijkl,mknp->imjnlp" a b ;;
   a0 <- dim a 0 ;; b0 <- dim b 0 ;; a1 <- dim a 1 ;;
   b2 <- dim b 2 ;; a3 <- dim a 3 ;; b3 <- dim b 3 ;;
   treshape e (ints [a0 * b0; a1; b2; a3 * b3])) = Ok (matmat_core a b).
Proof.
  intros Ha Hb.
  destruct (einsum_shape_ijkl_mknp a b _ _ _ _ _ _ _ Ha Hb) as (e & He & Hse).
  unfold matmat_core, contracted. rewrite He, bind_Ok.
  unfold dim, leading, trailing. rewrite Ha, Hb. cbn [item nth_error nth last].
  rewrite !bind_Ok. apply treshape_ints. unfold numel. rewrite Hse. simpl. ring.
Qed.

Lemma vecmat_core_eval (a b : tensor E) p n p' q k q' :
  shape a = [p; n; p'] -> shape b = [q; n; k; q'] ->
  (e <- einsum "mkp,ikjl->imjlp" a b ;;
   a0 <- dim a 0 ;; b0 <- dim b 0 ;; b2 <- dim b 2 ;;
   a2 <- dim a 2 ;; b3 <- dim b 3 ;;
   treshape e (ints [a0 * b0; b2; a2 * b3])) = Ok (vecmat_core a b).
Proof.
  intros Ha Hb.
  destruct (einsum_shape_mkp_ikjl a b _ _ _ _ _ _ Ha Hb) as (e & He & Hse).
  unfold vecmat_core, contracted. rewrite He, bind_Ok.
  unfold dim, leading, trailing. rewrite Ha, Hb. cbn [item nth_error nth last].
  rewrite !bind_Ok. apply treshape_ints. unfold numel. rewrite Hse. simpl. ring.
Qed.

(** the products of two chains of cores form a chain, whose ranks are the
    products of the ranks *)
Lemma chain_zip (g : tensor E -> tensor E -> tensor E) ka kb k csa : forall csb p q,
  (forall a b,
     ndim (g a b) = k /\ leading (g a b) = leading a * leading b /\
     trailing (g a b) = trailing a * trailing b) ->
  chain ka p csa -> chain kb q csb -> length csa = length csb ->
  chain k (p * q) (zip_cores g csa csb) /\
  running (p * q) (zip_cores g csa csb) = running p csa * running q csb /\
  ranks (zip_cores g csa csb) = rank_product (ranks csa) (ranks csb).
Proof.
  induction csa as [|a csa IH]; intros [|b csb] p q Hg Ha Hb Hlen; try discriminate Hlen.
  - split; [exact I|]. split; reflexivity.
  - destruct Ha as (_ & Hal & Ha). destruct Hb as (_ & Hbl & Hb).
    injection Hlen as Hlen.
    destruct (IH csb _ _ Hg Ha Hb Hlen) as (Hch & Hrun & Hrk).
    destruct (Hg a b) as (Hk & Hl & Ht).
    change (zip_cores g (a :: csa) (b :: csb)) with (g a b :: zip_cores g csa csb).
    split; [|split].
    + cbn [chain]. split; [exact Hk|]. split; [congruence|]. rewrite Ht. exact Hch.
    + rewrite !running_cons, Ht. exact Hrun.
    + unfold ranks in *. cbn [map]. rewrite Hrk, Ht. reflexivity.
Qed.

Lemma modes_chain4 cs : forall r,
  chain 4 r cs ->
  modes_M cs = map (fun c => nth 1 (shape c) 0) cs /\
  modes_N cs = map (fun c => nth 2 (shape c) 0) cs.
Proof.
  induction cs as [|c cs IH]; intros r H; [split; reflexivity|].
  destruct H as (H4 & _ & H). destruct (IH _ H) as [HM HN].
  unfold modes_M, modes_N in *. cbn [map flat_map]. rewrite H4, HM, HN. split; reflexivity.
Qed.

Lemma modes_chain3 cs : forall r,
  chain 3 r cs -> modes_N cs = map (fun c => nth 1 (shape c) 0) cs.
Proof.
  induction cs as [|c cs IH]; intros r H; [reflexivity|].
  destruct H as (H3 & _ & H). pose proof (IH _ H) as HN.
  unfold modes_N in *. cbn [map]. rewrite H3, HN. reflexivity.
Qed.

Lemma map_zip_fst {A : Type} (g : tensor E -> tensor E -> tensor E)
    (u : tensor E -> A) (v : tensor E -> A) csa : forall csb,
  length csa = length csb ->
  (forall a b, u (g a b) = v a) ->
  map u (zip_cores g csa csb) = map v csa.
Proof.
  induction csa as [|a csa IH]; intros [|b csb] Hlen H; try discriminate Hlen;
    [reflexivity|].
  change (zip_cores g (a :: csa) (b :: csb)) with (g a b :: zip_cores g csa csb).
  cbn [map]. rewrite H, IH by (try exact H; simpl in Hlen; lia). reflexivity.
Qed.

Lemma map_zip_snd {A : Type} (g : tensor E -> tensor E -> tensor E)
    (u : tensor E -> A) (v : tensor E -> A) csa : forall csb,
  length csa = length csb ->
  (forall a b, u (g a b) = v b) ->
  map u (zip_cores g csa csb) = map v csb.
Proof.
  induction csa as [|a csa IH]; intros [|b csb] Hlen H; try discriminate Hlen;
    [reflexivity|].
  change (zip_cores g (a :: csa) (b :: csb)) with (g a b :: zip_cores g csa csb).
  cbn [map]. rewrite H, IH by (try exact H; simpl in Hlen; lia). reflexivity.
Qed.

Lemma list_ne_true (a b : list nat) : a <> b -> list_ne a b = true.
Proof.
  intros H. destruct (list_ne a b) eqn:Hne; [reflexivity|].
  apply list_ne_false in Hne. contradiction.
Qed.

Lemma matrix_facts (a : TT E) csa :
  TT_init (SrcCores csa) = Ok a -> is_ttm a = true ->
  csa <> [] /\ chain 4 1 csa /\ running 1 csa = 1 /\
  cores a = csa /\ M a = Some (modes_M csa) /\ N a = modes_N csa /\
  R a = 1 :: ranks csa.
Proof.
  intros Ha Hta.
  destruct (TT_matrix_chain a csa Ha Hta) as (Hna & Hca & Hra & Hea & Hla).
  split; [exact Hna|]. split; [exact Hca|]. split; [exact Hra|].
  apply Nat.eqb_eq in Hla. rewrite Hea. unfold constructed. cbn [cores M N R].
  rewrite Hla. split; [reflexivity|]. split; [reflexivity|]. split; [reflexivity|].
  destruct csa as [|a0 ?]; [congruence|]. destruct Hca as (_ & Hl & _).
  cbn [hd]. rewrite Hl. reflexivity.
Qed.

Lemma tensor_facts (x : TT E) csx :
  TT_init (SrcCores csx) = Ok x -> is_ttm x = false ->
  csx <> [] /\ chain 3 1 csx /\ running 1 csx = 1 /\
  cores x = csx /\ N x = modes_N csx /\ R x = 1 :: ranks csx.
Proof.
  intros Hx Htx.
  destruct (TT_tensor_chain x csx Hx Htx) as (Hnx & Hcx & Hrx & Hex & Hlx).
  split; [exact Hnx|]. split; [exact Hcx|]. split; [exact Hrx|].
  rewrite Hex. unfold constructed. cbn [cores N R].
  split; [reflexivity|]. split; [reflexivity|]. rewrite Hlx. reflexivity.
Qed.

(** X27: a TT-matrix applied to a TT-tensor.  [A @ x] raises
    [ShapeMismatch] when the column modes of [A] are not the modes of [x];
    otherwise it returns a TT-tensor whose modes are the row modes of [A]
    and whose ranks are the products of the ranks. *)
Theorem matmul_vector_structure (a x : TT E) csa :
  TT_init (SrcCores csa) = Ok a -> is_ttm a = true -> TT_tensor x ->
  (N a <> N x -> matmul dense_matvec a (OTT x) = Raise ShapeMismatch) /\
  (N a = N x ->
   exists y ma,
     matmul dense_matvec a (OTT x) = Ok (RTT y) /\
     M a = Some ma /\ is_ttm y = false /\ N y = ma /\
     R y = rank_product (R a) (R x)).
Proof.
  intros Ha Hta (csx & Hx & Htx & _). split.
  - intros Hne. unfold matmul. rewrite Hta, Htx. cbn [andb negb].
    rewrite (list_ne_true _ _ Hne). reflexivity.
  - intros HN.
    destruct (matrix_facts a csa Ha Hta) as (Hna & Hca & Hra & Hcsa & HMa & HNa & HRa).
    destruct (tensor_facts x csx Hx Htx) as (Hnx & Hcx & Hrx & Hcsx & HNx & HRx).
    destruct (modes_chain4 csa 1 Hca) as [HM4 HN4].
    pose proof (modes_chain3 csx 1 Hcx) as HN3.
    assert (Hlen : length csa = length csx).
    { rewrite <- (length_modes_N csa), <- (length_modes_N csx). congruence. }
    assert (Hg : forall u v : tensor E,
              ndim (matvec_core u v) = 3 /\
              leading (matvec_core u v) = leading u * leading v /\
              trailing (matvec_core u v) = trailing u * trailing v)
      by (intros; repeat split).
    destruct (chain_zip matvec_core 4 3 3 csa csx 1 1 Hg Hca Hcx Hlen) as (Hch & Hrun & Hrk).
    change (1 * 1) with 1 in Hch, Hrun. rewrite Hra, Hrx in Hrun. change (1 * 1) with 1 in Hrun.
    assert (Hne : zip_cores matvec_core csa csx <> []).
    { destruct csa; [congruence|]. destruct csx; [congruence | discriminate]. }
    destruct (TT_init_tensor_ok _ Hne Hch Hrun) as [Hk Htk].
    exists (constructed (zip_cores matvec_core csa csx)), (modes_M csa).
    split; [|split; [exact HMa|split; [exact Htk|split]]].
    + unfold matmul. rewrite Hta, Htx. cbn [andb negb].
      rewrite HN, list_ne_refl, Hcsa, Hcsx.
      rewrite (mapM_zip _ matvec_core csa csx Hlen).
      * rewrite bind_Ok, Hk. reflexivity.
      * intros i u v Hu Hv.
        assert (Hu4 : ndim u = 4).
        { destruct (chain_passes 4 1 csa (or_intror eq_refl) Hca) as [_ H4].
          rewrite Forall_forall in H4. apply H4. eapply nth_error_In; eassumption. }
        assert (Hv3 : ndim v = 3).
        { destruct (chain_passes 3 1 csx (or_introl eq_refl) Hcx) as [_ H3].
          rewrite Forall_forall in H3. apply H3. eapply nth_error_In; eassumption. }
        assert (Hn : nth 2 (shape u) 0 = nth 1 (shape v) 0).
        { assert (H1 : nth_error (modes_N csa) i = Some (nth 2 (shape u) 0))
            by (rewrite HN4, nth_error_map, Hu; reflexivity).
          assert (H2 : nth_error (modes_N csx) i = Some (nth 1 (shape v) 0))
            by (rewrite HN3, nth_error_map, Hv; reflexivity).
          rewrite <- HNa, HN, HNx, H2 in H1. congruence. }
        pose proof (shape4 u Hu4) as Hsu. pose proof (shape3 v Hv3) as Hsv.
        rewrite Hn in Hsu.
        rewrite (proj2 (item_nth_error csa i u) Hu), (proj2 (item_nth_error csx i v) Hv).
        rewrite !bind_Ok.
        exact (matvec_core_eval u v _ _ _ _ _ _ Hsu Hsv).
    + cbn [constructed N]. rewrite (modes_chain3 _ 1 Hch), HM4.
      apply map_zip_fst; [exact Hlen | reflexivity].
    + cbn [constructed R]. rewrite HRa, HRx.
      replace (leading (hd (mkT [] []) (zip_cores matvec_core csa csx))) with 1.
      * unfold rank_product in *. cbn [combine map fst snd]. rewrite Hrk. reflexivity.
      * destruct csa as [|u ?]; [congruence|]. destruct csx as [|v ?]; [congruence|].
        destruct Hch as (_ & Hl & _). symmetry. exact Hl.
Qed.

(** X28: the product of two TT-matrices.  [A @ B] raises [ShapeMismatch]
    when the column modes of [A] are not the row modes of [B]; otherwise it
    returns a TT-matrix with the row modes of [A], the column modes of [B]
    and the products of the ranks. *)
Theorem matmul_matrix_structure (a b : TT E) csa csb ma mb :
  TT_init (SrcCores csa) = Ok a -> TT_init (SrcCores csb) = Ok b ->
  is_ttm a = true -> is_ttm b = true ->
  M a = Some ma -> M b = Some mb ->
  (N a <> mb -> matmul dense_matvec a (OTT b) = Raise ShapeMismatch) /\
  (N a = mb ->
   exists y,
     matmul dense_matvec a (OTT b) = Ok (RTT y) /\
     is_ttm y = true /\ M y = Some ma /\ N y = N b /\
     R y = rank_product (R a) (R b)).
Proof.
  intros Ha Hb Hta Htb HMa' HMb'. split.
  - intros Hne. unfold matmul. rewrite Hta, Htb. cbn [andb negb].
    unfold get_M. rewrite HMb'. rewrite bind_Ok, (list_ne_true _ _ Hne). reflexivity.
  - intros HN.
    destruct (matrix_facts a csa Ha Hta) as (Hna & Hca & Hra & Hcsa & HMa & HNa & HRa).
    destruct (matrix_facts b csb Hb Htb) as (Hnb & Hcb & Hrb & Hcsb & HMb & HNb & HRb).
    rewrite HMa in HMa'. injection HMa' as <-.
    rewrite HMb in HMb'. injection HMb' as <-.
    destruct (modes_chain4 csa 1 Hca) as [HM4a HN4a].
    destruct (modes_chain4 csb 1 Hcb) as [HM4b HN4b].
    assert (Hlen : length csa = length csb).
    { rewrite <- (length_modes_N csa), <- HNa, HN, HM4b. apply length_map. }
    assert (Hg : forall u v : tensor E,
              ndim (matmat_core u v) = 4 /\
              leading (matmat_core u v) = leading u * leading v /\
              trailing (matmat_core u v) = trailing u * trailing v)
      by (intros; repeat split).
    destruct (chain_zip matmat_core 4 4 4 csa csb 1 1 Hg Hca Hcb Hlen) as (Hch & Hrun & Hrk).
    change (1 * 1) with 1 in Hch, Hrun. rewrite Hra, Hrb in Hrun. change (1 * 1) with 1 in Hrun.
    assert (Hne : zip_cores matmat_core csa csb <> []).
    { destruct csa; [congruence|]. destruct csb; [congruence | discriminate]. }
    destruct (TT_init_matrix_ok _ Hne Hch Hrun) as [Hk Htk].
    destruct (modes_chain4 _ 1 Hch) as [HM4 HN4].
    exists (constructed (zip_cores matmat_core csa csb)).
    split; [|split; [exact Htk|split; [|split]]].
    + unfold matmul. rewrite Hta, Htb. cbn [andb negb].
      unfold get_M. rewrite HMb, bind_Ok, HN, list_ne_refl, Hcsa, Hcsb.
      rewrite (mapM_zip _ matmat_core csa csb Hlen).
      * rewrite bind_Ok, Hk. reflexivity.
      * intros i u v Hu Hv.
        destruct (chain_passes 4 1 csa (or_intror eq_refl) Hca) as [_ H4a].
        destruct (chain_passes 4 1 csb (or_intror eq_refl) Hcb) as [_ H4b].
        rewrite Forall_forall in H4a, H4b.
        assert (Hu4 : ndim u = 4) by (apply H4a; eapply nth_error_In; eassumption).
        assert (Hv4 : ndim v = 4) by (apply H4b; eapply nth_error_In; eassumption).
        assert (Hn : nth 2 (shape u) 0 = nth 1 (shape v) 0).
        { assert (H1 : nth_error (modes_N csa) i = Some (nth 2 (shape u) 0))
            by (rewrite HN4a, nth_error_map, Hu; reflexivity).
          assert (H2 : nth_error (modes_M csb) i = Some (nth 1 (shape v) 0))
            by (rewrite HM4b, nth_error_map, Hv; reflexivity).
          rewrite <- HNa, HN, H2 in H1. congruence. }
        pose proof (shape4 u Hu4) as Hsu. pose proof (shape4 v Hv4) as Hsv.
        rewrite Hn in Hsu.
        rewrite (proj2 (item_nth_error csa i u) Hu), (proj2 (item_nth_error csb i v) Hv).
        rewrite !bind_Ok.
        exact (matmat_core_eval u v _ _ _ _ _ _ _ Hsu Hsv).
    + unfold constructed in Htk |- *. cbn [is_ttm M] in Htk |- *. rewrite Htk.
      f_equal. rewrite HM4, HM4a. apply map_zip_fst; [exact Hlen | reflexivity].
    + cbn [constructed N]. rewrite HNb, HN4, HN4b.
      apply map_zip_snd; [exact Hlen | reflexivity].
    + cbn [constructed R]. rewrite HRa, HRb.
      replace (leading (hd (mkT [] []) (zip_cores matmat_core csa csb))) with 1.
      * unfold rank_product in *. cbn [combine map fst snd]. rewrite Hrk. reflexivity.
      * destruct csa as [|u ?]; [congruence|]. destruct csb as [|v ?]; [congruence|].
        destruct Hch as (_ & Hl & _). symmetry. exact Hl.
Qed.

(** X29: a TT-tensor applied to a TT-matrix.  [x @ A] raises
    [ShapeMismatch] when the modes of [x] are not the row modes of [A];
    otherwise it returns a TT-tensor whose modes are the column modes of [A]
    and whose ranks are the products of the ranks. *)
Theorem matmul_row_structure (x b : TT E) csb mb :
  TT_tensor x -> TT_init (SrcCores csb) = Ok b -> is_ttm b = true ->
  M b = Some mb ->
  (N x <> mb -> matmul dense_matvec x (OTT b) = Raise ShapeMismatch) /\
  (N x = mb ->
   exists y,
     matmul dense_matvec x (OTT b) = Ok (RTT y) /\
     is_ttm y = false /\ N y = N b /\
     R y = rank_product (R x) (R b)).
Proof.
  intros (csx & Hx & Htx & _) Hb Htb HMb'. split.
  - intros Hne. unfold matmul. rewrite Htx, Htb. cbn [andb negb].
    unfold get_M. rewrite HMb'. rewrite bind_Ok, (list_ne_true _ _ Hne). reflexivity.
  - intros HN.
    destruct (tensor_facts x csx Hx Htx) as (Hnx & Hcx & Hrx & Hcsx & HNx & HRx).
    destruct (matrix_facts b csb Hb Htb) as (Hnb & Hcb & Hrb & Hcsb & HMb & HNb & HRb).
    rewrite HMb in HMb'. injection HMb' as <-.
    pose proof (modes_chain3 csx 1 Hcx) as HN3.
    destruct (modes_chain4 csb 1 Hcb) as [HM4b HN4b].
    assert (Hlen : length csx = length csb).
    { rewrite <- (length_modes_N csx), <- HNx, HN, HM4b. apply length_map. }
    assert (Hg : forall u v : tensor E,
              ndim (vecmat_core u v) = 3 /\
              leading (vecmat_core u v) = leading u * leading v /\
              trailing (vecmat_core u v) = trailing u * trailing v)
      by (intros; repeat split).
    destruct (chain_zip vecmat_core 3 4 3 csx csb 1 1 Hg Hcx Hcb Hlen) as (Hch & Hrun & Hrk).
    change (1 * 1) with 1 in Hch, Hrun. rewrite Hrx, Hrb in Hrun. change (1 * 1) with 1 in Hrun.
    assert (Hne : zip_cores vecmat_core csx csb <> []).
    { destruct csx; [congruence|]. destruct csb; [congruence | discriminate]. }
    destruct (TT_init_tensor_ok _ Hne Hch Hrun) as [Hk Htk].
    exists (constructed (zip_cores vecmat_core csx csb)).
    split; [|split; [exact Htk|split]].
    + unfold matmul. rewrite Htx, Htb. cbn [andb negb].
      unfold get_M. rewrite HMb, bind_Ok, HN, list_ne_refl, Hcsx, Hcsb.
      rewrite (mapM_zip _ vecmat_core csx csb Hlen).
      * rewrite bind_Ok, Hk. reflexivity.
      * intros i u v Hu Hv.
        destruct (chain_passes 3 1 csx (or_introl eq_refl) Hcx) as [_ H3].
        destruct (chain_passes 4 1 csb (or_intror eq_refl) Hcb) as [_ H4].
        rewrite Forall_forall in H3, H4.
        assert (Hu3 : ndim u = 3) by (apply H3; eapply nth_error_In; eassumption).
        assert (Hv4 : ndim v = 4) by (apply H4; eapply nth_error_In; eassumption).
        assert (Hn : nth 1 (shape u) 0 = nth 1 (shape v) 0).
        { assert (H1 : nth_error (modes_N csx) i = Some (nth 1 (shape u) 0))
            by (rewrite HN3, nth_error_map, Hu; reflexivity).
          assert (H2 : nth_error (modes_M csb) i = Some (nth 1 (shape v) 0))
            by (rewrite HM4b, nth_error_map, Hv; reflexivity).
          rewrite <- HNx, HN, H2 in H1. congruence. }
        pose proof (shape3 u Hu3) as Hsu. pose proof (shape4 v Hv4) as Hsv.
        rewrite Hn in Hsu.
        rewrite (proj2 (item_nth_error csx i u) Hu), (proj2 (item_nth_error csb i v) Hv).
        rewrite !bind_Ok.
        exact (vecmat_core_eval u v _ _ _ _ _ _ Hsu Hsv).
    + cbn [constructed N]. rewrite HNb, (modes_chain3 _ 1 Hch), HN4b.
      apply map_zip_snd; [exact Hlen | reflexivity].
    + cbn [constructed R]. rewrite HRx, HRb.
      replace (leading (hd (mkT [] []) (zip_cores vecmat_core csx csb))) with 1.
      * unfold rank_product in *. cbn [combine map fst snd]. rewrite Hrk. reflexivity.
      * destruct csx as [|u ?]; [congruence|]. destruct csb as [|v ?]; [congruence|].
        destruct Hch as (_ & Hl & _). symmetry. exact Hl.
Qed.

End Products.

(** ** The theorems on concrete inputs *)

Lemma example_24_TT_tensor : TT_tensor Examples.tt_2_4.
Proof.
  exists [Examples.core_2_4].
  split; [vm_compute; reflexivity|].
  split; [reflexivity|].
  repeat (constructor; try reflexivity).
Defined.

Lemma example_eye_init :
  TT_init (SrcCores [mkT [1; 2; 2; 1] [1; 0; 0; 1]%Z;
                     mkT [1; 3; 3; 1] [1; 0; 0; 0; 1; 0; 0; 0; 1]%Z])
  = Ok Examples.eye_2_3.
Proof. vm_compute. reflexivity. Defined.

Lemma example_ab_init :
  TT_init (SrcCores [Examples.core_a; Examples.core_b]) = Ok Examples.tt_ab.
Proof. vm_compute. reflexivity. Defined.

(** [A + B] on the two 2 x 3 examples. *)
Lemma add_dense_witness :
  exists c fa fb,
    add Examples.tt_ab (OTT Examples.tt_cd) = Ok c /\
    N c = N Examples.tt_ab /\
    R c = rank_sum (R Examples.tt_ab) (R Examples.tt_cd) /\
    full Examples.tt_ab = Ok fa /\ full Examples.tt_cd = Ok fb /\
    full c = Ok (pointwise eadd fa fb).
Proof.
  exact (add_dense (E := Z) Examples.tt_ab Examples.tt_cd
           example_ab_TT_tensor example_cd_TT_tensor eq_refl).
Defined.

(** [A - B] on the two 2 x 3 examples. *)
Lemma sub_dense_witness :
  exists c fa fb,
    sub Examples.tt_ab (OTT Examples.tt_cd) = Ok c /\
    N c = N Examples.tt_ab /\
    R c = rank_sum (R Examples.tt_ab) (R Examples.tt_cd) /\
    full Examples.tt_ab = Ok fa /\ full Examples.tt_cd = Ok fb /\
    full c = Ok (pointwise (fun u v => eadd u (eopp v)) fa fb).
Proof.
  exact (sub_dense (E := Z) Examples.tt_ab Examples.tt_cd
           example_ab_TT_tensor example_cd_TT_tensor eq_refl).
Defined.

(** [A + 5] and [A - 5]. *)
Lemma add_sub_scalar_dense_witness :
  exists c d fx,
    add Examples.tt_ab (OInt 5%Z) = Ok c /\ sub Examples.tt_ab (OInt 5%Z) = Ok d /\
    N c = N Examples.tt_ab /\ N d = N Examples.tt_ab /\
    R c = rank_sum (R Examples.tt_ab) (repeat 1 (length (R Examples.tt_ab))) /\
    R d = R c /\
    full Examples.tt_ab = Ok fx /\
    full c = Ok (tmap (fun v => eadd v 5%Z) fx) /\
    full d = Ok (tmap (fun v => eadd v (eopp 5%Z)) fx).
Proof.
  exact (add_sub_scalar_dense (E := Z) Examples.tt_ab 5%Z (OInt 5%Z)
           example_ab_TT_tensor (or_introl eq_refl)).
Defined.

(** [A * 3]. *)
Lemma mul_scalar_dense_witness :
  exists y fx,
    mul Examples.tt_ab (OInt 3%Z) = Ok y /\ mul Examples.tt_ab (OFloat 3%Z) = Ok y /\
    N y = N Examples.tt_ab /\ R y = R Examples.tt_ab /\
    full Examples.tt_ab = Ok fx /\ full y = Ok (tscale 3%Z fx).
Proof.
  exact (mul_scalar_dense (E := Z) Examples.tt_ab 3%Z example_ab_TT_tensor).
Defined.

(** [-A]. *)
Lemma neg_dense_witness :
  exists y fx,
    neg Examples.tt_ab = Ok y /\ N y = N Examples.tt_ab /\ R y = R Examples.tt_ab /\
    full Examples.tt_ab = Ok fx /\ full y = Ok (tneg fx).
Proof.
  exact (neg_dense (E := Z) Examples.tt_ab example_ab_TT_tensor).
Defined.

(** [-(-A)]. *)
Lemma neg_involutive_witness :
  exists y, neg Examples.tt_ab = Ok y /\ neg y = Ok Examples.tt_ab.
Proof.
  exact (neg_involutive (E := Z) [Examples.core_a; Examples.core_b] Examples.tt_ab
           example_ab_init).
Defined.

(** [+A], [kron(A, None)], [kron(None, A)], [A ** None]. *)
Lemma pos_kron_None_rebuild_witness :
  pos Examples.tt_ab = Ok Examples.tt_ab /\
  kron (OTT Examples.tt_ab) ONone = Ok Examples.tt_ab /\
  kron ONone (OTT Examples.tt_ab) = Ok Examples.tt_ab /\
  pow Examples.tt_ab ONone = Ok Examples.tt_ab /\
  rpow Examples.tt_ab ONone = Ok Examples.tt_ab.
Proof.
  exact (pos_kron_None_rebuild (E := Z) [Examples.core_a; Examples.core_b] Examples.tt_ab
           example_ab_init).
Defined.

(** [A.sum()]. *)
Lemma sum_all_dense_witness :
  exists fx, full Examples.tt_ab = Ok fx /\
             sum Examples.tt_ab SumNone = Ok (RTensor (tsum_all fx)).
Proof.
  exact (sum_all_dense (E := Z) Examples.tt_ab example_ab_TT_tensor).
Defined.

(** [A.sum([0])]. *)
Lemma sum_index_invariants_witness :
  exists y, sum Examples.tt_ab (SumList [0%Z]) = Ok (RTT y) /\ invariants y.
Proof.
  eexists. split; [vm_compute; reflexivity|].
  apply (sum_index_invariants (E := Z) Examples.tt_ab 0%Z [0%Z]).
  right. vm_compute. reflexivity.
Defined.

(** [x[-1]] on the one-mode example. *)
Lemma getitem_int_witness :
  exists fx, full Examples.tt_2_4 = Ok fx /\
    getitem Examples.tt_2_4 (KInt (-1)%Z) = Ok (RTensor (mkT [] [nth 1 (data fx) e0])).
Proof.
  exact (proj2 (getitem_int (E := Z) Examples.tt_2_4 (-1)%Z example_24_TT_tensor)
               2 eq_refl).
Defined.

(** The transpose of the identity operator on modes 2 x 3. *)
Lemma t_exchanges_modes_witness :
  exists y, t Examples.eye_2_3 = Ok y /\ is_ttm y = true /\
            M y = Some (N Examples.eye_2_3) /\ M Examples.eye_2_3 = Some (N y) /\
            R y = R Examples.eye_2_3.
Proof.
  exact (proj2 (t_exchanges_modes (E := Z) _ Examples.eye_2_3 example_eye_init) eq_refl).
Defined.

Lemma t_involutive_witness :
  exists y, t Examples.eye_2_3 = Ok y /\ t y = Ok Examples.eye_2_3.
Proof.
  apply (t_involutive (E := Z) _ Examples.eye_2_3 example_eye_init).
  - reflexivity.
  - repeat (constructor; try reflexivity).
Defined.

(** [A.to_ttm()]. *)
Lemma to_ttm_modes_witness :
  exists y, to_ttm Examples.tt_ab = Ok y /\ is_ttm y = true /\
            M y = Some (N Examples.tt_ab) /\
            N y = repeat 1 (length (N Examples.tt_ab)) /\
            R y = R Examples.tt_ab /\
            map (@data Z) (cores y) = map (@data Z) (cores Examples.tt_ab).
Proof.
  exact (to_ttm_modes (E := Z) Examples.tt_ab example_ab_TT_tensor).
Defined.

(** The 2 x 3 matrix applied along the last mode of [A]. *)
Lemma mprod_mode_product_witness :
  exists y fx,
    mprod Examples.tt_ab (FList [Examples.mat_2_3]) (ModeList [(-1)%Z]) = Ok y /\
    N y = replaced (N Examples.tt_ab) 1 2 /\
    R y = R Examples.tt_ab /\
    full Examples.tt_ab = Ok fx /\
    full y = Ok (mkT (dense_shape (N y))
                     (map (fun idx =>
                             esum (map (fun j =>
                                          emul (tget Examples.mat_2_3 [nth 1 idx 0; j])
                                               (nth (ravel (N Examples.tt_ab)
                                                           (replaced idx 1 j))
                                                    (data fx) e0))
                                       (seq 0 (nth 1 (N Examples.tt_ab) 0))))
                          (indices (N y)))).
Proof.
  exact (mprod_mode_product (E := Z) Examples.tt_ab Examples.mat_2_3 (-1)%Z 1 2
           example_ab_TT_tensor eq_refl eq_refl).
Defined.

(** [A.qtt_to_tens(A.N)]. *)
Lemma qtt_to_tens_own_shape_witness :
  qtt_to_tens Examples.tt_ab (IntList (N Examples.tt_ab)) = Ok Examples.tt_ab.
Proof.
  apply (qtt_to_tens_own_shape (E := Z) Examples.tt_ab example_ab_TT_tensor).
  vm_compute. repeat (constructor; try discriminate).
Defined.

Lemma qtt_to_tens_matrix_witness :
  qtt_to_tens Examples.eye_2_3 (IntList [2; 3]) = Raise IndexError.
Proof.
  exact (qtt_to_tens_matrix (E := Z) Examples.eye_2_3 [2; 3] eq_refl).
Defined.

(** [A.cpu()], the cores left where they are. *)
Lemma relocate_drops_shape_witness :
  exists y sh,
    cpu (fun c => c) Examples.tt_ab = Ok y /\
    cuda (fun c => c) Examples.tt_ab = Ok y /\
    to (fun c => c) Examples.tt_ab = Ok y /\
    cores y = map (fun c => c) (cores Examples.tt_ab) /\
    N y = N Examples.tt_ab /\ R y = R Examples.tt_ab /\
    is_ttm y = is_ttm Examples.tt_ab /\
    getattr Examples.tt_ab "shape" = Ok (AShape sh) /\
    getattr y "shape" = Raise AttributeError.
Proof.
  exact (relocate_drops_shape (E := Z) (fun c => c) [Examples.core_a; Examples.core_b]
           Examples.tt_ab example_ab_init).
Defined.

(** [ones([2, 3])] and [zeros([2, 3])]. *)
Lemma ones_zeros_dense_witness :
  exists y z : TT Z,
    ones (ShList (map SInt [2; 3])) = Ok y /\
    zeros (ShList (map SInt [2; 3])) = Ok z /\
    is_ttm y = false /\ is_ttm z = false /\
    N y = [2; 3] /\ N z = [2; 3] /\
    R y = repeat 1 (S (length [2; 3])) /\ R z = repeat 1 (S (length [2; 3])) /\
    full y = Ok (tones (dense_shape [2; 3])) /\
    full z = Ok (tzeros (dense_shape [2; 3])).
Proof.
  apply (ones_zeros_dense (E := Z) [2; 3]). discriminate.
Defined.

(** [ones([(2, 2), (3, 3)])] and [zeros([(2, 2), (3, 3)])]. *)
Lemma ones_zeros_matrix_witness :
  exists y z : TT Z,
    ones (ShList (map (fun p => STuple (fst p) (snd p)) [(2, 2); (3, 3)])) = Ok y /\
    zeros (ShList (map (fun p => STuple (fst p) (snd p)) [(2, 2); (3, 3)])) = Ok z /\
    is_ttm y = true /\ is_ttm z = true /\
    M y = Some (map fst [(2, 2); (3, 3)]) /\ M z = Some (map fst [(2, 2); (3, 3)]) /\
    N y = map snd [(2, 2); (3, 3)] /\ N z = map snd [(2, 2); (3, 3)] /\
    R y = repeat 1 (S (length [(2, 2); (3, 3)])) /\
    R z = repeat 1 (S (length [(2, 2); (3, 3)])).
Proof.
  apply (ones_zeros_matrix (E := Z) [(2, 2); (3, 3)]). discriminate.
Defined.

(** [rank1TT] and [meshgrid] of a vector of length 2 and one of length 3. *)
Lemma rank1TT_dense_witness :
  exists y,
    rank1TT [Examples.vec_2; Examples.vec_3] = Ok y /\ is_ttm y = false /\
    N y = map numel [Examples.vec_2; Examples.vec_3] /\
    R y = repeat 1 (S (length [Examples.vec_2; Examples.vec_3])) /\
    full y = Ok (mkT (dense_shape (map numel [Examples.vec_2; Examples.vec_3]))
                     (map (rank1_entry (map (@data Z) [Examples.vec_2; Examples.vec_3]))
                          (indices (map numel [Examples.vec_2; Examples.vec_3])))).
Proof.
  apply (rank1TT_dense (E := Z) [Examples.vec_2; Examples.vec_3]).
  - discriminate.
  - repeat (constructor; try reflexivity).
Defined.

Lemma meshgrid_dense_witness :
  exists Xs,
    meshgrid [Examples.vec_2; Examples.vec_3] = Ok Xs /\
    length Xs = length [Examples.vec_2; Examples.vec_3] /\
    forall i X v, nth_error Xs i = Some X ->
      nth_error [Examples.vec_2; Examples.vec_3] i = Some v ->
      is_ttm X = false /\
      N X = map numel [Examples.vec_2; Examples.vec_3] /\
      R X = repeat 1 (S (length [Examples.vec_2; Examples.vec_3])) /\
      full X = Ok (mkT (dense_shape (map numel [Examples.vec_2; Examples.vec_3]))
                       (map (fun idx => nth (nth i idx 0) (data v) e0)
                            (indices (map numel [Examples.vec_2; Examples.vec_3])))).
Proof.
  apply (meshgrid_dense (E := Z) [Examples.vec_2; Examples.vec_3]).
  - discriminate.
  - repeat (constructor; try (split; reflexivity)).
Defined.

(** [numel(A)]. *)
Lemma tt_numel_storage_witness :
  tt_numel Examples.tt_ab = Ok (storage (R Examples.tt_ab) (N Examples.tt_ab)).
Proof.
  exact (proj1 (tt_numel_storage (E := Z) [Examples.core_a; Examples.core_b]
                  Examples.tt_ab example_ab_init) eq_refl).
Defined.

(** [kron] of the identity operator with itself. *)
Lemma kron_matrices_witness :
  exists k, kron (OTT Examples.eye_2_3) (OTT Examples.eye_2_3) = Ok k /\
            is_ttm k = true /\
            M k = Some ([2; 3] ++ [2; 3]) /\
            N k = N Examples.eye_2_3 ++ N Examples.eye_2_3 /\
            R k = R Examples.eye_2_3 ++ tl (R Examples.eye_2_3).
Proof.
  exact (proj2 (kron_matrices (E := Z) Examples.eye_2_3 Examples.eye_2_3)
               _ _ [2; 3] [2; 3] example_eye_init example_eye_init
               eq_refl eq_refl eq_refl eq_refl).
Defined.

(** [5 - A]. *)
Lemma rsub_scalar_dense_witness :
  exists y fx,
    rsub Examples.tt_ab (OInt 5%Z) = Ok y /\
    N y = N Examples.tt_ab /\
    R y = rank_sum (R Examples.tt_ab) (repeat 1 (length (R Examples.tt_ab))) /\
    full Examples.tt_ab = Ok fx /\
    full y = Ok (tmap (fun v => eadd 5%Z (eopp v)) fx).
Proof.
  exact (rsub_scalar_dense (E := Z) Examples.tt_ab 5%Z (OInt 5%Z)
           example_ab_TT_tensor (or_introl eq_refl)).
Defined.

(** The identity operator on modes 2 x 3 applied to [A], to itself, and
    [A] applied to it. *)
Lemma matmul_vector_structure_witness :
  exists y ma,
    matmul Examples.no_dense_matvec Examples.eye_2_3 (OTT Examples.tt_ab) = Ok (RTT y) /\
    M Examples.eye_2_3 = Some ma /\ is_ttm y = false /\ N y = ma /\
    R y = rank_product (R Examples.eye_2_3) (R Examples.tt_ab).
Proof.
  exact (proj2 (matmul_vector_structure (E := Z) Examples.no_dense_matvec
                  Examples.eye_2_3 Examples.tt_ab _
                  example_eye_init eq_refl example_ab_TT_tensor) eq_refl).
Defined.

Lemma matmul_matrix_structure_witness :
  exists y,
    matmul Examples.no_dense_matvec Examples.eye_2_3 (OTT Examples.eye_2_3) = Ok (RTT y) /\
    is_ttm y = true /\ M y = Some [2; 3] /\ N y = N Examples.eye_2_3 /\
    R y = rank_product (R Examples.eye_2_3) (R Examples.eye_2_3).
Proof.
  exact (proj2 (matmul_matrix_structure (E := Z) Examples.no_dense_matvec
                  Examples.eye_2_3 Examples.eye_2_3 _ _ [2; 3] [2; 3]
                  example_eye_init example_eye_init eq_refl eq_refl eq_refl eq_refl)
               eq_refl).
Defined.

Lemma matmul_row_structure_witness :
  exists y,
    matmul Examples.no_dense_matvec Examples.tt_ab (OTT Examples.eye_2_3) = Ok (RTT y) /\
    is_ttm y = false /\ N y = N Examples.eye_2_3 /\
    R y = rank_product (R Examples.tt_ab) (R Examples.eye_2_3).
Proof.
  exact (proj2 (matmul_row_structure (E := Z) Examples.no_dense_matvec
                  Examples.tt_ab Examples.eye_2_3 _ [2; 3]
                  example_ab_TT_tensor example_eye_init eq_refl eq_refl)
               eq_refl).
Defined.
